(** * Tic-tac-toe engine: board, match state machine, registries

    A shallow embedding of the Go packages [game] (board.go, game.go),
    [store] (game_store.go, stats_store.go) and [server] (server.go,
    converters.go), with the properties of the design document, and further
    properties of the code, proved about it.

    Conventions of the embedding.
    - Go's [int] is a 64-bit two's-complement integer: a [Z] on which every
      arithmetic operation of the source is followed by [wrap64].  [int32]
      and [uint32] are treated alike with [wrap32] and [uwrap32].
    - A function that may stop abnormally (index out of range, slice bounds
      out of range, makeslice: len out of range, integer divide by zero)
      returns in [run]; [Panic] stands for every such abnormal stop.
    - A method with a pointer receiver that mutates it takes the receiver and
      returns the receiver after the call, next to the Go result.
    - A Go [error] result is an [option error]; [None] is [nil].
    - Mutexes are not modelled: every method is a critical section of the
      lock it takes, so its sequential meaning is what is embedded.
    - A pointer into a registry is the place it points to: the shard and the
      key.  What a method does to the object behind the pointer is written
      back to that place.
    - A channel is the address of a buffer; the buffers are carried next to
      the server.  An error response of a handler is its gRPC status code.
      The handlers of the server are embedded as they run one at a time. *)

From stdpp Require Import base option list gmap strings fin_maps.
From Stdlib Require Import ZArith Lia.

Local Open Scope Z_scope.

(** ** Machine integers *)

Module GoInt.

Definition wrap (bits : Z) (z : Z) : Z :=
  (z + 2 ^ (bits - 1)) mod 2 ^ bits - 2 ^ (bits - 1).

Definition wrap64 : Z -> Z := wrap 64.
Definition wrap32 : Z -> Z := wrap 32.
Definition uwrap32 (z : Z) : Z := z mod 2 ^ 32.

Definition int_min : Z := - 2 ^ 63.
Definition int_max : Z := 2 ^ 63 - 1.
Definition int32_min : Z := - 2 ^ 31.
Definition int32_max : Z := 2 ^ 31 - 1.

Definition is_int (z : Z) : Prop := int_min <= z <= int_max.
Definition is_int32 (z : Z) : Prop := int32_min <= z <= int32_max.

Definition add64 (a b : Z) : Z := wrap64 (a + b).
Definition mul64 (a b : Z) : Z := wrap64 (a * b).
Definition neg64 (a : Z) : Z := wrap64 (- a).
Definition add32 (a b : Z) : Z := wrap32 (a + b).

End GoInt.
Import GoInt.

(** ** Results of Go calls *)

Inductive run (A : Type) : Type :=
| Done (a : A)
| Panic
| OutOfFuel.
Arguments Done {A} a.
Arguments Panic {A}.
Arguments OutOfFuel {A}.

#[export] Instance run_ret : MRet run := fun A a => Done a.
#[export] Instance run_bind : MBind run := fun A B k m =>
  match m with
  | Done a => k a
  | Panic => Panic
  | OutOfFuel => OutOfFuel
  end.

(** Unfolds the sequencing of [run]. *)
Ltac run_simpl := unfold mbind, run_bind, mret, run_ret; simpl.

(** [s[i]] for an [int] index: a run-time panic outside [0, len(s)). *)
Definition index {A : Type} (s : list A) (i : Z) : run A :=
  if i <? 0 then Panic
  else match s !! Z.to_nat i with
       | Some x => Done x
       | None => Panic
       end.

Definition len {A : Type} (s : list A) : Z := Z.of_nat (length s).

(** [s[lo:]] and [s[:hi]] on a slice whose capacity is its length. *)
Definition slice_from {A : Type} (s : list A) (lo : Z) : run (list A) :=
  if (lo <? 0) || (len s <? lo) then Panic else Done (drop (Z.to_nat lo) s).

Definition slice_to {A : Type} (s : list A) (hi : Z) : run (list A) :=
  if (hi <? 0) || (len s <? hi) then Panic else Done (take (Z.to_nat hi) s).

(** [make([]T, n)]: the run time refuses a negative length and a length
    above what it can allocate; that platform bound is [maxLen]. *)
Definition make_slice {A : Type} (maxLen : Z) (zero : A) (n : Z) : run (list A) :=
  if (n <? 0) || (maxLen <? n) then Panic
  else Done (replicate (Z.to_nat n) zero).

(** ** package game: board.go *)

Inductive Mark : Type := MarkEmpty | MarkX | MarkO.

Definition Mark_eqb (a b : Mark) : bool :=
  match a, b with
  | MarkEmpty, MarkEmpty | MarkX, MarkX | MarkO, MarkO => true
  | _, _ => false
  end.

Definition Mark_Opponent (m : Mark) : Mark :=
  match m with
  | MarkX => MarkO
  | MarkO => MarkX
  | MarkEmpty => MarkEmpty
  end.

Inductive Status : Type :=
| StatusPending
| StatusInProgress
| StatusXWon
| StatusOWon
| StatusDraw.

Definition Status_eqb (a b : Status) : bool :=
  match a, b with
  | StatusPending, StatusPending
  | StatusInProgress, StatusInProgress
  | StatusXWon, StatusXWon
  | StatusOWon, StatusOWon
  | StatusDraw, StatusDraw => true
  | _, _ => false
  end.

Definition Status_IsFinished (s : Status) : bool :=
  Status_eqb s StatusXWon || Status_eqb s StatusOWon || Status_eqb s StatusDraw.

Inductive error : Type :=
| ErrInvalidBoardSize
| ErrInvalidWinLength
| ErrInvalidPosition
| ErrCellOccupied
| ErrGameNotInProgress
| ErrNotYourTurn
| ErrPlayerNotInGame
| ErrGameAlreadyStarted
| ErrCannotJoinOwnGame.

#[export] Instance Mark_eq_dec : EqDecision Mark.
Proof. solve_decision. Defined.

#[export] Instance Status_eq_dec : EqDecision Status.
Proof. solve_decision. Defined.

#[export] Instance error_eq_dec : EqDecision error.
Proof. solve_decision. Defined.

Record Board : Type := mkBoard {
  Size : Z;
  WinLength : Z;
  Cells : list Mark
}.

(** The loop [for i := range cells { cells[i] = MarkEmpty }]. *)
Definition clear_cells (cells : list Mark) : list Mark :=
  foldl (fun cs i => <[i := MarkEmpty]> cs) cells (seq 0 (length cells)).

Definition NewBoard (maxLen : Z) (size winLength : Z) : run (option Board * option error) :=
  if size <? 3 then Done (None, Some ErrInvalidBoardSize)
  else if (winLength <? 3) || (size <? winLength) then Done (None, Some ErrInvalidWinLength)
  else
    cells ← make_slice maxLen MarkEmpty (mul64 size size);
    let cells := clear_cells cells in
    Done (Some {| Size := size; WinLength := winLength; Cells := cells |}, None).

Definition Board_isValidPosition (b : Board) (row col : Z) : bool :=
  (0 <=? row) && (row <? Size b) && (0 <=? col) && (col <? Size b).

Definition Board_Get (b : Board) (row col : Z) : run (Mark * option error) :=
  if negb (Board_isValidPosition b row col) then Done (MarkEmpty, Some ErrInvalidPosition)
  else
    m ← index (Cells b) (add64 (mul64 row (Size b)) col);
    Done (m, None).

Definition Board_Set (b : Board) (row col : Z) (mark : Mark) : run (Board * option error) :=
  if negb (Board_isValidPosition b row col) then Done (b, Some ErrInvalidPosition)
  else
    let idx := add64 (mul64 row (Size b)) col in
    m ← index (Cells b) idx;
    if negb (Mark_eqb m MarkEmpty) then Done (b, Some ErrCellOccupied)
    else
      Done ({| Size := Size b; WinLength := WinLength b;
               Cells := <[Z.to_nat idx := mark]> (Cells b) |}, None).

Fixpoint IsFull_loop (cells : list Mark) : bool :=
  match cells with
  | [] => true
  | cell :: rest => if Mark_eqb cell MarkEmpty then false else IsFull_loop rest
  end.

Definition Board_IsFull (b : Board) : bool := IsFull_loop (Cells b).

(** The [for b.isValidPosition(r, c)] loop of countInDirection; one unit of
    fuel per evaluation of the loop condition. *)
Fixpoint countInDirection_loop (fuel : nat) (b : Board) (r c dRow dCol : Z)
    (mark : Mark) (count : Z) : run Z :=
  match fuel with
  | O => OutOfFuel
  | S fuel' =>
      if Board_isValidPosition b r c then
        '(m, _) ← Board_Get b r c;
        if Mark_eqb m mark then
          countInDirection_loop fuel' b (add64 r dRow) (add64 c dCol) dRow dCol mark
            (add64 count 1)
        else Done count
      else Done count
  end.

Definition Board_countInDirection (fuel : nat) (b : Board) (row col dRow dCol : Z)
    (mark : Mark) : run Z :=
  countInDirection_loop fuel b (add64 row dRow) (add64 col dCol) dRow dCol mark 0.

Definition directions : list (Z * Z) :=
  [ (0, 1);    (* horizontal *)
    (1, 0);    (* vertical *)
    (1, 1);    (* diagonal *)
    (1, -1) ]. (* anti-diagonal *)

Fixpoint CheckWinner_loop (fuel : nat) (b : Board) (row col : Z) (mark : Mark)
    (dirs : list (Z * Z)) : run Mark :=
  match dirs with
  | [] => Done MarkEmpty
  | dir :: rest =>
      let count := 1 in
      p ← Board_countInDirection fuel b row col dir.1 dir.2 mark;
      let count := add64 count p in
      n ← Board_countInDirection fuel b row col (neg64 dir.1) (neg64 dir.2) mark;
      let count := add64 count n in
      if WinLength b <=? count then Done mark
      else CheckWinner_loop fuel b row col mark rest
  end.

Definition Board_CheckWinner_fuel (fuel : nat) (b : Board) (row col : Z) : run Mark :=
  '(mark, err) ← Board_Get b row col;
  if bool_decide (err ≠ None) || Mark_eqb mark MarkEmpty then Done MarkEmpty
  else CheckWinner_loop fuel b row col mark directions.

(** A walk that leaves the grid after at most [Size] steps never needs more
    than [Size + 1] evaluations of the loop condition. *)
Definition CheckWinner_fuel (b : Board) : nat := S (Z.to_nat (Size b)).

Definition Board_CheckWinner (b : Board) (row col : Z) : run Mark :=
  Board_CheckWinner_fuel (CheckWinner_fuel b) b row col.

(** [copy(dst, src)] copies [min(len(dst), len(src))] elements. *)
Definition copy_slice {A : Type} (dst src : list A) : list A :=
  take (length dst) src ++ drop (length src) dst.

(** [len(b.Cells)] is the length of a slice that exists, so [make] does not
    refuse it. *)
Definition Board_Clone (b : Board) : Board :=
  let cells := replicate (length (Cells b)) MarkEmpty in
  let cells := copy_slice cells (Cells b) in
  {| Size := Size b; WinLength := WinLength b; Cells := cells |}.

(** ** package game: game.go *)

(** [time.Time] values; [time.Now()] is an input of the calls that read it. *)
Definition Time : Type := Z.

Record Game : Type := mkGame {
  Game_ID : string;
  Game_PlayerX : string;   (* First player (creator) *)
  Game_PlayerO : string;   (* Second player (joiner) *)
  Game_Board : Board;
  Game_Turn : Mark;
  Game_Status : Status;
  Game_CreatedAt : Time;
  Game_UpdatedAt : Time
}.

Definition NewGame (maxLen : Z) (now : Time) (id creatorID : string)
    (boardSize winLength : Z) : run (option Game * option error) :=
  '(board, err) ← NewBoard maxLen boardSize winLength;
  match err, board with
  | Some e, _ => Done (None, Some e)
  | None, None => Panic (* a nil *Board is never returned with a nil error *)
  | None, Some board =>
      Done (Some {| Game_ID := id;
                    Game_PlayerX := creatorID;
                    Game_PlayerO := EmptyString;
                    Game_Board := board;
                    Game_Turn := MarkX; (* X always goes first *)
                    Game_Status := StatusPending;
                    Game_CreatedAt := now;
                    Game_UpdatedAt := now |}, None)
  end.

Definition Game_Join (now : Time) (g : Game) (playerID : string) : Game * option error :=
  if negb (Status_eqb (Game_Status g) StatusPending) then (g, Some ErrGameAlreadyStarted)
  else if String.eqb (Game_PlayerX g) playerID then (g, Some ErrCannotJoinOwnGame)
  else
    ({| Game_ID := Game_ID g;
        Game_PlayerX := Game_PlayerX g;
        Game_PlayerO := playerID;
        Game_Board := Game_Board g;
        Game_Turn := Game_Turn g;
        Game_Status := StatusInProgress;
        Game_CreatedAt := Game_CreatedAt g;
        Game_UpdatedAt := now |}, None).

Definition Game_getPlayerMark (g : Game) (playerID : string) : Mark :=
  if String.eqb playerID (Game_PlayerX g) then MarkX
  else if String.eqb playerID (Game_PlayerO g) then MarkO
  else MarkEmpty.

Definition set_Board (b : Board) (g : Game) : Game :=
  {| Game_ID := Game_ID g; Game_PlayerX := Game_PlayerX g; Game_PlayerO := Game_PlayerO g;
     Game_Board := b; Game_Turn := Game_Turn g; Game_Status := Game_Status g;
     Game_CreatedAt := Game_CreatedAt g; Game_UpdatedAt := Game_UpdatedAt g |}.

Definition set_Turn (m : Mark) (g : Game) : Game :=
  {| Game_ID := Game_ID g; Game_PlayerX := Game_PlayerX g; Game_PlayerO := Game_PlayerO g;
     Game_Board := Game_Board g; Game_Turn := m; Game_Status := Game_Status g;
     Game_CreatedAt := Game_CreatedAt g; Game_UpdatedAt := Game_UpdatedAt g |}.

Definition set_Status (s : Status) (g : Game) : Game :=
  {| Game_ID := Game_ID g; Game_PlayerX := Game_PlayerX g; Game_PlayerO := Game_PlayerO g;
     Game_Board := Game_Board g; Game_Turn := Game_Turn g; Game_Status := s;
     Game_CreatedAt := Game_CreatedAt g; Game_UpdatedAt := Game_UpdatedAt g |}.

Definition set_UpdatedAt (t : Time) (g : Game) : Game :=
  {| Game_ID := Game_ID g; Game_PlayerX := Game_PlayerX g; Game_PlayerO := Game_PlayerO g;
     Game_Board := Game_Board g; Game_Turn := Game_Turn g; Game_Status := Game_Status g;
     Game_CreatedAt := Game_CreatedAt g; Game_UpdatedAt := t |}.

Definition Game_MakeMove (now : Time) (g : Game) (playerID : string) (row col : Z)
    : run (Game * option error) :=
  (* Validate game state *)
  if negb (Status_eqb (Game_Status g) StatusInProgress) then Done (g, Some ErrGameNotInProgress)
  else
    (* Validate player *)
    let playerMark := Game_getPlayerMark g playerID in
    if Mark_eqb playerMark MarkEmpty then Done (g, Some ErrPlayerNotInGame)
    else
      (* Validate turn *)
      if negb (Mark_eqb (Game_Turn g) playerMark) then Done (g, Some ErrNotYourTurn)
      else
        (* Make the move *)
        '(board, err) ← Board_Set (Game_Board g) row col playerMark;
        let g := set_Board board g in
        match err with
        | Some e => Done (g, Some e)
        | None =>
            let g := set_UpdatedAt now g in
            (* Check for winner *)
            winner ← Board_CheckWinner (Game_Board g) row col;
            if negb (Mark_eqb winner MarkEmpty) then
              if Mark_eqb winner MarkX then Done (set_Status StatusXWon g, None)
              else Done (set_Status StatusOWon g, None)
            else
              (* Check for draw *)
              if Board_IsFull (Game_Board g) then Done (set_Status StatusDraw g, None)
              else
                (* Switch turn *)
                Done (set_Turn (Mark_Opponent (Game_Turn g)) g, None)
        end.

Definition Game_GetStatus (g : Game) : Status := Game_Status g.

Record GameSnapshot : Type := mkGameSnapshot {
  Snapshot_ID : string;
  Snapshot_PlayerX : string;
  Snapshot_PlayerO : string;
  Snapshot_Board : Board;
  Snapshot_Turn : Mark;
  Snapshot_Status : Status;
  Snapshot_CreatedAt : Time;
  Snapshot_UpdatedAt : Time
}.

Definition Game_GetSnapshot (g : Game) : GameSnapshot :=
  {| Snapshot_ID := Game_ID g;
     Snapshot_PlayerX := Game_PlayerX g;
     Snapshot_PlayerO := Game_PlayerO g;
     Snapshot_Board := Board_Clone (Game_Board g);
     Snapshot_Turn := Game_Turn g;
     Snapshot_Status := Game_Status g;
     Snapshot_CreatedAt := Game_CreatedAt g;
     Snapshot_UpdatedAt := Game_UpdatedAt g |}.

(** ** package store: game_store.go *)

Record gameShard : Type := mkGameShard {
  games : gmap string Game
}.

Record GameStore : Type := mkGameStore {
  GameStore_shards : list gameShard;
  GameStore_numShards : Z
}.

(** The order in which [for _, g := range shard.games] yields the entries of
    a map is not specified by the language: a visit of a store is, for every
    shard, some enumeration of that shard's map. *)
Definition range_of (sh : gameShard) (kvs : list (string * Game)) : Prop :=
  kvs ≡ₚ map_to_list (games sh).

Definition visit_of (s : GameStore) (visits : list (list (string * Game))) : Prop :=
  Forall2 range_of (GameStore_shards s) visits.

(** The two nested [range] loops of ListPending, [append] included. *)
Definition collect_pending (visits : list (list (string * Game))) : list GameSnapshot :=
  foldl (fun pending kvs =>
           foldl (fun pending kv =>
                    if Status_eqb (Game_GetStatus kv.2) StatusPending then
                      let snapshot := Game_GetSnapshot kv.2 in
                      pending ++ [snapshot]
                    else pending)
                 pending kvs)
        [] visits.

Definition ListPending_visit (visits : list (list (string * Game))) (limit offset : Z)
    : run (list GameSnapshot * Z) :=
  (* Collect pending games from all shards *)
  let pending := collect_pending visits in
  let totalCount := len pending in
  (* Apply pagination *)
  if len pending <=? offset then Done ([], totalCount)
  else
    pending ← slice_from pending offset;
    if (0 <? limit) && (limit <? len pending) then
      pending ← slice_to pending limit;
      Done (pending, totalCount)
    else Done (pending, totalCount).

Definition GameStore_ListPending (s : GameStore) (limit offset : Z)
    (res : run (list GameSnapshot * Z)) : Prop :=
  exists visits, visit_of s visits /\ ListPending_visit visits limit offset = res.

(** ** package store: stats_store.go *)

Record UserStats : Type := mkUserStats {
  UserID : string;
  Wins : Z;     (* int32 *)
  Losses : Z;   (* int32 *)
  Draws : Z     (* int32 *)
}.

Definition UserStats_TotalGames (s : UserStats) : Z :=
  add32 (add32 (Wins s) (Losses s)) (Draws s).

Record statsShard : Type := mkStatsShard {
  stats : gmap string UserStats
}.

Record StatsStore : Type := mkStatsStore {
  StatsStore_shards : list statsShard;
  StatsStore_numShards : Z
}.

(** [make([]*statsShard, numShards)] and the loop that stores a fresh shard
    with an empty map at every position. *)
Definition NewStatsStore (maxLen numShards : Z) : run StatsStore :=
  let numShards := if numShards <? 1 then 64 else numShards in
  shards ← make_slice maxLen {| stats := ∅ |} numShards;
  let shards :=
    foldl (fun ss i => <[i := {| stats := ∅ |}]> ss) shards (seq 0 (length shards)) in
  Done {| StatsStore_shards := shards; StatsStore_numShards := numShards |}.

(** A [*UserStats] held by a store: the shard it lives in and its key. *)
Definition StatsRef : Type := nat * string.

Definition deref (s : StatsStore) (p : StatsRef) : option UserStats :=
  sh ← StatsStore_shards s !! p.1; stats sh !! p.2.

Definition update_ref (f : UserStats -> UserStats) (s : StatsStore) (p : StatsRef) : StatsStore :=
  {| StatsStore_shards :=
       alter (fun sh => {| stats := alter f p.2 (stats sh) |}) p.1 (StatsStore_shards s);
     StatsStore_numShards := StatsStore_numShards s |}.

Section StatsStore.

(** [for _, c := range userID] decodes the string as UTF-8; the code points
    it yields are [runes userID]. *)
Variable runes : string -> list Z.

Definition StatsStore_hash (userID : string) : Z :=
  foldl (fun hash c => uwrap32 (uwrap32 (hash * 31) + uwrap32 c)) 0 (runes userID).

(** The shard is returned as its position in [s.shards]. *)
Definition StatsStore_getShard (s : StatsStore) (userID : string) : run nat :=
  let hash := StatsStore_hash userID in
  let n := uwrap32 (StatsStore_numShards s) in
  if n =? 0 then Panic (* integer divide by zero *)
  else
    let i := hash mod n in
    _ ← index (StatsStore_shards s) i;
    Done (Z.to_nat i).

Definition StatsStore_getOrCreate (s : StatsStore) (userID : string)
    : run (StatsStore * StatsRef) :=
  i ← StatsStore_getShard s userID;
  shard ← index (StatsStore_shards s) (Z.of_nat i);
  (* Try read lock first *)
  match stats shard !! userID with
  | Some _ => Done (s, (i, userID))
  | None =>
      (* Need to create - use write lock; double-check after acquiring it *)
      match stats shard !! userID with
      | Some _ => Done (s, (i, userID))
      | None =>
          let st := {| UserID := userID; Wins := 0; Losses := 0; Draws := 0 |} in
          Done ({| StatsStore_shards :=
                     <[i := {| stats := <[userID := st]> (stats shard) |}]>
                       (StatsStore_shards s);
                   StatsStore_numShards := StatsStore_numShards s |},
                (i, userID))
      end
  end.

Definition StatsStore_Get (s : StatsStore) (userID : string)
    : run (StatsStore * UserStats) :=
  '(s, p) ← StatsStore_getOrCreate s userID;
  match deref s p with
  | None => Panic
  | Some st =>
      Done (s, {| UserID := userID; Wins := Wins st; Losses := Losses st;
                  Draws := Draws st |})
  end.

(** [atomic.AddInt32(&stats.X, 1)] on each of the three fields. *)
Definition AddInt32_Wins (delta : Z) (st : UserStats) : UserStats :=
  {| UserID := UserID st; Wins := add32 (Wins st) delta; Losses := Losses st;
     Draws := Draws st |}.
Definition AddInt32_Losses (delta : Z) (st : UserStats) : UserStats :=
  {| UserID := UserID st; Wins := Wins st; Losses := add32 (Losses st) delta;
     Draws := Draws st |}.
Definition AddInt32_Draws (delta : Z) (st : UserStats) : UserStats :=
  {| UserID := UserID st; Wins := Wins st; Losses := Losses st;
     Draws := add32 (Draws st) delta |}.

Definition StatsStore_RecordWin (s : StatsStore) (userID : string) : run StatsStore :=
  '(s, p) ← StatsStore_getOrCreate s userID;
  Done (update_ref (AddInt32_Wins 1) s p).

Definition StatsStore_RecordLoss (s : StatsStore) (userID : string) : run StatsStore :=
  '(s, p) ← StatsStore_getOrCreate s userID;
  Done (update_ref (AddInt32_Losses 1) s p).

Definition StatsStore_RecordDraw (s : StatsStore) (userID : string) : run StatsStore :=
  '(s, p) ← StatsStore_getOrCreate s userID;
  Done (update_ref (AddInt32_Draws 1) s p).

Definition StatsStore_RecordGameResult (s : StatsStore) (winnerID loserID : string)
    (isDraw : bool) : run StatsStore :=
  if isDraw then
    s ← (if negb (String.eqb winnerID EmptyString)
         then StatsStore_RecordDraw s winnerID else Done s);
    if negb (String.eqb loserID EmptyString)
    then StatsStore_RecordDraw s loserID else Done s
  else
    s ← (if negb (String.eqb winnerID EmptyString)
         then StatsStore_RecordWin s winnerID else Done s);
    if negb (String.eqb loserID EmptyString)
    then StatsStore_RecordLoss s loserID else Done s.

End StatsStore.

(** ** package game: snapshot queries *)

Definition Game_GetPlayerMark (g : Game) (playerID : string) : Mark :=
  Game_getPlayerMark g playerID.

Definition GameSnapshot_GetWinner (s : GameSnapshot) : string :=
  match Snapshot_Status s with
  | StatusXWon => Snapshot_PlayerX s
  | StatusOWon => Snapshot_PlayerO s
  | _ => EmptyString
  end.

Definition GameSnapshot_GetLoser (s : GameSnapshot) : string :=
  match Snapshot_Status s with
  | StatusXWon => Snapshot_PlayerO s
  | StatusOWon => Snapshot_PlayerX s
  | _ => EmptyString
  end.

Definition GameSnapshot_IsDraw (s : GameSnapshot) : bool :=
  Status_eqb (Snapshot_Status s) StatusDraw.

(** ** package store: the rest of game_store.go *)

Inductive store_error : Type :=
| ErrGameNotFound
| ErrGameAlreadyExists.

(** [make([]*gameShard, numShards)] and the loop that stores a fresh shard
    with an empty map at every position. *)
Definition NewGameStore (maxLen numShards : Z) : run GameStore :=
  let numShards := if numShards <? 1 then 64 else numShards in
  shards ← make_slice maxLen {| games := ∅ |} numShards;
  let shards :=
    foldl (fun ss i => <[i := {| games := ∅ |}]> ss) shards (seq 0 (length shards)) in
  Done {| GameStore_shards := shards; GameStore_numShards := numShards |}.

Section GameStore.

Variable runes : string -> list Z.

(** Simple hash function for sharding *)
Definition GameStore_hash (gameID : string) : Z :=
  foldl (fun hash c => uwrap32 (uwrap32 (hash * 31) + uwrap32 c)) 0 (runes gameID).

(** The shard is returned as its position in [s.shards]. *)
Definition GameStore_getShard (s : GameStore) (gameID : string) : run nat :=
  let hash := GameStore_hash gameID in
  let n := uwrap32 (GameStore_numShards s) in
  if n =? 0 then Panic (* integer divide by zero *)
  else
    let i := hash mod n in
    _ ← index (GameStore_shards s) i;
    Done (Z.to_nat i).

Definition GameStore_Create (s : GameStore) (g : Game)
    : run (GameStore * option store_error) :=
  i ← GameStore_getShard s (Game_ID g);
  shard ← index (GameStore_shards s) (Z.of_nat i);
  match games shard !! Game_ID g with
  | Some _ => Done (s, Some ErrGameAlreadyExists)
  | None =>
      Done ({| GameStore_shards :=
                 <[i := {| games := <[Game_ID g := g]> (games shard) |}]>
                   (GameStore_shards s);
               GameStore_numShards := GameStore_numShards s |}, None)
  end.

Definition GameStore_Get (s : GameStore) (gameID : string)
    : run (option Game * option store_error) :=
  i ← GameStore_getShard s gameID;
  shard ← index (GameStore_shards s) (Z.of_nat i);
  match games shard !! gameID with
  | None => Done (None, Some ErrGameNotFound)
  | Some g => Done (Some g, None)
  end.

Definition GameStore_Delete (s : GameStore) (gameID : string)
    : run (GameStore * option store_error) :=
  i ← GameStore_getShard s gameID;
  shard ← index (GameStore_shards s) (Z.of_nat i);
  match games shard !! gameID with
  | None => Done (s, Some ErrGameNotFound)
  | Some _ =>
      Done ({| GameStore_shards :=
                 <[i := {| games := delete gameID (games shard) |}]> (GameStore_shards s);
               GameStore_numShards := GameStore_numShards s |}, None)
  end.

End GameStore.

(** [count += len(shard.games)] over the shards. *)
Definition GameStore_Count (s : GameStore) : Z :=
  foldl (fun count shard => add64 count (Z.of_nat (size (games shard)))) 0
    (GameStore_shards s).

(** The position, in [s.shards], of the shard getShard returns for an id. *)
Definition gshard_index (runes : string -> list Z) (s : GameStore) (gameID : string) : nat :=
  Z.to_nat (GameStore_hash runes gameID mod uwrap32 (GameStore_numShards s)).

(** ** package server: converters.go *)

(** The enumerations and the Game message of the generated protobuf package,
    under the names the converters give them. *)
Inductive pb_Mark : Type :=
| Mark_MARK_UNSPECIFIED
| Mark_MARK_EMPTY
| Mark_MARK_X
| Mark_MARK_O.

Inductive pb_GameStatus : Type :=
| GameStatus_GAME_STATUS_UNSPECIFIED
| GameStatus_GAME_STATUS_PENDING
| GameStatus_GAME_STATUS_IN_PROGRESS
| GameStatus_GAME_STATUS_X_WON
| GameStatus_GAME_STATUS_O_WON
| GameStatus_GAME_STATUS_DRAW.

#[export] Instance pb_Mark_eq_dec : EqDecision pb_Mark.
Proof. solve_decision. Defined.

#[export] Instance pb_GameStatus_eq_dec : EqDecision pb_GameStatus.
Proof. solve_decision. Defined.

Record pb_Game : Type := mk_pb_Game {
  pb_GameId : string;
  pb_PlayerXId : string;
  pb_PlayerOId : string;
  pb_BoardSize : Z;   (* int32 *)
  pb_WinLength : Z;   (* int32 *)
  pb_Board : list pb_Mark;
  pb_CurrentTurn : pb_Mark;
  pb_Status : pb_GameStatus;
  pb_CreatedAt : Z;   (* int64 *)
  pb_UpdatedAt : Z    (* int64 *)
}.

Definition markToProto (m : Mark) : pb_Mark :=
  match m with
  | MarkEmpty => Mark_MARK_EMPTY
  | MarkX => Mark_MARK_X
  | MarkO => Mark_MARK_O
  end.

Definition statusToProto (s : Status) : pb_GameStatus :=
  match s with
  | StatusPending => GameStatus_GAME_STATUS_PENDING
  | StatusInProgress => GameStatus_GAME_STATUS_IN_PROGRESS
  | StatusXWon => GameStatus_GAME_STATUS_X_WON
  | StatusOWon => GameStatus_GAME_STATUS_O_WON
  | StatusDraw => GameStatus_GAME_STATUS_DRAW
  end.

(** [Unix] is [time.Time.Unix]. The board is filled position by position
    with the converted cells. *)
Definition gameToProto (Unix : Time -> Z) (snapshot : GameSnapshot) : pb_Game :=
  let board := markToProto <$> Cells (Snapshot_Board snapshot) in
  {| pb_GameId := Snapshot_ID snapshot;
     pb_PlayerXId := Snapshot_PlayerX snapshot;
     pb_PlayerOId := Snapshot_PlayerO snapshot;
     pb_BoardSize := wrap32 (Size (Snapshot_Board snapshot));
     pb_WinLength := wrap32 (WinLength (Snapshot_Board snapshot));
     pb_Board := board;
     pb_CurrentTurn := markToProto (Snapshot_Turn snapshot);
     pb_Status := statusToProto (Snapshot_Status snapshot);
     pb_CreatedAt := Unix (Snapshot_CreatedAt snapshot);
     pb_UpdatedAt := Unix (Snapshot_UpdatedAt snapshot) |}.

(** ** package server: server.go *)

Definition DefaultBoardSize : Z := 3.
Definition DefaultWinLength : Z := 3.
Definition DefaultListLimit : Z := 50.
Definition MaxBoardSize : Z := 20.
Definition MaxListLimit : Z := 100.

(** The gRPC status code of an error response; its message is not kept. *)
Inductive Code : Type :=
| InvalidArgument
| NotFound
| FailedPrecondition
| PermissionDenied
| Internal.

Record GameUpdate : Type := mkGameUpdate {
  Update_Game : option pb_Game;   (* *pb.Game *)
  Update_Message : string
}.

(** A channel of updates: the values sent and not yet received, oldest
    first, its capacity, and whether it has been closed. *)
Record Chan : Type := mkChan {
  Chan_buf : list GameUpdate;
  Chan_cap : Z;
  Chan_closed : bool
}.

(** [make(chan *pb.GameUpdate, capacity)] *)
Definition make_chan (capacity : Z) : Chan :=
  {| Chan_buf := []; Chan_cap := capacity; Chan_closed := false |}.

(** The server. A channel value is the address of a channel; the channels
    themselves are carried next to the fields of the struct. An address that
    holds no channel is the nil channel. *)
Record TicTacToeServer : Type := mkServer {
  gameStore : GameStore;
  statsStore : StatsStore;
  subscribers : gmap string (gset nat);
  channels : gmap nat Chan
}.

Definition NewTicTacToeServer (gameStore : GameStore) (statsStore : StatsStore)
    : TicTacToeServer :=
  {| gameStore := gameStore; statsStore := statsStore; subscribers := ∅;
     channels := ∅ |}.

Definition set_gameStore (gs : GameStore) (s : TicTacToeServer) : TicTacToeServer :=
  {| gameStore := gs; statsStore := statsStore s; subscribers := subscribers s;
     channels := channels s |}.

Definition set_statsStore (ss : StatsStore) (s : TicTacToeServer) : TicTacToeServer :=
  {| gameStore := gameStore s; statsStore := ss; subscribers := subscribers s;
     channels := channels s |}.

Definition set_subscribers (subs : gmap string (gset nat)) (s : TicTacToeServer)
    : TicTacToeServer :=
  {| gameStore := gameStore s; statsStore := statsStore s; subscribers := subs;
     channels := channels s |}.

Definition set_channels (chans : gmap nat Chan) (s : TicTacToeServer) : TicTacToeServer :=
  {| gameStore := gameStore s; statsStore := statsStore s; subscribers := subscribers s;
     channels := chans |}.

(** subscribe adds a channel to receive updates for a game *)
Definition TicTacToeServer_subscribe (s : TicTacToeServer) (gameID : string) (ch : nat)
    : TicTacToeServer :=
  let subs := match subscribers s !! gameID with
              | None => ∅   (* s.subscribers[gameID] == nil *)
              | Some subs => subs
              end in
  set_subscribers (<[gameID := {[ch]} ∪ subs]> (subscribers s)) s.

(** [close(ch)] *)
Definition close_chan (chans : gmap nat Chan) (ch : nat) : run (gmap nat Chan) :=
  match chans !! ch with
  | None => Panic   (* close of nil channel *)
  | Some c =>
      if Chan_closed c then Panic   (* close of closed channel *)
      else Done (<[ch := {| Chan_buf := Chan_buf c; Chan_cap := Chan_cap c;
                            Chan_closed := true |}]> chans)
  end.

(** unsubscribe removes a channel from receiving updates *)
Definition TicTacToeServer_unsubscribe (s : TicTacToeServer) (gameID : string) (ch : nat)
    : run TicTacToeServer :=
  let s := match subscribers s !! gameID with
           | Some subs =>
               let subs := subs ∖ {[ch]} in
               if Z.of_nat (size subs) =? 0
               then set_subscribers (delete gameID (subscribers s)) s
               else set_subscribers (<[gameID := subs]> (subscribers s)) s
           | None => s
           end in
  chans ← close_chan (channels s) ch;
  Done (set_channels chans s).

(** [select { case ch <- update: default: }]: the send goes through when
    the buffer has room (a receiver that is waiting has emptied the buffer);
    on a closed channel it panics; otherwise, and on the nil channel, the
    default case is taken. *)
Definition send_or_skip (chans : gmap nat Chan) (ch : nat) (update : GameUpdate)
    : run (gmap nat Chan) :=
  match chans !! ch with
  | None => Done chans
  | Some c =>
      if Chan_closed c then Panic   (* send on closed channel *)
      else if len (Chan_buf c) <? Chan_cap c then
        Done (<[ch := {| Chan_buf := Chan_buf c ++ [update]; Chan_cap := Chan_cap c;
                         Chan_closed := false |}]> chans)
      else Done chans   (* Channel full, skip (non-blocking) *)
  end.

(** [for ch := range subs], in the order [order] of the visit. *)
Fixpoint broadcast_loop (chans : gmap nat Chan) (order : list nat) (update : GameUpdate)
    : run (gmap nat Chan) :=
  match order with
  | [] => Done chans
  | ch :: order =>
      chans ← send_or_skip chans ch update;
      broadcast_loop chans order update
  end.

(** broadcastUpdate sends an update to all subscribers of a game.  The set
    is visited in the order of [elements]; any other order gives the same
    result (see [broadcast_loop_perm]). *)
Definition TicTacToeServer_broadcastUpdate (s : TicTacToeServer) (gameID : string)
    (update : GameUpdate) : run TicTacToeServer :=
  match subscribers s !! gameID with
  | Some subs =>
      chans ← broadcast_loop (channels s) (elements subs) update;
      Done (set_channels chans s)
  | None => Done s
  end.

(** getUpdateMessage generates a human-readable message for a game state *)
Definition getUpdateMessage (snapshot : GameSnapshot) : string :=
  match Snapshot_Status snapshot with
  | StatusXWon => "Player X wins!"
  | StatusOWon => "Player O wins!"
  | StatusDraw => "Game ended in a draw!"
  | StatusInProgress =>
      if Mark_eqb (Snapshot_Turn snapshot) MarkX then "Player X's turn"
      else "Player O's turn"
  | _ => EmptyString
  end.

(** isGameFinished checks if a game status indicates completion *)
Definition isGameFinished (status : pb_GameStatus) : bool :=
  bool_decide (status = GameStatus_GAME_STATUS_X_WON) ||
  bool_decide (status = GameStatus_GAME_STATUS_O_WON) ||
  bool_decide (status = GameStatus_GAME_STATUS_DRAW).

Section Server.

Variable runes : string -> list Z.
Variable Unix : Time -> Z.

(** A [*game.Game] that Get returned is the game stored under [gameID] in
    the shard of [gameID]: what a method does to the game behind the pointer
    is seen there. *)
Definition GameStore_write (s : GameStore) (gameID : string) (g : Game) : GameStore :=
  {| GameStore_shards :=
       alter (fun sh => {| games := <[gameID := g]> (games sh) |})
         (gshard_index runes s gameID) (GameStore_shards s);
     GameStore_numShards := GameStore_numShards s |}.

(** recordGameResult records the game result in stats *)
Definition TicTacToeServer_recordGameResult (s : TicTacToeServer) (snapshot : GameSnapshot)
    : run TicTacToeServer :=
  if GameSnapshot_IsDraw snapshot then
    ss ← StatsStore_RecordGameResult runes (statsStore s)
           (Snapshot_PlayerX snapshot) (Snapshot_PlayerO snapshot) true;
    Done (set_statsStore ss s)
  else
    ss ← StatsStore_RecordGameResult runes (statsStore s)
           (GameSnapshot_GetWinner snapshot) (GameSnapshot_GetLoser snapshot) false;
    Done (set_statsStore ss s).

(** CreateGame creates a new game and waits for an opponent.  [uuid] is the
    string of the identifier [uuid.New()] draws; the integers of the request
    are given as [int(req.BoardSize)] and [int(req.WinLength)]. *)
Definition TicTacToeServer_CreateGame (maxLen : Z) (now : Time) (uuid : string)
    (s : TicTacToeServer) (req_UserId : string) (req_BoardSize req_WinLength : Z)
    : run (TicTacToeServer * (option pb_Game * option Code)) :=
  if String.eqb req_UserId EmptyString then Done (s, (None, Some InvalidArgument))
  else
    let boardSize := req_BoardSize in
    let boardSize := if boardSize =? 0 then DefaultBoardSize else boardSize in
    if (boardSize <? 3) || (MaxBoardSize <? boardSize)
    then Done (s, (None, Some InvalidArgument))
    else
      let winLength := req_WinLength in
      let winLength := if winLength =? 0 then DefaultWinLength else winLength in
      if (winLength <? 3) || (boardSize <? winLength)
      then Done (s, (None, Some InvalidArgument))
      else
        let gameID := uuid in
        '(g, err) ← NewGame maxLen now gameID req_UserId boardSize winLength;
        match err, g with
        | Some _, _ => Done (s, (None, Some Internal))
        | None, None => Panic
        | None, Some g =>
            '(gs, err) ← GameStore_Create runes (gameStore s) g;
            let s := set_gameStore gs s in
            match err with
            | Some _ => Done (s, (None, Some Internal))
            | None => Done (s, (Some (gameToProto Unix (Game_GetSnapshot g)), None))
            end
        end.

(** ListPendingGames returns all games waiting for an opponent.  The store
    visits its maps in an order of its own, so the handler is a relation,
    as ListPending is. *)
Definition TicTacToeServer_ListPendingGames (s : TicTacToeServer)
    (req_Limit req_Offset : Z) (res : run (list pb_Game * Z)) : Prop :=
  let limit := req_Limit in
  let limit := if limit <=? 0 then DefaultListLimit else limit in
  let limit := if MaxListLimit <? limit then MaxListLimit else limit in
  let offset := req_Offset in
  let offset := if offset <? 0 then 0 else offset in
  exists listed, GameStore_ListPending (gameStore s) limit offset listed /\
    res = mbind (M := run)
            (fun '(games, totalCount) =>
               let pbGames := gameToProto Unix <$> games in
               Done (pbGames, wrap32 totalCount))
            listed.

(** The switch on the error of [gameStore.Get]. *)
Definition code_of_store_error (e : store_error) : Code :=
  match e with
  | ErrGameNotFound => NotFound
  | _ => Internal
  end.

(** The switch on the error of [g.Join]. *)
Definition code_of_join_error (e : error) : Code :=
  match e with
  | ErrGameAlreadyStarted => FailedPrecondition
  | ErrCannotJoinOwnGame => InvalidArgument
  | _ => Internal
  end.

(** The switch on the error of [g.MakeMove]. *)
Definition code_of_move_error (e : error) : Code :=
  match e with
  | ErrGameNotInProgress => FailedPrecondition
  | ErrPlayerNotInGame => PermissionDenied
  | ErrNotYourTurn => FailedPrecondition
  | ErrInvalidPosition => InvalidArgument
  | ErrCellOccupied => InvalidArgument
  | _ => Internal
  end.

(** JoinGame joins an existing pending game *)
Definition TicTacToeServer_JoinGame (now : Time) (s : TicTacToeServer)
    (req_UserId req_GameId : string)
    : run (TicTacToeServer * (option pb_Game * option Code)) :=
  if String.eqb req_UserId EmptyString then Done (s, (None, Some InvalidArgument))
  else if String.eqb req_GameId EmptyString then Done (s, (None, Some InvalidArgument))
  else
    '(g, err) ← GameStore_Get runes (gameStore s) req_GameId;
    match err, g with
    | Some e, _ => Done (s, (None, Some (code_of_store_error e)))
    | None, None => Panic   (* nil pointer dereference *)
    | None, Some g =>
        let '(g, err) := Game_Join now g req_UserId in
        let s := set_gameStore (GameStore_write (gameStore s) req_GameId g) s in
        match err with
        | Some e => Done (s, (None, Some (code_of_join_error e)))
        | None =>
            let snapshot := Game_GetSnapshot g in
            (* Notify subscribers that the game has started *)
            s ← TicTacToeServer_broadcastUpdate s req_GameId
                  {| Update_Game := Some (gameToProto Unix snapshot);
                     Update_Message := "Game started! Player X's turn." |};
            Done (s, (Some (gameToProto Unix snapshot), None))
        end
    end.

(** MakeMove makes a move in an active game; the integers of the request
    are given as [int(req.Row)] and [int(req.Col)]. *)
Definition TicTacToeServer_MakeMove (now : Time) (s : TicTacToeServer)
    (req_UserId req_GameId : string) (req_Row req_Col : Z)
    : run (TicTacToeServer * (option pb_Game * option Code)) :=
  if String.eqb req_UserId EmptyString then Done (s, (None, Some InvalidArgument))
  else if String.eqb req_GameId EmptyString then Done (s, (None, Some InvalidArgument))
  else
    '(g, err) ← GameStore_Get runes (gameStore s) req_GameId;
    match err, g with
    | Some e, _ => Done (s, (None, Some (code_of_store_error e)))
    | None, None => Panic   (* nil pointer dereference *)
    | None, Some g =>
        '(g, err) ← Game_MakeMove now g req_UserId req_Row req_Col;
        let s := set_gameStore (GameStore_write (gameStore s) req_GameId g) s in
        match err with
        | Some e => Done (s, (None, Some (code_of_move_error e)))
        | None =>
            let snapshot := Game_GetSnapshot g in
            (* Update stats if game is finished *)
            s ← (if Status_IsFinished (Snapshot_Status snapshot)
                 then TicTacToeServer_recordGameResult s snapshot else Done s);
            (* Broadcast update *)
            s ← TicTacToeServer_broadcastUpdate s req_GameId
                  {| Update_Game := Some (gameToProto Unix snapshot);
                     Update_Message := getUpdateMessage snapshot |};
            Done (s, (Some (gameToProto Unix snapshot), None))
        end
    end.

(** GetGame retrieves the current state of a game *)
Definition TicTacToeServer_GetGame (s : TicTacToeServer) (req_GameId : string)
    : run (option pb_Game * option Code) :=
  if String.eqb req_GameId EmptyString then Done (None, Some InvalidArgument)
  else
    '(g, err) ← GameStore_Get runes (gameStore s) req_GameId;
    match err, g with
    | Some e, _ => Done (None, Some (code_of_store_error e))
    | None, None => Panic   (* nil pointer dereference *)
    | None, Some g => Done (Some (gameToProto Unix (Game_GetSnapshot g)), None)
    end.

(** The fields of a GetUserStatsResponse. *)
Record UserStatsResponse : Type := mkUserStatsResponse {
  Resp_UserId : string;
  Resp_Wins : Z;
  Resp_Losses : Z;
  Resp_Draws : Z;
  Resp_TotalGames : Z
}.

(** GetUserStats retrieves win-lose-draw statistics for a user *)
Definition TicTacToeServer_GetUserStats (s : TicTacToeServer) (req_UserId : string)
    : run (TicTacToeServer * (option UserStatsResponse * option Code)) :=
  if String.eqb req_UserId EmptyString then Done (s, (None, Some InvalidArgument))
  else
    '(ss, stats) ← StatsStore_Get runes (statsStore s) req_UserId;
    Done (set_statsStore ss s,
          (Some {| Resp_UserId := UserID stats;
                   Resp_Wins := Wins stats;
                   Resp_Losses := Losses stats;
                   Resp_Draws := Draws stats;
                   Resp_TotalGames := UserStats_TotalGames stats |}, None)).

End Server.

(** [update := <-updateCh], when a value is waiting: the oldest one is
    taken out of the channel. *)
Definition recv_chan (chans : gmap nat Chan) (ch : nat)
    : option (GameUpdate * gmap nat Chan) :=
  match chans !! ch with
  | Some c =>
      match Chan_buf c with
      | update :: rest =>
          Some (update, <[ch := {| Chan_buf := rest; Chan_cap := Chan_cap c;
                                    Chan_closed := Chan_closed c |}]> chans)
      | [] => None
      end
  | None => None
  end.

Section Stream.

Variable runes : string -> list Z.

(** StreamGameUpdates, from its start to the deferred unsubscribe: the game
    is looked up, a channel is made and subscribed.  The channel made is
    returned; it is an address that held no channel. *)
Definition StreamGameUpdates_enter (s : TicTacToeServer) (req_GameId : string)
    : run (TicTacToeServer * (option nat * option Code)) :=
  if String.eqb req_GameId EmptyString then Done (s, (None, Some InvalidArgument))
  else
    (* Verify game exists *)
    '(g, err) ← GameStore_Get runes (gameStore s) req_GameId;
    match err, g with
    | Some e, _ => Done (s, (None, Some (code_of_store_error e)))
    | None, None => Panic   (* nil pointer dereference *)
    | None, Some _ =>
        (* Create channel for updates *)
        let updateCh := fresh (dom (channels s)) in
        let s := set_channels (<[updateCh := make_chan 10]> (channels s)) s in
        let s := TicTacToeServer_subscribe s req_GameId updateCh in
        Done (s, (Some updateCh, None))
    end.

End Stream.

(** * Vocabulary of the properties *)

(** ** Grids and winning lines *)

(** The data model's grid: [3 <= winLength <= size], and [size * size] cells
    (a slice length is an [int]). *)
Definition Board_inv (b : Board) : Prop :=
  3 <= WinLength b <= Size b /\
  len (Cells b) = Size b * Size b /\
  Size b * Size b <= int_max.

(** Row-major reading of the cell sequence: the mark at [(row, col)], if that
    position is on the grid. *)
Definition mark_at (b : Board) (row col : Z) : option Mark :=
  if Board_isValidPosition b row col then Cells b !! Z.to_nat (row * Size b + col)
  else None.

Definition is_direction (dRow dCol : Z) : Prop :=
  -1 <= dRow <= 1 /\ -1 <= dCol <= 1 /\ (dRow <> 0 \/ dCol <> 0).

(** An upper bound on the number of grid positions on the ray that starts at
    [(r, c)] and advances by [(dRow, dCol)]. *)
Definition togo (b : Board) (r c dRow dCol : Z) : Z :=
  if dRow =? 1 then Size b - r
  else if dRow =? -1 then r + 1
  else if dCol =? 1 then Size b - c
  else c + 1.

(** The four orientations of a line through a cell, as the design document
    names them, and the step each one advances by. *)
Inductive Orientation : Type := Horizontal | Vertical | Diagonal | AntiDiagonal.

Definition step_of (o : Orientation) : Z * Z :=
  match o with
  | Horizontal => (0, 1)
  | Vertical => (1, 0)
  | Diagonal => (1, 1)
  | AntiDiagonal => (1, -1)
  end.

(** On the line through [(row, col)] with step [d], the cells number [lo]
    to number [hi] (the origin is number [0]) are [hi - lo + 1] consecutive
    cells; they all hold [m] and there are at least [winLength] of them. *)
Definition line_through (b : Board) (row col : Z) (m : Mark) (d : Z * Z) : Prop :=
  exists lo hi,
    lo <= 0 <= hi /\
    WinLength b <= hi - lo + 1 /\
    forall k, lo <= k <= hi -> mark_at b (row + k * d.1) (col + k * d.2) = Some m.

Definition wins_through (b : Board) (row col : Z) (m : Mark) : Prop :=
  exists o : Orientation, line_through b row col m (step_of o).

Definition grid_full (b : Board) : Prop := Forall (fun m => m <> MarkEmpty) (Cells b).

(** ** Calls and histories of a match *)

(** The state a successful placement leaves, given the board after Set and
    what CheckWinner returned on it. *)
Definition after_move (now : Time) (g : Game) (board : Board) (winner : Mark) : Game :=
  let g := set_UpdatedAt now (set_Board board g) in
  match winner with
  | MarkX => set_Status StatusXWon g
  | MarkO => set_Status StatusOWon g
  | MarkEmpty =>
      if Board_IsFull board then set_Status StatusDraw g
      else set_Turn (Mark_Opponent (Game_Turn g)) g
  end.

(** A sequence of Set calls, errors ignored, each applied to the board the
    previous one left. *)
Fixpoint Set_all (b : Board) (calls : list (Z * Z * Mark)) : run Board :=
  match calls with
  | [] => Done b
  | (r, c, k) :: rest => '(b', _) ← Board_Set b r c k; Set_all b' rest
  end.

Inductive Call : Type :=
| CallJoin (now : Time) (playerID : string)
| CallMakeMove (now : Time) (playerID : string) (row col : Z).

Definition perform (g : Game) (c : Call) : run (Game * option error) :=
  match c with
  | CallJoin now playerID => Done (Game_Join now g playerID)
  | CallMakeMove now playerID row col => Game_MakeMove now g playerID row col
  end.

(** [history g tr g']: the calls of [tr], made one after the other on a match
    in state [g], returned the results recorded in [tr] and left it in state
    [g']. *)
Inductive history : Game -> list (Call * option error) -> Game -> Prop :=
| history_nil (g : Game) : history g [] g
| history_cons (g g1 g2 : Game) (c : Call) (e : option error)
    (tr : list (Call * option error)) :
    perform g c = Done (g1, e) -> history g1 tr g2 -> history g ((c, e) :: tr) g2.

(** The calls of a list made one after the other, with the result of each. *)
Fixpoint perform_all (g : Game) (calls : list Call) : run (Game * list (option error)) :=
  match calls with
  | [] => Done (g, [])
  | c :: rest =>
      '(g1, e) ← perform g c;
      '(g2, es) ← perform_all g1 rest;
      Done (g2, e :: es)
  end.

Definition Status_rank (s : Status) : nat :=
  match s with
  | StatusPending => 0
  | StatusInProgress => 1
  | StatusXWon | StatusOWon | StatusDraw => 2
  end.

Definition is_successful_join (entry : Call * option error) : bool :=
  match entry with
  | (CallJoin _ _, None) => true
  | _ => false
  end.

Fixpoint successful_joins (tr : list (Call * option error)) : nat :=
  match tr with
  | [] => 0
  | entry :: rest =>
      (if is_successful_join entry then 1 else 0) + successful_joins rest
  end%nat.

(** ** Pending matches and pages *)

(** The snapshots of the matches of a shard, of a store, that are Pending. *)
Definition pending_in (kvs : list (string * Game)) : list GameSnapshot :=
  Game_GetSnapshot <$> filter (fun g => Game_Status g = StatusPending) (kvs.*2).

Definition pending_snapshots (s : GameStore) : list GameSnapshot :=
  concat ((fun sh => pending_in (map_to_list (games sh))) <$> GameStore_shards s).

(** Offset, then limit, applied to a collection. *)
Definition page_of {A : Type} (all : list A) (limit offset : Z) : list A :=
  take (Z.to_nat limit) (drop (Z.to_nat offset) all).

(** ** Counters of the stats registry *)

(** A store whose shard count, read as a [uint32], is not zero and does not
    exceed the number of shards it holds: what NewStatsStore builds. *)
Definition store_ok (s : StatsStore) : Prop :=
  0 < uwrap32 (StatsStore_numShards s) <= len (StatsStore_shards s).

Definition zero_stats (userID : string) : UserStats :=
  {| UserID := userID; Wins := 0; Losses := 0; Draws := 0 |}.

Section StatsStoreViews.

Variable runes : string -> list Z.

Definition shard_index (s : StatsStore) (userID : string) : nat :=
  Z.to_nat (StatsStore_hash runes userID mod uwrap32 (StatsStore_numShards s)).

(** The record of a user, if the store holds one. *)
Definition view (s : StatsStore) (userID : string) : option UserStats :=
  deref s (shard_index s userID, userID).

(** [reports s userID (w, l, d)]: Get returns these three counters. *)
Definition reports (s : StatsStore) (userID : string) (c : Z * Z * Z) : Prop :=
  exists s', StatsStore_Get runes s userID =
    Done (s', {| UserID := userID; Wins := c.1.1; Losses := c.1.2; Draws := c.2 |}).

Definition counters_of (st : UserStats) : Z * Z * Z := (Wins st, Losses st, Draws st).

(** The record of [v], zeros when the store holds none. *)
Definition stats_of (s : StatsStore) (v : string) : UserStats :=
  default (zero_stats v) (view s v).

Definition named (v id : string) : bool := negb (String.eqb id EmptyString) && String.eqb v id.

Definition credit (hit : bool) (x : Z) : Z := if hit then add32 x 1 else x.

End StatsStoreViews.

(** ** Reachable matches, registries and servers *)

(** The number of cells of a board that hold [m]. *)
Definition count_mark (m : Mark) (cells : list Mark) : nat :=
  length (filter (fun c => c = m) cells).

(** The states of a match: what NewGame returns when the board fits, and
    what any call of Join or MakeMove that returns leaves. *)
Inductive reachable : Game -> Prop :=
| reachable_new (maxLen : Z) (now : Time) (id creatorID : string)
    (boardSize winLength : Z) (g : Game) :
    maxLen <= int_max -> boardSize * boardSize <= maxLen ->
    NewGame maxLen now id creatorID boardSize winLength = Done (Some g, None) ->
    reachable g
| reachable_call (g g' : Game) (c : Call) (e : option error) :
    reachable g -> perform g c = Done (g', e) -> reachable g'.

Definition free_of_lines (b : Board) : Prop :=
  forall row col m, m <> MarkEmpty -> ~ wins_through b row col m.

Record match_inv (g : Game) : Prop := {
  inv_grid : Board_inv (Game_Board g);
  inv_pending :
    Game_Status g = StatusPending ->
    Forall (fun m => m = MarkEmpty) (Cells (Game_Board g)) /\ Game_Turn g = MarkX;
  inv_unjoined : Game_Status g = StatusPending -> Game_PlayerO g = EmptyString;
  inv_players :
    Game_Status g <> StatusPending -> Game_PlayerX g <> Game_PlayerO g;
  inv_turn : Game_Turn g <> MarkEmpty;
  inv_to_move :
    Game_Status g = StatusPending \/ Game_Status g = StatusInProgress ->
    (Game_Turn g = MarkX ->
       count_mark MarkX (Cells (Game_Board g)) = count_mark MarkO (Cells (Game_Board g))) /\
    (Game_Turn g = MarkO ->
       count_mark MarkX (Cells (Game_Board g))
       = S (count_mark MarkO (Cells (Game_Board g))));
  inv_moved :
    Status_IsFinished (Game_Status g) = true ->
    (Game_Turn g = MarkX ->
       count_mark MarkX (Cells (Game_Board g))
       = S (count_mark MarkO (Cells (Game_Board g)))) /\
    (Game_Turn g = MarkO ->
       count_mark MarkX (Cells (Game_Board g)) = count_mark MarkO (Cells (Game_Board g)));
  inv_room : Game_Status g = StatusInProgress -> ~ grid_full (Game_Board g);
  inv_draw : Game_Status g = StatusDraw -> grid_full (Game_Board g);
  inv_x_won :
    Game_Status g = StatusXWon ->
    Game_Turn g = MarkX /\ exists row col, wins_through (Game_Board g) row col MarkX;
  inv_o_won :
    Game_Status g = StatusOWon ->
    Game_Turn g = MarkO /\ exists row col, wins_through (Game_Board g) row col MarkO;
  inv_no_line :
    Game_Status g <> StatusXWon -> Game_Status g <> StatusOWon ->
    free_of_lines (Game_Board g)
}.

(** The player whose move is next. *)
Definition player_to_move (g : Game) : string :=
  match Game_Turn g with
  | MarkO => Game_PlayerO g
  | _ => Game_PlayerX g
  end.

(** A store whose shard count, read as a [uint32], is not zero and does not
    exceed the number of shards it holds. *)
Definition gstore_ok (s : GameStore) : Prop :=
  0 < uwrap32 (GameStore_numShards s) <= len (GameStore_shards s).

(** The number of matches a store holds. *)
Definition stored_games (s : GameStore) : nat :=
  sum_list ((fun sh => size (games sh)) <$> GameStore_shards s).

(** The match stored under an id, if any. *)
Definition stored (runes : string -> list Z) (s : GameStore) (gameID : string)
    : option Game :=
  sh ← GameStore_shards s !! gshard_index runes s gameID; games sh !! gameID.

(** What a match contributes to the listing of open matches: its snapshot
    while it is Pending, nothing afterwards. *)
Definition listing_of (g : Game) : list GameSnapshot :=
  if decide (Game_Status g = StatusPending) then [Game_GetSnapshot g] else [].

(** ** Sequences of recorded outcomes *)

Inductive Outcome : Type := Won | Lost | Drawn.

#[export] Instance Outcome_eq_dec : EqDecision Outcome.
Proof. solve_decision. Defined.

(** One call of RecordWin, RecordLoss or RecordDraw, and a sequence of such
    calls made one after the other. *)
Definition record_one (runes : string -> list Z) (s : StatsStore)
    (r : Outcome * string) : run StatsStore :=
  match r.1 with
  | Won => StatsStore_RecordWin runes s r.2
  | Lost => StatsStore_RecordLoss runes s r.2
  | Drawn => StatsStore_RecordDraw runes s r.2
  end.

Fixpoint record_all (runes : string -> list Z) (s : StatsStore)
    (rs : list (Outcome * string)) : run StatsStore :=
  match rs with
  | [] => Done s
  | r :: rs => s' ← record_one runes s r; record_all runes s' rs
  end.

(** How often a sequence records outcome [o] for user [v]. *)
Definition tally (o : Outcome) (v : string) (rs : list (Outcome * string)) : nat :=
  length (filter (fun r => r = (o, v)) rs).

(** [n] increments of an [int32] counter. *)
Definition bump (n : nat) (x : Z) : Z := Nat.iter n (fun x => add32 x 1) x.

Definition bump_stats (v : string) (rs : list (Outcome * string)) (st : UserStats)
    : UserStats :=
  {| UserID := UserID st;
     Wins := bump (tally Won v rs) (Wins st);
     Losses := bump (tally Lost v rs) (Losses st);
     Draws := bump (tally Drawn v rs) (Draws st) |}.

(** ** Fan-out *)

(** What a channel holds after an update is offered to it: the update is
    appended when there is room, and dropped otherwise. *)
Definition deliver (update : GameUpdate) (c : Chan) : Chan :=
  if len (Chan_buf c) <? Chan_cap c
  then {| Chan_buf := Chan_buf c ++ [update]; Chan_cap := Chan_cap c;
          Chan_closed := Chan_closed c |}
  else c.

Definition closed_at (chans : gmap nat Chan) (ch : nat) : bool :=
  match chans !! ch with
  | Some c => Chan_closed c
  | None => false
  end.

(** The channels after an update is offered to each channel of [chs]. *)
Definition deliver_to (chs : list nat) (update : GameUpdate) (chans : gmap nat Chan)
    : gmap nat Chan :=
  map_imap (fun ch c => Some (if bool_decide (ch ∈ chs) then deliver update c else c)) chans.

(** Every subscribed channel is an open channel and is subscribed for one
    game only, and no game is left with an empty set of subscribers. *)
Definition fanout_ok (s : TicTacToeServer) : Prop :=
  forall gameID subs, subscribers s !! gameID = Some subs ->
    subs <> ∅ /\
    forall ch, ch ∈ subs ->
      (exists c, channels s !! ch = Some c /\ Chan_closed c = false) /\
      forall gameID' subs',
        subscribers s !! gameID' = Some subs' -> ch ∈ subs' -> gameID' = gameID.

(** The channels a game's updates are sent to. *)
Definition subscribers_of (s : TicTacToeServer) (gameID : string) : gset nat :=
  default ∅ (subscribers s !! gameID).

(** ** Servers *)

(** The matches of a store, shard after shard. *)
Definition all_games (gs : GameStore) : list Game :=
  concat ((fun sh => (map_to_list (games sh)).*2) <$> GameStore_shards gs).

(** What a finished match adds to the counters: a win and a loss, or two
    draws; an unfinished match adds nothing. *)
Definition result_of (g : Game) : list (Outcome * string) :=
  match Game_Status g with
  | StatusXWon => [(Won, Game_PlayerX g); (Lost, Game_PlayerO g)]
  | StatusOWon => [(Won, Game_PlayerO g); (Lost, Game_PlayerX g)]
  | StatusDraw => [(Drawn, Game_PlayerX g); (Drawn, Game_PlayerO g)]
  | _ => []
  end.

Definition ledger (gs : GameStore) : list (Outcome * string) :=
  concat (result_of <$> all_games gs).

(** A match as the server makes and plays it: a reachable match stored
    under its own id, with players that have names, on a board of at most
    MaxBoardSize. *)
Definition served_game (id : string) (g : Game) : Prop :=
  Game_ID g = id /\ reachable g /\ Game_PlayerX g <> EmptyString /\
  (Game_Status g <> StatusPending -> Game_PlayerO g <> EmptyString) /\
  Size (Game_Board g) <= MaxBoardSize.

Definition games_ok (runes : string -> list Z) (gs : GameStore) : Prop :=
  gstore_ok gs /\
  forall i sh id g,
    GameStore_shards gs !! i = Some sh -> games sh !! id = Some g ->
    i = gshard_index runes gs id /\ served_game id g.

(** The stores and the fan-out of a server are in order, and the counters
    are those of the finished matches it holds. *)
Definition server_ok (runes : string -> list Z) (s : TicTacToeServer) : Prop :=
  games_ok runes (gameStore s) /\
  store_ok (statsStore s) /\
  fanout_ok s /\
  forall v, stats_of runes (statsStore s) v
            = bump_stats v (ledger (gameStore s)) (zero_stats v).

(** The board size and the win length a request asks for, 0 standing for
    the default, and the requests CreateGame accepts. *)
Definition asked (n dflt : Z) : Z := if n =? 0 then dflt else n.

Definition accepted (userId : string) (boardSize winLength : Z) : Prop :=
  userId <> EmptyString /\
  3 <= asked boardSize DefaultBoardSize <= MaxBoardSize /\
  3 <= asked winLength DefaultWinLength <= asked boardSize DefaultBoardSize.

(** The match CreateGame makes for an accepted request. *)
Definition fresh_game (now : Time) (id creatorID : string) (boardSize winLength : Z)
    : Game :=
  {| Game_ID := id; Game_PlayerX := creatorID; Game_PlayerO := EmptyString;
     Game_Board := {| Size := boardSize; WinLength := winLength;
                      Cells := replicate (Z.to_nat (boardSize * boardSize)) MarkEmpty |};
     Game_Turn := MarkX; Game_Status := StatusPending;
     Game_CreatedAt := now; Game_UpdatedAt := now |}.

(** The match a successful Join leaves. *)
Definition joined_game (now : Time) (g : Game) (playerID : string) : Game :=
  {| Game_ID := Game_ID g; Game_PlayerX := Game_PlayerX g; Game_PlayerO := playerID;
     Game_Board := Game_Board g; Game_Turn := Game_Turn g;
     Game_Status := StatusInProgress; Game_CreatedAt := Game_CreatedAt g;
     Game_UpdatedAt := now |}.

(** The servers that requests handled one at a time lead to, together with
    the streams that are open: a stream enters, takes updates out of its
    channel, and unsubscribes when it returns. *)
Inductive served (runes : string -> list Z) (Unix : Time -> Z) (maxLen : Z)
    : TicTacToeServer -> Prop :=
| served_new (gs : GameStore) (ss : StatsStore) (n m : Z) :
    NewGameStore maxLen n = Done gs -> NewStatsStore maxLen m = Done ss ->
    gstore_ok gs -> store_ok ss ->
    served runes Unix maxLen (NewTicTacToeServer gs ss)
| served_CreateGame (s s' : TicTacToeServer) (now : Time) (uuid userId : string)
    (boardSize winLength : Z) (r : option pb_Game * option Code) :
    served runes Unix maxLen s ->
    TicTacToeServer_CreateGame runes Unix maxLen now uuid s userId boardSize winLength
      = Done (s', r) ->
    served runes Unix maxLen s'
| served_JoinGame (s s' : TicTacToeServer) (now : Time) (userId gameId : string)
    (r : option pb_Game * option Code) :
    served runes Unix maxLen s ->
    TicTacToeServer_JoinGame runes Unix now s userId gameId = Done (s', r) ->
    served runes Unix maxLen s'
| served_MakeMove (s s' : TicTacToeServer) (now : Time) (userId gameId : string)
    (row col : Z) (r : option pb_Game * option Code) :
    served runes Unix maxLen s ->
    TicTacToeServer_MakeMove runes Unix now s userId gameId row col = Done (s', r) ->
    served runes Unix maxLen s'
| served_GetUserStats (s s' : TicTacToeServer) (userId : string)
    (r : option UserStatsResponse * option Code) :
    served runes Unix maxLen s ->
    TicTacToeServer_GetUserStats runes s userId = Done (s', r) ->
    served runes Unix maxLen s'
| served_stream_enters (s s' : TicTacToeServer) (gameId : string)
    (r : option nat * option Code) :
    served runes Unix maxLen s ->
    StreamGameUpdates_enter runes s gameId = Done (s', r) ->
    served runes Unix maxLen s'
| served_stream_receives (s : TicTacToeServer) (ch : nat) (update : GameUpdate)
    (chans : gmap nat Chan) :
    served runes Unix maxLen s ->
    recv_chan (channels s) ch = Some (update, chans) ->
    served runes Unix maxLen (set_channels chans s)
| served_stream_returns (s s' : TicTacToeServer) (gameId : string) (ch : nat) :
    served runes Unix maxLen s ->
    ch ∈ subscribers_of s gameId ->
    TicTacToeServer_unsubscribe s gameId ch = Done s' ->
    served runes Unix maxLen s'.

(** The limit and the offset ListPendingGames passes on. *)
Definition clamped_limit (limit : Z) : Z :=
  if limit <=? 0 then DefaultListLimit
  else if MaxListLimit <? limit then MaxListLimit else limit.

Definition clamped_offset (offset : Z) : Z := if offset <? 0 then 0 else offset.

(** The winner and the loser of a match that was won, and the matches of a
    store a user has won, lost, or drawn. *)
Definition winner_of (g : Game) : option string :=
  match Game_Status g with
  | StatusXWon => Some (Game_PlayerX g)
  | StatusOWon => Some (Game_PlayerO g)
  | _ => None
  end.

Definition loser_of (g : Game) : option string :=
  match Game_Status g with
  | StatusXWon => Some (Game_PlayerO g)
  | StatusOWon => Some (Game_PlayerX g)
  | _ => None
  end.

Definition drawn_by (v : string) (g : Game) : Prop :=
  Game_Status g = StatusDraw /\ (Game_PlayerX g = v \/ Game_PlayerO g = v).

#[export] Instance drawn_by_dec (v : string) (g : Game) : Decision (drawn_by v g).
Proof. unfold drawn_by. apply _. Defined.

Definition games_won (gs : GameStore) (v : string) : nat :=
  length (filter (fun g => winner_of g = Some v) (all_games gs)).

Definition games_lost (gs : GameStore) (v : string) : nat :=
  length (filter (fun g => loser_of g = Some v) (all_games gs)).

Definition games_drawn (gs : GameStore) (v : string) : nat :=
  length (filter (drawn_by v) (all_games gs)).

(** ** Tactics *)

(** Settles a [decide] whose proposition is closed by [done]. *)
Ltac settle_decide H :=
  first [rewrite decide_True in H by done | rewrite decide_False in H by done].

(** One request of a scenario: the call returns, or the scenario stops. *)
Ltac next_request :=
  unfold mbind, run_bind; cbv beta iota;
  match goal with
  | |- context [match ?call with Done _ => _ | Panic => _ | OutOfFuel => _ end] =>
      let H := fresh "Hcall" in
      destruct call as [[? ?]| |] eqn:H; [|done|done]
  end.

(** ** Concrete boards, matches and stores *)

Definition board_empty : Board :=
  {| Size := 3; WinLength := 3;
     Cells := [MarkEmpty; MarkEmpty; MarkEmpty;
               MarkEmpty; MarkEmpty; MarkEmpty;
               MarkEmpty; MarkEmpty; MarkEmpty] |}.

Definition board_two_x : Board :=
  {| Size := 3; WinLength := 3;
     Cells := [MarkX; MarkX; MarkEmpty;
               MarkO; MarkO; MarkEmpty;
               MarkEmpty; MarkEmpty; MarkEmpty] |}.

Definition board_x_row : Board :=
  {| Size := 3; WinLength := 3;
     Cells := [MarkX; MarkX; MarkX;
               MarkO; MarkO; MarkEmpty;
               MarkEmpty; MarkEmpty; MarkEmpty] |}.

Definition game_pending : Game :=
  {| Game_ID := "game-1"; Game_PlayerX := "player-1"; Game_PlayerO := EmptyString;
     Game_Board := board_empty; Game_Turn := MarkX; Game_Status := StatusPending;
     Game_CreatedAt := 0; Game_UpdatedAt := 0 |}.

Definition game_started : Game :=
  {| Game_ID := "game-1"; Game_PlayerX := "player-1"; Game_PlayerO := "player-2";
     Game_Board := board_empty; Game_Turn := MarkX; Game_Status := StatusInProgress;
     Game_CreatedAt := 0; Game_UpdatedAt := 1 |}.

Definition game_before_win : Game :=
  {| Game_ID := "game-1"; Game_PlayerX := "player-1"; Game_PlayerO := "player-2";
     Game_Board := board_two_x; Game_Turn := MarkX; Game_Status := StatusInProgress;
     Game_CreatedAt := 0; Game_UpdatedAt := 5 |}.

Definition game_won : Game :=
  {| Game_ID := "game-1"; Game_PlayerX := "player-1"; Game_PlayerO := "player-2";
     Game_Board := board_x_row; Game_Turn := MarkX; Game_Status := StatusXWon;
     Game_CreatedAt := 0; Game_UpdatedAt := 6 |}.

(** Two shards, one pending match in the first. *)
Definition store_one : GameStore :=
  {| GameStore_shards := [ {| games := {[ "game-1" := game_pending ]} |}; {| games := ∅ |} ];
     GameStore_numShards := 2 |}.

Definition visit_one : list (list (string * Game)) := [ [("game-1", game_pending)]; [] ].

(** One shard; the wins of user [u] are at the largest [int32]. *)
Definition stats_at_max : StatsStore :=
  {| StatsStore_shards :=
       [ {| stats := {[ "u" := {| UserID := "u"; Wins := 2147483647; Losses := 0;
                                  Draws := 0 |} ]} |} ];
     StatsStore_numShards := 1 |}.

(** The code points of a string of ASCII characters are its bytes. *)
Definition byte_runes (s : string) : list Z :=
  (fun a => Z.of_nat (Ascii.nat_of_ascii a)) <$> String.list_ascii_of_string s.

(** ** A server, and a match played on it *)

(** Two empty shards of matches, one empty shard of counters, and the server
    made of them. *)
Definition store_empty : GameStore :=
  {| GameStore_shards := [ {| games := ∅ |}; {| games := ∅ |} ];
     GameStore_numShards := 2 |}.

Definition stats_empty : StatsStore :=
  {| StatsStore_shards := [ {| stats := ∅ |} ]; StatsStore_numShards := 1 |}.

(** A clock that counts seconds. *)
Definition unix_seconds (t : Time) : Z := t.

Definition server_new : TicTacToeServer := NewTicTacToeServer store_empty stats_empty.

(** The server with one stream open on match game-1. *)
Definition server_streaming : TicTacToeServer :=
  TicTacToeServer_subscribe
    (set_channels (<[0%nat := make_chan 10]> (channels server_new)) server_new)
    "game-1" 0%nat.

(** A match played on the server while a stream watches it: after the
    opening player-1 holds two cells of the top row, and completes the row
    with the fifth move. *)
Definition opening (s : TicTacToeServer) : run TicTacToeServer :=
  '(s, _) ← TicTacToeServer_CreateGame byte_runes unix_seconds 1000 0 "game-1" s
              "player-1" 0 0;
  '(s, _) ← StreamGameUpdates_enter byte_runes s "game-1";
  '(s, _) ← TicTacToeServer_JoinGame byte_runes unix_seconds 1 s "player-2" "game-1";
  '(s, _) ← TicTacToeServer_MakeMove byte_runes unix_seconds 2 s "player-1" "game-1" 0 0;
  '(s, _) ← TicTacToeServer_MakeMove byte_runes unix_seconds 3 s "player-2" "game-1" 1 0;
  '(s, _) ← TicTacToeServer_MakeMove byte_runes unix_seconds 4 s "player-1" "game-1" 0 1;
  '(s, _) ← TicTacToeServer_MakeMove byte_runes unix_seconds 5 s "player-2" "game-1" 1 1;
  Done s.

Definition play (s : TicTacToeServer) : run TicTacToeServer :=
  s ← opening s;
  '(s, _) ← TicTacToeServer_MakeMove byte_runes unix_seconds 6 s "player-1" "game-1" 0 2;
  Done s.

(** * Properties *)

(** ** Machine arithmetic inside its range *)

Lemma wrap64_id (z : Z) : is_int z -> wrap64 z = z.
Proof.
  unfold is_int, int_min, int_max, wrap64, wrap. intros Hz.
  change (2 ^ (64 - 1)) with 9223372036854775808.
  change (2 ^ 64) with 18446744073709551616.
  change (2 ^ 63) with 9223372036854775808 in Hz.
  rewrite Z.mod_small; lia.
Qed.

Lemma wrap32_id (z : Z) : is_int32 z -> wrap32 z = z.
Proof.
  unfold is_int32, int32_min, int32_max, wrap32, wrap. intros Hz.
  change (2 ^ (32 - 1)) with 2147483648.
  change (2 ^ 32) with 4294967296.
  change (2 ^ 31) with 2147483648 in Hz.
  rewrite Z.mod_small; lia.
Qed.

Lemma add64_id (a b : Z) : is_int (a + b) -> add64 a b = a + b.
Proof. apply wrap64_id. Qed.

Lemma mul64_id (a b : Z) : is_int (a * b) -> mul64 a b = a * b.
Proof. apply wrap64_id. Qed.

Lemma int_max_val : int_max = 9223372036854775807.
Proof. reflexivity. Qed.

Lemma int_min_val : int_min = -9223372036854775808.
Proof. reflexivity. Qed.

Lemma Mark_eqb_eq (a b : Mark) : Mark_eqb a b = true <-> a = b.
Proof. destruct a, b; simpl; split; congruence. Qed.

Lemma Mark_eqb_neq (a b : Mark) : Mark_eqb a b = false <-> a <> b.
Proof. destruct a, b; simpl; split; congruence. Qed.

Lemma Status_eqb_eq (a b : Status) : Status_eqb a b = true <-> a = b.
Proof. destruct a, b; simpl; split; congruence. Qed.

Lemma Status_eqb_neq (a b : Status) : Status_eqb a b = false <-> a <> b.
Proof. destruct a, b; simpl; split; congruence. Qed.

(** ** The grid and its invariant *)

Lemma isValidPosition_true (b : Board) (row col : Z) :
  Board_isValidPosition b row col = true <-> (0 <= row < Size b /\ 0 <= col < Size b).
Proof. unfold Board_isValidPosition. rewrite !andb_true_iff. lia. Qed.

Lemma isValidPosition_false (b : Board) (row col : Z) :
  Board_isValidPosition b row col = false <-> ~ (0 <= row < Size b /\ 0 <= col < Size b).
Proof.
  rewrite <- isValidPosition_true.
  destruct (Board_isValidPosition b row col); split; congruence.
Qed.

Lemma Board_inv_Size (b : Board) : Board_inv b -> 3 <= Size b <= int_max.
Proof. unfold Board_inv. rewrite int_max_val. intros (? & ? & ?). nia. Qed.

Lemma cell_index (b : Board) (row col : Z) :
  Board_inv b -> Board_isValidPosition b row col = true ->
  add64 (mul64 row (Size b)) col = row * Size b + col /\
  0 <= row * Size b + col < len (Cells b).
Proof.
  intros Hinv Hv. apply isValidPosition_true in Hv.
  destruct Hinv as (Hw & Hlen & Hmax). rewrite int_max_val in Hmax.
  assert (0 <= row * Size b + col < Size b * Size b) as Hidx by nia.
  assert (0 <= row * Size b <= Size b * Size b) by nia.
  split; [|lia].
  rewrite mul64_id by (unfold is_int; rewrite int_max_val, int_min_val; lia).
  apply add64_id. unfold is_int; rewrite int_max_val, int_min_val; lia.
Qed.

Lemma index_Done {A : Type} (s : list A) (i : Z) (x : A) :
  index s i = Done x <-> 0 <= i /\ s !! Z.to_nat i = Some x.
Proof.
  unfold index. destruct (Z.ltb_spec i 0).
  - split; [discriminate | lia].
  - destruct (s !! Z.to_nat i); split; intros; try discriminate; intuition congruence.
Qed.

Lemma index_in_range {A : Type} (s : list A) (i : Z) :
  0 <= i < len s -> exists x, index s i = Done x /\ s !! Z.to_nat i = Some x.
Proof.
  intros Hi. unfold len in Hi.
  destruct (lookup_lt_is_Some_2 s (Z.to_nat i)) as [x Hx]; [lia|].
  exists x. split; [|done]. apply index_Done. split; [lia|done].
Qed.

(** On a grid, [Get] is total and reads [mark_at]. *)
Lemma Board_Get_valid (b : Board) (row col : Z) :
  Board_inv b -> Board_isValidPosition b row col = true ->
  exists m, Board_Get b row col = Done (m, None) /\ mark_at b row col = Some m.
Proof.
  intros Hinv Hv. destruct (cell_index b row col Hinv Hv) as [Hidx Hrange].
  destruct (index_in_range (Cells b) _ Hrange) as (m & Hi & Hl).
  exists m. unfold Board_Get, mark_at. rewrite Hv, Hidx. simpl. rewrite Hi. done.
Qed.

Lemma Board_Get_invalid (b : Board) (row col : Z) :
  Board_isValidPosition b row col = false ->
  Board_Get b row col = Done (MarkEmpty, Some ErrInvalidPosition).
Proof. intros Hv. unfold Board_Get. rewrite Hv. done. Qed.

Lemma mark_at_valid (b : Board) (row col : Z) (m : Mark) :
  mark_at b row col = Some m -> Board_isValidPosition b row col = true.
Proof. unfold mark_at. destruct (Board_isValidPosition b row col); done. Qed.

(** ** Counting along a direction *)

Lemma togo_step (b : Board) (r c dRow dCol : Z) :
  is_direction dRow dCol -> Board_isValidPosition b r c = true ->
  1 <= togo b r c dRow dCol /\
  togo b (r + dRow) (c + dCol) dRow dCol = togo b r c dRow dCol - 1.
Proof.
  intros (Hr & Hc & Hnz) Hv. apply isValidPosition_true in Hv. unfold togo.
  destruct (Z.eqb_spec dRow 1); [lia|].
  destruct (Z.eqb_spec dRow (-1)); [lia|].
  destruct (Z.eqb_spec dCol 1); [lia|]. lia.
Qed.

(** The loop stops, without running out of fuel, after the maximal run of
    [mark] on the ray. *)
Lemma countInDirection_loop_spec (fuel : nat) (b : Board) (dRow dCol : Z) (mark : Mark) :
  Board_inv b -> is_direction dRow dCol ->
  forall (r c count : Z),
    0 <= count ->
    count + Z.max 0 (togo b r c dRow dCol) <= int_max ->
    Z.max 0 (togo b r c dRow dCol) < Z.of_nat fuel ->
    exists n,
      0 <= n <= Z.max 0 (togo b r c dRow dCol) /\
      countInDirection_loop fuel b r c dRow dCol mark count = Done (count + n) /\
      (forall k, 0 <= k < n -> mark_at b (r + k * dRow) (c + k * dCol) = Some mark) /\
      mark_at b (r + n * dRow) (c + n * dCol) <> Some mark.
Proof.
  intros Hinv Hdir. pose proof (Board_inv_Size b Hinv) as HS.
  rewrite int_max_val in HS.
  induction fuel as [|fuel IH]; intros r c count Hcount Hmax Hfuel; [lia|].
  simpl. destruct (Board_isValidPosition b r c) eqn:Hv.
  - destruct (Board_Get_valid b r c Hinv Hv) as (m & Hget & Hm).
    destruct (togo_step b r c dRow dCol Hdir Hv) as [Hpos Hnext].
    pose proof (proj1 (isValidPosition_true b r c) Hv) as [Hr Hc].
    rewrite Hget. run_simpl.
    destruct (Mark_eqb m mark) eqn:Hmk.
    + apply Mark_eqb_eq in Hmk. subst m.
      destruct Hdir as (Hdr & Hdc & Hnz).
      rewrite int_max_val in Hmax.
      rewrite !add64_id by (unfold is_int; rewrite int_max_val, int_min_val; lia).
      destruct (IH (r + dRow) (c + dCol) (count + 1)) as (n & Hn & Hrun & Hall & Hstop);
        try (rewrite ?Hnext, ?int_max_val; lia).
      exists (n + 1). rewrite Hnext in Hn. split; [lia|]. split.
      { rewrite Hrun. f_equal. lia. }
      split.
      * intros k Hk. destruct (Z.eq_dec k 0) as [->|Hk0].
        { rewrite Z.mul_0_l, !Z.add_0_r. done. }
        replace (r + k * dRow) with (r + dRow + (k - 1) * dRow) by lia.
        replace (c + k * dCol) with (c + dCol + (k - 1) * dCol) by lia.
        apply Hall. lia.
      * replace (r + (n + 1) * dRow) with (r + dRow + n * dRow) by lia.
        replace (c + (n + 1) * dCol) with (c + dCol + n * dCol) by lia.
        done.
    + apply Mark_eqb_neq in Hmk. exists 0. split; [lia|]. split; [f_equal; lia|].
      split; [intros; lia|]. rewrite !Z.mul_0_l, !Z.add_0_r, Hm. congruence.
  - exists 0. split; [lia|]. split; [f_equal; lia|].
    split; [intros; lia|]. rewrite !Z.mul_0_l, !Z.add_0_r. unfold mark_at. rewrite Hv. done.
Qed.

Lemma countInDirection_spec (b : Board) (row col dRow dCol : Z) (mark : Mark) :
  Board_inv b -> is_direction dRow dCol -> Board_isValidPosition b row col = true ->
  exists n,
    0 <= n < Size b /\
    Board_countInDirection (CheckWinner_fuel b) b row col dRow dCol mark = Done n /\
    (forall k, 1 <= k <= n -> mark_at b (row + k * dRow) (col + k * dCol) = Some mark) /\
    mark_at b (row + (n + 1) * dRow) (col + (n + 1) * dCol) <> Some mark.
Proof.
  intros Hinv Hdir Hv. pose proof (Board_inv_Size b Hinv) as HS.
  rewrite int_max_val in HS.
  pose proof (proj1 (isValidPosition_true b row col) Hv) as [Hr Hc].
  destruct (togo_step b row col dRow dCol Hdir Hv) as [Hpos Hnext].
  assert (togo b row col dRow dCol <= Size b) as Hle.
  { unfold togo. repeat case_match; lia. }
  unfold Board_countInDirection, CheckWinner_fuel.
  pose proof Hdir as (Hdr & Hdc & Hnz).
  rewrite !add64_id by (unfold is_int; rewrite int_max_val, int_min_val; lia).
  destruct (countInDirection_loop_spec (S (Z.to_nat (Size b))) b dRow dCol mark Hinv Hdir
              (row + dRow) (col + dCol) 0) as (n & Hn & Hrun & Hall & Hstop);
    try (rewrite ?Hnext, ?int_max_val; lia).
  rewrite Hnext in Hn.
  exists n. split; [lia|]. split; [rewrite Hrun; f_equal; lia|]. split.
  - intros k Hk.
    replace (row + k * dRow) with (row + dRow + (k - 1) * dRow) by lia.
    replace (col + k * dCol) with (col + dCol + (k - 1) * dCol) by lia.
    apply Hall. lia.
  - replace (row + (n + 1) * dRow) with (row + dRow + n * dRow) by lia.
    replace (col + (n + 1) * dCol) with (col + dCol + n * dCol) by lia.
    done.
Qed.

(** ** Winning lines *)

Lemma neg64_unit (d : Z) : -1 <= d <= 1 -> neg64 d = - d.
Proof.
  intros Hd. apply wrap64_id. unfold is_int. rewrite int_max_val, int_min_val. lia.
Qed.

Lemma is_direction_neg (dRow dCol : Z) :
  is_direction dRow dCol -> is_direction (- dRow) (- dCol).
Proof. unfold is_direction. lia. Qed.

(** One pass of the loop over [directions]: both counts return, their sum
    does not overflow, and it reaches [winLength] exactly when there is a
    line with that step. *)
Lemma count_both_ways (b : Board) (row col : Z) (mark : Mark) (d : Z * Z) :
  Board_inv b -> is_direction d.1 d.2 -> mark_at b row col = Some mark ->
  exists p n,
    Board_countInDirection (CheckWinner_fuel b) b row col d.1 d.2 mark = Done p /\
    Board_countInDirection (CheckWinner_fuel b) b row col (neg64 d.1) (neg64 d.2) mark = Done n /\
    add64 (add64 1 p) n = 1 + p + n /\
    (WinLength b <= 1 + p + n <-> line_through b row col mark d).
Proof.
  intros Hinv Hdir Horigin. destruct d as [d1 d2]; simpl in *.
  pose proof (mark_at_valid _ _ _ _ Horigin) as Hv.
  pose proof (Board_inv_Size b Hinv) as HS. rewrite int_max_val in HS.
  destruct (countInDirection_spec b row col d1 d2 mark Hinv Hdir Hv)
    as (p & Hp & Hrunp & Hallp & Hstopp).
  destruct (countInDirection_spec b row col (- d1) (- d2) mark Hinv
              (is_direction_neg _ _ Hdir) Hv) as (n & Hn & Hrunn & Halln & Hstopn).
  pose proof Hdir as (Hd1 & Hd2 & _).
  exists p, n. rewrite !neg64_unit by done.
  split; [done|]. split; [done|]. split.
  { destruct Hinv as (_ & _ & Hmax). rewrite int_max_val in Hmax.
    rewrite !add64_id; unfold is_int; rewrite ?int_max_val, ?int_min_val; try lia.
    rewrite add64_id; unfold is_int; rewrite ?int_max_val, ?int_min_val; nia. }
  split.
  - intros Hwin. exists (- n), p. split; [lia|]. split; [lia|].
    intros k Hk. simpl.
    destruct (Z.eq_dec k 0) as [->|Hk0].
    { rewrite !Z.mul_0_l, !Z.add_0_r. done. }
    destruct (Z_lt_le_dec 0 k) as [Hpos|Hneg].
    + apply Hallp. lia.
    + replace (row + k * d1) with (row + (- k) * (- d1)) by lia.
      replace (col + k * d2) with (col + (- k) * (- d2)) by lia.
      apply Halln. lia.
  - intros (lo & hi & Hlohi & Hlen & Hall). simpl in Hall.
    assert (hi <= p) as Hhi.
    { destruct (Z_le_gt_dec hi p) as [|Hgt]; [done|]. exfalso.
      apply Hstopp. apply Hall. lia. }
    assert (- lo <= n) as Hlo.
    { destruct (Z_le_gt_dec (- lo) n) as [|Hgt]; [done|]. exfalso.
      apply Hstopn.
      replace (row + (n + 1) * - d1) with (row + (- (n + 1)) * d1) by lia.
      replace (col + (n + 1) * - d2) with (col + (- (n + 1)) * d2) by lia.
      apply Hall. lia. }
    lia.
Qed.

Lemma CheckWinner_loop_spec (b : Board) (row col : Z) (mark : Mark) (dirs : list (Z * Z)) :
  Board_inv b -> mark_at b row col = Some mark ->
  Forall (fun d => is_direction d.1 d.2) dirs ->
  (Exists (line_through b row col mark) dirs /\
   CheckWinner_loop (CheckWinner_fuel b) b row col mark dirs = Done mark) \/
  (~ Exists (line_through b row col mark) dirs /\
   CheckWinner_loop (CheckWinner_fuel b) b row col mark dirs = Done MarkEmpty).
Proof.
  intros Hinv Horigin. induction 1 as [|d dirs Hd _ IH]; simpl.
  - right. split; [|done]. intros H. inversion H.
  - destruct (count_both_ways b row col mark d Hinv Hd Horigin)
      as (p & n & Hp & Hn & Hsum & Hiff).
    rewrite Hp. run_simpl. rewrite Hn. run_simpl. rewrite Hsum.
    destruct (Z.leb_spec (WinLength b) (1 + p + n)) as [Hwin|Hno].
    + left. split; [|done]. apply Exists_cons_hd. by apply Hiff.
    + destruct IH as [[Hex Hrun]|[Hnex Hrun]].
      * left. split; [by apply Exists_cons_tl | done].
      * right. split; [|done]. intros Hex. inversion Hex; subst.
        -- apply Hiff in H0. lia.
        -- done.
Qed.

Lemma directions_are_directions : Forall (fun d => is_direction d.1 d.2) directions.
Proof. unfold directions, is_direction. repeat constructor; simpl; lia. Qed.

Lemma wins_through_directions (b : Board) (row col : Z) (m : Mark) :
  wins_through b row col m <-> Exists (line_through b row col m) directions.
Proof.
  unfold wins_through, directions. rewrite !Exists_cons, Exists_nil. split.
  - intros [[] H]; simpl in H; tauto.
  - intros [H|[H|[H|[H|[]]]]];
      [exists Horizontal | exists Vertical | exists Diagonal | exists AntiDiagonal]; exact H.
Qed.

(** What CheckWinner returns on a grid, case by case. *)
Lemma CheckWinner_cases (b : Board) (row col : Z) :
  Board_inv b ->
  match mark_at b row col with
  | None | Some MarkEmpty => Board_CheckWinner b row col = Done MarkEmpty
  | Some m =>
      (wins_through b row col m /\ Board_CheckWinner b row col = Done m) \/
      (~ wins_through b row col m /\ Board_CheckWinner b row col = Done MarkEmpty)
  end.
Proof.
  intros Hinv. unfold Board_CheckWinner, Board_CheckWinner_fuel.
  destruct (mark_at b row col) as [m|] eqn:Hm.
  - pose proof (mark_at_valid _ _ _ _ Hm) as Hv.
    destruct (Board_Get_valid b row col Hinv Hv) as (m' & Hget & Hm').
    assert (m' = m) as -> by congruence. rewrite Hget. run_simpl.
    pose proof (CheckWinner_loop_spec b row col m directions Hinv Hm
                  directions_are_directions) as Hloop.
    rewrite <- wins_through_directions in Hloop.
    destruct m; simpl; try done.
  - unfold mark_at in Hm. destruct (Board_isValidPosition b row col) eqn:Hv.
    + destruct (Board_Get_valid b row col Hinv Hv) as (m' & _ & Hm').
      unfold mark_at in Hm'. rewrite Hv in Hm'. congruence.
    + rewrite (Board_Get_invalid b row col Hv). run_simpl. done.
Qed.

(** C2. On every grid, for an in-bounds cell holding a mark [m] other than
    Empty, CheckWinner returns [m] exactly when one of the four orientations
    through the cell has at least [winLength] consecutive cells equal to [m],
    the cell itself among them; when there is no such line, when the cell is
    Empty and when the position is out of bounds, it returns Empty. *)
Theorem CheckWinner_correct (b : Board) (row col : Z) :
  Board_inv b ->
  (forall m, mark_at b row col = Some m -> m <> MarkEmpty ->
     (Board_CheckWinner b row col = Done m <-> wins_through b row col m)) /\
  (forall m, mark_at b row col = Some m -> m <> MarkEmpty ->
     ~ wins_through b row col m -> Board_CheckWinner b row col = Done MarkEmpty) /\
  (mark_at b row col = Some MarkEmpty -> Board_CheckWinner b row col = Done MarkEmpty) /\
  (Board_isValidPosition b row col = false -> Board_CheckWinner b row col = Done MarkEmpty).
Proof.
  intros Hinv. pose proof (CheckWinner_cases b row col Hinv) as Hc.
  split; [|split; [|split]].
  - intros m Hm Hne. rewrite Hm in Hc. split.
    + intros Hrun. destruct m; try done;
        destruct Hc as [[Hw _]|[_ Hr]]; try done; congruence.
    + intros Hw. destruct m; try done;
        destruct Hc as [[_ Hr]|[Hnw _]]; done.
  - intros m Hm Hne Hnw. rewrite Hm in Hc. destruct m; try done;
      destruct Hc as [[Hw _]|[_ Hr]]; done.
  - intros Hm. rewrite Hm in Hc. done.
  - intros Hv. unfold mark_at in Hc. rewrite Hv in Hc. done.
Qed.

(** ** Placement *)

Lemma Board_IsFull_true (b : Board) : Board_IsFull b = true <-> grid_full b.
Proof.
  unfold Board_IsFull, grid_full. induction (Cells b) as [|m cells IH]; simpl.
  - split; [constructor | done].
  - rewrite Forall_cons. destruct (Mark_eqb m MarkEmpty) eqn:Hm.
    + apply Mark_eqb_eq in Hm. split; [done | tauto].
    + apply Mark_eqb_neq in Hm. tauto.
Qed.

(** The four ways a call of Set ends. *)
Lemma Board_Set_cases (b : Board) (row col : Z) (mark : Mark) :
  (Board_isValidPosition b row col = false /\
   Board_Set b row col mark = Done (b, Some ErrInvalidPosition)) \/
  (Board_isValidPosition b row col = true /\
   index (Cells b) (add64 (mul64 row (Size b)) col) = Panic /\
   Board_Set b row col mark = Panic) \/
  (exists m, Board_isValidPosition b row col = true /\
   index (Cells b) (add64 (mul64 row (Size b)) col) = Done m /\ m <> MarkEmpty /\
   Board_Set b row col mark = Done (b, Some ErrCellOccupied)) \/
  (Board_isValidPosition b row col = true /\
   index (Cells b) (add64 (mul64 row (Size b)) col) = Done MarkEmpty /\
   Board_Set b row col mark =
     Done ({| Size := Size b; WinLength := WinLength b;
              Cells := <[Z.to_nat (add64 (mul64 row (Size b)) col) := mark]> (Cells b) |},
           None)).
Proof.
  unfold Board_Set. destruct (Board_isValidPosition b row col); simpl; [|by left].
  right. unfold index.
  destruct (add64 (mul64 row (Size b)) col <? 0); [by left|].
  destruct (Cells b !! Z.to_nat (add64 (mul64 row (Size b)) col)) as [m|]; [|by left].
  run_simpl. right. destruct m; simpl.
  - by right.
  - left. by exists MarkX.
  - left. by exists MarkO.
Qed.

Lemma Board_Set_error (b b' : Board) (row col : Z) (mark : Mark) (e : error) :
  Board_Set b row col mark = Done (b', Some e) ->
  b' = b /\ (e = ErrInvalidPosition \/ e = ErrCellOccupied).
Proof.
  destruct (Board_Set_cases b row col mark)
    as [[_ H]|[(_ & _ & H)|[(m & _ & _ & _ & H)|(_ & _ & H)]]];
    rewrite H; intros [= <- <-] || intros [=]; auto.
Qed.

Lemma Board_Set_inv (b b' : Board) (row col : Z) (mark : Mark) (e : option error) :
  Board_inv b -> Board_Set b row col mark = Done (b', e) -> Board_inv b'.
Proof.
  intros Hinv.
  destruct (Board_Set_cases b row col mark)
    as [[_ H]|[(_ & _ & H)|[(m & _ & _ & _ & H)|(_ & _ & H)]]];
    rewrite H; intros [= <- <-] || intros [=]; try done.
  unfold Board_inv, len in *. simpl. by rewrite length_insert.
Qed.

(** On a grid Set always returns. *)
Lemma Board_Set_returns (b : Board) (row col : Z) (mark : Mark) :
  Board_inv b -> exists b' e, Board_Set b row col mark = Done (b', e).
Proof.
  intros Hinv.
  destruct (Board_Set_cases b row col mark)
    as [[_ H]|[(Hv & Hi & _)|[(m & _ & _ & _ & H)|(_ & _ & H)]]]; eauto.
  destruct (cell_index b row col Hinv Hv) as [Hidx Hrange].
  destruct (index_in_range (Cells b) _ Hrange) as (m & Hm & _).
  rewrite Hidx in Hi. congruence.
Qed.

Lemma Board_CheckWinner_returns (b : Board) (row col : Z) :
  Board_inv b -> exists w, Board_CheckWinner b row col = Done w.
Proof.
  intros Hinv. pose proof (CheckWinner_cases b row col Hinv) as Hc.
  destruct (mark_at b row col) as [[]|]; eauto; destruct Hc as [[_ ?]|[_ ?]]; eauto.
Qed.

(** The fuel of CheckWinner is enough on every board whose size is an [int],
    grid or not: the embedding never stops a call that Go would finish. *)
Lemma countInDirection_loop_fuel (fuel : nat) (b : Board) (dRow dCol : Z) (mark : Mark) :
  is_int (Size b) -> is_direction dRow dCol ->
  forall (r c count : Z),
    Z.max 0 (togo b r c dRow dCol) < Z.of_nat fuel ->
    countInDirection_loop fuel b r c dRow dCol mark count <> OutOfFuel.
Proof.
  intros HS Hdir. unfold is_int in HS. rewrite int_max_val, int_min_val in HS.
  induction fuel as [|fuel IH]; intros r c count Hfuel; [lia|].
  simpl. destruct (Board_isValidPosition b r c) eqn:Hv; [|done].
  destruct (togo_step b r c dRow dCol Hdir Hv) as [Hpos Hnext].
  pose proof (proj1 (isValidPosition_true b r c) Hv) as [Hr Hc].
  unfold Board_Get. rewrite Hv. simpl.
  destruct (index (Cells b) (add64 (mul64 r (Size b)) c)) as [m| |] eqn:Hi;
    run_simpl; [|done|].
  - destruct (Mark_eqb m mark); [|done].
    destruct Hdir as (Hdr & Hdc & Hnz).
    rewrite !(add64_id r), !(add64_id c)
      by (unfold is_int; rewrite int_max_val, int_min_val; lia).
    apply IH. rewrite Hnext. lia.
  - unfold index in Hi. repeat case_match; done.
Qed.

Lemma CheckWinner_loop_fuel (b : Board) (row col : Z) (mark : Mark) (dirs : list (Z * Z)) :
  is_int (Size b) -> Board_isValidPosition b row col = true ->
  Forall (fun d => is_direction d.1 d.2) dirs ->
  CheckWinner_loop (CheckWinner_fuel b) b row col mark dirs <> OutOfFuel.
Proof.
  intros HS Hv. pose proof HS as HS'. unfold is_int in HS'.
  rewrite int_max_val, int_min_val in HS'.
  pose proof (proj1 (isValidPosition_true b row col) Hv) as [Hr Hc].
  assert (forall dRow dCol, is_direction dRow dCol ->
            Board_countInDirection (CheckWinner_fuel b) b row col dRow dCol mark
            <> OutOfFuel) as Hcount.
  { intros dRow dCol Hdir. unfold Board_countInDirection.
    destruct (togo_step b row col dRow dCol Hdir Hv) as [Hpos Hnext].
    assert (togo b row col dRow dCol <= Size b) by (unfold togo; repeat case_match; lia).
    pose proof Hdir as (Hdr & Hdc & _).
    rewrite !add64_id by (unfold is_int; rewrite int_max_val, int_min_val; lia).
    apply countInDirection_loop_fuel; [done | done |].
    rewrite Hnext. unfold CheckWinner_fuel. lia. }
  induction 1 as [|d dirs Hd _ IH]; simpl; [done|].
  pose proof (Hcount d.1 d.2 Hd) as Hp.
  pose proof (Hcount (- d.1) (- d.2) (is_direction_neg _ _ Hd)) as Hn.
  destruct Hd as (Hd1 & Hd2 & _). rewrite !neg64_unit by done.
  destruct (Board_countInDirection (CheckWinner_fuel b) b row col d.1 d.2 mark)
    as [p| |]; run_simpl; try done.
  destruct (Board_countInDirection (CheckWinner_fuel b) b row col (- d.1) (- d.2) mark)
    as [n| |]; run_simpl; try done.
  by destruct (WinLength b <=? add64 (add64 1 p) n).
Qed.

Lemma Board_CheckWinner_fuel_enough (b : Board) (row col : Z) :
  is_int (Size b) -> Board_CheckWinner b row col <> OutOfFuel.
Proof.
  intros HS. unfold Board_CheckWinner, Board_CheckWinner_fuel.
  destruct (Board_isValidPosition b row col) eqn:Hv.
  - destruct (Board_Get b row col) as [[m e]| |] eqn:Hget;
      unfold mbind, run_bind; cbv beta iota; [|done|].
    + destruct (bool_decide (e <> None) || Mark_eqb m MarkEmpty); [done|].
      apply CheckWinner_loop_fuel; [done | done | apply directions_are_directions].
    + unfold Board_Get, index in Hget. rewrite Hv in Hget. simpl in Hget.
      unfold mbind, run_bind in Hget. repeat case_match; done.
  - rewrite (Board_Get_invalid b row col Hv). done.
Qed.

(** ** The match state machine *)

Lemma set_Board_same (g : Game) : set_Board (Game_Board g) g = g.
Proof. by destruct g. Qed.

Lemma getPlayerMark_cases (g : Game) (playerID : string) :
  (playerID = Game_PlayerX g /\ Game_getPlayerMark g playerID = MarkX) \/
  (playerID <> Game_PlayerX g /\ playerID = Game_PlayerO g /\
   Game_getPlayerMark g playerID = MarkO) \/
  (playerID <> Game_PlayerX g /\ playerID <> Game_PlayerO g /\
   Game_getPlayerMark g playerID = MarkEmpty).
Proof.
  unfold Game_getPlayerMark.
  destruct (String.eqb_spec playerID (Game_PlayerX g)); [by left|].
  destruct (String.eqb_spec playerID (Game_PlayerO g)); right; [by left | by right].
Qed.

(** Every path through MakeMove. *)
Lemma MakeMove_cases (now : Time) (g : Game) (playerID : string) (row col : Z) :
  let mark := Game_getPlayerMark g playerID in
  let call := Game_MakeMove now g playerID row col in
  (Game_Status g <> StatusInProgress /\ call = Done (g, Some ErrGameNotInProgress)) \/
  (Game_Status g = StatusInProgress /\ mark = MarkEmpty /\
   call = Done (g, Some ErrPlayerNotInGame)) \/
  (Game_Status g = StatusInProgress /\ mark <> MarkEmpty /\ Game_Turn g <> mark /\
   call = Done (g, Some ErrNotYourTurn)) \/
  (Game_Status g = StatusInProgress /\ mark <> MarkEmpty /\ Game_Turn g = mark /\
   match Board_Set (Game_Board g) row col mark with
   | Done (board, Some e) => call = Done (set_Board board g, Some e)
   | Done (board, None) =>
       match Board_CheckWinner board row col with
       | Done winner => call = Done (after_move now g board winner, None)
       | Panic => call = Panic
       | OutOfFuel => call = OutOfFuel
       end
   | Panic => call = Panic
   | OutOfFuel => call = OutOfFuel
   end).
Proof.
  intros mark call. subst call. unfold Game_MakeMove. fold mark.
  destruct (Status_eqb (Game_Status g) StatusInProgress) eqn:Hs; simpl.
  2:{ left. apply Status_eqb_neq in Hs. done. }
  apply Status_eqb_eq in Hs. right.
  destruct (Mark_eqb mark MarkEmpty) eqn:Hm; simpl.
  { left. apply Mark_eqb_eq in Hm. done. }
  apply Mark_eqb_neq in Hm. right.
  destruct (Mark_eqb (Game_Turn g) mark) eqn:Ht; simpl.
  2:{ left. apply Mark_eqb_neq in Ht. done. }
  apply Mark_eqb_eq in Ht. right.
  split; [done|]. split; [done|]. split; [done|].
  destruct (Board_Set (Game_Board g) row col mark) as [[board [e|]]| |]; run_simpl; try done.
  destruct (Board_CheckWinner board row col) as [winner| |]; run_simpl; try done.
  unfold after_move. destruct winner; simpl; try done.
  destruct (Board_IsFull board); done.
Qed.

(** C1. A successful MakeMove on a match in progress: the mover's mark, X
    for playerX and O for playerO, is the turn and is placed by Set; if
    CheckWinner at the cell returns X the status becomes XWon, if it returns O
    the status becomes OWon, and in both cases the turn is left as it was;
    otherwise, if the grid is full after the placement the status becomes
    Draw; otherwise the status stays InProgress and the turn becomes the
    opponent of the mover's mark: O after a move of X, X after a move of O. *)
Theorem MakeMove_success (now : Time) (g g' : Game) (playerID : string) (row col : Z) :
  Game_Status g = StatusInProgress ->
  Game_MakeMove now g playerID row col = Done (g', None) ->
  let mark := Game_getPlayerMark g playerID in
  ((playerID = Game_PlayerX g /\ mark = MarkX) \/
   (playerID <> Game_PlayerX g /\ playerID = Game_PlayerO g /\ mark = MarkO)) /\
  Game_Turn g = mark /\
  Board_Set (Game_Board g) row col mark = Done (Game_Board g', None) /\
  exists winner,
    Board_CheckWinner (Game_Board g') row col = Done winner /\
    (winner = MarkX -> Game_Status g' = StatusXWon /\ Game_Turn g' = Game_Turn g) /\
    (winner = MarkO -> Game_Status g' = StatusOWon /\ Game_Turn g' = Game_Turn g) /\
    (winner = MarkEmpty -> grid_full (Game_Board g') -> Game_Status g' = StatusDraw) /\
    (winner = MarkEmpty -> ~ grid_full (Game_Board g') ->
       Game_Status g' = StatusInProgress /\
       (mark = MarkX -> Game_Turn g' = MarkO) /\
       (mark = MarkO -> Game_Turn g' = MarkX)).
Proof.
  intros Hs Hcall mark.
  assert ((playerID = Game_PlayerX g /\ mark = MarkX) \/
          (playerID <> Game_PlayerX g /\ playerID = Game_PlayerO g /\ mark = MarkO) \/
          mark = MarkEmpty) as Hwho.
  { subst mark. unfold Game_getPlayerMark.
    destruct (String.eqb_spec playerID (Game_PlayerX g)); [by left|].
    destruct (String.eqb_spec playerID (Game_PlayerO g)); [right; by left | right; by right]. }
  destruct (MakeMove_cases now g playerID row col)
    as [[_ H]|[(_ & _ & H)|[(_ & _ & _ & H)|(_ & Hm & Ht & H)]]];
    try (rewrite H in Hcall; discriminate).
  fold mark in H, Hm, Ht.
  destruct (Board_Set (Game_Board g) row col mark) as [[board [e|]]| |] eqn:Hset;
    try (rewrite H in Hcall; discriminate).
  destruct (Board_CheckWinner board row col) as [winner| |] eqn:Hw;
    try (rewrite H in Hcall; discriminate).
  rewrite H in Hcall. injection Hcall as <-.
  assert (Game_Board (after_move now g board winner) = board) as Hb.
  { unfold after_move. destruct winner; simpl; try done. by destruct (Board_IsFull board). }
  rewrite Hb.
  split; [destruct Hwho as [Hx|[Ho|He]]; [by left | by right | done]|].
  split; [done|]. split; [done|]. exists winner. split; [done|].
  rewrite <- Board_IsFull_true. unfold after_move.
  split; [intros ->; done|]. split; [intros ->; done|].
  split; [intros ->; destruct (Board_IsFull board); simpl; [done | congruence]|].
  intros -> Hfull. destruct (Board_IsFull board); [done|]. simpl.
  split; [done|]. rewrite Ht. split; intros ->; reflexivity.
Qed.

Lemma Join_cases (now : Time) (g : Game) (playerID : string) :
  (Game_Status g <> StatusPending /\
   Game_Join now g playerID = (g, Some ErrGameAlreadyStarted)) \/
  (Game_Status g = StatusPending /\ Game_PlayerX g = playerID /\
   Game_Join now g playerID = (g, Some ErrCannotJoinOwnGame)) \/
  (Game_Status g = StatusPending /\ Game_PlayerX g <> playerID /\
   Game_Join now g playerID =
     ({| Game_ID := Game_ID g; Game_PlayerX := Game_PlayerX g; Game_PlayerO := playerID;
         Game_Board := Game_Board g; Game_Turn := Game_Turn g;
         Game_Status := StatusInProgress; Game_CreatedAt := Game_CreatedAt g;
         Game_UpdatedAt := now |}, None)).
Proof.
  unfold Game_Join. destruct (Status_eqb (Game_Status g) StatusPending) eqn:Hs; simpl.
  2:{ left. apply Status_eqb_neq in Hs. done. }
  apply Status_eqb_eq in Hs. right.
  destruct (String.eqb_spec (Game_PlayerX g) playerID); [by left | by right].
Qed.

(** C4. The errors of MakeMove and Join, in the order they are checked.
    MakeMove: GameNotInProgress whenever the status is not InProgress; then
    PlayerNotInGame when playerID is neither playerX nor playerO; then
    NotYourTurn when the mark playerID resolves to (X for playerX, else O for
    playerO) is not the current turn; then the error of Set, which is
    InvalidPosition or CellOccupied, as Set returned it.  Join:
    GameAlreadyStarted whenever the status is not Pending; then
    CannotJoinOwnGame when playerID equals playerX. *)
Theorem errors_in_order (now : Time) (g : Game) (playerID : string) (row col : Z) :
  let mark := Game_getPlayerMark g playerID in
  (Game_Status g <> StatusInProgress ->
     Game_MakeMove now g playerID row col = Done (g, Some ErrGameNotInProgress)) /\
  (Game_Status g = StatusInProgress ->
     playerID <> Game_PlayerX g -> playerID <> Game_PlayerO g ->
     Game_MakeMove now g playerID row col = Done (g, Some ErrPlayerNotInGame)) /\
  (playerID = Game_PlayerX g -> mark = MarkX) /\
  (playerID <> Game_PlayerX g -> playerID = Game_PlayerO g -> mark = MarkO) /\
  (Game_Status g = StatusInProgress ->
     playerID = Game_PlayerX g \/ playerID = Game_PlayerO g ->
     mark <> Game_Turn g ->
     Game_MakeMove now g playerID row col = Done (g, Some ErrNotYourTurn)) /\
  (Game_Status g = StatusInProgress ->
     playerID = Game_PlayerX g \/ playerID = Game_PlayerO g ->
     mark = Game_Turn g ->
     forall board e, Board_Set (Game_Board g) row col mark = Done (board, Some e) ->
       Game_MakeMove now g playerID row col = Done (g, Some e) /\
       (e = ErrInvalidPosition \/ e = ErrCellOccupied)) /\
  (Game_Status g <> StatusPending ->
     Game_Join now g playerID = (g, Some ErrGameAlreadyStarted)) /\
  (Game_Status g = StatusPending -> playerID = Game_PlayerX g ->
     Game_Join now g playerID = (g, Some ErrCannotJoinOwnGame)).
Proof.
  intros mark.
  pose proof (MakeMove_cases now g playerID row col) as Hmove.
  pose proof (getPlayerMark_cases g playerID) as Hmark.
  pose proof (Join_cases now g playerID) as Hjoin.
  simpl in Hmove. fold mark in Hmove, Hmark.
  split; [|split; [|split; [|split; [|split; [|split; [|split]]]]]].
  - intros Hs. destruct Hmove as [[_ H]|[(? & _)|[(? & _)|(? & _)]]]; done.
  - intros Hs Hx Ho.
    destruct Hmark as [(? & _)|[(_ & ? & _)|(_ & _ & Hm)]]; try done.
    destruct Hmove as [[? _]|[(_ & _ & H)|[(_ & ? & _)|(_ & ? & _)]]]; done.
  - intros Hx. destruct Hmark as [(_ & Hm)|[(? & _)|(? & _)]]; done.
  - intros Hx Ho. destruct Hmark as [(? & _)|[(_ & _ & Hm)|(_ & ? & _)]]; done.
  - intros Hs Hp Hne.
    assert (mark <> MarkEmpty) as Hm.
    { destruct Hmark as [(_ & Hm)|[(_ & _ & Hm)|(? & ? & _)]];
        [rewrite Hm; done | rewrite Hm; done | tauto]. }
    destruct Hmove as [[? _]|[(_ & ? & _)|[(_ & _ & _ & H)|(_ & _ & ? & _)]]];
      done || congruence.
  - intros Hs Hp Heq board e Hset.
    assert (mark <> MarkEmpty) as Hm.
    { destruct Hmark as [(_ & Hm)|[(_ & _ & Hm)|(? & ? & _)]];
        [rewrite Hm; done | rewrite Hm; done | tauto]. }
    destruct Hmove as [[? _]|[(_ & ? & _)|[(_ & _ & ? & _)|(_ & _ & _ & H)]]];
      try (done || congruence).
    rewrite Hset in H. destruct (Board_Set_error _ _ _ _ _ _ Hset) as [-> He].
    rewrite set_Board_same in H. done.
  - intros Hs. destruct Hjoin as [[_ H]|[(? & _)|(? & _)]]; done.
  - intros Hs Hx. destruct Hjoin as [[? _]|[(_ & _ & H)|(_ & ? & _)]]; done || congruence.
Qed.

(** C5. Join, MakeMove and Set apply fully or not at all: when one of them
    returns an error, the state after the call (players, status, turn, every
    cell, both timestamps; size, win length and cells for Set) is the state
    before it. *)
Theorem error_leaves_state (now : Time) (g g' : Game) (b b' : Board)
    (playerID : string) (row col : Z) (mark : Mark) (e : error) :
  (Game_Join now g playerID = (g', Some e) -> g' = g) /\
  (Game_MakeMove now g playerID row col = Done (g', Some e) -> g' = g) /\
  (Board_Set b row col mark = Done (b', Some e) -> b' = b).
Proof.
  split; [|split].
  - destruct (Join_cases now g playerID) as [[_ H]|[(_ & _ & H)|(_ & _ & H)]];
      rewrite H; intros [=]; done.
  - destruct (MakeMove_cases now g playerID row col)
      as [[_ H]|[(_ & _ & H)|[(_ & _ & _ & H)|(_ & _ & _ & H)]]];
      try (rewrite H; intros [=]; done).
    destruct (Board_Set (Game_Board g) row col (Game_getPlayerMark g playerID))
      as [[board [e'|]]| |] eqn:Hset.
    + rewrite H. intros [= <- _]. apply Board_Set_error in Hset as [-> _].
      apply set_Board_same.
    + destruct (Board_CheckWinner board row col); rewrite H; intros [=].
    + rewrite H; intros [=].
    + rewrite H; intros [=].
  - intros Hset. by apply Board_Set_error in Hset as [-> _].
Qed.

(** ** Occupied cells *)

Lemma Board_Get_Done (b : Board) (row col : Z) (m : Mark) :
  Board_Get b row col = Done (m, None) <->
  Board_isValidPosition b row col = true /\
  index (Cells b) (add64 (mul64 row (Size b)) col) = Done m.
Proof.
  unfold Board_Get. destruct (Board_isValidPosition b row col); simpl.
  - destruct (index (Cells b) (add64 (mul64 row (Size b)) col)); run_simpl;
      split; [intros [= ->]; done | intros [_ [= ->]]; done | | | |];
      intros; try done; intuition discriminate.
  - split; [done | intros [? _]; done].
Qed.

(** A call of Set that returns, wherever it writes, leaves an occupied cell
    as it was. *)
Lemma Board_Set_keeps_occupied (b b' : Board) (row col r c : Z) (m k : Mark)
    (e : option error) :
  Board_Get b row col = Done (m, None) -> m <> MarkEmpty ->
  Board_Set b r c k = Done (b', e) ->
  Board_Get b' row col = Done (m, None).
Proof.
  intros Hget Hm.
  destruct (Board_Set_cases b r c k)
    as [[_ H]|[(_ & _ & H)|[(m' & _ & _ & _ & H)|(_ & Hi & H)]]];
    rewrite H; intros [= <- <-] || intros [=]; try done.
  apply Board_Get_Done in Hget as [Hv Hidx]. apply Board_Get_Done. simpl.
  split; [done|].
  apply index_Done in Hidx as [Hpos Hl]. apply index_Done in Hi as [Hpos' Hl'].
  apply index_Done. split; [done|].
  rewrite list_lookup_insert_ne; [done|]. intros Heq. rewrite Heq in Hl'. congruence.
Qed.

(** The board of a match after a call is the board before it, or what one
    call of Set made of it. *)
Lemma perform_board (g g' : Game) (c : Call) (e : option error) :
  perform g c = Done (g', e) ->
  Game_Board g' = Game_Board g \/
  exists r c' k e', Board_Set (Game_Board g) r c' k = Done (Game_Board g', e').
Proof.
  destruct c as [now playerID|now playerID row col]; simpl.
  - destruct (Join_cases now g playerID) as [[_ H]|[(_ & _ & H)|(_ & _ & H)]];
      rewrite H; intros [= <- _]; by left.
  - intros Hcall.
    destruct (MakeMove_cases now g playerID row col)
      as [[_ H]|[(_ & _ & H)|[(_ & _ & _ & H)|(_ & _ & _ & H)]]];
      try (rewrite H in Hcall; injection Hcall as <- _; by left).
    destruct (Board_Set (Game_Board g) row col (Game_getPlayerMark g playerID))
      as [[board [e'|]]| |] eqn:Hset; try (rewrite H in Hcall; discriminate).
    + rewrite H in Hcall. injection Hcall as <- _. right. simpl. eauto.
    + destruct (Board_CheckWinner board row col) as [winner| |];
        try (rewrite H in Hcall; discriminate).
      rewrite H in Hcall. injection Hcall as <- _. right.
      exists row, col, (Game_getPlayerMark g playerID), None. rewrite Hset.
      unfold after_move. destruct winner; simpl; try done.
      by destruct (Board_IsFull board).
Qed.

(** C6. Once a cell holds a mark other than Empty, Set on that cell fails
    with CellOccupied and returns the board as it was, for every mark
    argument, Empty included; after any sequence of Set calls, on any cells
    and with any marks, the cell still holds the same mark; and so it does
    after any history of Join and MakeMove calls on the match that owns the
    board. *)
Theorem occupied_cell_never_changes (b : Board) (row col : Z) (m : Mark) :
  Board_Get b row col = Done (m, None) -> m <> MarkEmpty ->
  (forall mark, Board_Set b row col mark = Done (b, Some ErrCellOccupied)) /\
  (forall calls b', Set_all b calls = Done b' -> Board_Get b' row col = Done (m, None)) /\
  (forall g tr g', Game_Board g = b -> history g tr g' ->
     Board_Get (Game_Board g') row col = Done (m, None)).
Proof.
  intros Hget Hm. split; [|split].
  - intros mark. apply Board_Get_Done in Hget as [Hv Hidx].
    unfold Board_Set. rewrite Hv, Hidx. run_simpl. by destruct m.
  - intros calls. revert b Hget.
    induction calls as [|[[r c] k] calls IH]; intros b Hget b'; simpl.
    + intros [= <-]. done.
    + destruct (Board_Set b r c k) as [[b1 e]| |] eqn:Hset; run_simpl; try done.
      apply IH. eapply Board_Set_keeps_occupied; eauto.
  - intros g tr g' <- Hh.
    induction Hh as [g|g g1 g2 c e tr Hcall _ IH]; [done|].
    apply IH. destruct (perform_board g g1 c e Hcall) as [->|(r & c' & k & e' & Hset)];
      [done|]. eapply Board_Set_keeps_occupied; eauto.
Qed.

(** ** Histories of a match *)

Lemma after_move_status (now : Time) (g : Game) (board : Board) (winner : Mark) :
  Game_Status g = StatusInProgress ->
  Game_Status (after_move now g board winner) = StatusInProgress \/
  Status_IsFinished (Game_Status (after_move now g board winner)) = true.
Proof.
  intros Hs. unfold after_move. destruct winner; simpl; auto.
  destruct (Board_IsFull board); simpl; auto.
Qed.

(** What one call does to the status. *)
Lemma perform_status (g g' : Game) (c : Call) (e : option error) :
  perform g c = Done (g', e) ->
  (Status_IsFinished (Game_Status g) = true -> g' = g) /\
  (Game_Status g = StatusPending ->
     (g' = g /\ is_successful_join (c, e) = false) \/
     (Game_Status g' = StatusInProgress /\ is_successful_join (c, e) = true)) /\
  (Game_Status g = StatusInProgress ->
     is_successful_join (c, e) = false /\
     (Game_Status g' = StatusInProgress \/ Status_IsFinished (Game_Status g') = true)) /\
  (Game_Status g <> StatusPending -> is_successful_join (c, e) = false).
Proof.
  destruct c as [now playerID|now playerID row col]; simpl.
  - destruct (Join_cases now g playerID) as [[Hs H]|[(Hs & _ & H)|(Hs & _ & H)]];
      rewrite H; intros [= <- <-]; simpl; rewrite ?Hs;
      repeat split; intros; try done; auto; by destruct (Game_Status g).
  - intros Hcall.
    destruct (MakeMove_cases now g playerID row col)
      as [[Hs H]|[(Hs & _ & H)|[(Hs & _ & _ & H)|(Hs & _ & _ & H)]]].
    1-3: rewrite H in Hcall; injection Hcall as <- <-; rewrite ?Hs;
         repeat split; intros; try done; auto.
    assert (Game_Status g' = StatusInProgress \/
            Status_IsFinished (Game_Status g') = true) as Hnext.
    { destruct (Board_Set (Game_Board g) row col (Game_getPlayerMark g playerID))
        as [[board [e'|]]| |]; try (rewrite H in Hcall; discriminate).
      - rewrite H in Hcall. injection Hcall as <- <-. simpl. auto.
      - destruct (Board_CheckWinner board row col) as [winner| |];
          try (rewrite H in Hcall; discriminate).
        rewrite H in Hcall. injection Hcall as <- <-. by apply after_move_status. }
    rewrite Hs. repeat split; intros; try done.
Qed.

Lemma Status_rank_pending (s : Status) : Status_rank s = 0%nat <-> s = StatusPending.
Proof. destruct s; simpl; split; intros; done || lia. Qed.

Lemma Status_rank_finished (s : Status) :
  Status_rank s = 2%nat <-> Status_IsFinished s = true.
Proof. destruct s; simpl; split; intros; done || lia. Qed.

Lemma Status_rank_cases (s : Status) :
  s = StatusPending \/ s = StatusInProgress \/ Status_IsFinished s = true.
Proof. destruct s; simpl; auto. Qed.

Lemma history_status (g g' : Game) (tr : list (Call * option error)) :
  history g tr g' ->
  (Status_rank (Game_Status g) <= Status_rank (Game_Status g'))%nat /\
  (Status_IsFinished (Game_Status g) = true -> g' = g) /\
  (Game_Status g <> StatusPending -> successful_joins tr = 0%nat) /\
  (Game_Status g = StatusPending -> Game_Status g' = StatusPending ->
     successful_joins tr = 0%nat) /\
  (Game_Status g = StatusPending -> Game_Status g' <> StatusPending ->
     successful_joins tr = 1%nat).
Proof.
  induction 1 as [g|g g1 g2 c e tr Hcall Hrest IH].
  - repeat split; intros; try done; simpl; lia.
  - destruct (perform_status g g1 c e Hcall) as (Hfin & Hpend & Hprog & Hnj).
    destruct IH as (IHrank & IHfin & IHnp & IHpp & IHpn).
    cbn [successful_joins].
    destruct (Status_rank_cases (Game_Status g)) as [Hs|[Hs|Hs]].
    + destruct (Hpend Hs) as [[-> Hj]|[Hs1 Hj]]; rewrite Hj.
      * repeat split; intros; auto; lia.
      * assert (Game_Status g1 <> StatusPending) as Hne by (rewrite Hs1; done).
        assert (Game_Status g2 <> StatusPending) as Hne2.
        { intros Hp. rewrite Hs1, Hp in IHrank. simpl in IHrank. lia. }
        rewrite (IHnp Hne), Hs. repeat split; intros; try done; simpl; lia.
    + destruct (Hprog Hs) as [Hj Hnext]. rewrite Hj.
      assert (Game_Status g1 <> StatusPending) as Hne.
      { destruct Hnext as [H1|H1]; [rewrite H1; done|].
        intros Hp. rewrite Hp in H1. done. }
      assert (1 <= Status_rank (Game_Status g1))%nat as Hr.
      { destruct (Game_Status g1); simpl; try lia. done. }
      rewrite (IHnp Hne), Hs. repeat split; intros; try done; simpl; lia.
    + rewrite (Hfin Hs) in *.
      assert (Game_Status g <> StatusPending) as Hne.
      { intros Hp. rewrite Hp in Hs. done. }
      rewrite (Hnj Hne), (IHnp Hne). repeat split; intros; try done; auto.
Qed.

(** C3. The status of a match only advances along
    Pending, InProgress, one of XWon, OWon, Draw.  One call: it leaves a
    finished match as it is; from Pending the status stays Pending or becomes
    InProgress, the latter only by a Join that succeeds; from InProgress it
    stays InProgress or becomes XWon, OWon or Draw.  Any sequence of calls:
    the status never moves backward, a finished match never changes, and a
    match that left Pending did so by exactly one successful Join, no other
    Join of the sequence succeeding. *)
Theorem status_only_advances :
  (forall g g' c e, perform g c = Done (g', e) ->
     (Status_IsFinished (Game_Status g) = true -> Game_Status g' = Game_Status g) /\
     (Game_Status g = StatusPending ->
        Game_Status g' = StatusPending \/
        (Game_Status g' = StatusInProgress /\
         exists now playerID, c = CallJoin now playerID /\ e = None)) /\
     (Game_Status g = StatusInProgress ->
        Game_Status g' = StatusInProgress \/
        Status_IsFinished (Game_Status g') = true)) /\
  (forall g g' tr, history g tr g' ->
     (Status_rank (Game_Status g) <= Status_rank (Game_Status g'))%nat /\
     (Status_IsFinished (Game_Status g) = true -> Game_Status g' = Game_Status g) /\
     (successful_joins tr <= 1)%nat /\
     (Game_Status g = StatusPending -> Game_Status g' <> StatusPending ->
        successful_joins tr = 1%nat) /\
     (Game_Status g <> StatusPending -> successful_joins tr = 0%nat)).
Proof.
  split.
  - intros g g' c e Hcall.
    destruct (perform_status g g' c e Hcall) as (Hfin & Hpend & Hprog & _).
    split; [|split].
    + intros Hs. by rewrite (Hfin Hs).
    + intros Hs. destruct (Hpend Hs) as [[-> _]|[Hs' Hj]]; [by left|].
      right. split; [done|].
      destruct c as [now playerID|]; [|done]. destruct e; [done|]. eauto.
    + intros Hs. by destruct (Hprog Hs).
  - intros g g' tr Hh.
    destruct (history_status g g' tr Hh) as (Hrank & Hfin & Hnp & Hpp & Hpn).
    split; [done|]. split; [intros Hs; by rewrite (Hfin Hs)|].
    split; [|split; [done|done]].
    destruct (decide (Game_Status g = StatusPending)) as [Hs|Hs].
    + destruct (decide (Game_Status g' = StatusPending)) as [Hs'|Hs'].
      * rewrite (Hpp Hs Hs'). lia.
      * rewrite (Hpn Hs Hs'). lia.
    + rewrite (Hnp Hs). lia.
Qed.

(** ** Construction *)

Lemma clear_from (n : nat) :
  forall (k : nat) (cells : list Mark),
    (k + n)%nat = length cells ->
    foldl (fun cs i => <[i := MarkEmpty]> cs) cells (seq k n) =
    take k cells ++ replicate n MarkEmpty.
Proof.
  induction n as [|n IH]; intros k cells Hlen; simpl.
  - rewrite app_nil_r, take_ge; [done | lia].
  - rewrite IH by (rewrite length_insert; lia).
    rewrite (take_S_r _ k MarkEmpty) by (apply list_lookup_insert_eq; lia).
    rewrite take_insert_ge by lia. by rewrite <- app_assoc.
Qed.

Lemma clear_cells_spec (cells : list Mark) :
  clear_cells cells = replicate (length cells) MarkEmpty.
Proof. unfold clear_cells. by rewrite clear_from. Qed.

Lemma NewBoard_succeeds (maxLen size winLength : Z) :
  maxLen <= int_max -> 3 <= winLength <= size -> size * size <= maxLen ->
  NewBoard maxLen size winLength =
    Done (Some {| Size := size; WinLength := winLength;
                  Cells := replicate (Z.to_nat (size * size)) MarkEmpty |}, None).
Proof.
  intros Hmax Hw Hfit. unfold NewBoard. rewrite int_max_val in Hmax.
  destruct (Z.ltb_spec size 3) as [|_]; [lia|].
  destruct (Z.ltb_spec winLength 3) as [|_]; [lia|].
  destruct (Z.ltb_spec size winLength) as [|_]; [lia|]. simpl.
  rewrite mul64_id by (unfold is_int; rewrite int_max_val, int_min_val; nia).
  unfold make_slice.
  destruct (Z.ltb_spec (size * size) 0) as [|_]; [nia|].
  destruct (Z.ltb_spec maxLen (size * size)) as [|_]; [lia|]. run_simpl.
  by rewrite clear_cells_spec, length_replicate.
Qed.

Lemma fresh_board_inv (size winLength : Z) :
  3 <= winLength <= size -> size * size <= int_max ->
  Board_inv {| Size := size; WinLength := winLength;
               Cells := replicate (Z.to_nat (size * size)) MarkEmpty |}.
Proof.
  intros Hw Hfit. unfold Board_inv, len. simpl. rewrite length_replicate.
  split; [done|]. split; [nia | done].
Qed.

(** C7, as amended.  NewBoard fails with InvalidBoardSize exactly when
    [size < 3]; for [size >= 3] it fails with InvalidWinLength exactly when
    [winLength < 3] or [winLength > size]; and for [3 <= winLength <= size],
    provided [size * size] is a slice length the run time allocates (at most
    [maxLen], itself at most the largest [int]), it succeeds with a board of
    that size and win length whose cell sequence has length [size * size],
    every cell Empty. *)
Theorem NewBoard_spec (maxLen size winLength : Z) :
  maxLen <= int_max ->
  (NewBoard maxLen size winLength = Done (None, Some ErrInvalidBoardSize) <-> size < 3) /\
  (3 <= size ->
     (NewBoard maxLen size winLength = Done (None, Some ErrInvalidWinLength)
      <-> winLength < 3 \/ size < winLength)) /\
  (3 <= winLength <= size -> size * size <= maxLen ->
     exists b, NewBoard maxLen size winLength = Done (Some b, None) /\
       Size b = size /\ WinLength b = winLength /\
       len (Cells b) = size * size /\
       Forall (fun m => m = MarkEmpty) (Cells b) /\
       Board_inv b).
Proof.
  intros Hmax. split; [|split].
  - unfold NewBoard. destruct (Z.ltb_spec size 3) as [Hs|Hs]; [split; [lia | done]|].
    split; [|lia].
    destruct ((winLength <? 3) || (size <? winLength)); [done|].
    destruct (make_slice maxLen MarkEmpty (mul64 size size)); done.
  - intros Hs. unfold NewBoard. destruct (Z.ltb_spec size 3) as [|_]; [lia|].
    destruct (Z.ltb_spec winLength 3) as [Hw|Hw]; simpl; [split; [lia | done]|].
    destruct (Z.ltb_spec size winLength) as [Hw'|Hw']; [split; [lia | done]|].
    split; [|lia]. destruct (make_slice maxLen MarkEmpty (mul64 size size)); done.
  - intros Hw Hfit. eexists. split; [by apply NewBoard_succeeds|]. simpl.
    pose proof (fresh_board_inv size winLength Hw ltac:(lia)) as Hinv.
    split; [done|]. split; [done|]. split; [apply Hinv|].
    split; [|done]. by apply Forall_replicate.
Qed.

(** NewBoard beyond the range of [int]: [3037000500 * 3037000500] wraps to a
    negative length, which [make] refuses; [4294967296 * 4294967296] wraps to
    [0], and the board returned has no cells. *)
Lemma NewBoard_overflows :
  3 <= 3 <= 3037000500 /\
  (forall maxLen, NewBoard maxLen 3037000500 3 = Panic) /\
  3 <= 3 <= 4294967296 /\
  (forall maxLen, 0 <= maxLen ->
     NewBoard maxLen 4294967296 3 =
       Done (Some {| Size := 4294967296; WinLength := 3; Cells := [] |}, None)).
Proof.
  split; [lia|]. split; [intros maxLen; reflexivity|]. split; [lia|].
  intros maxLen Hmax. unfold NewBoard. simpl.
  change (mul64 4294967296 4294967296) with 0. unfold make_slice.
  destruct (Z.ltb_spec maxLen 0) as [|_]; [lia|]. reflexivity.
Qed.

(** A match made by NewGame with a board that fits starts Pending, X to
    move, on a grid. *)
Lemma NewGame_inv (maxLen : Z) (now : Time) (id creatorID : string)
    (boardSize winLength : Z) :
  maxLen <= int_max -> 3 <= winLength <= boardSize -> boardSize * boardSize <= maxLen ->
  exists g, NewGame maxLen now id creatorID boardSize winLength = Done (Some g, None) /\
    Board_inv (Game_Board g) /\ Game_Status g = StatusPending /\ Game_Turn g = MarkX /\
    Game_PlayerX g = creatorID.
Proof.
  intros Hmax Hw Hfit. unfold NewGame.
  rewrite NewBoard_succeeds by done. run_simpl.
  eexists. split; [done|]. simpl. split; [|done].
  apply fresh_board_inv; [done | lia].
Qed.

(** On a grid every call returns, and leaves a grid. *)
Lemma perform_returns (g : Game) (c : Call) :
  Board_inv (Game_Board g) ->
  exists g' e, perform g c = Done (g', e) /\ Board_inv (Game_Board g').
Proof.
  intros Hinv. destruct c as [now playerID|now playerID row col]; simpl.
  - destruct (Join_cases now g playerID) as [[_ H]|[(_ & _ & H)|(_ & _ & H)]];
      rewrite H; eauto.
  - destruct (MakeMove_cases now g playerID row col)
      as [[_ H]|[(_ & _ & H)|[(_ & _ & _ & H)|(_ & _ & _ & H)]]]; eauto.
    destruct (Board_Set_returns (Game_Board g) row col (Game_getPlayerMark g playerID) Hinv)
      as (board & e & Hset).
    pose proof (Board_Set_inv _ _ _ _ _ _ Hinv Hset) as Hinv'.
    rewrite Hset in H. destruct e as [e|]; [eauto|].
    destruct (Board_CheckWinner_returns board row col Hinv') as [winner Hw].
    rewrite Hw in H. eexists _, _. split; [done|].
    unfold after_move. destruct winner; simpl; try done.
    by destruct (Board_IsFull board).
Qed.

Lemma history_inv (g g' : Game) (tr : list (Call * option error)) :
  history g tr g' -> Board_inv (Game_Board g) -> Board_inv (Game_Board g').
Proof.
  induction 1 as [g|g g1 g2 c e tr Hcall _ IH]; [done|].
  intros Hinv. apply IH.
  destruct (perform_returns g c Hinv) as (g1' & e' & Hcall' & Hinv').
  rewrite Hcall in Hcall'. by injection Hcall' as <- <-.
Qed.

Lemma MakeMove_fuel_enough (now : Time) (g : Game) (playerID : string) (row col : Z) :
  is_int (Size (Game_Board g)) -> Game_MakeMove now g playerID row col <> OutOfFuel.
Proof.
  intros HS.
  destruct (MakeMove_cases now g playerID row col)
    as [[_ H]|[(_ & _ & H)|[(_ & _ & _ & H)|(_ & _ & _ & H)]]];
    try (rewrite H; done).
  destruct (Board_Set_cases (Game_Board g) row col (Game_getPlayerMark g playerID))
    as [[_ Hs]|[(_ & _ & Hs)|[(m & _ & _ & _ & Hs)|(_ & _ & Hs)]]];
    rewrite Hs in H; try (rewrite H; done).
  match type of H with
  | match Board_CheckWinner ?b _ _ with _ => _ end =>
      pose proof (Board_CheckWinner_fuel_enough b row col HS) as Hw;
      destruct (Board_CheckWinner b row col)
  end; rewrite H; done.
Qed.

(** A match made by NewGame with a board that fits stays on a grid through
    every history, and every call made on it returns. *)
Lemma calls_return_after_NewGame (maxLen : Z) (now : Time) (id creatorID : string)
    (boardSize winLength : Z) (g0 g : Game) (tr : list (Call * option error)) (c : Call) :
  maxLen <= int_max -> boardSize * boardSize <= maxLen ->
  NewGame maxLen now id creatorID boardSize winLength = Done (Some g0, None) ->
  history g0 tr g ->
  exists g' e, perform g c = Done (g', e).
Proof.
  intros Hmax Hfit Hnew Hh.
  assert (3 <= winLength <= boardSize) as Hw.
  { unfold NewGame, NewBoard in Hnew.
    destruct (Z.ltb_spec boardSize 3); [done|].
    destruct (Z.ltb_spec winLength 3); [done|].
    destruct (Z.ltb_spec boardSize winLength); [done|]. lia. }
  destruct (NewGame_inv maxLen now id creatorID boardSize winLength Hmax Hw Hfit)
    as (g0' & Hnew' & Hinv & _).
  rewrite Hnew in Hnew'. injection Hnew' as <-.
  destruct (perform_returns g c (history_inv _ _ _ Hh Hinv)) as (g' & e & Hcall & _).
  eauto.
Qed.

(** ** The match registry: ListPending *)

Lemma collect_shard (kvs : list (string * Game)) (pending : list GameSnapshot) :
  foldl (fun pending kv =>
           if Status_eqb (Game_GetStatus kv.2) StatusPending then
             let snapshot := Game_GetSnapshot kv.2 in pending ++ [snapshot]
           else pending) pending kvs
  = pending ++ pending_in kvs.
Proof.
  unfold pending_in. revert pending.
  induction kvs as [|[id g] kvs IH]; intros pending; simpl.
  - by rewrite app_nil_r.
  - rewrite IH. unfold Game_GetStatus. rewrite filter_cons.
    destruct (Status_eqb (Game_Status g) StatusPending) eqn:Hs.
    + apply Status_eqb_eq in Hs. rewrite decide_True by done.
      by rewrite <- app_assoc.
    + apply Status_eqb_neq in Hs. by rewrite decide_False by done.
Qed.

Lemma collect_pending_spec (visits : list (list (string * Game))) :
  collect_pending visits = concat (pending_in <$> visits).
Proof.
  unfold collect_pending.
  enough (forall acc,
    foldl (fun pending kvs =>
             foldl (fun pending kv =>
                      if Status_eqb (Game_GetStatus kv.2) StatusPending then
                        let snapshot := Game_GetSnapshot kv.2 in pending ++ [snapshot]
                      else pending) pending kvs) acc visits
    = acc ++ concat (pending_in <$> visits)) as H by apply (H []).
  induction visits as [|kvs visits IH]; intros acc; simpl.
  - by rewrite app_nil_r.
  - rewrite IH, collect_shard. by rewrite <- app_assoc.
Qed.

Lemma pending_in_perm (kvs kvs' : list (string * Game)) :
  kvs ≡ₚ kvs' -> pending_in kvs ≡ₚ pending_in kvs'.
Proof. intros H. unfold pending_in. by rewrite H. Qed.

(** Whatever the order of the visit, the matches collected are the pending
    matches of the store. *)
Lemma collect_pending_perm (s : GameStore) (visits : list (list (string * Game))) :
  visit_of s visits -> collect_pending visits ≡ₚ pending_snapshots s.
Proof.
  unfold visit_of, pending_snapshots. rewrite collect_pending_spec.
  induction 1 as [|sh kvs shards visits Hr _ IH]; simpl; [done|].
  rewrite IH. apply Permutation_app_tail, pending_in_perm, Hr.
Qed.

Lemma visit_exists (s : GameStore) : exists visits, visit_of s visits.
Proof.
  exists ((fun sh => map_to_list (games sh)) <$> GameStore_shards s).
  unfold visit_of. induction (GameStore_shards s) as [|sh shards IH]; simpl.
  - constructor.
  - constructor; [|done]. unfold range_of. reflexivity.
Qed.

(** The pagination of ListPending on the list it collected. *)
Lemma ListPending_visit_spec (visits : list (list (string * Game))) (limit offset : Z) :
  let all := collect_pending visits in
  (offset < 0 -> ListPending_visit visits limit offset = Panic) /\
  (0 <= offset ->
     ListPending_visit visits limit offset =
       Done (if 0 <? limit then page_of all limit offset else drop (Z.to_nat offset) all,
             len all)) /\
  (len all <= offset -> ListPending_visit visits limit offset = Done ([], len all)).
Proof.
  intros all. unfold ListPending_visit. fold all.
  assert (0 <= len all) as Hlen by (unfold len; lia).
  split; [|split].
  - intros Hneg. destruct (Z.leb_spec (len all) offset) as [|_]; [lia|].
    unfold slice_from. destruct (Z.ltb_spec offset 0) as [_|]; [done | lia].
  - intros Hpos. unfold page_of.
    destruct (Z.leb_spec (len all) offset) as [Hbeyond|Hin].
    + rewrite drop_ge by (unfold len in Hbeyond; lia).
      rewrite take_nil. by destruct (0 <? limit).
    + unfold slice_from.
      destruct (Z.ltb_spec offset 0) as [|_]; [lia|].
      destruct (Z.ltb_spec (len all) offset) as [|_]; [lia|]. run_simpl.
      destruct (Z.ltb_spec 0 limit) as [Hl|Hl]; simpl; [|done].
      destruct (Z.ltb_spec limit (len (drop (Z.to_nat offset) all))) as [Hcut|Hall].
      * unfold slice_to.
        destruct (Z.ltb_spec limit 0) as [|_]; [lia|].
        destruct (Z.ltb_spec (len (drop (Z.to_nat offset) all)) limit) as [|_]; [lia|].
        done.
      * rewrite take_ge; [done|]. unfold len in Hall. lia.
  - intros Hbeyond. destruct (Z.leb_spec (len all) offset) as [_|]; [done | lia].
Qed.

Lemma len_perm {A : Type} (l k : list A) : l ≡ₚ k -> len l = len k.
Proof. intros H. unfold len. by rewrite H. Qed.

(** C8, as amended.  For every store, every limit and every offset [>= 0],
    ListPending returns, and what it returns is: the snapshots of exactly the
    matches whose status is Pending, in the order of the visit, with the
    offset applied and then, when [limit > 0], the limit (a limit [<= 0] is
    no limit: everything after the offset is returned); next to it the number
    of pending matches, counted before pagination.  For an offset at or beyond
    that number the page is empty and the total is still that number. *)
Theorem ListPending_spec (s : GameStore) (limit offset : Z) :
  0 <= offset ->
  (exists res, GameStore_ListPending s limit offset res) /\
  (forall res, GameStore_ListPending s limit offset res ->
     exists all,
       all ≡ₚ pending_snapshots s /\
       res = Done (if 0 <? limit then page_of all limit offset
                   else drop (Z.to_nat offset) all,
                   len (pending_snapshots s)) /\
       (len (pending_snapshots s) <= offset ->
          res = Done ([], len (pending_snapshots s)))).
Proof.
  intros Hoff. split.
  - destruct (visit_exists s) as [visits Hv]. eexists. exists visits. eauto.
  - intros res (visits & Hv & <-).
    pose proof (collect_pending_perm s visits Hv) as Hperm.
    destruct (ListPending_visit_spec visits limit offset) as (_ & Hpage & Hbeyond).
    exists (collect_pending visits). rewrite <- (len_perm _ _ Hperm).
    split; [done|]. split; [apply Hpage, Hoff | apply Hbeyond].
Qed.

(** C10. ListPending only guards [offset >= len(pending)], which a negative
    offset passes: the call has a result for every store, limit and offset;
    for every negative offset the slice expression [pending[offset:]] panics,
    whatever the order of the visit; for every offset [>= 0] the call returns
    a page and a total. *)
Theorem ListPending_negative_offset (s : GameStore) (limit offset : Z) :
  (exists res, GameStore_ListPending s limit offset res) /\
  (forall res, GameStore_ListPending s limit offset res ->
     (offset < 0 -> res = Panic) /\
     (0 <= offset -> exists page total, res = Done (page, total))).
Proof.
  split.
  - destruct (visit_exists s) as [visits Hv]. eexists. exists visits. eauto.
  - intros res (visits & Hv & <-).
    destruct (ListPending_visit_spec visits limit offset) as (Hneg & Hpage & _).
    split; [done|]. intros Hoff. rewrite (Hpage Hoff). eauto.
Qed.

(** ** The stats registry *)

Section StatsStoreFacts.

Variable runes : string -> list Z.

Lemma shard_index_lt (s : StatsStore) (userID : string) :
  store_ok s -> (shard_index runes s userID < length (StatsStore_shards s))%nat.
Proof.
  intros [Hn Hlen]. unfold shard_index, len in *.
  pose proof (Z.mod_pos_bound (StatsStore_hash runes userID)
                (uwrap32 (StatsStore_numShards s)) Hn). lia.
Qed.

Lemma getOrCreate_spec (s : StatsStore) (userID : string) :
  store_ok s ->
  exists s',
    StatsStore_getOrCreate runes s userID = Done (s', (shard_index runes s userID, userID)) /\
    StatsStore_numShards s' = StatsStore_numShards s /\
    length (StatsStore_shards s') = length (StatsStore_shards s) /\
    forall v, view runes s' v =
      if decide (v = userID) then Some (default (zero_stats userID) (view runes s userID))
      else view runes s v.
Proof.
  intros Hok. pose proof (shard_index_lt s userID Hok) as Hlt.
  destruct Hok as [Hn Hlen].
  unfold StatsStore_getOrCreate, StatsStore_getShard.
  pose proof (Z.mod_pos_bound (StatsStore_hash runes userID)
                (uwrap32 (StatsStore_numShards s)) Hn) as Hi.
  destruct (Z.eqb_spec (uwrap32 (StatsStore_numShards s)) 0) as [|_]; [lia|].
  destruct (index_in_range (StatsStore_shards s)
              (StatsStore_hash runes userID mod uwrap32 (StatsStore_numShards s)))
    as (sh & Hidx & Hl); [lia|].
  rewrite Hidx. run_simpl. rewrite Z2Nat.id by lia. rewrite Hidx. run_simpl.
  fold (shard_index runes s userID) in Hl |- *.
  assert (view runes s userID = stats sh !! userID) as Hview.
  { unfold view, deref. simpl. by rewrite Hl. }
  destruct (stats sh !! userID) as [st|] eqn:Hu.
  - exists s. repeat split; try done. intros v. case_decide; [subst v|done].
    by rewrite Hview.
  - eexists. split; [done|]. simpl. rewrite length_insert.
    repeat split; try done. intros v. rewrite Hview. simpl.
    unfold view, deref, shard_index. simpl.
    fold (shard_index runes s v). fold (shard_index runes s userID).
    destruct (decide (shard_index runes s userID = shard_index runes s v)) as [Heq|Hne].
    + rewrite <- Heq, list_lookup_insert_eq by done. simpl. rewrite Hl. simpl.
      case_decide; [subst v; by rewrite lookup_insert_eq|].
      by rewrite lookup_insert_ne.
    + rewrite list_lookup_insert_ne by done.
      case_decide; [subst v; done | done].
Qed.

Lemma update_ref_view (f : UserStats -> UserStats) (s : StatsStore) (userID v : string) :
  view runes (update_ref f s (shard_index runes s userID, userID)) v =
    if decide (v = userID) then f <$> view runes s userID else view runes s v.
Proof.
  unfold view, deref, update_ref, shard_index. simpl.
  fold (shard_index runes s v). fold (shard_index runes s userID).
  destruct (decide (shard_index runes s userID = shard_index runes s v)) as [Heq|Hne].
  - rewrite <- Heq, list_lookup_alter_eq.
    destruct (StatsStore_shards s !! shard_index runes s userID) as [sh|]; simpl.
    + case_decide; [subst v; by rewrite lookup_alter_eq|].
      by rewrite lookup_alter_ne.
    + by case_decide.
  - rewrite list_lookup_alter_ne by done. case_decide; [subst v; done | done].
Qed.

Lemma update_ref_ok (f : UserStats -> UserStats) (s : StatsStore) (p : StatsRef) :
  store_ok s -> store_ok (update_ref f s p).
Proof. unfold store_ok, update_ref, len. simpl. by rewrite length_alter. Qed.

(** Get reports runes the counters of the record, zeros when there is none. *)
Lemma reports_view (s : StatsStore) (userID : string) (c : Z * Z * Z) :
  store_ok s ->
  (reports runes s userID c <->
   c = counters_of (default (zero_stats userID) (view runes s userID))).
Proof.
  intros Hok. unfold reports, StatsStore_Get.
  destruct (getOrCreate_spec s userID Hok) as (s' & Hrun & Hns & _ & Hview).
  rewrite Hrun. run_simpl.
  assert (shard_index runes s userID = shard_index runes s' userID) as ->
    by (unfold shard_index; by rewrite Hns).
  fold (view runes s' userID). rewrite Hview, decide_True by done.
  destruct c as [[w l] d]. unfold counters_of. simpl. split.
  - intros (s'' & [= _ -> -> ->]). done.
  - intros [= -> -> ->]. eauto.
Qed.

Lemma reports_stats_of (s : StatsStore) (v : string) (c : Z * Z * Z) :
  store_ok s -> (reports runes s v c <-> c = counters_of (stats_of runes s v)).
Proof. apply reports_view. Qed.

(** getOrCreate followed by an update of the record it returned. *)
Lemma record_with (f : UserStats -> UserStats) (s : StatsStore) (userID : string) :
  store_ok s ->
  exists s',
    ('(s1, p) ← StatsStore_getOrCreate runes s userID; Done (update_ref f s1 p)) = Done s' /\
    store_ok s' /\
    forall v, stats_of runes s' v =
      if decide (v = userID) then f (stats_of runes s userID) else stats_of runes s v.
Proof.
  intros Hok.
  destruct (getOrCreate_spec s userID Hok) as (s1 & Hrun & Hns & Hlen & Hview).
  rewrite Hrun. run_simpl. eexists. split; [done|].
  assert (store_ok s1) as Hok1.
  { unfold store_ok, len in *. by rewrite Hns, Hlen. }
  split; [by apply update_ref_ok|].
  assert (shard_index runes s userID = shard_index runes s1 userID) as ->
    by (unfold shard_index; by rewrite Hns).
  intros v. unfold stats_of. rewrite update_ref_view, !Hview.
  case_decide; [subst v|done]. by rewrite decide_True by done.
Qed.

(** One guarded call of RecordGameResult:
    the call of RecordX is made only for an id that is not empty. *)
Lemma guarded_record (f : UserStats -> UserStats) (s : StatsStore) (id : string) :
  store_ok s ->
  exists s',
    (if negb (String.eqb id EmptyString) then
       '(s1, p) ← StatsStore_getOrCreate runes s id; Done (update_ref f s1 p)
     else Done s) = Done s' /\
    store_ok s' /\
    forall v, stats_of runes s' v =
      if named v id then f (stats_of runes s v) else stats_of runes s v.
Proof.
  intros Hok. unfold named. destruct (String.eqb id EmptyString) eqn:Hid; simpl.
  - exists s. done.
  - destruct (record_with f s id Hok) as (s' & Hrun & Hok' & Hst).
    exists s'. split; [done|]. split; [done|]. intros v. rewrite Hst.
    destruct (String.eqb_spec v id) as [->|Hne].
    + by rewrite decide_True by done.
    + by rewrite decide_False by done.
Qed.

End StatsStoreFacts.

Lemma fill_shards (n : nat) :
  forall (k : nat) (ss : list statsShard),
    length (foldl (fun ss i => <[i := {| stats := ∅ |}]> ss) ss (seq k n)) = length ss.
Proof.
  induction n as [|n IH]; intros k ss; simpl; [done|].
  by rewrite IH, length_insert.
Qed.

(** NewStatsStore builds a usable store whenever the shard count it settles
    on is a slice length the run time allocates and fits a [uint32]. *)
Lemma NewStatsStore_ok (maxLen numShards : Z) :
  let n := if numShards <? 1 then 64 else numShards in
  n <= maxLen -> n < 2 ^ 32 ->
  exists s, NewStatsStore maxLen numShards = Done s /\ store_ok s /\
    StatsStore_numShards s = n /\ len (StatsStore_shards s) = n.
Proof.
  intros n Hfit Hsmall. unfold NewStatsStore. fold n.
  assert (1 <= n) as Hpos by (unfold n; destruct (Z.ltb_spec numShards 1); lia).
  unfold make_slice.
  destruct (Z.ltb_spec n 0) as [|_]; [lia|].
  destruct (Z.ltb_spec maxLen n) as [|_]; [lia|]. run_simpl.
  eexists. split; [done|]. unfold store_ok, len, uwrap32. simpl.
  rewrite fill_shards, length_replicate, Z.mod_small by lia. lia.
Qed.

(** C9, as amended.  On a store as NewStatsStore builds it, RecordWin,
    RecordLoss and RecordDraw return and add one, in [int32] arithmetic, to
    one counter of that user: the other two counters of the user and all
    counters of every other user are as before.  RecordGameResult with isDraw
    adds one to the draw counter for winnerID and one for loserID, each only
    when that id is not empty; without isDraw it adds one to the win counter
    of winnerID and one to the loss counter of loserID, under the same rule.
    Adding one in [int32] arithmetic is adding exactly one when the counter
    is below 2147483647; at 2147483647 it wraps to -2147483648. *)
Theorem RecordGameResult_counters (runes : string -> list Z) (s : StatsStore) :
  store_ok s ->
  (forall v, exists c, reports runes s v c) /\
  (forall userID, exists s',
     StatsStore_RecordWin runes s userID = Done s' /\ store_ok s' /\
     forall v w l d, reports runes s v (w, l, d) ->
       reports runes s' v (if decide (v = userID) then (add32 w 1, l, d) else (w, l, d))) /\
  (forall userID, exists s',
     StatsStore_RecordLoss runes s userID = Done s' /\ store_ok s' /\
     forall v w l d, reports runes s v (w, l, d) ->
       reports runes s' v (if decide (v = userID) then (w, add32 l 1, d) else (w, l, d))) /\
  (forall userID, exists s',
     StatsStore_RecordDraw runes s userID = Done s' /\ store_ok s' /\
     forall v w l d, reports runes s v (w, l, d) ->
       reports runes s' v (if decide (v = userID) then (w, l, add32 d 1) else (w, l, d))) /\
  (forall winnerID loserID isDraw, exists s',
     StatsStore_RecordGameResult runes s winnerID loserID isDraw = Done s' /\ store_ok s' /\
     forall v w l d, reports runes s v (w, l, d) ->
       reports runes s' v
         (if isDraw then (w, l, credit (named v loserID) (credit (named v winnerID) d))
          else (credit (named v winnerID) w, credit (named v loserID) l, d))) /\
  (forall x, is_int32 x -> x < int32_max -> add32 x 1 = x + 1) /\
  add32 int32_max 1 = int32_min.
Proof.
  intros Hok.
  split; [|split; [|split; [|split; [|split; [|split]]]]].
  - intros v. eexists. by apply reports_stats_of.
  - intros userID. unfold StatsStore_RecordWin.
    destruct (record_with runes (AddInt32_Wins 1) s userID Hok) as (s' & Hrun & Hok' & Hst).
    exists s'. split; [done|]. split; [done|]. intros v w l d Hrep.
    apply reports_stats_of in Hrep; [|done]. apply reports_stats_of; [done|].
    rewrite Hst. injection Hrep as -> -> ->.
    case_decide; [subst v|]; done.
  - intros userID. unfold StatsStore_RecordLoss.
    destruct (record_with runes (AddInt32_Losses 1) s userID Hok) as (s' & Hrun & Hok' & Hst).
    exists s'. split; [done|]. split; [done|]. intros v w l d Hrep.
    apply reports_stats_of in Hrep; [|done]. apply reports_stats_of; [done|].
    rewrite Hst. injection Hrep as -> -> ->.
    case_decide; [subst v|]; done.
  - intros userID. unfold StatsStore_RecordDraw.
    destruct (record_with runes (AddInt32_Draws 1) s userID Hok) as (s' & Hrun & Hok' & Hst).
    exists s'. split; [done|]. split; [done|]. intros v w l d Hrep.
    apply reports_stats_of in Hrep; [|done]. apply reports_stats_of; [done|].
    rewrite Hst. injection Hrep as -> -> ->.
    case_decide; [subst v|]; done.
  - intros winnerID loserID isDraw. unfold StatsStore_RecordGameResult.
    unfold StatsStore_RecordDraw, StatsStore_RecordWin, StatsStore_RecordLoss.
    destruct isDraw.
    + destruct (guarded_record runes (AddInt32_Draws 1) s winnerID Hok)
        as (s1 & Hrun1 & Hok1 & Hst1).
      destruct (guarded_record runes (AddInt32_Draws 1) s1 loserID Hok1)
        as (s2 & Hrun2 & Hok2 & Hst2).
      rewrite Hrun1. run_simpl. exists s2. split; [done|]. split; [done|].
      intros v w l d Hrep.
      apply reports_stats_of in Hrep; [|done]. apply reports_stats_of; [done|].
      rewrite Hst2, Hst1. injection Hrep as -> -> ->.
      destruct (named v loserID), (named v winnerID); done.
    + destruct (guarded_record runes (AddInt32_Wins 1) s winnerID Hok)
        as (s1 & Hrun1 & Hok1 & Hst1).
      destruct (guarded_record runes (AddInt32_Losses 1) s1 loserID Hok1)
        as (s2 & Hrun2 & Hok2 & Hst2).
      rewrite Hrun1. run_simpl. exists s2. split; [done|]. split; [done|].
      intros v w l d Hrep.
      apply reports_stats_of in Hrep; [|done]. apply reports_stats_of; [done|].
      rewrite Hst2, Hst1. injection Hrep as -> -> ->.
      destruct (named v loserID), (named v winnerID); done.
  - intros x Hx Hmax. apply wrap32_id. unfold is_int32, int32_max, int32_min in *. lia.
  - reflexivity.
Qed.

(** * Further properties of the code *)

(** ** Set, Get and IsFull on a grid *)

Lemma grid_index_inj (b : Board) (row col r c : Z) :
  Board_isValidPosition b row col = true -> Board_isValidPosition b r c = true ->
  row * Size b + col = r * Size b + c -> row = r /\ col = c.
Proof.
  intros Hv Hv'. apply isValidPosition_true in Hv, Hv'. intros Heq.
  assert (row = r) by nia. subst. lia.
Qed.

(** Get on a grid, in terms of [mark_at]. *)
Lemma Board_Get_mark_at (b : Board) (row col : Z) :
  Board_inv b ->
  Board_Get b row col =
    match mark_at b row col with
    | Some m => Done (m, None)
    | None => Done (MarkEmpty, Some ErrInvalidPosition)
    end.
Proof.
  intros Hinv. destruct (Board_isValidPosition b row col) eqn:Hv.
  - destruct (Board_Get_valid b row col Hinv Hv) as (m & Hget & Hm). by rewrite Hm.
  - rewrite (Board_Get_invalid b row col Hv). unfold mark_at. by rewrite Hv.
Qed.

Lemma Board_Set_success (b b' : Board) (row col : Z) (k : Mark) :
  Board_inv b -> Board_Set b row col k = Done (b', None) ->
  Board_isValidPosition b row col = true /\
  mark_at b row col = Some MarkEmpty /\
  b' = {| Size := Size b; WinLength := WinLength b;
          Cells := <[Z.to_nat (row * Size b + col) := k]> (Cells b) |}.
Proof.
  intros Hinv.
  destruct (Board_Set_cases b row col k)
    as [[_ H]|[(_ & _ & H)|[(m & _ & _ & _ & H)|(Hv & Hi & H)]]];
    rewrite H; intros [=]. subst b'.
  destruct (cell_index b row col Hinv Hv) as [Hidx Hrange].
  rewrite Hidx in *. apply index_Done in Hi as [_ Hi].
  split; [done|]. split; [|done]. unfold mark_at. by rewrite Hv.
Qed.

Lemma mark_at_after_Set (b : Board) (row col r c : Z) (k : Mark) :
  Board_inv b -> Board_isValidPosition b row col = true ->
  mark_at {| Size := Size b; WinLength := WinLength b;
             Cells := <[Z.to_nat (row * Size b + col) := k]> (Cells b) |} r c =
  if decide (r = row /\ c = col) then Some k else mark_at b r c.
Proof.
  intros Hinv Hv. unfold mark_at, Board_isValidPosition. simpl.
  fold (Board_isValidPosition b r c).
  destruct (cell_index b row col Hinv Hv) as [_ Hrange]. unfold len in Hrange.
  case_decide as Hd.
  - destruct Hd as [-> ->]. rewrite Hv. apply list_lookup_insert_eq. lia.
  - destruct (Board_isValidPosition b r c) eqn:Hv'; [|done].
    apply list_lookup_insert_ne. intros Heq.
    destruct (cell_index b r c Hinv Hv') as [_ Hrange'].
    apply Hd. split; eapply (grid_index_inj b r c row col); eauto; lia.
Qed.

(** X1. Set, then Get. On a grid, when Set returns no error the cell was Empty
    before, the board is a grid of the same size and win length after, Get at
    that cell returns the mark that was set, and Get at every other position,
    on or off the board, returns what it returned before. *)
Theorem Set_then_Get (b b' : Board) (row col : Z) (k : Mark) :
  Board_inv b -> Board_Set b row col k = Done (b', None) ->
  Board_inv b' /\ Size b' = Size b /\ WinLength b' = WinLength b /\
  Board_Get b row col = Done (MarkEmpty, None) /\
  Board_Get b' row col = Done (k, None) /\
  forall r c, (r, c) <> (row, col) -> Board_Get b' r c = Board_Get b r c.
Proof.
  intros Hinv Hset.
  pose proof (Board_Set_inv _ _ _ _ _ _ Hinv Hset) as Hinv'.
  destruct (Board_Set_success _ _ _ _ _ Hinv Hset) as (Hv & Hempty & ->).
  split; [done|]. split; [done|]. split; [done|].
  rewrite !Board_Get_mark_at by done. rewrite Hempty.
  split; [done|].
  split; [by rewrite mark_at_after_Set, decide_True|].
  intros r c Hne. rewrite !Board_Get_mark_at, mark_at_after_Set by done.
  rewrite decide_False; [done|]. intros [-> ->]. done.
Qed.

Lemma grid_position_of_index (b : Board) (i : nat) (x : Mark) :
  Board_inv b -> Cells b !! i = Some x ->
  exists row col, Board_isValidPosition b row col = true /\ mark_at b row col = Some x.
Proof.
  intros Hinv Hi. pose proof (Board_inv_Size b Hinv) as HS.
  destruct Hinv as (_ & Hlen & _). unfold len in Hlen.
  apply lookup_lt_Some in Hi as Hlt.
  exists (Z.of_nat i / Size b), (Z.of_nat i mod Size b).
  assert (0 <= Z.of_nat i mod Size b < Size b) by (apply Z.mod_pos_bound; lia).
  assert (0 <= Z.of_nat i / Size b < Size b).
  { split; [apply Z.div_pos; lia|]. apply Z.div_lt_upper_bound; lia. }
  assert (Board_isValidPosition b (Z.of_nat i / Size b) (Z.of_nat i mod Size b) = true) as Hv
    by (apply isValidPosition_true; lia).
  split; [done|]. unfold mark_at. rewrite Hv.
  replace (Z.of_nat i / Size b * Size b + Z.of_nat i mod Size b) with (Z.of_nat i).
  - by rewrite Nat2Z.id.
  - rewrite (Z.div_mod (Z.of_nat i) (Size b)) at 1 by lia. lia.
Qed.

Lemma grid_full_mark_at (b : Board) :
  Board_inv b ->
  (grid_full b <->
   forall row col, Board_isValidPosition b row col = true ->
     exists m, mark_at b row col = Some m /\ m <> MarkEmpty).
Proof.
  intros Hinv. unfold grid_full. rewrite Forall_lookup. split.
  - intros Hall row col Hv.
    destruct (Board_Get_valid b row col Hinv Hv) as (m & _ & Hm).
    exists m. split; [done|]. unfold mark_at in Hm. rewrite Hv in Hm. eauto.
  - intros Hall i x Hi.
    destruct (grid_position_of_index b i x Hinv Hi) as (row & col & Hv & Hm).
    destruct (Hall row col Hv) as (m & Hm' & Hne). congruence.
Qed.

(** X2. IsFull speaks for every cell. On a grid, IsFull is true exactly when
    Get returns a mark other than Empty at every position of the board, and
    false exactly when Get returns Empty at some position. *)
Theorem IsFull_every_cell (b : Board) :
  Board_inv b ->
  (Board_IsFull b = true <->
   forall row col, Board_isValidPosition b row col = true ->
     exists m, Board_Get b row col = Done (m, None) /\ m <> MarkEmpty) /\
  (Board_IsFull b = false <->
   exists row col, Board_Get b row col = Done (MarkEmpty, None)).
Proof.
  intros Hinv.
  assert (Board_IsFull b = true <->
          forall row col, Board_isValidPosition b row col = true ->
            exists m, Board_Get b row col = Done (m, None) /\ m <> MarkEmpty) as Hfull.
  { rewrite Board_IsFull_true, (grid_full_mark_at b Hinv). split.
    - intros Hall row col Hv. destruct (Hall row col Hv) as (m & Hm & Hne).
      exists m. by rewrite Board_Get_mark_at, Hm.
    - intros Hall row col Hv. destruct (Hall row col Hv) as (m & Hm & Hne).
      exists m. split; [|done]. rewrite Board_Get_mark_at in Hm by done.
      destruct (mark_at b row col); congruence. }
  split; [done|]. split.
  - intros Hnot.
    assert (~ grid_full b) as Hnf by (rewrite <- Board_IsFull_true; congruence).
    unfold grid_full in Hnf. apply not_Forall_Exists in Hnf; [|intros x; apply _].
    apply Exists_exists in Hnf as (x & Hin & Hx).
    assert (x = MarkEmpty) as -> by (destruct x; done || (exfalso; apply Hx; done)).
    apply list_elem_of_lookup in Hin as [i Hi].
    destruct (grid_position_of_index b i _ Hinv Hi) as (row & col & _ & Hm).
    exists row, col. by rewrite Board_Get_mark_at, Hm.
  - intros (row & col & Hget). destruct (Board_IsFull b) eqn:Hf; [|done].
    pose proof (proj1 Hfull eq_refl) as Hall.
    assert (Board_isValidPosition b row col = true) as Hv.
    { destruct (Board_isValidPosition b row col) eqn:Hv; [done|].
      rewrite (Board_Get_invalid b row col Hv) in Hget. done. }
    destruct (Hall row col Hv) as (m & Hm & Hne). congruence.
Qed.

Lemma copy_slice_fresh {A : Type} (zero : A) (src : list A) :
  copy_slice (replicate (length src) zero) src = src.
Proof.
  unfold copy_slice. rewrite length_replicate, take_ge, drop_ge by (rewrite ?length_replicate; lia).
  apply app_nil_r.
Qed.

Lemma Board_Clone_eq (b : Board) : Board_Clone b = b.
Proof. unfold Board_Clone. rewrite copy_slice_fresh. by destruct b. Qed.

(** ** The states a match reaches *)

Lemma count_mark_cons (m x : Mark) (cells : list Mark) :
  count_mark m (x :: cells) =
  ((if decide (x = m) then 1 else 0) + count_mark m cells)%nat.
Proof. unfold count_mark. rewrite filter_cons. by case_decide. Qed.

Lemma count_mark_insert (cells : list Mark) (i : nat) (k m : Mark) :
  cells !! i = Some MarkEmpty -> m <> MarkEmpty ->
  count_mark m (<[i := k]> cells) =
  (count_mark m cells + if decide (k = m) then 1 else 0)%nat.
Proof.
  revert i. induction cells as [|x cells IH]; intros i Hi Hm; [done|].
  destruct i as [|i].
  - injection Hi as ->. change (<[0%nat := k]> (MarkEmpty :: cells)) with (k :: cells).
    rewrite !count_mark_cons.
    rewrite (decide_False (P := MarkEmpty = m)) by congruence. lia.
  - change (<[S i := k]> (x :: cells)) with (x :: <[i := k]> cells).
    rewrite !count_mark_cons, (IH i) by done. lia.
Qed.

Lemma count_mark_all_empty (cells : list Mark) (m : Mark) :
  Forall (fun c => c = MarkEmpty) cells -> m <> MarkEmpty -> count_mark m cells = 0%nat.
Proof.
  induction 1 as [|x cells -> _ IH]; intros Hm; [done|].
  rewrite count_mark_cons, decide_False by congruence. by apply IH.
Qed.

Lemma wins_through_origin (b : Board) (row col : Z) (m : Mark) :
  wins_through b row col m -> mark_at b row col = Some m.
Proof.
  intros (o & lo & hi & Hlohi & _ & Hall).
  specialize (Hall 0 ltac:(lia)). by rewrite !Z.mul_0_l, !Z.add_0_r in Hall.
Qed.

Lemma all_empty_free_of_lines (b : Board) :
  Forall (fun c => c = MarkEmpty) (Cells b) -> free_of_lines b.
Proof.
  intros Hall row col m Hm Hw. apply wins_through_origin in Hw.
  unfold mark_at in Hw. destruct (Board_isValidPosition b row col); [|done].
  rewrite Forall_lookup in Hall. apply Hall in Hw. congruence.
Qed.

(** A line on the board after a placement goes through the placed cell, or
    was on the board before. *)
Lemma line_after_Set (b : Board) (row col r c : Z) (k m : Mark) (o : Orientation) :
  Board_inv b -> Board_isValidPosition b row col = true ->
  let b' := {| Size := Size b; WinLength := WinLength b;
               Cells := <[Z.to_nat (row * Size b + col) := k]> (Cells b) |} in
  line_through b' r c m (step_of o) ->
  line_through b' row col m (step_of o) \/ line_through b r c m (step_of o).
Proof.
  intros Hinv Hv b' (lo & hi & Hlohi & Hlen & Hall).
  set (k0 := match o with Horizontal => col - c | _ => row - r end).
  assert (forall j, r + j * (step_of o).1 = row -> c + j * (step_of o).2 = col -> j = k0)
    as Huniq by (intros j; subst k0; destruct o; simpl; lia).
  destruct (decide (lo <= k0 <= hi /\ r + k0 * (step_of o).1 = row /\
                    c + k0 * (step_of o).2 = col)) as [(Hin & Hr & Hc)|Hout].
  - left. exists (lo - k0), (hi - k0). split; [lia|]. split; [simpl in *; lia|].
    intros j Hj.
    replace (row + j * (step_of o).1) with (r + (j + k0) * (step_of o).1) by lia.
    replace (col + j * (step_of o).2) with (c + (j + k0) * (step_of o).2) by lia.
    apply Hall. lia.
  - right. exists lo, hi. split; [done|]. split; [done|].
    intros j Hj. specialize (Hall j Hj). unfold b' in Hall.
    rewrite mark_at_after_Set in Hall by done.
    rewrite decide_False in Hall; [done|].
    intros [Hr Hc]. apply Hout. pose proof (Huniq j Hr Hc). subst j. done.
Qed.

Lemma free_of_lines_after_Set (b : Board) (row col : Z) (k : Mark) :
  Board_inv b -> Board_isValidPosition b row col = true -> k <> MarkEmpty ->
  let b' := {| Size := Size b; WinLength := WinLength b;
               Cells := <[Z.to_nat (row * Size b + col) := k]> (Cells b) |} in
  free_of_lines b -> ~ wins_through b' row col k -> free_of_lines b'.
Proof.
  intros Hinv Hv Hk b' Hfree Hnew r c m Hm (o & Hline).
  destruct (line_after_Set b row col r c k m o Hinv Hv Hline) as [Hl|Hl].
  - assert (m = k) as ->.
    { pose proof (wins_through_origin b' row col m (ex_intro _ o Hl)) as Ho.
      unfold b' in Ho. rewrite mark_at_after_Set, decide_True in Ho by done. congruence. }
    apply Hnew. by exists o.
  - apply (Hfree r c m Hm). by exists o.
Qed.

Lemma NewGame_success (maxLen : Z) (now : Time) (id creatorID : string)
    (boardSize winLength : Z) (g : Game) :
  maxLen <= int_max -> boardSize * boardSize <= maxLen ->
  NewGame maxLen now id creatorID boardSize winLength = Done (Some g, None) ->
  3 <= winLength <= boardSize /\
  g = {| Game_ID := id; Game_PlayerX := creatorID; Game_PlayerO := EmptyString;
         Game_Board := {| Size := boardSize; WinLength := winLength;
                          Cells := replicate (Z.to_nat (boardSize * boardSize)) MarkEmpty |};
         Game_Turn := MarkX; Game_Status := StatusPending;
         Game_CreatedAt := now; Game_UpdatedAt := now |}.
Proof.
  intros Hmax Hfit Hnew.
  assert (3 <= winLength <= boardSize) as Hw.
  { unfold NewGame, NewBoard in Hnew.
    destruct (Z.ltb_spec boardSize 3); [done|].
    destruct (Z.ltb_spec winLength 3); [done|].
    destruct (Z.ltb_spec boardSize winLength); [done|]. lia. }
  split; [done|]. unfold NewGame in Hnew.
  rewrite NewBoard_succeeds in Hnew by done. by injection Hnew as <-.
Qed.

Lemma grid_not_all_empty_full (b : Board) :
  Board_inv b -> Forall (fun m => m = MarkEmpty) (Cells b) -> ~ grid_full b.
Proof.
  intros Hinv Hall Hfull. pose proof (Board_inv_Size b Hinv) as HS.
  destruct Hinv as (_ & Hlen & _). unfold len in Hlen. unfold grid_full in Hfull.
  destruct (Cells b) as [|x cells]; [simpl in Hlen; nia|].
  apply Forall_cons in Hall as [-> _]. apply Forall_cons in Hfull as [Hx _]. done.
Qed.

Lemma match_inv_new (maxLen : Z) (now : Time) (id creatorID : string)
    (boardSize winLength : Z) (g : Game) :
  maxLen <= int_max -> boardSize * boardSize <= maxLen ->
  NewGame maxLen now id creatorID boardSize winLength = Done (Some g, None) ->
  match_inv g.
Proof.
  intros Hmax Hfit Hnew.
  destruct (NewGame_success _ _ _ _ _ _ _ Hmax Hfit Hnew) as [Hw ->].
  assert (Forall (fun m => m = MarkEmpty)
            (replicate (Z.to_nat (boardSize * boardSize)) MarkEmpty)) as Hall
    by (by apply Forall_replicate).
  constructor; simpl; try done.
  - apply fresh_board_inv; [done | lia].
  - intros _. rewrite !count_mark_all_empty by done. done.
  - intros _ _. by apply all_empty_free_of_lines.
Qed.

Lemma match_inv_Join (now : Time) (g g' : Game) (playerID : string) (e : option error) :
  match_inv g -> Game_Join now g playerID = (g', e) -> match_inv g'.
Proof.
  intros Hinv.
  destruct (Join_cases now g playerID) as [[_ H]|[(_ & _ & H)|(Hs & Hne & H)]];
    rewrite H; intros [= <- <-]; try done.
  destruct (inv_pending g Hinv Hs) as [Hall Hturn].
  constructor; simpl; try done.
  - apply Hinv.
  - by rewrite Hturn.
  - intros _. rewrite !count_mark_all_empty by done. rewrite Hturn. done.
  - intros _. apply grid_not_all_empty_full; [apply Hinv | done].
  - intros _ _. by apply all_empty_free_of_lines.
Qed.

Lemma CheckWinner_after_placement (b : Board) (row col : Z) (k : Mark) :
  Board_inv b -> Board_isValidPosition b row col = true -> k <> MarkEmpty ->
  let b' := {| Size := Size b; WinLength := WinLength b;
               Cells := <[Z.to_nat (row * Size b + col) := k]> (Cells b) |} in
  Board_inv b' ->
  (wins_through b' row col k /\ Board_CheckWinner b' row col = Done k) \/
  (~ wins_through b' row col k /\ Board_CheckWinner b' row col = Done MarkEmpty).
Proof.
  intros Hinv Hv Hk b' Hinv'.
  pose proof (CheckWinner_cases b' row col Hinv') as Hc.
  unfold b' in Hc at 1. rewrite mark_at_after_Set, decide_True in Hc by done.
  destruct k; done.
Qed.

Lemma match_inv_MakeMove (now : Time) (g g' : Game) (playerID : string) (row col : Z)
    (e : option error) :
  match_inv g -> Game_MakeMove now g playerID row col = Done (g', e) -> match_inv g'.
Proof.
  intros Hinv Hcall.
  destruct (MakeMove_cases now g playerID row col)
    as [[_ H]|[(_ & _ & H)|[(_ & _ & _ & H)|(Hs & Hm & Ht & H)]]];
    try (rewrite H in Hcall; injection Hcall as <- <-; done).
  set (mark := Game_getPlayerMark g playerID) in *.
  destruct (Board_Set (Game_Board g) row col mark) as [[board [e'|]]| |] eqn:Hset;
    try (rewrite H in Hcall; discriminate).
  { rewrite H in Hcall. injection Hcall as <- <-.
    apply Board_Set_error in Hset as [-> _]. by rewrite set_Board_same. }
  pose proof (inv_grid g Hinv) as Hgrid.
  pose proof (Board_Set_inv _ _ _ _ _ _ Hgrid Hset) as Hgrid'.
  destruct (Board_Set_success _ _ _ _ _ Hgrid Hset) as (Hv & Hempty & Hboard).
  assert (Cells (Game_Board g) !! Z.to_nat (row * Size (Game_Board g) + col)
          = Some MarkEmpty) as Hcell.
  { unfold mark_at in Hempty. by rewrite Hv in Hempty. }
  assert (forall m, m <> MarkEmpty ->
            count_mark m (Cells board) =
            (count_mark m (Cells (Game_Board g)) + if decide (mark = m) then 1 else 0)%nat)
    as Hcount.
  { intros m Hne. rewrite Hboard. simpl. by apply count_mark_insert. }
  pose proof (Hcount MarkX ltac:(done)) as HcX.
  pose proof (Hcount MarkO ltac:(done)) as HcO.
  destruct (inv_to_move g Hinv (or_intror Hs)) as [HtX HtO].
  pose proof (inv_players g Hinv) as Hplayers.
  assert (free_of_lines (Game_Board g)) as Hfree
    by (apply (inv_no_line g Hinv); rewrite Hs; done).
  assert ((wins_through board row col mark /\ Board_CheckWinner board row col = Done mark) \/
          (~ wins_through board row col mark /\
           Board_CheckWinner board row col = Done MarkEmpty)) as Hwin.
  { rewrite Hboard. apply CheckWinner_after_placement; try done. by rewrite <- Hboard. }
  destruct Hwin as [[Hw Hrun]|[Hnw Hrun]]; rewrite Hrun in H;
    rewrite H in Hcall; injection Hcall as <- <-.
  - (* the mover wins *)
    unfold after_move. rewrite <- Ht in *.
    destruct (Game_Turn g) eqn:Hturn; [done| |];
      settle_decide HcX; settle_decide HcO;
      try specialize (HtX eq_refl); try specialize (HtO eq_refl);
      constructor; simpl; rewrite ?Hturn; try done;
      try (intros _; apply Hplayers; by rewrite Hs);
      try (by intros [?|?]);
      try (intros _; split; [done|by eauto]);
      intros _; split; intros ?; try done; lia.
  - (* no line through the placed cell *)
    assert (free_of_lines board) as Hfree'.
    { rewrite Hboard. apply free_of_lines_after_Set; try done. by rewrite <- Hboard. }
    unfold after_move. rewrite <- Ht in *.
    destruct (Board_IsFull board) eqn:Hfull;
      destruct (Game_Turn g) eqn:Hturn; try done;
      settle_decide HcX; settle_decide HcO;
      try specialize (HtX eq_refl); try specialize (HtO eq_refl);
      constructor; simpl; rewrite ?Hturn, ?Hs; try done;
      try (intros _; apply Hplayers; by rewrite Hs);
      try (by intros [?|?]);
      try (intros _; by apply Board_IsFull_true);
      try (intros _; rewrite <- Board_IsFull_true; congruence);
      intros _; split; intros ?; try done; lia.
Qed.

Lemma reachable_inv (g : Game) : reachable g -> match_inv g.
Proof.
  induction 1 as [maxLen now id creatorID boardSize winLength g Hmax Hfit Hnew
                 |g g' c e _ IH Hcall].
  - eapply match_inv_new; eauto.
  - destruct c as [now playerID|now playerID row col]; simpl in Hcall.
    + injection Hcall as Hjoin. eapply match_inv_Join; eauto.
    + eapply match_inv_MakeMove; eauto.
Qed.

Lemma history_reachable (g g' : Game) (tr : list (Call * option error)) :
  history g tr g' -> reachable g -> reachable g'.
Proof.
  induction 1 as [g|g g1 g2 c e tr Hcall _ IH]; [done|].
  intros Hr. apply IH. eapply reachable_call; eauto.
Qed.

(** X3. A finished status is backed by the board. In every state a match
    reaches from NewGame through calls of Join and MakeMove: with status XWon
    the board holds a line of winLength X marks, with OWon a line of O marks,
    and with Draw the board is full and holds no line of either mark. *)
Theorem finished_status_justified (g : Game) :
  reachable g ->
  (Game_Status g = StatusXWon ->
     exists row col, wins_through (Game_Board g) row col MarkX) /\
  (Game_Status g = StatusOWon ->
     exists row col, wins_through (Game_Board g) row col MarkO) /\
  (Game_Status g = StatusDraw ->
     grid_full (Game_Board g) /\
     forall row col m, m <> MarkEmpty -> ~ wins_through (Game_Board g) row col m).
Proof.
  intros Hr. pose proof (reachable_inv g Hr) as Hinv.
  split; [|split].
  - intros Hs. apply (inv_x_won g Hinv Hs).
  - intros Hs. apply (inv_o_won g Hinv Hs).
  - intros Hs. split; [apply (inv_draw g Hinv Hs)|].
    apply (inv_no_line g Hinv); rewrite Hs; done.
Qed.

(** X4. No line goes unnoticed. CheckWinner looks only at the lines through
    the cell just played, and that is enough: a reachable match with status
    InProgress has no complete line of X or of O anywhere on its board, and
    its board is not full. *)
Theorem no_line_goes_unnoticed (g : Game) :
  reachable g -> Game_Status g = StatusInProgress ->
  (forall row col m, m <> MarkEmpty -> ~ wins_through (Game_Board g) row col m) /\
  Board_IsFull (Game_Board g) = false.
Proof.
  intros Hr Hs. pose proof (reachable_inv g Hr) as Hinv. split.
  - apply (inv_no_line g Hinv); rewrite Hs; done.
  - pose proof (inv_room g Hinv Hs) as Hroom. rewrite <- Board_IsFull_true in Hroom.
    by destruct (Board_IsFull (Game_Board g)).
Qed.

(** X5. The marks alternate. In every reachable state the board holds as many
    X as O, or one X more. A Pending match has an empty board. While the match
    is InProgress it is X's turn exactly when the counts are equal. In a
    finished match Turn is the mark of the player who moved last: X exactly
    when X has one mark more. *)
Theorem marks_balanced (g : Game) :
  reachable g ->
  let nX := count_mark MarkX (Cells (Game_Board g)) in
  let nO := count_mark MarkO (Cells (Game_Board g)) in
  (nX = nO \/ nX = S nO) /\
  (Game_Status g = StatusPending -> nX = 0%nat /\ nO = 0%nat) /\
  (Game_Status g = StatusInProgress -> (Game_Turn g = MarkX <-> nX = nO)) /\
  (Status_IsFinished (Game_Status g) = true -> (Game_Turn g = MarkX <-> nX = S nO)).
Proof.
  intros Hr nX nO. pose proof (reachable_inv g Hr) as Hinv.
  pose proof (inv_turn g Hinv) as Hturn.
  pose proof (inv_to_move g Hinv) as Hmove. pose proof (inv_moved g Hinv) as Hmoved.
  pose proof (inv_pending g Hinv) as Hpend.
  fold nX nO in Hmove, Hmoved.
  split; [|split; [|split]].
  - destruct (Status_rank_cases (Game_Status g)) as [Hs|[Hs|Hs]].
    + destruct (Hmove (or_introl Hs)) as [HX HO].
      destruct (Game_Turn g); [done | left; auto | right; auto].
    + destruct (Hmove (or_intror Hs)) as [HX HO].
      destruct (Game_Turn g); [done | left; auto | right; auto].
    + destruct (Hmoved Hs) as [HX HO].
      destruct (Game_Turn g); [done | right; auto | left; auto].
  - intros Hs. destruct (Hpend Hs) as [Hall _].
    unfold nX, nO. by rewrite !count_mark_all_empty.
  - intros Hs. destruct (Hmove (or_intror Hs)) as [HX HO]. split; [done|].
    intros Heq. destruct (Game_Turn g); [done | done |].
    specialize (HO eq_refl). lia.
  - intros Hs. destruct (Hmoved Hs) as [HX HO]. split; [done|].
    intros Heq. destruct (Game_Turn g); [done | done |].
    specialize (HO eq_refl). lia.
Qed.

(** X6. The players of a reachable match. While Pending it has no playerO.
    Afterwards playerX and playerO are different ids, GetPlayerMark gives X to
    playerX and O to playerO, and it gives the mark of Turn to the player
    whose move is next. *)
Theorem players_distinct (g : Game) :
  reachable g ->
  (Game_Status g = StatusPending -> Game_PlayerO g = EmptyString) /\
  (Game_Status g <> StatusPending ->
     Game_PlayerX g <> Game_PlayerO g /\
     Game_GetPlayerMark g (Game_PlayerX g) = MarkX /\
     Game_GetPlayerMark g (Game_PlayerO g) = MarkO /\
     Game_GetPlayerMark g (player_to_move g) = Game_Turn g).
Proof.
  intros Hr. pose proof (reachable_inv g Hr) as Hinv.
  split; [apply (inv_unjoined g Hinv)|]. intros Hs.
  pose proof (inv_players g Hinv Hs) as Hne. pose proof (inv_turn g Hinv) as Hturn.
  unfold Game_GetPlayerMark, Game_getPlayerMark, player_to_move.
  rewrite String.eqb_refl.
  destruct (String.eqb_spec (Game_PlayerO g) (Game_PlayerX g)) as [Heq|_]; [congruence|].
  rewrite String.eqb_refl.
  split; [done|]. split; [done|]. split; [done|].
  destruct (Game_Turn g); [done| |].
  - by rewrite String.eqb_refl.
  - destruct (String.eqb_spec (Game_PlayerO g) (Game_PlayerX g)); [congruence|].
    by rewrite String.eqb_refl.
Qed.

Lemma getPlayerMark_same_players (g g' : Game) (playerID : string) :
  Game_PlayerX g' = Game_PlayerX g -> Game_PlayerO g' = Game_PlayerO g ->
  Game_getPlayerMark g' playerID = Game_getPlayerMark g playerID.
Proof. intros HX HO. unfold Game_getPlayerMark. by rewrite HX, HO. Qed.

(** What a successful move leaves, field by field. *)
Lemma MakeMove_success_fields (now : Time) (g g' : Game) (playerID : string) (row col : Z) :
  Game_MakeMove now g playerID row col = Done (g', None) ->
  Game_Status g = StatusInProgress /\
  Game_getPlayerMark g playerID = Game_Turn g /\ Game_Turn g <> MarkEmpty /\
  Game_ID g' = Game_ID g /\ Game_PlayerX g' = Game_PlayerX g /\
  Game_PlayerO g' = Game_PlayerO g /\ Game_CreatedAt g' = Game_CreatedAt g /\
  Game_UpdatedAt g' = now /\
  Board_Set (Game_Board g) row col (Game_Turn g) = Done (Game_Board g', None) /\
  (Game_Status g' = StatusInProgress -> Game_Turn g' = Mark_Opponent (Game_Turn g)).
Proof.
  intros Hcall.
  destruct (MakeMove_cases now g playerID row col)
    as [[_ H]|[(_ & _ & H)|[(_ & _ & _ & H)|(Hs & Hm & Ht & H)]]];
    try (rewrite H in Hcall; discriminate).
  rewrite <- Ht in *.
  destruct (Board_Set (Game_Board g) row col (Game_Turn g)) as [[board [e'|]]| |] eqn:Hset;
    try (rewrite H in Hcall; discriminate).
  destruct (Board_CheckWinner board row col) as [winner| |];
    try (rewrite H in Hcall; discriminate).
  rewrite H in Hcall. injection Hcall as <-.
  unfold after_move.
  destruct winner; simpl; try (destruct (Board_IsFull board); simpl); by repeat split.
Qed.

(** X7. Nobody moves twice in a row. After a move that succeeded and left the
    match InProgress, MakeMove by the same player, at any cell and any time,
    returns NotYourTurn and leaves the match as it is. *)
Theorem no_second_move_in_a_row (now now' : Time) (g g' : Game) (playerID : string)
    (row col r c : Z) :
  Game_MakeMove now g playerID row col = Done (g', None) ->
  Game_Status g' = StatusInProgress ->
  Game_MakeMove now' g' playerID r c = Done (g', Some ErrNotYourTurn).
Proof.
  intros Hcall Hs'.
  destruct (MakeMove_success_fields _ _ _ _ _ _ Hcall)
    as (_ & Hmark & Hne & _ & HX & HO & _ & _ & _ & Hturn).
  specialize (Hturn Hs').
  destruct (MakeMove_cases now' g' playerID r c)
    as [[Hs H]|[(_ & Hm & H)|[(_ & _ & _ & H)|(_ & _ & Ht & H)]]]; try done.
  - rewrite (getPlayerMark_same_players g g') in Hm by done. congruence.
  - rewrite (getPlayerMark_same_players g g') in Ht by done.
    rewrite Hturn, Hmark in Ht. by destruct (Game_Turn g).
Qed.

Lemma player_to_move_mark (g : Game) :
  match_inv g -> Game_Status g <> StatusPending ->
  Game_getPlayerMark g (player_to_move g) = Game_Turn g.
Proof.
  intros Hinv Hs. pose proof (inv_players g Hinv Hs) as Hne.
  pose proof (inv_turn g Hinv) as Hturn.
  unfold Game_getPlayerMark, player_to_move.
  destruct (Game_Turn g); [done| |].
  - by rewrite String.eqb_refl.
  - destruct (String.eqb_spec (Game_PlayerO g) (Game_PlayerX g)); [congruence|].
    by rewrite String.eqb_refl.
Qed.

(** X8. A match InProgress can go on. In every reachable state with status
    InProgress some cell of the board is Empty, and at every Empty cell
    MakeMove by the player whose turn it is succeeds and puts the mark of Turn
    there. *)
Theorem never_stuck (g : Game) :
  reachable g -> Game_Status g = StatusInProgress ->
  (exists row col, Board_Get (Game_Board g) row col = Done (MarkEmpty, None)) /\
  (forall row col now,
     Board_Get (Game_Board g) row col = Done (MarkEmpty, None) ->
     exists g', Game_MakeMove now g (player_to_move g) row col = Done (g', None) /\
       Board_Get (Game_Board g') row col = Done (Game_Turn g, None)).
Proof.
  intros Hr Hs. pose proof (reachable_inv g Hr) as Hinv.
  pose proof (inv_grid g Hinv) as Hgrid. split.
  - pose proof (inv_room g Hinv Hs) as Hroom.
    unfold grid_full in Hroom. apply not_Forall_Exists in Hroom; [|intros x; apply _].
    apply Exists_exists in Hroom as (x & Hin & Hx).
    assert (x = MarkEmpty) as -> by (destruct x; done || (exfalso; apply Hx; done)).
    apply list_elem_of_lookup in Hin as [i Hi].
    destruct (grid_position_of_index _ i _ Hgrid Hi) as (row & col & _ & Hm).
    exists row, col. by rewrite Board_Get_mark_at, Hm.
  - intros row col now Hget.
    assert (Game_Status g <> StatusPending) as Hnp by (rewrite Hs; done).
    pose proof (player_to_move_mark g Hinv Hnp) as Hmark.
    apply Board_Get_Done in Hget as [Hv Hidx].
    destruct (MakeMove_cases now g (player_to_move g) row col)
      as [[Hs' _]|[(_ & Hm & _)|[(_ & _ & Ht & _)|(_ & _ & _ & H)]]]; try congruence.
    { rewrite Hmark in Hm. by destruct (inv_turn g Hinv). }
    rewrite Hmark in H.
    destruct (Board_Set_cases (Game_Board g) row col (Game_Turn g))
      as [[Hv' _]|[(_ & Hi & _)|[(m & _ & Hi & Hm & _)|(_ & _ & Hset)]]]; try congruence.
    rewrite Hset in H.
    pose proof (Board_Set_inv _ _ _ _ _ _ Hgrid Hset) as Hgrid'.
    destruct (Board_CheckWinner_returns _ row col Hgrid') as [winner Hw].
    rewrite Hw in H. eexists. split; [exact H|].
    destruct (cell_index _ row col Hgrid Hv) as [Hi _]. rewrite Hi in *.
    assert (Game_Board (after_move now g
              {| Size := Size (Game_Board g); WinLength := WinLength (Game_Board g);
                 Cells := <[Z.to_nat (row * Size (Game_Board g) + col) := Game_Turn g]>
                            (Cells (Game_Board g)) |} winner)
            = {| Size := Size (Game_Board g); WinLength := WinLength (Game_Board g);
                 Cells := <[Z.to_nat (row * Size (Game_Board g) + col) := Game_Turn g]>
                            (Cells (Game_Board g)) |}) as ->.
    { unfold after_move. destruct winner; simpl; try done. by case_match. }
    rewrite Board_Get_mark_at, mark_at_after_Set, decide_True by done. done.
Qed.

(** X9. What Join and MakeMove leave alone. A call that returns changes
    playerO only when it is the successful Join of a Pending match, and
    changes UpdatedAt only when it succeeds, to the time of the call. Through
    every history of calls the id, playerX, CreatedAt, and the size, the win
    length and the number of cells of the board stay what they were. *)
Theorem calls_keep_identity :
  (forall g g' c e, perform g c = Done (g', e) ->
     (Game_PlayerO g' = Game_PlayerO g \/
      exists now, c = CallJoin now (Game_PlayerO g') /\ e = None /\
                  Game_Status g = StatusPending) /\
     (Game_UpdatedAt g' = Game_UpdatedAt g \/
      e = None /\
      Game_UpdatedAt g' = match c with
                          | CallJoin now _ | CallMakeMove now _ _ _ => now
                          end)) /\
  (forall g g' tr, history g tr g' ->
     Game_ID g' = Game_ID g /\ Game_PlayerX g' = Game_PlayerX g /\
     Game_CreatedAt g' = Game_CreatedAt g /\
     Size (Game_Board g') = Size (Game_Board g) /\
     WinLength (Game_Board g') = WinLength (Game_Board g) /\
     length (Cells (Game_Board g')) = length (Cells (Game_Board g))).
Proof.
  assert (forall g g' c e, perform g c = Done (g', e) ->
            (e <> None -> g' = g) /\
            (e = None ->
             Game_ID g' = Game_ID g /\ Game_PlayerX g' = Game_PlayerX g /\
             Game_CreatedAt g' = Game_CreatedAt g /\
             Size (Game_Board g') = Size (Game_Board g) /\
             WinLength (Game_Board g') = WinLength (Game_Board g) /\
             length (Cells (Game_Board g')) = length (Cells (Game_Board g)) /\
             Game_UpdatedAt g' = match c with
                                 | CallJoin now _ | CallMakeMove now _ _ _ => now
                                 end /\
             (Game_PlayerO g' = Game_PlayerO g \/
              exists now, c = CallJoin now (Game_PlayerO g') /\
                          Game_Status g = StatusPending))) as Hstep.
  { intros g g' c e Hcall. destruct c as [now playerID|now playerID row col]; simpl in Hcall.
    - destruct (Join_cases now g playerID) as [[_ H]|[(_ & _ & H)|(Hs & _ & H)]];
        rewrite H in Hcall; injection Hcall as <- <-; split; try done.
      intros _. simpl. repeat split; try done. right. eauto.
    - destruct e as [e|].
      + split; [|done]. intros _.
        destruct (MakeMove_cases now g playerID row col)
          as [[_ H]|[(_ & _ & H)|[(_ & _ & _ & H)|(_ & _ & _ & H)]]];
          try (rewrite H in Hcall; by injection Hcall as <-).
        destruct (Board_Set (Game_Board g) row col (Game_getPlayerMark g playerID))
          as [[board [e'|]]| |] eqn:Hset; try (rewrite H in Hcall; discriminate).
        * rewrite H in Hcall. injection Hcall as <- _.
          apply Board_Set_error in Hset as [-> _]. apply set_Board_same.
        * destruct (Board_CheckWinner board row col); rewrite H in Hcall; discriminate.
      + split; [done|]. intros _.
        destruct (MakeMove_success_fields _ _ _ _ _ _ Hcall)
          as (_ & _ & _ & HID & HX & HO & HC & HU & Hset & _).
        destruct (Board_Set_cases (Game_Board g) row col (Game_Turn g))
          as [[_ H]|[(_ & _ & H)|[(m & _ & _ & _ & H)|(_ & _ & H)]]];
          rewrite H in Hset; try discriminate.
        injection Hset as <-. simpl. rewrite length_insert. repeat split; auto. }
  split.
  - intros g g' c e Hcall. destruct (Hstep g g' c e Hcall) as [Herr Hok].
    destruct e as [e|].
    + rewrite (Herr ltac:(done)). split; by left.
    + destruct (Hok eq_refl) as (_ & _ & _ & _ & _ & _ & HU & HO). split.
      * destruct HO as [HO|(now & -> & Hs)]; [by left|]. right. eauto.
      * right. done.
  - induction 1 as [g|g g1 g2 c e tr Hcall _ IH]; [done|].
    destruct (Hstep g g1 c e Hcall) as [Herr Hok].
    destruct e as [e|].
    + by rewrite <- (Herr ltac:(done)).
    + destruct (Hok eq_refl) as (H1 & H2 & H3 & H4 & H5 & H6 & _).
      destruct IH as (I1 & I2 & I3 & I4 & I5 & I6).
      repeat split; congruence.
Qed.

(** X10. NewGame. It returns InvalidBoardSize exactly when boardSize < 3, and
    InvalidWinLength exactly when boardSize >= 3 and winLength is below 3 or
    above boardSize. For 3 <= winLength <= boardSize with a board that can be
    allocated it returns a Pending match with the given id, the creator as
    playerX, no playerO, X to move, both timestamps at the time of the call,
    and an all-Empty grid of the size asked for. It never returns a match
    together with an error, nor neither of them. *)
Theorem NewGame_spec (maxLen : Z) (now : Time) (id creatorID : string)
    (boardSize winLength : Z) :
  maxLen <= int_max ->
  (NewGame maxLen now id creatorID boardSize winLength
   = Done (None, Some ErrInvalidBoardSize) <-> boardSize < 3) /\
  (NewGame maxLen now id creatorID boardSize winLength
   = Done (None, Some ErrInvalidWinLength)
   <-> 3 <= boardSize /\ (winLength < 3 \/ boardSize < winLength)) /\
  (3 <= winLength <= boardSize -> boardSize * boardSize <= maxLen ->
   exists g,
     NewGame maxLen now id creatorID boardSize winLength = Done (Some g, None) /\
     Game_ID g = id /\ Game_PlayerX g = creatorID /\ Game_PlayerO g = EmptyString /\
     Game_Turn g = MarkX /\ Game_Status g = StatusPending /\
     Game_CreatedAt g = now /\ Game_UpdatedAt g = now /\
     Size (Game_Board g) = boardSize /\ WinLength (Game_Board g) = winLength /\
     Board_inv (Game_Board g) /\
     (forall row col, Board_isValidPosition (Game_Board g) row col = true ->
        Board_Get (Game_Board g) row col = Done (MarkEmpty, None)) /\
     reachable g) /\
  (forall g e, NewGame maxLen now id creatorID boardSize winLength <> Done (Some g, Some e)) /\
  NewGame maxLen now id creatorID boardSize winLength <> Done (None, None).
Proof.
  intros Hmax.
  assert (forall r, NewGame maxLen now id creatorID boardSize winLength = r ->
            (boardSize < 3 /\ r = Done (None, Some ErrInvalidBoardSize)) \/
            (3 <= boardSize /\ (winLength < 3 \/ boardSize < winLength) /\
             r = Done (None, Some ErrInvalidWinLength)) \/
            (3 <= winLength <= boardSize /\
             (r = Panic \/ exists g, r = Done (Some g, None)))) as Hcases.
  { intros r <-. unfold NewGame, NewBoard.
    destruct (Z.ltb_spec boardSize 3); [by left|]. right.
    destruct (Z.ltb_spec winLength 3); simpl;
      [left; split; [lia|]; split; [lia|done]|].
    destruct (Z.ltb_spec boardSize winLength);
      [left; split; [lia|]; split; [lia|done]|]. right.
    split; [lia|].
    unfold make_slice.
    destruct ((mul64 boardSize boardSize <? 0) || (maxLen <? mul64 boardSize boardSize));
      run_simpl; [by left | right; by eexists]. }
  split; [|split; [|split; [|split]]].
  - destruct (Hcases _ eq_refl) as [[? ->]|[(? & ? & ->)|(? & [->|[g ->]])]];
      split; intros; done || lia.
  - destruct (Hcases _ eq_refl) as [[? ->]|[(? & ? & ->)|(? & [->|[g ->]])]];
      split; intros; done || lia.
  - intros Hw Hfit. unfold NewGame. rewrite NewBoard_succeeds by done. run_simpl.
    eexists. split; [done|]. simpl.
    pose proof (fresh_board_inv boardSize winLength Hw ltac:(lia)) as Hinv.
    repeat (split; [done|]). split.
    + intros row col Hv. rewrite Board_Get_mark_at by done.
      unfold mark_at. rewrite Hv. simpl.
      destruct (cell_index _ row col Hinv Hv) as [_ Hrange]. unfold len in Hrange.
      simpl in Hrange. rewrite length_replicate in Hrange.
      rewrite lookup_replicate_2; [done|]. lia.
    + eapply (reachable_new maxLen now id creatorID boardSize winLength); try done.
      unfold NewGame. rewrite NewBoard_succeeds by done. done.
  - intros g e. destruct (Hcases _ eq_refl) as [[? ->]|[(? & ? & ->)|(? & [->|[g' ->]])]];
      done.
  - destruct (Hcases _ eq_refl) as [[? ->]|[(? & ? & ->)|(? & [->|[g' ->]])]]; done.
Qed.

(** X11. GetWinner, GetLoser and IsDraw on the snapshot of a reachable match.
    IsDraw holds exactly for status Draw. For a match that was won, the winner
    and the loser are different ids, the mark of the winner has a complete
    line on the board of the snapshot, and the mark of the loser is its
    opponent. For every other status both are the empty string. *)
Theorem snapshot_winner_has_line (g : Game) :
  reachable g ->
  let s := Game_GetSnapshot g in
  (GameSnapshot_IsDraw s = true <-> Game_Status g = StatusDraw) /\
  (Game_Status g = StatusXWon \/ Game_Status g = StatusOWon ->
     GameSnapshot_GetWinner s <> GameSnapshot_GetLoser s /\
     (exists row col,
        wins_through (Snapshot_Board s) row col
          (Game_GetPlayerMark g (GameSnapshot_GetWinner s))) /\
     Game_GetPlayerMark g (GameSnapshot_GetWinner s) <> MarkEmpty /\
     Game_GetPlayerMark g (GameSnapshot_GetLoser s)
     = Mark_Opponent (Game_GetPlayerMark g (GameSnapshot_GetWinner s))) /\
  (Game_Status g <> StatusXWon -> Game_Status g <> StatusOWon ->
     GameSnapshot_GetWinner s = EmptyString /\ GameSnapshot_GetLoser s = EmptyString).
Proof.
  intros Hr s. pose proof (reachable_inv g Hr) as Hinv.
  unfold s, GameSnapshot_IsDraw, GameSnapshot_GetWinner, GameSnapshot_GetLoser,
    Game_GetPlayerMark, Game_getPlayerMark.
  simpl. rewrite Board_Clone_eq.
  split; [apply Status_eqb_eq|]. split.
  - intros Hs.
    assert (Game_Status g <> StatusPending) as Hnp by (destruct Hs as [-> | ->]; done).
    pose proof (inv_players g Hinv Hnp) as Hne.
    destruct Hs as [Hs|Hs]; rewrite Hs.
    + destruct (inv_x_won g Hinv Hs) as [_ Hline].
      rewrite String.eqb_refl.
      destruct (String.eqb_spec (Game_PlayerO g) (Game_PlayerX g)); [congruence|].
      rewrite String.eqb_refl. done.
    + destruct (inv_o_won g Hinv Hs) as [_ Hline].
      rewrite String.eqb_refl.
      destruct (String.eqb_spec (Game_PlayerO g) (Game_PlayerX g)); [congruence|].
      rewrite String.eqb_refl. repeat split; try done.
  - intros HX HO. by destruct (Game_Status g).
Qed.

(** ** The match registry: Create, Get, Delete and Count *)

Section GameStoreFacts.

Variable runes : string -> list Z.

Lemma GameStore_getShard_ok (s : GameStore) (gameID : string) :
  gstore_ok s ->
  exists sh, GameStore_shards s !! gshard_index runes s gameID = Some sh /\
    GameStore_getShard runes s gameID = Done (gshard_index runes s gameID) /\
    index (GameStore_shards s) (Z.of_nat (gshard_index runes s gameID)) = Done sh.
Proof.
  intros [Hn Hlen]. unfold GameStore_getShard, gshard_index.
  pose proof (Z.mod_pos_bound (GameStore_hash runes gameID)
                (uwrap32 (GameStore_numShards s)) Hn) as Hi.
  destruct (Z.eqb_spec (uwrap32 (GameStore_numShards s)) 0) as [|_]; [lia|].
  destruct (index_in_range (GameStore_shards s)
              (GameStore_hash runes gameID mod uwrap32 (GameStore_numShards s)))
    as (sh & Hidx & Hl); [lia|].
  exists sh. rewrite Hidx, Z2Nat.id by lia. run_simpl. done.
Qed.

Lemma GameStore_Get_stored (s : GameStore) (gameID : string) :
  gstore_ok s ->
  GameStore_Get runes s gameID =
    match stored runes s gameID with
    | Some g => Done (Some g, None)
    | None => Done (None, Some ErrGameNotFound)
    end.
Proof.
  intros Hok. destruct (GameStore_getShard_ok s gameID Hok) as (sh & Hl & Hget & Hidx).
  unfold GameStore_Get, stored. rewrite Hget. run_simpl. rewrite Hidx, Hl. simpl.
  by destruct (games sh !! gameID).
Qed.

(** The store after the map of the shard of [gameID] is replaced. *)
Lemma stored_after_update (s : GameStore) (gameID id : string) (sh : gameShard)
    (m : gmap string Game) :
  GameStore_shards s !! gshard_index runes s gameID = Some sh ->
  (forall k, k <> gameID -> m !! k = games sh !! k) ->
  stored runes {| GameStore_shards :=
                    <[gshard_index runes s gameID := {| games := m |}]> (GameStore_shards s);
                  GameStore_numShards := GameStore_numShards s |} id
  = if decide (id = gameID) then m !! gameID else stored runes s id.
Proof.
  intros Hl Hm. unfold stored, gshard_index. simpl.
  fold (gshard_index runes s id). fold (gshard_index runes s gameID).
  apply lookup_lt_Some in Hl as Hlt.
  destruct (decide (gshard_index runes s gameID = gshard_index runes s id)) as [Heq|Hne].
  - rewrite <- Heq, list_lookup_insert_eq by done. simpl. rewrite Hl. simpl.
    case_decide; [by subst|]. by apply Hm.
  - rewrite list_lookup_insert_ne by done. case_decide; [by subst|done].
Qed.

Lemma gstore_ok_update (s : GameStore) (i : nat) (sh : gameShard) :
  gstore_ok s ->
  gstore_ok {| GameStore_shards := <[i := sh]> (GameStore_shards s);
               GameStore_numShards := GameStore_numShards s |}.
Proof. unfold gstore_ok, len. simpl. by rewrite length_insert. Qed.

Lemma sum_list_insert (l : list nat) (i x y : nat) :
  l !! i = Some x -> (sum_list (<[i := y]> l) + x = sum_list l + y)%nat.
Proof.
  revert i. induction l as [|z l IH]; intros i Hi; [done|].
  destruct i as [|i]; simpl in *.
  - injection Hi as ->. lia.
  - specialize (IH i Hi). lia.
Qed.

Lemma stored_games_update (s : GameStore) (i : nat) (sh : gameShard)
    (m : gmap string Game) :
  GameStore_shards s !! i = Some sh ->
  (stored_games {| GameStore_shards := <[i := {| games := m |}]> (GameStore_shards s);
                   GameStore_numShards := GameStore_numShards s |}
   + size (games sh) = stored_games s + size m)%nat.
Proof.
  intros Hl. unfold stored_games. simpl. rewrite list_fmap_insert. simpl.
  apply sum_list_insert. by rewrite list_lookup_fmap, Hl.
Qed.

End GameStoreFacts.

Lemma Count_is_stored_games (s : GameStore) :
  Z.of_nat (stored_games s) <= int_max ->
  GameStore_Count s = Z.of_nat (stored_games s).
Proof.
  unfold GameStore_Count, stored_games.
  enough (forall acc, 0 <= acc ->
            acc + Z.of_nat (sum_list ((fun sh => size (games sh)) <$> GameStore_shards s))
            <= int_max ->
            foldl (fun count shard => add64 count (Z.of_nat (size (games shard)))) acc
              (GameStore_shards s)
            = acc + Z.of_nat (sum_list ((fun sh => size (games sh)) <$> GameStore_shards s)))
    as H by (intros; rewrite H; lia).
  induction (GameStore_shards s) as [|sh shards IH]; intros acc Hacc Hmax.
  - simpl. lia.
  - rewrite fmap_cons in *. cbn [foldl sum_list_with] in *. unfold id in *.
    rewrite int_max_val in Hmax.
    rewrite add64_id by (unfold is_int; rewrite int_max_val, int_min_val; lia).
    rewrite IH; rewrite ?int_max_val; lia.
Qed.

Lemma fill_game_shards (n : nat) :
  forall (k m : nat),
    foldl (fun ss i => <[i := {| games := ∅ |}]> ss) (replicate m {| games := ∅ |}) (seq k n)
    = replicate m {| games := ∅ |}.
Proof.
  induction n as [|n IH]; intros k m; simpl; [done|].
  by rewrite insert_replicate, IH.
Qed.

Lemma NewGameStore_returns (maxLen numShards : Z) :
  let n := if numShards <? 1 then 64 else numShards in
  n <= maxLen ->
  NewGameStore maxLen numShards =
    Done {| GameStore_shards := replicate (Z.to_nat n) {| games := ∅ |};
            GameStore_numShards := n |}.
Proof.
  intros n Hfit. unfold NewGameStore. fold n.
  assert (1 <= n) as Hpos by (unfold n; destruct (Z.ltb_spec numShards 1); lia).
  unfold make_slice.
  destruct (Z.ltb_spec n 0) as [|_]; [lia|].
  destruct (Z.ltb_spec maxLen n) as [|_]; [lia|]. run_simpl.
  by rewrite length_replicate, fill_game_shards.
Qed.

Lemma pending_snapshots_replicate (n : nat) (k : Z) :
  pending_snapshots {| GameStore_shards := replicate n {| games := ∅ |};
                       GameStore_numShards := k |} = [].
Proof.
  unfold pending_snapshots. simpl. induction n as [|n IH]; simpl; [done|].
  by rewrite map_to_list_empty.
Qed.

Lemma stored_games_replicate (n : nat) (k : Z) :
  stored_games {| GameStore_shards := replicate n {| games := ∅ |};
                  GameStore_numShards := k |} = 0%nat.
Proof.
  unfold stored_games. simpl. induction n as [|n IH]; simpl; [done|].
  by rewrite map_size_empty.
Qed.

Lemma concat_fmap_insert {A B : Type} (f : A -> list B) (l : list A) (i : nat)
    (x y : A) (extra : list B) :
  l !! i = Some x -> f y ≡ₚ extra ++ f x ->
  concat (f <$> <[i := y]> l) ≡ₚ extra ++ concat (f <$> l).
Proof.
  revert i. induction l as [|z l IH]; intros i Hi Hf; [done|].
  destruct i as [|i]; simpl in *.
  - injection Hi as ->. rewrite Hf. by rewrite <- app_assoc.
  - rewrite (IH i Hi Hf). rewrite !app_assoc.
    apply Permutation_app_tail, Permutation_app_comm.
Qed.

Lemma pending_snapshots_update (s : GameStore) (i : nat) (sh : gameShard)
    (m : gmap string Game) (extra : list GameSnapshot) :
  GameStore_shards s !! i = Some sh ->
  pending_in (map_to_list m) ≡ₚ extra ++ pending_in (map_to_list (games sh)) ->
  pending_snapshots {| GameStore_shards := <[i := {| games := m |}]> (GameStore_shards s);
                       GameStore_numShards := GameStore_numShards s |}
  ≡ₚ extra ++ pending_snapshots s.
Proof.
  intros Hl Hm. unfold pending_snapshots. simpl.
  by apply (concat_fmap_insert (fun sh => pending_in (map_to_list (games sh)))
              _ _ sh).
Qed.

Lemma pending_in_cons (id : string) (g : Game) (kvs : list (string * Game)) :
  pending_in ((id, g) :: kvs) = listing_of g ++ pending_in kvs.
Proof.
  unfold pending_in, listing_of. simpl. rewrite filter_cons.
  by destruct (decide (Game_Status g = StatusPending)).
Qed.

Lemma concat_fmap_insert_less {A B : Type} (f : A -> list B) (l : list A) (i : nat)
    (x y : A) (extra : list B) :
  l !! i = Some x -> extra ++ f y ≡ₚ f x ->
  extra ++ concat (f <$> <[i := y]> l) ≡ₚ concat (f <$> l).
Proof.
  revert i. induction l as [|z l IH]; intros i Hi Hf; [done|].
  destruct i as [|i]; simpl in *.
  - injection Hi as ->. rewrite <- Hf. by rewrite <- app_assoc.
  - rewrite <- (IH i Hi Hf). rewrite !app_assoc.
    apply Permutation_app_tail, Permutation_app_comm.
Qed.

(** X12. Create, then Get. On a store with a usable shard count, either the id
    of the match is taken: Get finds a match under it, and Create returns
    GameAlreadyExists and leaves the store as it is; or the id is free: Get
    returns GameNotFound, Create succeeds, Get then returns the match that was
    created, Get of every other id answers as before, and the store holds one
    match more. *)
Theorem Create_then_Get (runes : string -> list Z) (s : GameStore) (g : Game) :
  gstore_ok s ->
  ((exists g0, GameStore_Get runes s (Game_ID g) = Done (Some g0, None)) /\
   GameStore_Create runes s g = Done (s, Some ErrGameAlreadyExists))
  \/
  (GameStore_Get runes s (Game_ID g) = Done (None, Some ErrGameNotFound) /\
   exists s', GameStore_Create runes s g = Done (s', None) /\
     gstore_ok s' /\
     GameStore_numShards s' = GameStore_numShards s /\
     len (GameStore_shards s') = len (GameStore_shards s) /\
     GameStore_Get runes s' (Game_ID g) = Done (Some g, None) /\
     (forall id, id <> Game_ID g -> GameStore_Get runes s' id = GameStore_Get runes s id) /\
     stored_games s' = S (stored_games s)).
Proof.
  intros Hok. destruct (GameStore_getShard_ok runes s (Game_ID g) Hok) as (sh & Hl & Hget & Hidx).
  rewrite (GameStore_Get_stored runes s (Game_ID g) Hok).
  unfold GameStore_Create. rewrite Hget. run_simpl. rewrite Hidx.
  unfold stored at 1 2. rewrite Hl. simpl.
  destruct (games sh !! Game_ID g) as [g0|] eqn:Hg.
  - left. split; [by exists g0 | done].
  - right. split; [done|]. eexists. split; [done|].
    pose proof (gstore_ok_update s (gshard_index runes s (Game_ID g))
                  {| games := <[Game_ID g := g]> (games sh) |} Hok) as Hok'.
    split; [done|]. split; [done|].
    split; [unfold len; simpl; by rewrite length_insert|].
    split; [|split].
    + rewrite (GameStore_Get_stored runes _ _ Hok').
      rewrite (stored_after_update runes s (Game_ID g) (Game_ID g) sh) by
        (done || (intros k Hk; by rewrite lookup_insert_ne)).
      rewrite decide_True by done. by rewrite lookup_insert_eq.
    + intros id Hid. rewrite (GameStore_Get_stored runes _ _ Hok').
      rewrite (GameStore_Get_stored runes s id Hok).
      rewrite (stored_after_update runes s (Game_ID g) id sh) by
        (done || (intros k Hk; by rewrite lookup_insert_ne)).
      by rewrite decide_False by done.
    + pose proof (stored_games_update s _ sh (<[Game_ID g := g]> (games sh)) Hl) as Hsz.
      rewrite map_size_insert_None in Hsz by done. lia.
Qed.

Lemma GameStore_Delete_absent (runes : string -> list Z) (s : GameStore)
    (gameID : string) :
  gstore_ok s -> stored runes s gameID = None ->
  GameStore_Delete runes s gameID = Done (s, Some ErrGameNotFound).
Proof.
  intros Hok Hgone.
  destruct (GameStore_getShard_ok runes s gameID Hok) as (sh & Hl & Hget & Hidx).
  unfold GameStore_Delete. rewrite Hget. run_simpl. rewrite Hidx.
  unfold stored in Hgone. rewrite Hl in Hgone. simpl in Hgone. by rewrite Hgone.
Qed.

(** X13. Delete, then Get. On a store with a usable shard count, either the id
    is unknown: Get and Delete both return GameNotFound and the store is as it
    was; or Get finds a match: Delete succeeds, Get and a second Delete of
    that id then return GameNotFound, Get of every other id answers as before,
    and the store holds one match less. *)
Theorem Delete_then_Get (runes : string -> list Z) (s : GameStore) (gameID : string) :
  gstore_ok s ->
  (GameStore_Get runes s gameID = Done (None, Some ErrGameNotFound) /\
   GameStore_Delete runes s gameID = Done (s, Some ErrGameNotFound))
  \/
  ((exists g, GameStore_Get runes s gameID = Done (Some g, None)) /\
   exists s', GameStore_Delete runes s gameID = Done (s', None) /\
     gstore_ok s' /\
     GameStore_numShards s' = GameStore_numShards s /\
     len (GameStore_shards s') = len (GameStore_shards s) /\
     GameStore_Get runes s' gameID = Done (None, Some ErrGameNotFound) /\
     GameStore_Delete runes s' gameID = Done (s', Some ErrGameNotFound) /\
     (forall id, id <> gameID -> GameStore_Get runes s' id = GameStore_Get runes s id) /\
     stored_games s = S (stored_games s')).
Proof.
  intros Hok. destruct (GameStore_getShard_ok runes s gameID Hok) as (sh & Hl & Hget & Hidx).
  rewrite (GameStore_Get_stored runes s gameID Hok).
  unfold GameStore_Delete at 1 2. rewrite Hget. run_simpl. rewrite Hidx.
  unfold stored at 1 2. rewrite Hl. simpl.
  destruct (games sh !! gameID) as [g0|] eqn:Hg.
  - right. split; [by exists g0|]. eexists. split; [done|].
    pose proof (gstore_ok_update s (gshard_index runes s gameID)
                  {| games := delete gameID (games sh) |} Hok) as Hok'.
    split; [done|]. split; [done|].
    split; [unfold len; simpl; by rewrite length_insert|].
    assert (stored runes
              {| GameStore_shards :=
                   <[gshard_index runes s gameID := {| games := delete gameID (games sh) |}]>
                     (GameStore_shards s);
                 GameStore_numShards := GameStore_numShards s |} gameID = None) as Hgone.
    { rewrite (stored_after_update runes s gameID gameID sh) by
        (done || (intros k Hk; by rewrite lookup_delete_ne)).
      rewrite decide_True by done. by rewrite lookup_delete_eq. }
    split; [|split; [|split]].
    + rewrite (GameStore_Get_stored runes _ _ Hok'). by rewrite Hgone.
    + by apply GameStore_Delete_absent.
    + intros id Hid. rewrite (GameStore_Get_stored runes _ _ Hok').
      rewrite (GameStore_Get_stored runes s id Hok).
      rewrite (stored_after_update runes s gameID id sh) by
        (done || (intros k Hk; by rewrite lookup_delete_ne)).
      by rewrite decide_False by done.
    + pose proof (stored_games_update s _ sh (delete gameID (games sh)) Hl) as Hsz.
      pose proof (map_size_delete gameID (games sh)) as Hd.
      rewrite Hg in Hd. simpl in Hd.
      assert (size (games sh) <> 0%nat) as Hne.
      { intros Hz. apply map_size_empty_inv in Hz. by rewrite Hz in Hg. }
      lia.
  - left. done.
Qed.

Lemma ListPending_all (s : GameStore) (res : run (list GameSnapshot * Z)) :
  GameStore_ListPending s 0 0 res ->
  exists page, res = Done (page, len page) /\ page ≡ₚ pending_snapshots s.
Proof.
  intros (visits & Hv & <-).
  destruct (ListPending_visit_spec visits 0 0) as (_ & Hres & _).
  rewrite Hres by lia. simpl. eexists. split; [done|].
  by apply collect_pending_perm.
Qed.

Lemma ListPending_total (s : GameStore) (limit offset : Z)
    (res : run (list GameSnapshot * Z)) :
  0 <= offset -> GameStore_ListPending s limit offset res ->
  exists page, res = Done (page, len (pending_snapshots s)).
Proof.
  intros Hoff (visits & Hv & <-).
  destruct (ListPending_visit_spec visits limit offset) as (_ & Hres & _).
  rewrite Hres by lia. eexists. f_equal. f_equal.
  by apply len_perm, collect_pending_perm.
Qed.

Lemma pending_snapshots_Create (runes : string -> list Z) (s s' : GameStore) (g : Game) :
  gstore_ok s -> GameStore_Create runes s g = Done (s', None) ->
  pending_snapshots s' ≡ₚ listing_of g ++ pending_snapshots s.
Proof.
  intros Hok. destruct (GameStore_getShard_ok runes s (Game_ID g) Hok) as (sh & Hl & Hget & Hidx).
  unfold GameStore_Create. rewrite Hget. run_simpl. rewrite Hidx.
  destruct (games sh !! Game_ID g) as [g0|] eqn:Hg; [done|].
  intros [= <-]. apply (pending_snapshots_update s _ sh); [done|].
  rewrite (pending_in_perm _ _ (map_to_list_insert (games sh) (Game_ID g) g Hg)).
  by rewrite pending_in_cons.
Qed.

Lemma pending_snapshots_Delete (runes : string -> list Z) (s s' : GameStore)
    (gameID : string) (g : Game) :
  gstore_ok s -> stored runes s gameID = Some g ->
  GameStore_Delete runes s gameID = Done (s', None) ->
  listing_of g ++ pending_snapshots s' ≡ₚ pending_snapshots s.
Proof.
  intros Hok. destruct (GameStore_getShard_ok runes s gameID Hok) as (sh & Hl & Hget & Hidx).
  unfold stored. rewrite Hl. simpl. intros Hg.
  unfold GameStore_Delete. rewrite Hget. run_simpl. rewrite Hidx, Hg.
  intros [= <-]. unfold pending_snapshots. simpl.
  apply (concat_fmap_insert_less (fun sh => pending_in (map_to_list (games sh)))
           _ _ sh); [done|]. simpl.
  rewrite <- (pending_in_cons gameID).
  apply pending_in_perm, map_to_list_delete, Hg.
Qed.

Lemma Create_success_shape (runes : string -> list Z) (s s' : GameStore) (g : Game) :
  gstore_ok s -> GameStore_Create runes s g = Done (s', None) ->
  exists sh, GameStore_shards s !! gshard_index runes s (Game_ID g) = Some sh /\
    games sh !! Game_ID g = None /\
    s' = {| GameStore_shards :=
              <[gshard_index runes s (Game_ID g) :=
                  {| games := <[Game_ID g := g]> (games sh) |}]> (GameStore_shards s);
            GameStore_numShards := GameStore_numShards s |}.
Proof.
  intros Hok. destruct (GameStore_getShard_ok runes s (Game_ID g) Hok) as (sh & Hl & Hget & Hidx).
  unfold GameStore_Create. rewrite Hget. run_simpl. rewrite Hidx.
  destruct (games sh !! Game_ID g) as [g0|] eqn:Hg; [done|].
  intros [= <-]. by exists sh.
Qed.

Lemma Delete_success_shape (runes : string -> list Z) (s s' : GameStore)
    (gameID : string) :
  gstore_ok s -> GameStore_Delete runes s gameID = Done (s', None) ->
  exists sh g, GameStore_shards s !! gshard_index runes s gameID = Some sh /\
    games sh !! gameID = Some g /\
    s' = {| GameStore_shards :=
              <[gshard_index runes s gameID :=
                  {| games := delete gameID (games sh) |}]> (GameStore_shards s);
            GameStore_numShards := GameStore_numShards s |}.
Proof.
  intros Hok. destruct (GameStore_getShard_ok runes s gameID Hok) as (sh & Hl & Hget & Hidx).
  unfold GameStore_Delete. rewrite Hget. run_simpl. rewrite Hidx.
  destruct (games sh !! gameID) as [g0|] eqn:Hg; [|done].
  intros [= <-]. by exists sh, g0.
Qed.

Lemma sum_list_zero (l : list nat) (i x : nat) :
  sum_list l = 0%nat -> l !! i = Some x -> x = 0%nat.
Proof.
  revert i. induction l as [|z l IH]; intros i Hs Hi; [done|].
  simpl in Hs. destruct i as [|i]; simpl in Hi.
  - injection Hi as ->. lia.
  - apply (IH i); [lia | done].
Qed.

Lemma GameStore_Delete_present (runes : string -> list Z) (s : GameStore)
    (gameID : string) (sh : gameShard) (g : Game) :
  gstore_ok s ->
  GameStore_shards s !! gshard_index runes s gameID = Some sh ->
  games sh !! gameID = Some g ->
  GameStore_Delete runes s gameID =
    Done ({| GameStore_shards :=
               <[gshard_index runes s gameID :=
                   {| games := delete gameID (games sh) |}]> (GameStore_shards s);
             GameStore_numShards := GameStore_numShards s |}, None).
Proof.
  intros Hok Hl Hg.
  destruct (GameStore_getShard_ok runes s gameID Hok) as (sh' & Hl' & Hget & Hidx).
  assert (sh' = sh) as -> by congruence.
  unfold GameStore_Delete. rewrite Hget. run_simpl. by rewrite Hidx, Hg.
Qed.

Lemma GameStore_Create_absent (runes : string -> list Z) (s : GameStore)
    (g : Game) (sh : gameShard) :
  gstore_ok s ->
  GameStore_shards s !! gshard_index runes s (Game_ID g) = Some sh ->
  games sh !! Game_ID g = None ->
  GameStore_Create runes s g =
    Done ({| GameStore_shards :=
               <[gshard_index runes s (Game_ID g) :=
                   {| games := <[Game_ID g := g]> (games sh) |}]> (GameStore_shards s);
             GameStore_numShards := GameStore_numShards s |}, None).
Proof.
  intros Hok Hl Hg.
  destruct (GameStore_getShard_ok runes s (Game_ID g) Hok) as (sh' & Hl' & Hget & Hidx).
  assert (sh' = sh) as -> by congruence.
  unfold GameStore_Create. rewrite Hget. run_simpl. by rewrite Hidx, Hg.
Qed.

(** X14. Delete undoes Create. After a Create that succeeded, Delete of the id
    of the match succeeds and gives back the store as it was before the
    Create. *)
Theorem Create_then_Delete (runes : string -> list Z) (s s' : GameStore) (g : Game) :
  gstore_ok s ->
  GameStore_Create runes s g = Done (s', None) ->
  GameStore_Delete runes s' (Game_ID g) = Done (s, None).
Proof.
  intros Hok Hc.
  destruct (Create_success_shape runes s s' g Hok Hc) as (sh & Hl & Hg & ->).
  pose proof (gstore_ok_update s (gshard_index runes s (Game_ID g))
                {| games := <[Game_ID g := g]> (games sh) |} Hok) as Hok'.
  rewrite (GameStore_Delete_present runes _ (Game_ID g)
             {| games := <[Game_ID g := g]> (games sh) |} g Hok').
  - unfold gshard_index. simpl. fold (gshard_index runes s (Game_ID g)).
    rewrite list_insert_insert_eq, delete_insert_id by done.
    rewrite list_insert_id by (by destruct sh). by destruct s.
  - unfold gshard_index. simpl. fold (gshard_index runes s (Game_ID g)).
    apply list_lookup_insert_eq. by apply lookup_lt_Some in Hl.
  - simpl. apply lookup_insert_eq.
Qed.

(** X15. Count. On a store with a usable shard count that holds fewer than
    2^63 - 1 matches, Count is not negative, is one more after every Create
    that succeeds and one less after every Delete that succeeds; and when
    Count is 0, Get finds no id. *)
Theorem Count_tracks_Create_and_Delete (runes : string -> list Z) (s : GameStore) :
  gstore_ok s ->
  Z.of_nat (stored_games s) < int_max ->
  0 <= GameStore_Count s /\
  (forall g s', GameStore_Create runes s g = Done (s', None) ->
     GameStore_Count s' = GameStore_Count s + 1) /\
  (forall gameID s', GameStore_Delete runes s gameID = Done (s', None) ->
     GameStore_Count s' = GameStore_Count s - 1) /\
  (GameStore_Count s = 0 ->
     forall gameID,
       GameStore_Get runes s gameID = Done (None, Some ErrGameNotFound)).
Proof.
  intros Hok Hmax. rewrite (Count_is_stored_games s) by lia.
  split; [lia|]. split; [|split].
  - intros g s' Hc.
    destruct (Create_success_shape runes s s' g Hok Hc) as (sh & Hl & Hg & ->).
    pose proof (stored_games_update s _ sh (<[Game_ID g := g]> (games sh)) Hl) as Hsz.
    rewrite map_size_insert_None in Hsz by done.
    rewrite Count_is_stored_games; lia.
  - intros gameID s' Hd.
    destruct (Delete_success_shape runes s s' gameID Hok Hd) as (sh & g & Hl & Hg & ->).
    pose proof (stored_games_update s _ sh (delete gameID (games sh)) Hl) as Hsz.
    rewrite map_size_delete_Some in Hsz by done.
    assert (size (games sh) <> 0%nat) as Hne.
    { intros Hz. apply map_size_empty_inv in Hz. by rewrite Hz in Hg. }
    rewrite Count_is_stored_games; lia.
  - intros Hz gameID. rewrite (GameStore_Get_stored runes s gameID Hok).
    destruct (GameStore_getShard_ok runes s gameID Hok) as (sh & Hl & _).
    unfold stored. rewrite Hl. simpl.
    assert (size (games sh) = 0%nat) as Hsz.
    { apply (sum_list_zero ((fun sh => size (games sh)) <$> GameStore_shards s)
               (gshard_index runes s gameID)).
      - unfold stored_games in Hz. lia.
      - by rewrite list_lookup_fmap, Hl. }
    apply map_size_empty_inv in Hsz. by rewrite Hsz, lookup_empty.
Qed.

(** X16. NewGameStore, with a shard count below 1 replaced by 64. When that
    many shards can be allocated it returns a store with that shard count; its
    Count is 0; ListPending returns the empty page and total 0 for every limit
    and every offset >= 0; every Get returns GameNotFound and every Create
    succeeds. The exception is a shard count that is a multiple of 2^32: there
    [uint32(numShards)] is 0, and every Get and every Create panics with a
    division by zero. *)
Theorem NewGameStore_empty (runes : string -> list Z) (maxLen numShards : Z) :
  let n := if numShards <? 1 then 64 else numShards in
  n <= maxLen ->
  exists s, NewGameStore maxLen numShards = Done s /\
    GameStore_numShards s = n /\
    len (GameStore_shards s) = n /\
    GameStore_Count s = 0 /\
    (forall limit offset res, 0 <= offset ->
       GameStore_ListPending s limit offset res -> res = Done ([], 0)) /\
    (forall gameID,
       GameStore_Get runes s gameID =
         if n mod 2 ^ 32 =? 0 then Panic else Done (None, Some ErrGameNotFound)) /\
    (forall g,
       GameStore_Create runes s g =
         if n mod 2 ^ 32 =? 0 then Panic
         else Done ({| GameStore_shards :=
                         <[gshard_index runes s (Game_ID g) :=
                             {| games := {[Game_ID g := g]} |}]> (GameStore_shards s);
                       GameStore_numShards := n |}, None)).
Proof.
  intros n Hfit.
  assert (1 <= n) as Hpos by (unfold n; destruct (Z.ltb_spec numShards 1); lia).
  eexists. split; [by apply NewGameStore_returns|]. fold n.
  set (s := {| GameStore_shards := replicate (Z.to_nat n) {| games := ∅ |};
               GameStore_numShards := n |}).
  split; [done|].
  split; [unfold len; simpl; rewrite length_replicate; lia|].
  split; [|split; [|split]].
  - rewrite Count_is_stored_games; unfold s; rewrite stored_games_replicate;
      [done | rewrite int_max_val; lia].
  - intros limit offset res Hoff (visits & Hv & <-).
    destruct (ListPending_visit_spec visits limit offset) as (_ & Hres & _).
    rewrite Hres by lia.
    pose proof (collect_pending_perm s visits Hv) as Hp.
    unfold s in Hp. rewrite pending_snapshots_replicate in Hp.
    apply Permutation_nil_r in Hp. rewrite Hp. unfold page_of.
    rewrite drop_nil, take_nil. by destruct (0 <? limit).
  - intros gameID. destruct (Z.eqb_spec (n mod 2 ^ 32) 0) as [Hz|Hnz].
    + unfold GameStore_Get, GameStore_getShard. simpl. unfold uwrap32.
      by rewrite Hz.
    + assert (gstore_ok s) as Hok.
      { unfold gstore_ok, len, uwrap32. simpl. rewrite length_replicate.
        pose proof (Z.mod_pos_bound n (2 ^ 32) eq_refl).
        pose proof (Z.mod_le n (2 ^ 32)). lia. }
      rewrite (GameStore_Get_stored runes s gameID Hok).
      destruct (GameStore_getShard_ok runes s gameID Hok) as (sh & Hl & _).
      unfold stored. rewrite Hl. simpl.
      apply lookup_replicate in Hl as [-> _]. simpl. by rewrite lookup_empty.
  - intros g. destruct (Z.eqb_spec (n mod 2 ^ 32) 0) as [Hz|Hnz].
    + unfold GameStore_Create, GameStore_getShard. simpl. unfold uwrap32.
      by rewrite Hz.
    + assert (gstore_ok s) as Hok.
      { unfold gstore_ok, len, uwrap32. simpl. rewrite length_replicate.
        pose proof (Z.mod_pos_bound n (2 ^ 32) eq_refl).
        pose proof (Z.mod_le n (2 ^ 32)). lia. }
      destruct (GameStore_getShard_ok runes s (Game_ID g) Hok) as (sh & Hl & _).
      apply lookup_replicate in Hl as Hsh. destruct Hsh as [-> _].
      rewrite (GameStore_Create_absent runes s g _ Hok Hl) by apply lookup_empty.
      simpl. by rewrite insert_empty.
Qed.

(** X17. ListPending follows Create and Delete. With limit 0 and offset 0
    ListPending returns all pending matches and their number. After a Create
    that succeeded it returns what it returned before, together with the
    snapshot of the created match when that match is Pending; after a Delete
    that succeeded, what it returned before without the snapshot of the
    deleted match. Pages are compared as collections: the order within a page
    is that of the visit of the shard maps, which the store does not fix. *)
Theorem listing_follows_Create_and_Delete (runes : string -> list Z) (s : GameStore) :
  gstore_ok s ->
  (forall g s' res res',
     GameStore_Create runes s g = Done (s', None) ->
     GameStore_ListPending s 0 0 res ->
     GameStore_ListPending s' 0 0 res' ->
     exists page page',
       res = Done (page, len page) /\ res' = Done (page', len page') /\
       page' ≡ₚ listing_of g ++ page /\
       len page' = len page + (if decide (Game_Status g = StatusPending) then 1 else 0)) /\
  (forall gameID g s' res res',
     GameStore_Get runes s gameID = Done (Some g, None) ->
     GameStore_Delete runes s gameID = Done (s', None) ->
     GameStore_ListPending s 0 0 res ->
     GameStore_ListPending s' 0 0 res' ->
     exists page page',
       res = Done (page, len page) /\ res' = Done (page', len page') /\
       page ≡ₚ listing_of g ++ page' /\
       len page' = len page - (if decide (Game_Status g = StatusPending) then 1 else 0)).
Proof.
  intros Hok. split.
  - intros g s' res res' Hc Hr Hr'.
    destruct (ListPending_all s res Hr) as (page & -> & Hp).
    destruct (ListPending_all s' res' Hr') as (page' & -> & Hp').
    exists page, page'. split; [done|]. split; [done|].
    assert (page' ≡ₚ listing_of g ++ page) as Hperm.
    { rewrite Hp', Hp. by apply (pending_snapshots_Create runes). }
    split; [done|]. rewrite (len_perm _ _ Hperm). unfold len, listing_of.
    rewrite length_app. destruct (decide (Game_Status g = StatusPending)); simpl; lia.
  - intros gameID g s' res res' Hg Hd Hr Hr'.
    destruct (ListPending_all s res Hr) as (page & -> & Hp).
    destruct (ListPending_all s' res' Hr') as (page' & -> & Hp').
    exists page, page'. split; [done|]. split; [done|].
    assert (page ≡ₚ listing_of g ++ page') as Hperm.
    { rewrite Hp', Hp. symmetry. apply (pending_snapshots_Delete runes _ _ gameID); [done| |done].
      rewrite (GameStore_Get_stored runes s gameID Hok) in Hg.
      destruct (stored runes s gameID); by simplify_eq. }
    split; [done|]. rewrite (len_perm _ _ Hperm). unfold len, listing_of.
    rewrite length_app. destruct (decide (Game_Status g = StatusPending)); simpl; lia.
Qed.

(** ** The stats registry: Get and sequences of records *)

Lemma bump_exact (n : nat) (x : Z) :
  is_int32 x -> x + Z.of_nat n <= int32_max -> bump n x = x + Z.of_nat n.
Proof.
  unfold bump. induction n as [|n IH]; intros Hx Hmax.
  - simpl. lia.
  - rewrite Nat.iter_succ, IH by (done || lia). unfold add32.
    rewrite wrap32_id; [lia|]. unfold is_int32 in *. lia.
Qed.

Lemma bump_succ_r (n : nat) (x : Z) : bump (S n) x = bump n (add32 x 1).
Proof. unfold bump. by rewrite Nat.iter_succ_r. Qed.

Lemma tally_cons (o : Outcome) (v : string) (r : Outcome * string)
    (rs : list (Outcome * string)) :
  tally o v (r :: rs) = if decide (r = (o, v)) then S (tally o v rs) else tally o v rs.
Proof. unfold tally. rewrite filter_cons. by case_decide. Qed.

Lemma tally_perm (o : Outcome) (v : string) (rs rs' : list (Outcome * string)) :
  rs ≡ₚ rs' -> tally o v rs = tally o v rs'.
Proof. intros H. unfold tally. by rewrite H. Qed.

Lemma store_ok_getOrCreate_present (runes : string -> list Z) (s : StatsStore)
    (userID : string) (st : UserStats) :
  store_ok s -> view runes s userID = Some st ->
  StatsStore_getOrCreate runes s userID = Done (s, (shard_index runes s userID, userID)).
Proof.
  intros Hok Hv. pose proof (shard_index_lt runes s userID Hok) as Hlt.
  destruct Hok as [Hn Hlen].
  unfold StatsStore_getOrCreate, StatsStore_getShard.
  pose proof (Z.mod_pos_bound (StatsStore_hash runes userID)
                (uwrap32 (StatsStore_numShards s)) Hn) as Hi.
  destruct (Z.eqb_spec (uwrap32 (StatsStore_numShards s)) 0) as [|_]; [lia|].
  destruct (index_in_range (StatsStore_shards s)
              (StatsStore_hash runes userID mod uwrap32 (StatsStore_numShards s)))
    as (sh & Hidx & Hl); [lia|].
  rewrite Hidx. run_simpl. rewrite Z2Nat.id by lia. rewrite Hidx. run_simpl.
  fold (shard_index runes s userID) in Hl |- *.
  unfold view, deref in Hv. simpl in Hv. rewrite Hl in Hv. simpl in Hv.
  by rewrite Hv.
Qed.

(** One recorded outcome, on the records of all users. *)
Lemma record_one_stats (runes : string -> list Z) (s : StatsStore) (r : Outcome * string) :
  store_ok s ->
  exists s', record_one runes s r = Done s' /\ store_ok s' /\
    forall v, stats_of runes s' v = bump_stats v [r] (stats_of runes s v).
Proof.
  intros Hok. destruct r as [o userID]. unfold record_one. simpl.
  destruct o.
  - destruct (record_with runes (AddInt32_Wins 1) s userID Hok) as (s' & Hrun & Hok' & Hst).
    exists s'. split; [done|]. split; [done|]. intros v. rewrite Hst.
    unfold bump_stats. rewrite !tally_cons.
    repeat case_decide; simplify_eq; try done; by destruct (stats_of runes s v).
  - destruct (record_with runes (AddInt32_Losses 1) s userID Hok) as (s' & Hrun & Hok' & Hst).
    exists s'. split; [done|]. split; [done|]. intros v. rewrite Hst.
    unfold bump_stats. rewrite !tally_cons.
    repeat case_decide; simplify_eq; try done; by destruct (stats_of runes s v).
  - destruct (record_with runes (AddInt32_Draws 1) s userID Hok) as (s' & Hrun & Hok' & Hst).
    exists s'. split; [done|]. split; [done|]. intros v. rewrite Hst.
    unfold bump_stats. rewrite !tally_cons.
    repeat case_decide; simplify_eq; try done; by destruct (stats_of runes s v).
Qed.

Lemma bump_stats_cons (v : string) (r : Outcome * string) (rs : list (Outcome * string))
    (st : UserStats) :
  bump_stats v (r :: rs) st = bump_stats v rs (bump_stats v [r] st).
Proof.
  unfold bump_stats. simpl. rewrite !(tally_cons _ _ r rs), !(tally_cons _ _ r []).
  unfold tally at 4 5 6. simpl.
  f_equal; case_decide; by rewrite ?bump_succ_r.
Qed.

Lemma record_all_stats (runes : string -> list Z) (rs : list (Outcome * string)) :
  forall s, store_ok s ->
  exists s', record_all runes s rs = Done s' /\ store_ok s' /\
    forall v, stats_of runes s' v = bump_stats v rs (stats_of runes s v).
Proof.
  induction rs as [|r rs IH]; intros s Hok.
  - exists s. split; [done|]. split; [done|]. intros v.
    unfold bump_stats, tally, bump. simpl. by destruct (stats_of runes s v).
  - destruct (record_one_stats runes s r Hok) as (s1 & Hrun1 & Hok1 & Hst1).
    destruct (IH s1 Hok1) as (s2 & Hrun2 & Hok2 & Hst2).
    exists s2. simpl. rewrite Hrun1. run_simpl. split; [done|]. split; [done|].
    intros v. rewrite Hst2, Hst1. symmetry. apply bump_stats_cons.
Qed.

Lemma fill_stats_shards (n : nat) :
  forall (k m : nat),
    foldl (fun ss i => <[i := {| stats := ∅ |}]> ss) (replicate m {| stats := ∅ |}) (seq k n)
    = replicate m {| stats := ∅ |}.
Proof.
  induction n as [|n IH]; intros k m; simpl; [done|].
  by rewrite insert_replicate, IH.
Qed.

Lemma NewStatsStore_returns (maxLen numShards : Z) :
  let n := if numShards <? 1 then 64 else numShards in
  n <= maxLen ->
  NewStatsStore maxLen numShards =
    Done {| StatsStore_shards := replicate (Z.to_nat n) {| stats := ∅ |};
            StatsStore_numShards := n |}.
Proof.
  intros n Hfit. unfold NewStatsStore. fold n.
  assert (1 <= n) as Hpos by (unfold n; destruct (Z.ltb_spec numShards 1); lia).
  unfold make_slice.
  destruct (Z.ltb_spec n 0) as [|_]; [lia|].
  destruct (Z.ltb_spec maxLen n) as [|_]; [lia|]. run_simpl.
  by rewrite length_replicate, fill_stats_shards.
Qed.

Lemma view_replicate (runes : string -> list Z) (n : nat) (k : Z) (v : string) :
  view runes {| StatsStore_shards := replicate n {| stats := ∅ |};
                StatsStore_numShards := k |} v = None.
Proof.
  unfold view, deref. simpl.
  destruct (replicate n {| stats := ∅ |} !! _) as [sh|] eqn:Hl; [|done].
  apply lookup_replicate in Hl as [-> _]. simpl. apply lookup_empty.
Qed.

Lemma getShard_zero_shards (runes : string -> list Z) (s : StatsStore) (userID : string) :
  uwrap32 (StatsStore_numShards s) = 0 ->
  StatsStore_getOrCreate runes s userID = Panic.
Proof.
  intros Hz. unfold StatsStore_getOrCreate, StatsStore_getShard. by rewrite Hz.
Qed.

(** X18. StatsStore.Get reads, and creates what is missing. On a store with a
    usable shard count it returns counters under the id asked for and leaves
    what Get reports of every user unchanged. For a user that has a record the
    store is exactly as before; for a user that has none, the answer is all
    zeros and a record of zeros is stored. A second Get returns the same
    answer and changes nothing. *)
Theorem Get_stores_at_most_a_zero_record (runes : string -> list Z) (s : StatsStore)
    (userID : string) :
  store_ok s ->
  exists s' st,
    StatsStore_Get runes s userID = Done (s', st) /\
    UserID st = userID /\
    store_ok s' /\
    (forall v c, reports runes s' v c <-> reports runes s v c) /\
    (view runes s userID <> None -> s' = s) /\
    (view runes s userID = None ->
       st = zero_stats userID /\ view runes s' userID = Some (zero_stats userID)) /\
    StatsStore_Get runes s' userID = Done (s', st).
Proof.
  intros Hok.
  destruct (getOrCreate_spec runes s userID Hok) as (s' & Hrun & Hns & Hlen & Hview).
  assert (store_ok s') as Hok'.
  { unfold store_ok, len in *. by rewrite Hns, Hlen. }
  assert (shard_index runes s userID = shard_index runes s' userID) as Hidx
    by (unfold shard_index; by rewrite Hns).
  pose proof (Hview userID) as Hu. rewrite decide_True in Hu by done.
  assert (StatsStore_Get runes s' userID =
          Done (s', let st := default (zero_stats userID) (view runes s userID) in
                    {| UserID := userID; Wins := Wins st; Losses := Losses st;
                       Draws := Draws st |})) as Hget'.
  { unfold StatsStore_Get.
    rewrite (store_ok_getOrCreate_present runes s' userID _ Hok' Hu). run_simpl.
    fold (view runes s' userID). by rewrite Hu. }
  eexists s', _. split; [|split; [|split; [|split; [|split; [|split]]]]].
  - unfold StatsStore_Get. rewrite Hrun. run_simpl. rewrite Hidx.
    fold (view runes s' userID). by rewrite Hu.
  - done.
  - done.
  - intros v c. rewrite (reports_view runes s' v c Hok'), (reports_view runes s v c Hok).
    rewrite Hview. case_decide; [subst v|done]. simpl.
    by destruct (view runes s userID).
  - intros Hsome. destruct (view runes s userID) as [st0|] eqn:Hv; [|done].
    rewrite (store_ok_getOrCreate_present runes s userID st0 Hok Hv) in Hrun.
    by injection Hrun.
  - intros Hnone. rewrite Hnone in Hu |- *. done.
  - exact Hget'.
Qed.

(** X19. NewStatsStore, with a shard count below 1 replaced by 64. When that
    many shards can be allocated it returns a store with that shard count in
    which Get answers zero wins, losses and draws, hence zero games, for every
    user. The exception is a shard count that is a multiple of 2^32: there
    Get, RecordWin, RecordLoss and RecordDraw all panic with a division by
    zero. *)
Theorem NewStatsStore_starts_at_zero (runes : string -> list Z) (maxLen numShards : Z) :
  let n := if numShards <? 1 then 64 else numShards in
  n <= maxLen ->
  exists s, NewStatsStore maxLen numShards = Done s /\
    StatsStore_numShards s = n /\
    len (StatsStore_shards s) = n /\
    (n mod 2 ^ 32 <> 0 ->
       store_ok s /\
       forall userID, exists s',
         StatsStore_Get runes s userID = Done (s', zero_stats userID) /\
         UserStats_TotalGames (zero_stats userID) = 0) /\
    (n mod 2 ^ 32 = 0 ->
       forall userID,
         StatsStore_Get runes s userID = Panic /\
         StatsStore_RecordWin runes s userID = Panic /\
         StatsStore_RecordLoss runes s userID = Panic /\
         StatsStore_RecordDraw runes s userID = Panic).
Proof.
  intros n Hfit.
  assert (1 <= n) as Hpos by (unfold n; destruct (Z.ltb_spec numShards 1); lia).
  eexists. split; [by apply NewStatsStore_returns|]. fold n.
  set (s := {| StatsStore_shards := replicate (Z.to_nat n) {| stats := ∅ |};
               StatsStore_numShards := n |}).
  split; [done|].
  split; [unfold len; simpl; rewrite length_replicate; lia|].
  split.
  - intros Hnz.
    assert (store_ok s) as Hok.
    { unfold store_ok, len, uwrap32. simpl. rewrite length_replicate.
      pose proof (Z.mod_pos_bound n (2 ^ 32) eq_refl).
      pose proof (Z.mod_le n (2 ^ 32)). lia. }
    split; [done|]. intros userID.
    assert (reports runes s userID (0, 0, 0)) as [s' Hs'].
    { apply reports_view; [done|]. unfold s. by rewrite view_replicate. }
    exists s'. split; [exact Hs' | done].
  - intros Hz userID.
    assert (StatsStore_getOrCreate runes s userID = Panic) as Hp
      by (by apply getShard_zero_shards).
    unfold StatsStore_Get, StatsStore_RecordWin, StatsStore_RecordLoss,
      StatsStore_RecordDraw. by rewrite Hp.
Qed.

(** X20. Records add up. Every sequence of RecordWin, RecordLoss and
    RecordDraw calls on a store with a usable shard count returns, and adds to
    each counter of each user one for every call of that kind for that user,
    in [int32] arithmetic: exactly that number as long as the counters stay
    within [int32]. So the counters after the calls do not depend on the order
    in which the calls were made. *)
Theorem records_add_up (runes : string -> list Z) (s : StatsStore)
    (rs : list (Outcome * string)) :
  store_ok s ->
  exists s', record_all runes s rs = Done s' /\ store_ok s' /\
    (forall v w l d, reports runes s v (w, l, d) ->
       reports runes s' v
         (bump (tally Won v rs) w, bump (tally Lost v rs) l, bump (tally Drawn v rs) d) /\
       (is_int32 w -> is_int32 l -> is_int32 d ->
        w + Z.of_nat (tally Won v rs) <= int32_max ->
        l + Z.of_nat (tally Lost v rs) <= int32_max ->
        d + Z.of_nat (tally Drawn v rs) <= int32_max ->
        reports runes s' v
          (w + Z.of_nat (tally Won v rs), l + Z.of_nat (tally Lost v rs),
           d + Z.of_nat (tally Drawn v rs)))) /\
    (forall rs', rs ≡ₚ rs' ->
       exists s'', record_all runes s rs' = Done s'' /\
         forall v c, reports runes s'' v c <-> reports runes s' v c).
Proof.
  intros Hok.
  destruct (record_all_stats runes rs s Hok) as (s' & Hrun & Hok' & Hst).
  exists s'. split; [done|]. split; [done|]. split.
  - intros v w l d Hrep. apply reports_stats_of in Hrep; [|done].
    injection Hrep as -> -> ->.
    assert (reports runes s' v
              (bump (tally Won v rs) (Wins (stats_of runes s v)),
               bump (tally Lost v rs) (Losses (stats_of runes s v)),
               bump (tally Drawn v rs) (Draws (stats_of runes s v)))) as Hr.
    { apply reports_stats_of; [done|]. by rewrite Hst. }
    split; [done|]. intros Hw Hl Hd Hmw Hml Hmd.
    by rewrite !bump_exact in Hr by done.
  - intros rs' Hperm.
    destruct (record_all_stats runes rs' s Hok) as (s'' & Hrun' & Hok'' & Hst').
    exists s''. split; [done|]. intros v c.
    rewrite (reports_stats_of runes s'' v c Hok''), (reports_stats_of runes s' v c Hok').
    rewrite Hst, Hst'. unfold bump_stats.
    by rewrite !(tally_perm _ v rs rs' Hperm).
Qed.

(** ** Update fan-out *)

Lemma lookup_deliver_to (chs : list nat) (update : GameUpdate) (chans : gmap nat Chan)
    (ch : nat) :
  deliver_to chs update chans !! ch =
    (fun c => if bool_decide (ch ∈ chs) then deliver update c else c) <$> chans !! ch.
Proof.
  unfold deliver_to. rewrite map_lookup_imap. by destruct (chans !! ch).
Qed.

Lemma in_single_eq (ch : nat) : bool_decide (ch ∈ [ch]) = true.
Proof. apply bool_decide_eq_true_2. by apply list_elem_of_singleton. Qed.

Lemma in_single_ne (k ch : nat) : k <> ch -> bool_decide (k ∈ [ch]) = false.
Proof. intros Hne. apply bool_decide_eq_false_2. by rewrite list_elem_of_singleton. Qed.

Lemma send_or_skip_spec (chans : gmap nat Chan) (ch : nat) (update : GameUpdate) :
  send_or_skip chans ch update =
    if closed_at chans ch then Panic else Done (deliver_to [ch] update chans).
Proof.
  unfold send_or_skip, closed_at.
  destruct (chans !! ch) as [c|] eqn:Hc.
  - destruct (Chan_closed c) eqn:Hcl; [done|].
    destruct (len (Chan_buf c) <? Chan_cap c) eqn:Hroom; f_equal; apply map_eq; intros k;
      rewrite lookup_deliver_to; unfold deliver;
      (destruct (decide (k = ch)) as [->|Hne];
       [rewrite Hc; simpl; rewrite in_single_eq, Hroom | rewrite in_single_ne by done]).
    + rewrite lookup_insert_eq. by rewrite Hcl.
    + rewrite lookup_insert_ne by done. by destruct (chans !! k).
    + done.
    + by destruct (chans !! k).
  - f_equal. apply map_eq. intros k. rewrite lookup_deliver_to.
    destruct (decide (k = ch)) as [->|Hne].
    + by rewrite Hc.
    + rewrite in_single_ne by done. by destruct (chans !! k).
Qed.

Lemma closed_at_deliver_to (chs : list nat) (update : GameUpdate) (chans : gmap nat Chan)
    (ch : nat) :
  closed_at (deliver_to chs update chans) ch = closed_at chans ch.
Proof.
  unfold closed_at. rewrite lookup_deliver_to.
  destruct (chans !! ch) as [c|]; [|done]. simpl.
  unfold deliver. by repeat case_match.
Qed.

Lemma deliver_to_cons (ch : nat) (chs : list nat) (update : GameUpdate)
    (chans : gmap nat Chan) :
  ch ∉ chs ->
  deliver_to chs update (deliver_to [ch] update chans) = deliver_to (ch :: chs) update chans.
Proof.
  intros Hnot. apply map_eq. intros k. rewrite !lookup_deliver_to.
  destruct (chans !! k) as [c|]; [|done]. simpl. f_equal.
  destruct (decide (k = ch)) as [->|Hne].
  - rewrite (bool_decide_eq_false_2 (ch ∈ chs)) by done.
    rewrite in_single_eq. rewrite bool_decide_eq_true_2; [done|]. by left.
  - rewrite in_single_ne by done.
    destruct (decide (k ∈ chs)).
    + rewrite !bool_decide_eq_true_2; [done| |done]. by right.
    + rewrite !bool_decide_eq_false_2; [done| |done].
      rewrite elem_of_cons. by intros [|].
Qed.

Lemma existsb_pointwise {A : Type} (f g : A -> bool) (l : list A) :
  (forall x, f x = g x) -> existsb f l = existsb g l.
Proof. intros H. induction l as [|x l IH]; simpl; [done|]. by rewrite H, IH. Qed.

(** The loop of broadcastUpdate: it panics when one of the channels is
    closed, and otherwise offers the update to each of them. *)
Lemma broadcast_loop_spec (order : list nat) (update : GameUpdate) :
  forall chans, NoDup order ->
  broadcast_loop chans order update =
    if existsb (closed_at chans) order then Panic
    else Done (deliver_to order update chans).
Proof.
  induction order as [|ch order IH]; intros chans Hnd.
  - simpl. f_equal. apply map_eq. intros k. rewrite lookup_deliver_to.
    rewrite bool_decide_eq_false_2 by apply not_elem_of_nil. by destruct (chans !! k).
  - apply NoDup_cons in Hnd as [Hnot Hnd]. simpl. rewrite send_or_skip_spec.
    destruct (closed_at chans ch) eqn:Hcl; [done|]. simpl.
    unfold mbind, run_bind. rewrite (IH _ Hnd).
    rewrite (existsb_pointwise _ (closed_at chans)) by
      (intros k; apply closed_at_deliver_to).
    destruct (existsb (closed_at chans) order); [done|].
    by rewrite deliver_to_cons.
Qed.

Lemma existsb_perm {A : Type} (f : A -> bool) (l k : list A) :
  l ≡ₚ k -> existsb f l = existsb f k.
Proof.
  induction 1 as [|x l k _ IH|x y l|l k m _ IH1 _ IH2]; simpl.
  - done.
  - by rewrite IH.
  - by destruct (f x), (f y).
  - by rewrite IH1.
Qed.

Lemma deliver_to_perm (l k : list nat) (update : GameUpdate) (chans : gmap nat Chan) :
  l ≡ₚ k -> deliver_to l update chans = deliver_to k update chans.
Proof.
  intros Hp. apply map_eq. intros ch. rewrite !lookup_deliver_to.
  destruct (chans !! ch) as [c|]; [|done]. simpl. f_equal.
  destruct (decide (ch ∈ l)) as [Hin|Hnin].
  - rewrite !bool_decide_eq_true_2; [done| |done]. by rewrite <- Hp.
  - rewrite !bool_decide_eq_false_2; [done| |done]. by rewrite <- Hp.
Qed.

Lemma broadcast_loop_perm (chans : gmap nat Chan) (l k : list nat) (update : GameUpdate) :
  NoDup l -> l ≡ₚ k ->
  broadcast_loop chans l update = broadcast_loop chans k update.
Proof.
  intros Hnd Hp. rewrite !broadcast_loop_spec; [|by rewrite <- Hp|done].
  by rewrite (existsb_perm _ l k Hp), (deliver_to_perm l k _ _ Hp).
Qed.

Lemma existsb_elem_of {A : Type} (f : A -> bool) (l : list A) :
  existsb f l = true <-> exists x, x ∈ l /\ f x = true.
Proof.
  induction l as [|y l IH]; simpl.
  - split; [done|]. intros (x & Hx & _). by apply elem_of_nil in Hx.
  - rewrite orb_true_iff, IH. split.
    + intros [Hy|(x & Hx & Hf)]; [exists y | exists x]; split; try done.
      * by left.
      * by right.
    + intros (x & Hx & Hf). apply elem_of_cons in Hx as [->|Hx]; [by left|].
      right. by exists x.
Qed.

(** X21. broadcastUpdate. The outcome does not depend on the order in which
    the set of subscribers is visited. When a channel subscribed for the game
    is closed the call panics (send on closed channel). Otherwise it returns:
    every channel subscribed for the game whose buffer has room holds the
    update at the end of its buffer, every full one is as before (the update
    is dropped for it), and the channels of other games, the table of
    subscribers and both stores are as before. *)
Theorem broadcastUpdate_delivers (s : TicTacToeServer) (gameID : string)
    (update : GameUpdate) :
  let subs := default ∅ (subscribers s !! gameID) in
  (forall order, order ≡ₚ elements subs ->
     broadcast_loop (channels s) order update
     = broadcast_loop (channels s) (elements subs) update) /\
  ((exists ch, ch ∈ subs /\ closed_at (channels s) ch = true) ->
     TicTacToeServer_broadcastUpdate s gameID update = Panic) /\
  ((forall ch, ch ∈ subs -> closed_at (channels s) ch = false) ->
     exists s', TicTacToeServer_broadcastUpdate s gameID update = Done s' /\
       gameStore s' = gameStore s /\ statsStore s' = statsStore s /\
       subscribers s' = subscribers s /\
       forall ch, channels s' !! ch =
         if decide (ch ∈ subs) then deliver update <$> channels s !! ch
         else channels s !! ch).
Proof.
  intros subs. split; [|split].
  - intros order Hp. apply broadcast_loop_perm; [|done].
    rewrite Hp. apply NoDup_elements.
  - intros (ch & Hin & Hcl). unfold TicTacToeServer_broadcastUpdate. subst subs.
    destruct (subscribers s !! gameID) as [subs|]; simpl in *; [|set_solver].
    rewrite broadcast_loop_spec by apply NoDup_elements.
    assert (existsb (closed_at (channels s)) (elements subs) = true) as ->; [|done].
    apply existsb_elem_of. exists ch. split; [|done]. by apply elem_of_elements.
  - intros Hopen. unfold TicTacToeServer_broadcastUpdate. subst subs.
    destruct (subscribers s !! gameID) as [subs|]; simpl in *.
    + rewrite broadcast_loop_spec by apply NoDup_elements.
      assert (existsb (closed_at (channels s)) (elements subs) = false) as ->.
      { apply not_true_is_false. intros Hex.
        apply existsb_elem_of in Hex as (ch & Hin & Hcl).
        apply elem_of_elements in Hin. rewrite (Hopen ch Hin) in Hcl. done. }
      run_simpl. eexists. split; [done|]. simpl. repeat split; try done.
      intros ch. rewrite lookup_deliver_to.
      destruct (decide (ch ∈ subs)) as [Hin|Hnin].
      * rewrite bool_decide_eq_true_2 by (by apply elem_of_elements). done.
      * rewrite bool_decide_eq_false_2 by (by rewrite elem_of_elements).
        by destruct (channels s !! ch).
    + exists s. repeat split; try done.
Qed.

Lemma subscribers_of_subscribe (s : TicTacToeServer) (gameID : string) (ch : nat)
    (id : string) :
  subscribers_of (TicTacToeServer_subscribe s gameID ch) id =
    if decide (id = gameID) then {[ch]} ∪ subscribers_of s gameID
    else subscribers_of s id.
Proof.
  unfold subscribers_of, TicTacToeServer_subscribe. simpl.
  destruct (decide (id = gameID)) as [->|Hne].
  - rewrite lookup_insert_eq. simpl. by destruct (subscribers s !! gameID).
  - by rewrite lookup_insert_ne.
Qed.

Lemma fanout_ok_subscribers_of (s : TicTacToeServer) (gameID : string) (ch : nat) :
  fanout_ok s -> ch ∈ subscribers_of s gameID ->
  (exists c, channels s !! ch = Some c /\ Chan_closed c = false) /\
  forall id, ch ∈ subscribers_of s id -> id = gameID.
Proof.
  intros Hok Hin. unfold subscribers_of in *.
  destruct (subscribers s !! gameID) as [subs|] eqn:Hs; simpl in Hin;
    [|by apply not_elem_of_empty in Hin].
  destruct (Hok gameID subs Hs) as [_ Hch]. destruct (Hch ch Hin) as [Hopen Huniq].
  split; [done|]. intros id Hid.
  destruct (subscribers s !! id) as [subs'|] eqn:Hs'; simpl in Hid;
    [|by apply not_elem_of_empty in Hid].
  by apply (Huniq id subs').
Qed.

(** A channel just made, subscribed for a game. *)
Lemma fanout_ok_subscribe (s : TicTacToeServer) (gameID : string) (ch : nat)
    (capacity : Z) :
  fanout_ok s -> channels s !! ch = None ->
  fanout_ok (TicTacToeServer_subscribe
               (set_channels (<[ch := make_chan capacity]> (channels s)) s) gameID ch).
Proof.
  intros Hok Hfresh id subs. unfold TicTacToeServer_subscribe. simpl.
  assert (forall id, ch ∉ subscribers_of s id) as Hnew.
  { intros id' Hin. destruct (fanout_ok_subscribers_of s id' ch Hok Hin) as [(c & Hc & _) _].
    congruence. }
  assert (forall k, k <> ch ->
            (exists c, channels s !! k = Some c /\ Chan_closed c = false) ->
            exists c, <[ch := make_chan capacity]> (channels s) !! k = Some c /\
                      Chan_closed c = false) as Hkeep.
  { intros k Hk. by rewrite lookup_insert_ne. }
  destruct (decide (id = gameID)) as [->|Hne].
  - rewrite lookup_insert_eq. intros [= <-]. split; [set_solver|].
    intros k Hk. apply elem_of_union in Hk as [Hk|Hk].
    + apply elem_of_singleton in Hk as ->. split.
      * rewrite lookup_insert_eq. by eexists.
      * intros id' subs'. destruct (decide (id' = gameID)) as [->|Hne']; [done|].
        rewrite lookup_insert_ne by done. intros Hs' Hin. exfalso.
        apply (Hnew id'). unfold subscribers_of. by rewrite Hs'.
    + assert (k ∈ subscribers_of s gameID) as Hk'.
      { unfold subscribers_of. by destruct (subscribers s !! gameID). }
      destruct (fanout_ok_subscribers_of s gameID k Hok Hk') as [Hopen Huniq].
      assert (k <> ch) as Hkch by (intros ->; by apply (Hnew gameID)).
      split; [by apply Hkeep|].
      intros id' subs'. destruct (decide (id' = gameID)) as [->|Hne']; [done|].
      rewrite lookup_insert_ne by done. intros Hs' Hin.
      apply Huniq. unfold subscribers_of. by rewrite Hs'.
  - rewrite lookup_insert_ne by done. intros Hs.
    destruct (Hok id subs Hs) as [Hne' Hch]. split; [done|].
    intros k Hk. destruct (Hch k Hk) as [Hopen Huniq].
    assert (k <> ch) as Hkch.
    { intros ->. apply (Hnew id). unfold subscribers_of. by rewrite Hs. }
    split; [by apply Hkeep|].
    intros id' subs'. destruct (decide (id' = gameID)) as [->|Hne''].
    + rewrite lookup_insert_eq. intros [= <-] Hin.
      apply elem_of_union in Hin as [Hin|Hin].
      * by apply elem_of_singleton in Hin.
      * destruct (subscribers s !! gameID) as [x|] eqn:Hx;
          [by apply (Huniq gameID x) | by apply not_elem_of_empty in Hin].
    + rewrite lookup_insert_ne by done. apply Huniq.
Qed.

Lemma fanout_ok_unsubscribe (s : TicTacToeServer) (gameID : string) (ch : nat) :
  fanout_ok s -> ch ∈ subscribers_of s gameID ->
  exists s' c,
    TicTacToeServer_unsubscribe s gameID ch = Done s' /\
    fanout_ok s' /\
    gameStore s' = gameStore s /\ statsStore s' = statsStore s /\
    (forall id, subscribers_of s' id =
       if decide (id = gameID) then subscribers_of s gameID ∖ {[ch]}
       else subscribers_of s id) /\
    (subscribers_of s gameID = {[ch]} -> subscribers s' !! gameID = None) /\
    channels s !! ch = Some c /\
    channels s' = <[ch := {| Chan_buf := Chan_buf c; Chan_cap := Chan_cap c;
                             Chan_closed := true |}]> (channels s).
Proof.
  intros Hok Hin.
  destruct (fanout_ok_subscribers_of s gameID ch Hok Hin) as [(c & Hc & Hopen) Huniq].
  unfold subscribers_of in Hin.
  destruct (subscribers s !! gameID) as [subs|] eqn:Hs; simpl in Hin;
    [|by apply not_elem_of_empty in Hin].
  set (subs1 := subs ∖ {[ch]}).
  set (table := if Z.of_nat (size subs1) =? 0 then delete gameID (subscribers s)
                else <[gameID := subs1]> (subscribers s)).
  assert (TicTacToeServer_unsubscribe s gameID ch =
          Done (set_channels (<[ch := {| Chan_buf := Chan_buf c; Chan_cap := Chan_cap c;
                                         Chan_closed := true |}]> (channels s))
                  (set_subscribers table s))) as Hrun.
  { unfold TicTacToeServer_unsubscribe. rewrite Hs. fold subs1. unfold table.
    destruct (Z.of_nat (size subs1) =? 0); simpl; unfold close_chan; rewrite Hc, Hopen;
      done. }
  assert (forall id, default ∅ (table !! id) =
            if decide (id = gameID) then subs1 else subscribers_of s id) as Htable.
  { intros id. unfold table, subscribers_of.
    destruct (Z.eqb_spec (Z.of_nat (size subs1)) 0) as [Hz|Hnz].
    - assert (subs1 = ∅) as Hempty by (apply leibniz_equiv, size_empty_iff; lia).
      destruct (decide (id = gameID)) as [->|Hne].
      + by rewrite lookup_delete_eq, Hempty.
      + by rewrite lookup_delete_ne.
    - destruct (decide (id = gameID)) as [->|Hne].
      + by rewrite lookup_insert_eq.
      + by rewrite lookup_insert_ne. }
  assert (forall id subs', table !! id = Some subs' ->
            subs' <> ∅ /\
            if decide (id = gameID) then subs' = subs1
            else subscribers s !! id = Some subs') as Hentry.
  { intros id subs'. unfold table.
    destruct (Z.eqb_spec (Z.of_nat (size subs1)) 0) as [Hz|Hnz].
    - destruct (decide (id = gameID)) as [->|Hne].
      + by rewrite lookup_delete_eq.
      + rewrite lookup_delete_ne by done. intros Hs'. split; [|done].
        by destruct (Hok id subs' Hs').
    - destruct (decide (id = gameID)) as [->|Hne].
      + rewrite lookup_insert_eq. intros [= <-]. split; [|done].
        intros Hempty. rewrite Hempty, size_empty in Hnz. done.
      + rewrite lookup_insert_ne by done. intros Hs'. split; [|done].
        by destruct (Hok id subs' Hs'). }
  eexists _, c. split; [exact Hrun|]. simpl.
  split; [|split; [done|split; [done|split; [|split; [|done]]]]].
  - intros id subs' Hs'. simpl in Hs'. destruct (Hentry id subs' Hs') as [Hne Hwhich].
    split; [done|]. intros k Hk. simpl.
    assert (k <> ch /\ k ∈ subscribers_of s id) as [Hkch Hk'].
    { destruct (decide (id = gameID)) as [->|Hid].
      - subst subs'. unfold subs1 in Hk. apply elem_of_difference in Hk as [Hk Hnot].
        split; [by rewrite elem_of_singleton in Hnot|].
        unfold subscribers_of. by rewrite Hs.
      - assert (k ∈ subscribers_of s id) as Hk' by (unfold subscribers_of; by rewrite Hwhich).
        split; [|done]. intros ->. by apply Hid, Huniq. }
    destruct (fanout_ok_subscribers_of s id k Hok Hk') as [Hcopen Hcuniq].
    split; [by rewrite lookup_insert_ne|].
    intros id' subs'' Hs'' Hk''. apply Hcuniq.
    destruct (Hentry id' subs'' Hs'') as [_ Hwhich'].
    destruct (decide (id' = gameID)) as [->|Hid'].
    + subst subs''. unfold subs1 in Hk''. apply elem_of_difference in Hk'' as [Hk'' _].
      unfold subscribers_of. by rewrite Hs.
    + unfold subscribers_of. by rewrite Hwhich'.
  - intros id. unfold subscribers_of at 1. simpl. rewrite Htable.
    case_decide; [|done]. unfold subscribers_of. by rewrite Hs.
  - unfold subscribers_of. rewrite Hs. simpl. intros ->. unfold table, subs1.
    assert (({[ch]} : gset nat) ∖ {[ch]} = ∅) as -> by set_solver.
    rewrite size_empty. simpl. apply lookup_delete_eq.
Qed.

Lemma fanout_ok_same_tables (s s' : TicTacToeServer) :
  subscribers s' = subscribers s ->
  (forall ch c, channels s !! ch = Some c -> Chan_closed c = false ->
     exists c', channels s' !! ch = Some c' /\ Chan_closed c' = false) ->
  fanout_ok s -> fanout_ok s'.
Proof.
  intros Hsubs Hch Hok id subs Hs. rewrite Hsubs in Hs.
  destruct (Hok id subs Hs) as [Hne Hk]. split; [done|].
  intros k Hin. destruct (Hk k Hin) as [(c & Hc & Hopen) Huniq]. split.
  - by apply (Hch k c).
  - intros id' subs'. rewrite Hsubs. apply Huniq.
Qed.

(** On a server whose subscribed channels are open, broadcastUpdate returns
    and keeps them open. *)
Lemma fanout_ok_broadcast (s : TicTacToeServer) (gameID : string) (update : GameUpdate) :
  fanout_ok s ->
  exists s', TicTacToeServer_broadcastUpdate s gameID update = Done s' /\
    fanout_ok s' /\
    gameStore s' = gameStore s /\ statsStore s' = statsStore s /\
    subscribers s' = subscribers s /\
    channels s' =
      match subscribers s !! gameID with
      | Some subs => deliver_to (elements subs) update (channels s)
      | None => channels s
      end.
Proof.
  intros Hok. unfold TicTacToeServer_broadcastUpdate.
  destruct (subscribers s !! gameID) as [subs|] eqn:Hs; [|by exists s].
  rewrite broadcast_loop_spec by apply NoDup_elements.
  assert (existsb (closed_at (channels s)) (elements subs) = false) as ->.
  { apply not_true_is_false. intros Hex.
    apply existsb_elem_of in Hex as (ch & Hin & Hcl).
    apply elem_of_elements in Hin.
    destruct (Hok gameID subs Hs) as [_ Hch].
    destruct (Hch ch Hin) as [(c & Hc & Hopen) _].
    unfold closed_at in Hcl. rewrite Hc in Hcl. congruence. }
  run_simpl. eexists. split; [done|]. simpl. split; [|done].
  apply (fanout_ok_same_tables s); [done| |done]. simpl.
  intros ch c Hc Hopen. rewrite lookup_deliver_to, Hc. simpl. eexists. split; [done|].
  unfold deliver. by repeat case_match.
Qed.

Lemma unsubscribe_after_subscribe (s : TicTacToeServer) (gameID : string) (ch : nat)
    (c : Chan) :
  fanout_ok s -> ch ∉ subscribers_of s gameID -> Chan_closed c = false ->
  TicTacToeServer_unsubscribe
    (TicTacToeServer_subscribe (set_channels (<[ch := c]> (channels s)) s) gameID ch)
    gameID ch
  = Done (set_channels (<[ch := {| Chan_buf := Chan_buf c; Chan_cap := Chan_cap c;
                                   Chan_closed := true |}]> (channels s)) s).
Proof.
  intros Hok Hnot Hopen. unfold TicTacToeServer_unsubscribe, TicTacToeServer_subscribe.
  cbn [subscribers set_subscribers set_channels channels].
  rewrite lookup_insert_eq.
  unfold subscribers_of in Hnot.
  assert ((({[ch]} ∪ default ∅ (subscribers s !! gameID)) ∖ {[ch]} : gset nat)
          = default ∅ (subscribers s !! gameID)) as Hsame by set_solver.
  destruct (subscribers s !! gameID) as [subs|] eqn:Hs;
    simpl in Hsame; cbv beta iota; rewrite Hsame.
  - destruct (Hok gameID subs Hs) as [Hne _].
    destruct (Z.eqb_spec (Z.of_nat (size subs)) 0) as [Hz|Hnz].
    { exfalso. apply Hne, leibniz_equiv, size_empty_iff. lia. }
    cbn [subscribers set_subscribers set_channels channels gameStore statsStore].
    unfold close_chan. rewrite lookup_insert_eq, Hopen. run_simpl.
    unfold set_channels. cbn [subscribers channels gameStore statsStore].
    rewrite insert_insert_eq, (insert_id _ _ _ Hs), insert_insert_eq. by destruct s.
  - rewrite size_empty. change (Z.of_nat 0 =? 0) with true. cbv iota.
    cbn [subscribers set_subscribers set_channels channels gameStore statsStore].
    unfold close_chan. rewrite lookup_insert_eq, Hopen. run_simpl.
    unfold set_channels. cbn [subscribers channels gameStore statsStore].
    rewrite delete_insert_id by done. rewrite insert_insert_eq. by destruct s.
Qed.

(** X22. subscribe, for a channel of capacity 10 just made, as
    StreamGameUpdates does. The channel joins the subscribers of that game and
    of no other game, and every subscribed channel is still open. A broadcast
    for that game then returns and leaves the update, alone, in the new
    channel; a broadcast for another game leaves the new channel empty.
    unsubscribe of the channel returns, gives back the table of subscribers
    exactly as it was before the subscribe, the entry of the game gone if it
    had none, and leaves the channel closed. *)
Theorem subscribe_fresh_channel (s : TicTacToeServer) (gameID : string) (ch : nat) :
  fanout_ok s -> channels s !! ch = None ->
  let s1 := TicTacToeServer_subscribe
              (set_channels (<[ch := make_chan 10]> (channels s)) s) gameID ch in
  fanout_ok s1 /\
  (forall id, subscribers_of s1 id =
     if decide (id = gameID) then {[ch]} ∪ subscribers_of s gameID
     else subscribers_of s id) /\
  (forall update, exists s2,
     TicTacToeServer_broadcastUpdate s1 gameID update = Done s2 /\
     channels s2 !! ch = Some {| Chan_buf := [update]; Chan_cap := 10;
                                 Chan_closed := false |} /\
     fanout_ok s2) /\
  (forall id update, id <> gameID -> exists s2,
     TicTacToeServer_broadcastUpdate s1 id update = Done s2 /\
     channels s2 !! ch = Some (make_chan 10)) /\
  exists s3, TicTacToeServer_unsubscribe s1 gameID ch = Done s3 /\
    subscribers s3 = subscribers s /\ gameStore s3 = gameStore s /\
    statsStore s3 = statsStore s /\
    channels s3 = <[ch := {| Chan_buf := []; Chan_cap := 10; Chan_closed := true |}]>
                    (channels s).
Proof.
  intros Hok Hfresh s1.
  assert (fanout_ok s1) as Hok1 by (by apply fanout_ok_subscribe).
  assert (forall id, ch ∉ subscribers_of s id) as Hnew.
  { intros id' Hin. destruct (fanout_ok_subscribers_of s id' ch Hok Hin) as [(c & Hc & _) _].
    congruence. }
  assert (forall id, subscribers_of s1 id =
            if decide (id = gameID) then {[ch]} ∪ subscribers_of s gameID
            else subscribers_of s id) as Hsubs.
  { intros id. unfold s1. rewrite subscribers_of_subscribe. by case_decide. }
  split; [done|]. split; [done|]. split; [|split].
  - intros update.
    destruct (fanout_ok_broadcast s1 gameID update Hok1)
      as (s2 & Hrun & Hok2 & _ & _ & _ & Hch).
    exists s2. split; [done|]. split; [|done]. rewrite Hch.
    pose proof (Hsubs gameID) as Hg. rewrite decide_True in Hg by done.
    unfold subscribers_of in Hg at 1.
    destruct (subscribers s1 !! gameID) as [subs|] eqn:Hs1.
    + simpl in Hg. rewrite lookup_deliver_to. unfold s1 at 1. simpl.
      rewrite lookup_insert_eq. simpl.
      rewrite bool_decide_eq_true_2; [done|].
      apply elem_of_elements. rewrite Hg. apply elem_of_union_l. by apply elem_of_singleton.
    + exfalso. unfold s1, TicTacToeServer_subscribe in Hs1. simpl in Hs1.
      by rewrite lookup_insert_eq in Hs1.
  - intros id update Hne.
    destruct (fanout_ok_broadcast s1 id update Hok1)
      as (s2 & Hrun & Hok2 & _ & _ & _ & Hch).
    exists s2. split; [done|]. rewrite Hch.
    pose proof (Hsubs id) as Hg. rewrite decide_False in Hg by done.
    unfold subscribers_of in Hg at 1.
    destruct (subscribers s1 !! id) as [subs|] eqn:Hs1.
    + simpl in Hg. rewrite lookup_deliver_to. unfold s1 at 1. simpl.
      rewrite lookup_insert_eq. simpl.
      rewrite bool_decide_eq_false_2; [done|].
      rewrite elem_of_elements, Hg. apply Hnew.
    + unfold s1. simpl. by rewrite lookup_insert_eq.
  - eexists. split.
    + unfold s1. by apply unsubscribe_after_subscribe.
    + done.
Qed.

(** X23. unsubscribe takes the channel out before it closes it. On a server
    whose subscribed channels are open and belong to one game each,
    unsubscribe of a channel subscribed for a game returns; the subscribers of
    the game are the same without that channel, those of other games are
    unchanged, and the entry of the game is deleted when the channel was its
    last subscriber; the channel is closed and every other channel untouched;
    every later broadcast, for any game, returns and does not touch the closed
    channel. A second unsubscribe of the same channel panics (close of closed
    channel). *)
Theorem unsubscribe_removes_then_closes (s : TicTacToeServer) (gameID : string)
    (ch : nat) :
  fanout_ok s -> ch ∈ subscribers_of s gameID ->
  exists s', TicTacToeServer_unsubscribe s gameID ch = Done s' /\
    fanout_ok s' /\
    gameStore s' = gameStore s /\ statsStore s' = statsStore s /\
    (forall id, subscribers_of s' id =
       if decide (id = gameID) then subscribers_of s gameID ∖ {[ch]}
       else subscribers_of s id) /\
    (subscribers_of s gameID = {[ch]} -> subscribers s' !! gameID = None) /\
    closed_at (channels s') ch = true /\
    (forall k, k <> ch -> channels s' !! k = channels s !! k) /\
    (forall id update, exists s'',
       TicTacToeServer_broadcastUpdate s' id update = Done s'' /\
       channels s'' !! ch = channels s' !! ch) /\
    TicTacToeServer_unsubscribe s' gameID ch = Panic.
Proof.
  intros Hok Hin.
  destruct (fanout_ok_unsubscribe s gameID ch Hok Hin)
    as (s' & c & Hrun & Hok' & Hgs & Hss & Hsubs & Hlast & Hc & Hch).
  exists s'. split; [done|]. split; [done|]. split; [done|]. split; [done|].
  split; [done|]. split; [done|].
  assert (forall id, ch ∉ subscribers_of s' id) as Hgone.
  { intros id. rewrite Hsubs. case_decide as Hid.
    - rewrite elem_of_difference, elem_of_singleton. by intros [_ ?].
    - intros Hin'. apply Hid.
      destruct (fanout_ok_subscribers_of s gameID ch Hok Hin) as [_ Huniq].
      by apply Huniq. }
  split; [|split; [|split]].
  - unfold closed_at. rewrite Hch, lookup_insert_eq. done.
  - intros k Hk. rewrite Hch. by rewrite lookup_insert_ne.
  - intros id update.
    destruct (fanout_ok_broadcast s' id update Hok')
      as (s'' & Hrun' & _ & _ & _ & _ & Hch').
    exists s''. split; [done|]. rewrite Hch'.
    pose proof (Hgone id) as Hnot. unfold subscribers_of in Hnot.
    destruct (subscribers s' !! id) as [subs|]; [|done]. simpl in Hnot.
    rewrite lookup_deliver_to. rewrite bool_decide_eq_false_2 by (by rewrite elem_of_elements).
    by destruct (channels s' !! ch).
  - unfold TicTacToeServer_unsubscribe.
    assert (forall t, channels t = channels s' ->
              (chans ← close_chan (channels t) ch; Done (set_channels chans t)) = Panic)
      as Hclose.
    { intros t ->. unfold close_chan. rewrite Hch, lookup_insert_eq. done. }
    destruct (subscribers s' !! gameID) as [subs|]; [|by apply Hclose].
    destruct (Z.of_nat (size (subs ∖ {[ch]})) =? 0); by apply Hclose.
Qed.

(** ** Conversion to the wire format *)

Lemma is_int32_bounds (z : Z) : is_int32 z <-> -2147483648 <= z <= 2147483647.
Proof. unfold is_int32, int32_min, int32_max. lia. Qed.

Lemma Snapshot_Board_eq (g : Game) : Snapshot_Board (Game_GetSnapshot g) = Game_Board g.
Proof. unfold Game_GetSnapshot. simpl. apply Board_Clone_eq. Qed.

(** X24. gameToProto. For a match on a grid whose size fits [int32], the
    message carries the id and both players, the size and the win length
    unchanged, a board of size * size marks in which the entry at row * size +
    col is the converted mark Get returns at (row, col), the converted turn
    and status. No mark of the message is MARK_UNSPECIFIED; markToProto and
    statusToProto are injective; and isGameFinished of the converted status is
    IsFinished of the status. *)
Theorem gameToProto_carries_the_match (Unix : Time -> Z) (g : Game) :
  Board_inv (Game_Board g) -> Size (Game_Board g) <= int32_max ->
  let b := Game_Board g in
  let p := gameToProto Unix (Game_GetSnapshot g) in
  pb_GameId p = Game_ID g /\ pb_PlayerXId p = Game_PlayerX g /\
  pb_PlayerOId p = Game_PlayerO g /\
  pb_BoardSize p = Size b /\ pb_WinLength p = WinLength b /\
  len (pb_Board p) = Size b * Size b /\
  (forall row col, Board_isValidPosition b row col = true ->
     exists m, Board_Get b row col = Done (m, None) /\
       pb_Board p !! Z.to_nat (row * Size b + col) = Some (markToProto m)) /\
  (Mark_MARK_UNSPECIFIED ∉ pb_Board p) /\
  pb_CurrentTurn p = markToProto (Game_Turn g) /\
  pb_Status p = statusToProto (Game_Status g) /\
  isGameFinished (pb_Status p) = Status_IsFinished (Game_Status g) /\
  (forall m m', markToProto m = markToProto m' -> m = m') /\
  (forall s s', statusToProto s = statusToProto s' -> s = s').
Proof.
  intros Hinv Hsmall b p. subst p b. unfold gameToProto.
  rewrite !Snapshot_Board_eq. simpl.
  destruct Hinv as (Hw & Hlen & Hmax).
  change int32_max with 2147483647 in Hsmall.
  split; [done|]. split; [done|]. split; [done|].
  split; [apply wrap32_id, is_int32_bounds; lia|].
  split; [apply wrap32_id, is_int32_bounds; lia|].
  split; [unfold len in *; by rewrite length_fmap|].
  split; [|split; [|split; [done|split; [done|split; [|split]]]]].
  - intros row col Hv.
    destruct (Board_Get_valid (Game_Board g) row col) as (m & Hget & Hat); [done|done|].
    exists m. split; [done|]. unfold mark_at in Hat. rewrite Hv in Hat.
    by rewrite list_lookup_fmap, Hat.
  - intros Hin. apply list_elem_of_fmap in Hin as (m & Hm & _). by destruct m.
  - by destruct (Game_Status g).
  - intros m m'. by destruct m, m'.
  - intros s s'. by destruct s, s'.
Qed.

(** ** The server *)

Lemma list_alter_as_insert {A : Type} (f : A -> A) (l : list A) (i : nat) (x : A) :
  l !! i = Some x -> alter f i l = <[i := f x]> l.
Proof.
  revert i. induction l as [|y l IH]; intros i Hi; [done|].
  destruct i as [|i]; simpl in *.
  - by injection Hi as ->.
  - f_equal. by apply IH.
Qed.

Section ServerFacts.

Variable runes : string -> list Z.
Variable Unix : Time -> Z.

Lemma GameStore_write_shape (gs : GameStore) (id : string) (g : Game) (sh : gameShard) :
  GameStore_shards gs !! gshard_index runes gs id = Some sh ->
  GameStore_write runes gs id g =
    {| GameStore_shards :=
         <[gshard_index runes gs id := {| games := <[id := g]> (games sh) |}]>
           (GameStore_shards gs);
       GameStore_numShards := GameStore_numShards gs |}.
Proof.
  intros Hl. unfold GameStore_write. by rewrite (list_alter_as_insert _ _ _ sh).
Qed.

Lemma GameStore_write_same (gs : GameStore) (id : string) (g : Game) :
  stored runes gs id = Some g -> GameStore_write runes gs id g = gs.
Proof.
  unfold stored.
  destruct (GameStore_shards gs !! gshard_index runes gs id) as [sh|] eqn:Hl; [|done].
  simpl. intros Hg. rewrite (GameStore_write_shape gs id g sh Hl).
  rewrite insert_id by done.
  rewrite list_insert_id by (by destruct sh). by destruct gs.
Qed.

Lemma stored_write (gs : GameStore) (id k : string) (g g' : Game) :
  stored runes gs id = Some g ->
  stored runes (GameStore_write runes gs id g') k =
    if decide (k = id) then Some g' else stored runes gs k.
Proof.
  intros Hg. unfold stored in Hg.
  destruct (GameStore_shards gs !! gshard_index runes gs id) as [sh|] eqn:Hl; [|done].
  rewrite (GameStore_write_shape gs id g' sh Hl).
  rewrite (stored_after_update runes gs id k sh) by
    (done || (intros j Hj; by rewrite lookup_insert_ne)).
  case_decide; [|done]. by rewrite lookup_insert_eq.
Qed.

Lemma stored_in_shard (gs : GameStore) (id : string) (g : Game) :
  stored runes gs id = Some g ->
  exists sh, GameStore_shards gs !! gshard_index runes gs id = Some sh /\
    games sh !! id = Some g.
Proof.
  unfold stored.
  destruct (GameStore_shards gs !! gshard_index runes gs id) as [sh|]; [|done].
  simpl. intros Hg. by exists sh.
Qed.

(** The matches of a store when the map of one shard is replaced. *)
Lemma ledger_update (gs : GameStore) (i : nat) (sh : gameShard) (m : gmap string Game)
    (old new rest : list Game) :
  GameStore_shards gs !! i = Some sh ->
  (map_to_list (games sh)).*2 ≡ₚ old ++ rest ->
  (map_to_list m).*2 ≡ₚ new ++ rest ->
  exists others,
    ledger gs ≡ₚ concat (result_of <$> old) ++ others /\
    ledger {| GameStore_shards := <[i := {| games := m |}]> (GameStore_shards gs);
              GameStore_numShards := GameStore_numShards gs |}
    ≡ₚ concat (result_of <$> new) ++ others.
Proof.
  intros Hl Hold Hnew. unfold ledger, all_games. simpl.
  revert i Hl. induction (GameStore_shards gs) as [|sh0 shards IH]; intros i Hl; [done|].
  destruct i as [|i]; simpl in *.
  - injection Hl as ->.
    exists (concat (result_of <$> rest)
            ++ concat (result_of <$>
                 concat ((fun sh => (map_to_list (games sh)).*2) <$> shards))).
    rewrite !fmap_app, !concat_app. rewrite Hold, Hnew.
    rewrite !fmap_app, !concat_app. by rewrite <- !app_assoc.
  - destruct (IH i Hl) as (others & H1 & H2).
    exists (concat (result_of <$> (map_to_list (games sh0)).*2) ++ others).
    rewrite !fmap_app, !concat_app. rewrite H1, H2.
    split; rewrite !app_assoc; apply Permutation_app_tail, Permutation_app_comm.
Qed.

(** The ledger when the match stored under an id is replaced. *)
Lemma ledger_write (gs : GameStore) (id : string) (g g' : Game) :
  stored runes gs id = Some g ->
  exists others,
    ledger gs ≡ₚ result_of g ++ others /\
    ledger (GameStore_write runes gs id g') ≡ₚ result_of g' ++ others.
Proof.
  intros Hg. destruct (stored_in_shard gs id g Hg) as (sh & Hl & Hk).
  rewrite (GameStore_write_shape gs id g' sh Hl).
  destruct (ledger_update gs (gshard_index runes gs id) sh (<[id := g']> (games sh))
              [g] [g'] (map_to_list (delete id (games sh))).*2 Hl) as (others & H1 & H2).
  - rewrite <- (map_to_list_delete (games sh) id g Hk). done.
  - rewrite <- insert_delete_eq.
    rewrite map_to_list_insert by apply lookup_delete_eq. done.
  - exists others. simpl in H1, H2. by rewrite !app_nil_r in H1, H2.
Qed.

(** The ledger when a match is created. *)
Lemma ledger_Create (gs gs' : GameStore) (g : Game) :
  gstore_ok gs -> GameStore_Create runes gs g = Done (gs', None) ->
  ledger gs' ≡ₚ result_of g ++ ledger gs.
Proof.
  intros Hok Hc.
  destruct (Create_success_shape runes gs gs' g Hok Hc) as (sh & Hl & Hk & ->).
  destruct (ledger_update gs (gshard_index runes gs (Game_ID g)) sh
              (<[Game_ID g := g]> (games sh)) [] [g] (map_to_list (games sh)).*2 Hl)
    as (others & H1 & H2).
  - done.
  - by rewrite map_to_list_insert.
  - simpl in H1, H2. rewrite app_nil_r in H2. by rewrite H2, H1.
Qed.

Lemma games_ok_stored (gs : GameStore) (id : string) (g : Game) :
  games_ok runes gs -> stored runes gs id = Some g -> served_game id g.
Proof.
  intros [_ Hall] Hg. destruct (stored_in_shard gs id g Hg) as (sh & Hl & Hk).
  by destruct (Hall _ sh id g Hl Hk).
Qed.

Lemma games_ok_update (gs : GameStore) (id : string) (g' : Game) (sh : gameShard) :
  games_ok runes gs ->
  GameStore_shards gs !! gshard_index runes gs id = Some sh ->
  served_game id g' ->
  games_ok runes
    {| GameStore_shards :=
         <[gshard_index runes gs id := {| games := <[id := g']> (games sh) |}]>
           (GameStore_shards gs);
       GameStore_numShards := GameStore_numShards gs |}.
Proof.
  intros [Hok Hall] Hl Hserved. split; [by apply gstore_ok_update|].
  intros i sh' k g0. simpl. unfold gshard_index at 2. simpl.
  fold (gshard_index runes gs k).
  apply lookup_lt_Some in Hl as Hlt.
  destruct (decide (i = gshard_index runes gs id)) as [->|Hi].
  - rewrite list_lookup_insert_eq by done. intros [= <-]. simpl.
    destruct (decide (k = id)) as [->|Hk].
    + rewrite lookup_insert_eq. intros [= <-]. done.
    + rewrite lookup_insert_ne by done. by apply Hall.
  - rewrite list_lookup_insert_ne by done. apply Hall.
Qed.

Lemma games_ok_write (gs : GameStore) (id : string) (g g' : Game) :
  games_ok runes gs -> stored runes gs id = Some g -> served_game id g' ->
  games_ok runes (GameStore_write runes gs id g').
Proof.
  intros Hok Hg Hserved. destruct (stored_in_shard gs id g Hg) as (sh & Hl & Hk).
  rewrite (GameStore_write_shape gs id g' sh Hl). by apply games_ok_update.
Qed.

Lemma games_ok_Create (gs gs' : GameStore) (g : Game) :
  games_ok runes gs -> served_game (Game_ID g) g ->
  GameStore_Create runes gs g = Done (gs', None) ->
  games_ok runes gs'.
Proof.
  intros Hok Hserved Hc.
  destruct (Create_success_shape runes gs gs' g (proj1 Hok) Hc) as (sh & Hl & Hk & ->).
  by apply games_ok_update.
Qed.

(** ** Counters and outcomes *)

Lemma tally_app (o : Outcome) (v : string) (rs rs' : list (Outcome * string)) :
  tally o v (rs ++ rs') = (tally o v rs + tally o v rs')%nat.
Proof. unfold tally. by rewrite filter_app, length_app. Qed.

Lemma bump_add (n m : nat) (x : Z) : bump (n + m) x = bump m (bump n x).
Proof.
  unfold bump. rewrite Nat.add_comm. revert x.
  induction m as [|m IH]; intros x; [done|]. simpl. by rewrite IH.
Qed.

Lemma bump_stats_app (v : string) (rs rs' : list (Outcome * string)) (st : UserStats) :
  bump_stats v (rs ++ rs') st = bump_stats v rs' (bump_stats v rs st).
Proof. unfold bump_stats. simpl. by rewrite !tally_app, !bump_add. Qed.

Lemma bump_stats_perm (v : string) (rs rs' : list (Outcome * string)) (st : UserStats) :
  rs ≡ₚ rs' -> bump_stats v rs st = bump_stats v rs' st.
Proof. intros Hp. unfold bump_stats. by rewrite !(tally_perm _ v rs rs' Hp). Qed.

(** RecordGameResult for two players that have names is the two records
    made one after the other. *)
Lemma RecordGameResult_records (ss : StatsStore) (winnerID loserID : string)
    (isDraw : bool) :
  winnerID <> EmptyString -> loserID <> EmptyString ->
  StatsStore_RecordGameResult runes ss winnerID loserID isDraw =
    record_all runes ss
      (if isDraw then [(Drawn, winnerID); (Drawn, loserID)]
       else [(Won, winnerID); (Lost, loserID)]).
Proof.
  intros Hw Hl. unfold StatsStore_RecordGameResult.
  apply String.eqb_neq in Hw, Hl. rewrite Hw, Hl. simpl.
  destruct isDraw; simpl; unfold record_one; simpl.
  - destruct (StatsStore_RecordDraw runes ss winnerID) as [ss1| |]; [|done|done].
    run_simpl. by destruct (StatsStore_RecordDraw runes ss1 loserID).
  - destruct (StatsStore_RecordWin runes ss winnerID) as [ss1| |]; [|done|done].
    run_simpl. by destruct (StatsStore_RecordLoss runes ss1 loserID).
Qed.

(** recordGameResult on the snapshot of a finished match whose players have
    names. *)
Lemma recordGameResult_records (s : TicTacToeServer) (g : Game) :
  Status_IsFinished (Game_Status g) = true ->
  Game_PlayerX g <> EmptyString -> Game_PlayerO g <> EmptyString ->
  TicTacToeServer_recordGameResult runes s (Game_GetSnapshot g) =
    ss ← record_all runes (statsStore s) (result_of g); Done (set_statsStore ss s).
Proof.
  intros Hfin HX HO. unfold TicTacToeServer_recordGameResult, GameSnapshot_IsDraw,
    GameSnapshot_GetWinner, GameSnapshot_GetLoser, result_of.
  cbn [Game_GetSnapshot Snapshot_Status Snapshot_PlayerX Snapshot_PlayerO].
  destruct (Game_Status g); try done; cbn [Status_eqb];
    by rewrite RecordGameResult_records.
Qed.

(** ** The handlers *)

Lemma NewGame_fresh (maxLen : Z) (now : Time) (id creatorID : string)
    (boardSize winLength : Z) :
  maxLen <= int_max -> 3 <= winLength <= boardSize -> boardSize * boardSize <= maxLen ->
  NewGame maxLen now id creatorID boardSize winLength
    = Done (Some (fresh_game now id creatorID boardSize winLength), None).
Proof.
  intros Hmax Hw Hfit. unfold NewGame. by rewrite NewBoard_succeeds by done.
Qed.

Lemma GameStore_Create_present (gs : GameStore) (g g0 : Game) :
  gstore_ok gs -> stored runes gs (Game_ID g) = Some g0 ->
  GameStore_Create runes gs g = Done (gs, Some ErrGameAlreadyExists).
Proof.
  intros Hok Hst. destruct (stored_in_shard _ _ _ Hst) as (sh & Hl & Hk).
  destruct (GameStore_getShard_ok runes gs (Game_ID g) Hok) as (sh' & Hl' & Hget & Hidx).
  assert (sh' = sh) as -> by congruence.
  unfold GameStore_Create. rewrite Hget. run_simpl. by rewrite Hidx, Hk.
Qed.

Lemma CreateGame_cases (maxLen : Z) (now : Time) (uuid : string) (s : TicTacToeServer)
    (userId : string) (boardSize winLength : Z) :
  gstore_ok (gameStore s) -> 400 <= maxLen <= int_max ->
  let call := TicTacToeServer_CreateGame runes Unix maxLen now uuid s userId
                boardSize winLength in
  let g := fresh_game now uuid userId (asked boardSize DefaultBoardSize)
             (asked winLength DefaultWinLength) in
  ((~ accepted userId boardSize winLength) /\
   call = Done (s, (None, Some InvalidArgument))) \/
  (accepted userId boardSize winLength /\ (stored runes (gameStore s) uuid <> None) /\
   call = Done (s, (None, Some Internal))) \/
  (accepted userId boardSize winLength /\ stored runes (gameStore s) uuid = None /\
   exists gs',
     GameStore_Create runes (gameStore s) g = Done (gs', None) /\
     call = Done (set_gameStore gs' s, (Some (gameToProto Unix (Game_GetSnapshot g)), None))).
Proof.
  intros Hok Hmax call g. subst call. unfold TicTacToeServer_CreateGame, accepted.
  fold (asked boardSize DefaultBoardSize). fold (asked winLength DefaultWinLength).
  set (bs := asked boardSize DefaultBoardSize) in *.
  set (wl := asked winLength DefaultWinLength) in *.
  unfold MaxBoardSize.
  destruct (String.eqb_spec userId EmptyString) as [->|Hu].
  { left. split; [|done]. by intros [? _]. }
  destruct (Z.ltb_spec bs 3) as [Hb|Hb]; simpl.
  { left. split; [|done]. intros (_ & ? & _). lia. }
  destruct (Z.ltb_spec 20 bs) as [Hb'|Hb']; simpl.
  { left. split; [|done]. intros (_ & ? & _). lia. }
  destruct (Z.ltb_spec wl 3) as [Hw|Hw]; simpl.
  { left. split; [|done]. intros (_ & _ & ?). lia. }
  destruct (Z.ltb_spec bs wl) as [Hw'|Hw']; simpl.
  { left. split; [|done]. intros (_ & _ & ?). lia. }
  right. rewrite NewGame_fresh by (lia || nia). run_simpl. fold g.
  destruct (GameStore_getShard_ok runes (gameStore s) uuid Hok) as (sh & Hl & _).
  destruct (stored runes (gameStore s) uuid) as [g0|] eqn:Hst.
  - left. split; [repeat split; (done || lia)|]. split; [done|].
    rewrite (GameStore_Create_present (gameStore s) g g0 Hok Hst).
    run_simpl. by destruct s.
  - right. split; [repeat split; (done || lia)|]. split; [done|].
    unfold stored in Hst. rewrite Hl in Hst. simpl in Hst.
    rewrite (GameStore_Create_absent runes (gameStore s) g sh Hok) by done.
    eexists. split; [done|]. run_simpl. done.
Qed.

Lemma MakeMove_error_same (now : Time) (g g' : Game) (playerID : string) (row col : Z)
    (e : error) :
  Game_MakeMove now g playerID row col = Done (g', Some e) ->
  g' = g /\
  (e = ErrGameNotInProgress \/ e = ErrPlayerNotInGame \/ e = ErrNotYourTurn \/
   e = ErrInvalidPosition \/ e = ErrCellOccupied).
Proof.
  intros Hcall.
  destruct (MakeMove_cases now g playerID row col)
    as [[_ H]|[(_ & _ & H)|[(_ & _ & _ & H)|(_ & _ & _ & H)]]];
    try (rewrite H in Hcall; injection Hcall as <- <-; split; [done|]; tauto).
  destruct (Board_Set (Game_Board g) row col (Game_getPlayerMark g playerID))
    as [[board [e'|]]| |] eqn:Hset; try (rewrite H in Hcall; discriminate).
  - rewrite H in Hcall. injection Hcall as <- <-.
    apply Board_Set_error in Hset as [-> He]. rewrite set_Board_same.
    split; [done|]. tauto.
  - destruct (Board_CheckWinner board row col); rewrite H in Hcall; discriminate.
Qed.

Lemma JoinGame_outcomes (now : Time) (s : TicTacToeServer) (userId gameId : string) :
  gstore_ok (gameStore s) ->
  let call := TicTacToeServer_JoinGame runes Unix now s userId gameId in
  ((userId = EmptyString \/ gameId = EmptyString) /\
   call = Done (s, (None, Some InvalidArgument))) \/
  (userId <> EmptyString /\ gameId <> EmptyString /\
   ((stored runes (gameStore s) gameId = None /\
     call = Done (s, (None, Some NotFound))) \/
    (exists g, stored runes (gameStore s) gameId = Some g /\
       ((Game_Status g <> StatusPending /\
         call = Done (s, (None, Some FailedPrecondition))) \/
        (Game_Status g = StatusPending /\ Game_PlayerX g = userId /\
         call = Done (s, (None, Some InvalidArgument))) \/
        (Game_Status g = StatusPending /\ Game_PlayerX g <> userId /\
         let g' := joined_game now g userId in
         call =
           (s' ← TicTacToeServer_broadcastUpdate
                   (set_gameStore (GameStore_write runes (gameStore s) gameId g') s)
                   gameId
                   {| Update_Game := Some (gameToProto Unix (Game_GetSnapshot g'));
                      Update_Message := "Game started! Player X's turn." |};
            Done (s', (Some (gameToProto Unix (Game_GetSnapshot g')), None)))))))).
Proof.
  intros Hok call. subst call. unfold TicTacToeServer_JoinGame.
  destruct (String.eqb_spec userId EmptyString) as [->|Hu]; [left; split; [by left|done]|].
  destruct (String.eqb_spec gameId EmptyString) as [->|Hg]; [left; split; [by right|done]|].
  right. split; [done|]. split; [done|].
  rewrite (GameStore_Get_stored runes _ gameId Hok).
  destruct (stored runes (gameStore s) gameId) as [g|] eqn:Hst; [|by left].
  right. exists g. split; [done|]. run_simpl.
  assert (set_gameStore (GameStore_write runes (gameStore s) gameId g) s = s) as Hsame.
  { rewrite GameStore_write_same by done. by destruct s. }
  destruct (Join_cases now g userId) as [[Hs H]|[(Hs & Hx & H)|(Hs & Hx & H)]]; rewrite H.
  - left. split; [done|]. by rewrite Hsame.
  - right. left. split; [done|]. split; [done|]. by rewrite Hsame.
  - right. right. split; [done|]. split; [done|]. done.
Qed.

Lemma MakeMove_outcomes (now : Time) (s : TicTacToeServer) (userId gameId : string)
    (row col : Z) :
  gstore_ok (gameStore s) ->
  let call := TicTacToeServer_MakeMove runes Unix now s userId gameId row col in
  ((userId = EmptyString \/ gameId = EmptyString) /\
   call = Done (s, (None, Some InvalidArgument))) \/
  (userId <> EmptyString /\ gameId <> EmptyString /\
   ((stored runes (gameStore s) gameId = None /\
     call = Done (s, (None, Some NotFound))) \/
    (exists g, stored runes (gameStore s) gameId = Some g /\
       match Game_MakeMove now g userId row col with
       | Done (g', Some e) =>
           g' = g /\ code_of_move_error e <> Internal /\
           call = Done (s, (None, Some (code_of_move_error e)))
       | Done (g', None) =>
           let s1 := set_gameStore (GameStore_write runes (gameStore s) gameId g') s in
           call =
             (s2 ← (if Status_IsFinished (Game_Status g')
                    then TicTacToeServer_recordGameResult runes s1 (Game_GetSnapshot g')
                    else Done s1);
              s3 ← TicTacToeServer_broadcastUpdate s2 gameId
                     {| Update_Game := Some (gameToProto Unix (Game_GetSnapshot g'));
                        Update_Message := getUpdateMessage (Game_GetSnapshot g') |};
              Done (s3, (Some (gameToProto Unix (Game_GetSnapshot g')), None)))
       | Panic => call = Panic
       | OutOfFuel => call = OutOfFuel
       end))).
Proof.
  intros Hok call. subst call. unfold TicTacToeServer_MakeMove.
  destruct (String.eqb_spec userId EmptyString) as [->|Hu]; [left; split; [by left|done]|].
  destruct (String.eqb_spec gameId EmptyString) as [->|Hg]; [left; split; [by right|done]|].
  right. split; [done|]. split; [done|].
  rewrite (GameStore_Get_stored runes _ gameId Hok).
  destruct (stored runes (gameStore s) gameId) as [g|] eqn:Hst; [|by left].
  right. exists g. split; [done|]. run_simpl.
  destruct (Game_MakeMove now g userId row col) as [[g' [e|]]| |] eqn:Hcall; try done.
  destruct (MakeMove_error_same _ _ _ _ _ _ _ Hcall) as [-> He].
  split; [done|]. split; [by destruct He as [->|[->|[->|[->| ->]]]]|].
  simpl. rewrite GameStore_write_same by done. by destruct s.
Qed.

(** ** The invariant of the server *)

Lemma NewGameStore_Done (maxLen n : Z) (gs : GameStore) :
  NewGameStore maxLen n = Done gs ->
  exists k, GameStore_shards gs = replicate k {| games := ∅ |}.
Proof.
  unfold NewGameStore, make_slice.
  destruct ((_ <? 0) || (maxLen <? _)); [done|]. run_simpl.
  rewrite length_replicate, fill_game_shards. intros [= <-]. by eexists.
Qed.

Lemma NewStatsStore_Done (maxLen n : Z) (ss : StatsStore) :
  NewStatsStore maxLen n = Done ss ->
  exists k, StatsStore_shards ss = replicate k {| stats := ∅ |}.
Proof.
  unfold NewStatsStore, make_slice.
  destruct ((_ <? 0) || (maxLen <? _)); [done|]. run_simpl.
  rewrite length_replicate, fill_stats_shards. intros [= <-]. by eexists.
Qed.

Lemma bump_stats_nil (v : string) (st : UserStats) : bump_stats v [] st = st.
Proof. unfold bump_stats, tally, bump. simpl. by destruct st. Qed.

Lemma server_ok_new (maxLen n m : Z) (gs : GameStore) (ss : StatsStore) :
  NewGameStore maxLen n = Done gs -> NewStatsStore maxLen m = Done ss ->
  gstore_ok gs -> store_ok ss ->
  server_ok runes (NewTicTacToeServer gs ss).
Proof.
  intros Hgs Hss Hok Hok'.
  destruct (NewGameStore_Done _ _ _ Hgs) as [k Hk].
  destruct (NewStatsStore_Done _ _ _ Hss) as [k' Hk'].
  split; [|split; [done|split]].
  - split; [done|]. simpl. intros i sh id g Hl Hg. rewrite Hk in Hl.
    apply lookup_replicate in Hl as [-> _]. simpl in Hg. by rewrite lookup_empty in Hg.
  - intros id subs. simpl. by rewrite lookup_empty.
  - intros v. simpl.
    assert (ledger gs = []) as ->.
    { unfold ledger, all_games. rewrite Hk. clear.
      induction k as [|k IH]; simpl; [done|]. by rewrite map_to_list_empty. }
    rewrite bump_stats_nil. unfold stats_of.
    destruct ss as [shards nshards]. simpl in Hk'. subst shards.
    by rewrite view_replicate.
Qed.

Lemma fanout_ok_stores (s : TicTacToeServer) (gs : GameStore) (ss : StatsStore) :
  fanout_ok s -> fanout_ok (set_statsStore ss (set_gameStore gs s)).
Proof. done. Qed.

Lemma fresh_game_served (maxLen : Z) (now : Time) (uuid userId : string)
    (boardSize winLength : Z) :
  400 <= maxLen <= int_max -> accepted userId boardSize winLength ->
  let g := fresh_game now uuid userId (asked boardSize DefaultBoardSize)
             (asked winLength DefaultWinLength) in
  served_game (Game_ID g) g /\ result_of g = [].
Proof.
  intros Hmax (Hu & Hb & Hw) g. unfold MaxBoardSize in Hb.
  split; [|done]. split; [done|]. split; [|split; [done|split; [done|]]].
  - apply (reachable_new maxLen now uuid userId (asked boardSize DefaultBoardSize)
             (asked winLength DefaultWinLength)); [lia|nia|].
    apply NewGame_fresh; (lia || nia).
  - simpl. unfold MaxBoardSize. lia.
Qed.

Lemma server_ok_CreateGame (maxLen : Z) (now : Time) (uuid : string)
    (s s' : TicTacToeServer) (userId : string) (boardSize winLength : Z)
    (r : option pb_Game * option Code) :
  400 <= maxLen <= int_max -> server_ok runes s ->
  TicTacToeServer_CreateGame runes Unix maxLen now uuid s userId boardSize winLength
    = Done (s', r) ->
  server_ok runes s'.
Proof.
  intros Hmax Hok Hcall. destruct Hok as (Hgames & Hstats & Hfan & Hledger).
  destruct (CreateGame_cases maxLen now uuid s userId boardSize winLength
              (proj1 Hgames) Hmax)
    as [[_ H]|[(_ & _ & H)|(Hacc & Hnone & gs' & Hcreate & H)]];
    rewrite H in Hcall; injection Hcall as <- <-; try done.
  destruct (fresh_game_served maxLen now uuid userId boardSize winLength Hmax Hacc)
    as [Hserved Hres].
  split; [|split; [done|split; [done|]]]; simpl.
  - by apply (games_ok_Create _ _ _ Hgames Hserved).
  - intros v. rewrite Hledger. apply bump_stats_perm.
    rewrite (ledger_Create _ _ _ (proj1 Hgames) Hcreate). by rewrite Hres.
Qed.

Lemma joined_game_served (now : Time) (g : Game) (id userId : string) :
  served_game id g -> Game_Status g = StatusPending -> Game_PlayerX g <> userId ->
  userId <> EmptyString ->
  served_game id (joined_game now g userId) /\
  result_of g = [] /\ result_of (joined_game now g userId) = [].
Proof.
  intros (Hid & Hreach & HX & HO & Hsize) Hs Hne Hu.
  split; [|split; [unfold result_of; by rewrite Hs | done]].
  split; [done|]. split; [|done].
  apply (reachable_call g _ (CallJoin now userId) None); [done|]. simpl.
  destruct (Join_cases now g userId) as [[? _]|[(_ & ? & _)|(_ & _ & H)]]; try done.
  by rewrite H.
Qed.

Lemma server_ok_JoinGame (now : Time) (s s' : TicTacToeServer) (userId gameId : string)
    (r : option pb_Game * option Code) :
  server_ok runes s ->
  TicTacToeServer_JoinGame runes Unix now s userId gameId = Done (s', r) ->
  server_ok runes s'.
Proof.
  intros Hok Hcall. destruct Hok as (Hgames & Hstats & Hfan & Hledger).
  destruct (JoinGame_outcomes now s userId gameId (proj1 Hgames))
    as [[_ H]|(Hu & Hg & [[_ H]|(g & Hst & [[_ H]|[(_ & _ & H)|(Hs & Hx & H)]])])];
    rewrite H in Hcall; try (injection Hcall as <- <-; done).
  clear H. simpl in Hcall.
  set (s1 := set_gameStore (GameStore_write runes (gameStore s) gameId
                              (joined_game now g userId)) s) in *.
  destruct (fanout_ok_broadcast s1 gameId
              {| Update_Game := Some (gameToProto Unix
                                        (Game_GetSnapshot (joined_game now g userId)));
                 Update_Message := "Game started! Player X's turn." |} Hfan)
    as (s2 & Hrun & Hfan2 & Hgs & Hss & _).
  rewrite Hrun in Hcall. injection Hcall as <- <-.
  destruct (joined_game_served now g gameId userId) as (Hserved & Hr & Hr'); try done.
  { by apply (games_ok_stored _ _ _ Hgames). }
  split; [|split; [|split; [done|]]]; rewrite ?Hgs, ?Hss; simpl.
  - by apply (games_ok_write _ _ g).
  - done.
  - intros v. rewrite Hledger. apply bump_stats_perm.
    destruct (ledger_write (gameStore s) gameId g (joined_game now g userId) Hst)
      as (others & H1 & H2).
    rewrite H1, H2, Hr, Hr'. done.
Qed.

Lemma moved_game_served (now : Time) (g g' : Game) (id userId : string) (row col : Z) :
  served_game id g -> Game_MakeMove now g userId row col = Done (g', None) ->
  served_game id g' /\ result_of g = [] /\
  Game_PlayerX g' <> EmptyString /\ Game_PlayerO g' <> EmptyString /\
  (Status_IsFinished (Game_Status g') = false -> result_of g' = []).
Proof.
  intros (Hid & Hreach & HX & HO & Hsize) Hcall.
  destruct (MakeMove_success_fields _ _ _ _ _ _ Hcall)
    as (Hs & _ & _ & Hid' & HX' & HO' & _ & _ & Hset & _).
  pose proof (reachable_inv g Hreach) as Hinv.
  destruct (Board_Set_success _ _ _ _ _ (inv_grid g Hinv) Hset) as (_ & _ & Hb).
  assert (Game_PlayerO g <> EmptyString) as HOg by (apply HO; congruence).
  split; [|split; [unfold result_of; by rewrite Hs|split; [congruence|split; [congruence|]]]].
  - split; [congruence|]. split.
    + by apply (reachable_call g g' (CallMakeMove now userId row col) None).
    + split; [congruence|]. split; [intros _; congruence|]. rewrite Hb. done.
  - unfold result_of. by destruct (Game_Status g').
Qed.

Lemma server_ok_MakeMove (now : Time) (s s' : TicTacToeServer) (userId gameId : string)
    (row col : Z) (r : option pb_Game * option Code) :
  server_ok runes s ->
  TicTacToeServer_MakeMove runes Unix now s userId gameId row col = Done (s', r) ->
  server_ok runes s'.
Proof.
  intros Hok Hcall. destruct Hok as (Hgames & Hstats & Hfan & Hledger).
  destruct (MakeMove_outcomes now s userId gameId row col (proj1 Hgames))
    as [[_ H]|(Hu & Hg & [[_ H]|(g & Hst & H)])];
    try (rewrite H in Hcall; injection Hcall as <- <-; done).
  destruct (Game_MakeMove now g userId row col) as [[g' [e|]]| |] eqn:Hmove;
    try (rewrite H in Hcall; discriminate).
  { destruct H as (_ & _ & H). rewrite H in Hcall. by injection Hcall as <- <-. }
  simpl in H. rewrite H in Hcall. clear H.
  pose proof (games_ok_stored _ _ _ Hgames Hst) as Hserved.
  destruct (moved_game_served now g g' gameId userId row col Hserved Hmove)
    as (Hserved' & Hr & HX & HO & Hunfinished).
  set (s1 := set_gameStore (GameStore_write runes (gameStore s) gameId g') s) in *.
  destruct (ledger_write (gameStore s) gameId g g' Hst) as (others & H1 & H2).
  rewrite Hr in H1. simpl in H1.
  assert (exists s2,
            (if Status_IsFinished (Game_Status g')
             then TicTacToeServer_recordGameResult runes s1 (Game_GetSnapshot g')
             else Done s1) = Done s2 /\
            gameStore s2 = gameStore s1 /\ subscribers s2 = subscribers s /\
            channels s2 = channels s /\ store_ok (statsStore s2) /\
            forall v, stats_of runes (statsStore s2) v
                      = bump_stats v (ledger (gameStore s1)) (zero_stats v))
    as (s2 & Hrun2 & Hgs2 & Hsubs2 & Hch2 & Hstats2 & Hledger2).
  { destruct (Status_IsFinished (Game_Status g')) eqn:Hfin.
    - rewrite recordGameResult_records by done.
      destruct (record_all_stats runes (result_of g') (statsStore s1) Hstats)
        as (ss & Hrec & Hss & Hst').
      rewrite Hrec. run_simpl. eexists. split; [done|]. simpl.
      split; [done|]. split; [done|]. split; [done|]. split; [done|].
      intros v. rewrite Hst', Hledger, <- bump_stats_app.
      apply bump_stats_perm. rewrite H1, H2. apply Permutation_app_comm.
    - exists s1. split; [done|]. split; [done|]. split; [done|]. split; [done|].
      split; [done|]. intros v. simpl. rewrite Hledger. apply bump_stats_perm.
      rewrite H1, H2, (Hunfinished eq_refl). done. }
  rewrite Hrun2 in Hcall. run_simpl.
  assert (fanout_ok s2) as Hfan2.
  { apply (fanout_ok_same_tables s); [done| |done]. rewrite Hch2. eauto. }
  destruct (fanout_ok_broadcast s2 gameId
              {| Update_Game := Some (gameToProto Unix (Game_GetSnapshot g'));
                 Update_Message := getUpdateMessage (Game_GetSnapshot g') |} Hfan2)
    as (s3 & Hrun3 & Hfan3 & Hgs3 & Hss3 & _).
  unfold mbind, run_bind in Hcall. rewrite Hrun3 in Hcall. injection Hcall as <- <-.
  split; [|split; [|split; [done|]]]; rewrite ?Hgs3, ?Hss3, ?Hgs2; try done.
  by apply (games_ok_write _ _ g).
Qed.

Lemma Get_stats_of (ss : StatsStore) (userId : string) :
  store_ok ss ->
  exists ss',
    StatsStore_Get runes ss userId =
      Done (ss', {| UserID := userId;
                    Wins := Wins (stats_of runes ss userId);
                    Losses := Losses (stats_of runes ss userId);
                    Draws := Draws (stats_of runes ss userId) |}) /\
    store_ok ss' /\
    forall v, stats_of runes ss' v = stats_of runes ss v.
Proof.
  intros Hok.
  destruct (getOrCreate_spec runes ss userId Hok) as (ss' & Hrun & Hns & Hlen & Hview).
  exists ss'. split; [|split].
  - unfold StatsStore_Get. rewrite Hrun. run_simpl.
    assert (shard_index runes ss userId = shard_index runes ss' userId) as ->
      by (unfold shard_index; by rewrite Hns).
    fold (view runes ss' userId). rewrite Hview, decide_True by done. done.
  - unfold store_ok, len in *. by rewrite Hns, Hlen.
  - intros v. unfold stats_of. rewrite Hview. case_decide; [subst v|done].
    by destruct (view runes ss userId).
Qed.

Lemma server_ok_GetUserStats (s s' : TicTacToeServer) (userId : string)
    (r : option UserStatsResponse * option Code) :
  server_ok runes s ->
  TicTacToeServer_GetUserStats runes s userId = Done (s', r) ->
  server_ok runes s'.
Proof.
  intros (Hgames & Hstats & Hfan & Hledger). unfold TicTacToeServer_GetUserStats.
  destruct (String.eqb userId EmptyString); [by intros [= <- <-]|].
  destruct (Get_stats_of (statsStore s) userId Hstats) as (ss' & Hrun & Hok' & Hsame).
  rewrite Hrun. run_simpl. intros [= <- <-].
  split; [done|]. split; [done|]. split; [done|]. simpl.
  intros v. by rewrite Hsame.
Qed.

Lemma fresh_channel (chans : gmap nat Chan) : chans !! fresh (dom chans) = None.
Proof. apply not_elem_of_dom, is_fresh. Qed.

Lemma server_ok_stream_enter (s s' : TicTacToeServer) (gameId : string)
    (r : option nat * option Code) :
  server_ok runes s ->
  StreamGameUpdates_enter runes s gameId = Done (s', r) ->
  server_ok runes s'.
Proof.
  intros (Hgames & Hstats & Hfan & Hledger). unfold StreamGameUpdates_enter.
  destruct (String.eqb gameId EmptyString); [by intros [= <- <-]|].
  rewrite (GameStore_Get_stored runes _ gameId (proj1 Hgames)).
  destruct (stored runes (gameStore s) gameId) as [g|]; run_simpl;
    intros [= <- <-]; [|done].
  split; [done|]. split; [done|]. split; [|done].
  apply fanout_ok_subscribe; [done | apply fresh_channel].
Qed.

Lemma server_ok_stream_receive (s : TicTacToeServer) (ch : nat) (update : GameUpdate)
    (chans : gmap nat Chan) :
  server_ok runes s -> recv_chan (channels s) ch = Some (update, chans) ->
  server_ok runes (set_channels chans s).
Proof.
  intros (Hgames & Hstats & Hfan & Hledger). unfold recv_chan.
  destruct (channels s !! ch) as [c|] eqn:Hc; [|done].
  destruct (Chan_buf c) as [|u rest] eqn:Hbuf; [done|]. intros [= <- <-].
  split; [done|]. split; [done|]. split; [|done].
  apply (fanout_ok_same_tables s); [done| |done]. simpl.
  intros k c' Hk Hopen. destruct (decide (k = ch)) as [->|Hne].
  - rewrite lookup_insert_eq. eexists. split; [done|]. simpl. congruence.
  - rewrite lookup_insert_ne by done. eauto.
Qed.

Lemma server_ok_stream_return (s s' : TicTacToeServer) (gameId : string) (ch : nat) :
  server_ok runes s -> ch ∈ subscribers_of s gameId ->
  TicTacToeServer_unsubscribe s gameId ch = Done s' ->
  server_ok runes s'.
Proof.
  intros (Hgames & Hstats & Hfan & Hledger) Hin Hrun.
  destruct (fanout_ok_unsubscribe s gameId ch Hfan Hin)
    as (s'' & c & Hrun' & Hok' & Hgs & Hss & _).
  rewrite Hrun in Hrun'. injection Hrun' as <-.
  split; [by rewrite Hgs|]. split; [by rewrite Hss|]. split; [done|].
  by rewrite Hgs, Hss.
Qed.

(** Requests handled one at a time keep the server in order. *)
Lemma served_ok (maxLen : Z) (s : TicTacToeServer) :
  400 <= maxLen <= int_max -> served runes Unix maxLen s -> server_ok runes s.
Proof.
  intros Hmax. induction 1.
  - by eapply server_ok_new.
  - by eapply server_ok_CreateGame.
  - by eapply server_ok_JoinGame.
  - by eapply server_ok_MakeMove.
  - by eapply server_ok_GetUserStats.
  - by eapply server_ok_stream_enter.
  - by eapply server_ok_stream_receive.
  - by eapply server_ok_stream_return.
Qed.

End ServerFacts.

Lemma Get_found (runes : string -> list Z) (gs : GameStore) (id : string) (g : Game) :
  gstore_ok gs ->
  (GameStore_Get runes gs id = Done (Some g, None) <-> stored runes gs id = Some g).
Proof.
  intros Hok. rewrite (GameStore_Get_stored runes gs id Hok).
  destruct (stored runes gs id); split; intros; by simplify_eq.
Qed.

Lemma Get_not_found (runes : string -> list Z) (gs : GameStore) (id : string) :
  gstore_ok gs ->
  (GameStore_Get runes gs id = Done (None, Some ErrGameNotFound)
   <-> stored runes gs id = None).
Proof.
  intros Hok. rewrite (GameStore_Get_stored runes gs id Hok).
  destruct (stored runes gs id); split; intros; by simplify_eq.
Qed.

(** X25. CreateGame, on a server in order that can allocate a board of 20 x 20
    cells. A request is accepted when the user id is not empty, the board
    size, 0 standing for 3, lies in 3..20, and the win length, 0 standing for
    3, lies between 3 and that size. A request that is not accepted is
    answered InvalidArgument and changes nothing. An accepted one whose
    identifier is already stored is answered Internal and changes nothing.
    Otherwise the answer is the Pending match of the creator, all cells empty;
    Get then finds that match under the identifier; the other matches, the
    counters and the fan-out are as before; and ListPending with limit 0 and
    offset 0 returns one match more, the new one. *)
Theorem CreateGame_answers (runes : string -> list Z) (Unix : Time -> Z) (maxLen : Z)
    (now : Time) (uuid : string) (s : TicTacToeServer) (userId : string)
    (boardSize winLength : Z) :
  400 <= maxLen <= int_max -> server_ok runes s ->
  let call := TicTacToeServer_CreateGame runes Unix maxLen now uuid s userId
                boardSize winLength in
  let g := fresh_game now uuid userId (asked boardSize DefaultBoardSize)
             (asked winLength DefaultWinLength) in
  (~ accepted userId boardSize winLength ->
     call = Done (s, (None, Some InvalidArgument))) /\
  (accepted userId boardSize winLength ->
   (exists g0, GameStore_Get runes (gameStore s) uuid = Done (Some g0, None)) ->
     call = Done (s, (None, Some Internal))) /\
  (accepted userId boardSize winLength ->
   GameStore_Get runes (gameStore s) uuid = Done (None, Some ErrGameNotFound) ->
     exists s',
       call = Done (s', (Some (gameToProto Unix (Game_GetSnapshot g)), None)) /\
       server_ok runes s' /\
       GameStore_Get runes (gameStore s') uuid = Done (Some g, None) /\
       (forall id, id <> uuid ->
          GameStore_Get runes (gameStore s') id = GameStore_Get runes (gameStore s) id) /\
       statsStore s' = statsStore s /\ subscribers s' = subscribers s /\
       channels s' = channels s /\
       (forall res res',
          GameStore_ListPending (gameStore s) 0 0 res ->
          GameStore_ListPending (gameStore s') 0 0 res' ->
          exists page page',
            res = Done (page, len page) /\ res' = Done (page', len page') /\
            page' ≡ₚ Game_GetSnapshot g :: page)).
Proof.
  intros Hmax Hok call g.
  pose proof Hok as (Hgames & _). pose proof (proj1 Hgames) as Hgok.
  pose proof (CreateGame_cases runes Unix maxLen now uuid s userId boardSize winLength
                Hgok Hmax) as Hcases.
  fold call g in Hcases.
  split; [|split].
  - intros Hno. by destruct Hcases as [[_ H]|[(? & _)|(? & _)]].
  - intros Hacc (g0 & Hg0). apply Get_found in Hg0; [|done].
    destruct Hcases as [[? _]|[(_ & _ & H)|(_ & Hnone & _)]]; [done|done|congruence].
  - intros Hacc Hnone. apply Get_not_found in Hnone; [|done].
    destruct Hcases as [[? _]|[(_ & ? & _)|(_ & _ & gs' & Hcreate & H)]]; [done|done|].
    exists (set_gameStore gs' s). split; [done|].
    split; [by apply (server_ok_CreateGame runes Unix maxLen now uuid s _ userId
                        boardSize winLength _ Hmax Hok H)|].
    destruct (Create_success_shape runes _ _ _ Hgok Hcreate) as (sh & Hl & Hk & Hgs').
    assert (gstore_ok gs') as Hgok' by (rewrite Hgs'; by apply gstore_ok_update).
    simpl. split; [|split; [|split; [done|split; [done|split; [done|]]]]].
    + apply Get_found; [done|]. rewrite Hgs'.
      rewrite (stored_after_update runes (gameStore s) (Game_ID g) uuid sh) by
        (done || (intros k Hne; by rewrite lookup_insert_ne)).
      rewrite decide_True by done. apply lookup_insert_eq.
    + intros id Hid. rewrite (GameStore_Get_stored runes gs' id Hgok').
      rewrite (GameStore_Get_stored runes (gameStore s) id Hgok). rewrite Hgs'.
      rewrite (stored_after_update runes (gameStore s) (Game_ID g) id sh) by
        (done || (intros k Hne; by rewrite lookup_insert_ne)).
      by rewrite decide_False by done.
    + intros res res' Hr Hr'.
      destruct (ListPending_all _ _ Hr) as (page & -> & Hp).
      destruct (ListPending_all _ _ Hr') as (page' & -> & Hp').
      exists page, page'. split; [done|]. split; [done|].
      rewrite Hp', Hp. by rewrite (pending_snapshots_Create runes _ _ _ Hgok Hcreate).
Qed.

(** X26. ListPendingGames. Every request has an answer and no request panics,
    a negative offset included: the limit passed on is 50 for a limit <= 0 and
    at most 100, the offset passed on is never negative. The answer holds the
    converted snapshots of the pending matches of the page, never more than
    100 and never more than a positive limit asked for, and as total_count the
    number of pending matches converted to [int32]. *)
Theorem ListPendingGames_clamps (Unix : Time -> Z) (s : TicTacToeServer)
    (limit offset : Z) :
  (exists res, TicTacToeServer_ListPendingGames Unix s limit offset res) /\
  (forall res, TicTacToeServer_ListPendingGames Unix s limit offset res ->
     exists all,
       all ≡ₚ pending_snapshots (gameStore s) /\
       res = Done (gameToProto Unix
                     <$> page_of all (clamped_limit limit) (clamped_offset offset),
                   wrap32 (len (pending_snapshots (gameStore s)))) /\
       len (page_of all (clamped_limit limit) (clamped_offset offset)) <= 100 /\
       (0 < limit ->
        len (page_of all (clamped_limit limit) (clamped_offset offset)) <= limit)) /\
  1 <= clamped_limit limit <= 100 /\ 0 <= clamped_offset offset.
Proof.
  assert (1 <= clamped_limit limit <= 100 /\ (0 < limit -> clamped_limit limit <= limit))
    as [Hlim Hlim'].
  { unfold clamped_limit, DefaultListLimit, MaxListLimit.
    destruct (Z.leb_spec limit 0); [lia|]. destruct (Z.ltb_spec 100 limit); lia. }
  assert (0 <= clamped_offset offset) as Hoff.
  { unfold clamped_offset. destruct (Z.ltb_spec offset 0); lia. }
  assert (forall res, TicTacToeServer_ListPendingGames Unix s limit offset res <->
            exists listed,
              GameStore_ListPending (gameStore s) (clamped_limit limit)
                (clamped_offset offset) listed /\
              res = mbind (M := run)
                      (fun '(games, totalCount) =>
                         Done (gameToProto Unix <$> games, wrap32 totalCount)) listed)
    as Hdef.
  { intros res. unfold TicTacToeServer_ListPendingGames, clamped_limit, clamped_offset.
    destruct (limit <=? 0); [|done].
    unfold DefaultListLimit, MaxListLimit. simpl. done. }
  split; [|split; [|done]].
  - destruct (visit_exists (gameStore s)) as [visits Hv].
    eexists. apply Hdef. eexists. split; [|done]. exists visits. eauto.
  - intros res Hres. apply Hdef in Hres as (listed & (visits & Hv & <-) & ->).
    destruct (ListPending_visit_spec visits (clamped_limit limit) (clamped_offset offset))
      as (_ & Hpage & _).
    rewrite (Hpage Hoff).
    destruct (Z.ltb_spec 0 (clamped_limit limit)) as [_|]; [|lia].
    pose proof (collect_pending_perm _ _ Hv) as Hperm.
    exists (collect_pending visits). split; [done|]. split.
    + run_simpl. by rewrite (len_perm _ _ Hperm).
    + assert (len (page_of (collect_pending visits) (clamped_limit limit)
                     (clamped_offset offset)) <= clamped_limit limit) as Hle.
      { unfold len, page_of. rewrite length_take. lia. }
      split; [lia|]. intros Hpos. specialize (Hlim' Hpos). lia.
Qed.

Lemma broadcast_channels (s : TicTacToeServer) (gameID : string) (update : GameUpdate) :
  fanout_ok s ->
  exists s', TicTacToeServer_broadcastUpdate s gameID update = Done s' /\
    fanout_ok s' /\
    gameStore s' = gameStore s /\ statsStore s' = statsStore s /\
    subscribers s' = subscribers s /\
    forall ch, channels s' !! ch =
      if decide (ch ∈ subscribers_of s gameID) then deliver update <$> channels s !! ch
      else channels s !! ch.
Proof.
  intros Hok.
  destruct (fanout_ok_broadcast s gameID update Hok)
    as (s' & Hrun & Hok' & Hgs & Hss & Hsubs & Hch).
  exists s'. repeat (split; [done|]). intros ch. rewrite Hch. unfold subscribers_of.
  destruct (subscribers s !! gameID) as [subs|]; simpl.
  - rewrite lookup_deliver_to. destruct (decide (ch ∈ subs)) as [Hin|Hnin].
    + by rewrite bool_decide_eq_true_2 by (by apply elem_of_elements).
    + rewrite bool_decide_eq_false_2 by (by rewrite elem_of_elements).
      by destruct (channels s !! ch).
  - by rewrite decide_False by apply not_elem_of_empty.
Qed.

(** The listing of open matches when the match stored under an id is
    replaced. *)
Lemma pending_write (runes : string -> list Z) (gs : GameStore) (id : string)
    (g g' : Game) :
  stored runes gs id = Some g ->
  exists others,
    pending_snapshots gs ≡ₚ listing_of g ++ others /\
    pending_snapshots (GameStore_write runes gs id g') ≡ₚ listing_of g' ++ others.
Proof.
  intros Hg. destruct (stored_in_shard runes gs id g Hg) as (sh & Hl & Hk).
  rewrite (GameStore_write_shape runes gs id g' sh Hl).
  set (i := gshard_index runes gs id) in *.
  set (gs0 := {| GameStore_shards :=
                   <[i := {| games := delete id (games sh) |}]> (GameStore_shards gs);
                 GameStore_numShards := GameStore_numShards gs |}).
  exists (pending_snapshots gs0). split.
  - symmetry. unfold pending_snapshots, gs0. simpl.
    apply (concat_fmap_insert_less (fun sh => pending_in (map_to_list (games sh)))
             _ _ sh); [done|]. simpl.
    rewrite <- (pending_in_cons id). apply pending_in_perm, map_to_list_delete, Hk.
  - assert (GameStore_shards gs0 !! i = Some {| games := delete id (games sh) |}) as Hl0.
    { unfold gs0. simpl. apply list_lookup_insert_eq. by apply lookup_lt_Some in Hl. }
    pose proof (pending_snapshots_update gs0 i _ (<[id := g']> (games sh))
                  (listing_of g') Hl0) as Hup.
    unfold gs0 in Hup at 1. simpl in Hup. rewrite list_insert_insert_eq in Hup.
    apply Hup. rewrite <- insert_delete_eq.
    rewrite (pending_in_perm _ _ (map_to_list_insert (delete id (games sh)) id g'
                                    (lookup_delete_eq _ _))).
    by rewrite pending_in_cons.
Qed.

Lemma gstore_ok_write (runes : string -> list Z) (gs : GameStore) (id : string)
    (g : Game) :
  gstore_ok gs -> gstore_ok (GameStore_write runes gs id g).
Proof. unfold gstore_ok, GameStore_write, len. simpl. by rewrite length_alter. Qed.

(** X27. JoinGame, on a server in order. An empty user id or game id is
    answered InvalidArgument, an unknown game NotFound, a game that is not
    Pending FailedPrecondition, the creator joining the own game
    InvalidArgument; each of these leaves the server exactly as it was.
    Otherwise the answer is the match InProgress with the user as playerO; Get
    then finds that match; the other matches, the counters and the subscribers
    are as before; every channel subscribed for the game, if it has room,
    holds the update [Game started! Player X's turn.] with the match; and the
    match has left the listing of ListPending. *)
Theorem JoinGame_answers (runes : string -> list Z) (Unix : Time -> Z) (now : Time)
    (s : TicTacToeServer) (userId gameId : string) :
  server_ok runes s ->
  let call := TicTacToeServer_JoinGame runes Unix now s userId gameId in
  (userId = EmptyString \/ gameId = EmptyString ->
     call = Done (s, (None, Some InvalidArgument))) /\
  (userId <> EmptyString -> gameId <> EmptyString ->
   (GameStore_Get runes (gameStore s) gameId = Done (None, Some ErrGameNotFound) ->
      call = Done (s, (None, Some NotFound))) /\
   (forall g, GameStore_Get runes (gameStore s) gameId = Done (Some g, None) ->
      (Game_Status g <> StatusPending ->
         call = Done (s, (None, Some FailedPrecondition))) /\
      (Game_Status g = StatusPending -> Game_PlayerX g = userId ->
         call = Done (s, (None, Some InvalidArgument))) /\
      (Game_Status g = StatusPending -> Game_PlayerX g <> userId ->
         let g' := joined_game now g userId in
         let update := {| Update_Game := Some (gameToProto Unix (Game_GetSnapshot g'));
                          Update_Message := "Game started! Player X's turn." |} in
         exists s',
           call = Done (s', (Some (gameToProto Unix (Game_GetSnapshot g')), None)) /\
           server_ok runes s' /\
           GameStore_Get runes (gameStore s') gameId = Done (Some g', None) /\
           (forall id, id <> gameId ->
              GameStore_Get runes (gameStore s') id
              = GameStore_Get runes (gameStore s) id) /\
           statsStore s' = statsStore s /\ subscribers s' = subscribers s /\
           (forall ch, channels s' !! ch =
              if decide (ch ∈ subscribers_of s gameId)
              then deliver update <$> channels s !! ch
              else channels s !! ch) /\
           (forall res res',
              GameStore_ListPending (gameStore s) 0 0 res ->
              GameStore_ListPending (gameStore s') 0 0 res' ->
              exists page page',
                res = Done (page, len page) /\ res' = Done (page', len page') /\
                page ≡ₚ Game_GetSnapshot g :: page')))).
Proof.
  intros Hok call.
  pose proof Hok as (Hgames & _ & Hfan & _). pose proof (proj1 Hgames) as Hgok.
  pose proof (JoinGame_outcomes runes Unix now s userId gameId Hgok) as Hcases.
  fold call in Hcases. split.
  { intros Hempty. destruct Hcases as [[_ H]|(Hu & Hg & _)]; [done|].
    by destruct Hempty. }
  intros Hu Hg. destruct Hcases as [[[?|?] _]|(_ & _ & Hcases)]; [done|done|].
  split.
  { intros Hnone. apply Get_not_found in Hnone; [|done].
    destruct Hcases as [[_ H]|(g & Hst & _)]; [done|congruence]. }
  intros g Hfound. apply Get_found in Hfound; [|done].
  destruct Hcases as [[Hnone _]|(g0 & Hst & Hcases)]; [congruence|].
  assert (g0 = g) as -> by congruence.
  split; [|split].
  - intros Hs. by destruct Hcases as [[_ H]|[(? & _)|(? & _)]].
  - intros Hs Hx. by destruct Hcases as [[? _]|[(_ & _ & H)|(_ & ? & _)]].
  - intros Hs Hx g' update.
    destruct Hcases as [[? _]|[(_ & ? & _)|(_ & _ & H)]]; [done|done|].
    cbv zeta in H. fold g' in H. fold update in H.
    set (s1 := set_gameStore (GameStore_write runes (gameStore s) gameId g') s) in *.
    destruct (broadcast_channels s1 gameId update Hfan)
      as (s' & Hrun & _ & Hgs & Hss & Hsubs & Hch).
    rewrite Hrun in H. run_simpl. exists s'. split; [done|].
    split; [by apply (server_ok_JoinGame runes Unix now s s' userId gameId _ Hok H)|].
    pose proof (gstore_ok_write runes (gameStore s) gameId g' Hgok) as Hgok'.
    rewrite Hgs, Hss, Hsubs. simpl.
    split; [|split; [|split; [done|split; [done|split; [done|]]]]].
    + apply Get_found; [done|]. rewrite (stored_write runes _ _ _ g) by done.
      by rewrite decide_True.
    + intros id Hid. rewrite (GameStore_Get_stored runes _ id Hgok').
      rewrite (GameStore_Get_stored runes _ id Hgok).
      rewrite (stored_write runes _ _ _ g) by done. by rewrite decide_False.
    + intros res res' Hr Hr'.
      destruct (ListPending_all _ _ Hr) as (page & -> & Hp).
      destruct (ListPending_all _ _ Hr') as (page' & -> & Hp').
      exists page, page'. split; [done|]. split; [done|].
      destruct (pending_write runes (gameStore s) gameId g g' Hst) as (others & H1 & H2).
      rewrite Hp, Hp', H1, H2. unfold listing_of.
      rewrite decide_True by done. by rewrite decide_False by done.
Qed.

(** X28. MakeMove, on a server in order. An empty user id or game id is
    answered InvalidArgument and an unknown game NotFound. For a stored game
    the move of the match returns. When it returns an error the answer is its
    code, FailedPrecondition, PermissionDenied or InvalidArgument and never
    Internal, and the server is exactly as it was. When it succeeds the answer
    is the match after the move; Get then finds that match; the subscribers of
    the game are offered the update; the counters are untouched if the match
    is not finished; and if the move finished it, the result is recorded once:
    a win for the winner and a loss for the loser, or a draw for each of the
    two players, who are different ids. *)
Theorem MakeMove_answers (runes : string -> list Z) (Unix : Time -> Z) (now : Time)
    (s : TicTacToeServer) (userId gameId : string) (row col : Z) :
  server_ok runes s ->
  let call := TicTacToeServer_MakeMove runes Unix now s userId gameId row col in
  (userId = EmptyString \/ gameId = EmptyString ->
     call = Done (s, (None, Some InvalidArgument))) /\
  (userId <> EmptyString -> gameId <> EmptyString ->
   (GameStore_Get runes (gameStore s) gameId = Done (None, Some ErrGameNotFound) ->
      call = Done (s, (None, Some NotFound))) /\
   (forall g, GameStore_Get runes (gameStore s) gameId = Done (Some g, None) ->
      exists g' e, Game_MakeMove now g userId row col = Done (g', e) /\
        match e with
        | Some err =>
            call = Done (s, (None, Some (code_of_move_error err))) /\
            code_of_move_error err <> Internal
        | None =>
            let update :=
              {| Update_Game := Some (gameToProto Unix (Game_GetSnapshot g'));
                 Update_Message := getUpdateMessage (Game_GetSnapshot g') |} in
            exists s',
              call = Done (s', (Some (gameToProto Unix (Game_GetSnapshot g')), None)) /\
              server_ok runes s' /\
              GameStore_Get runes (gameStore s') gameId = Done (Some g', None) /\
              (forall id, id <> gameId ->
                 GameStore_Get runes (gameStore s') id
                 = GameStore_Get runes (gameStore s) id) /\
              subscribers s' = subscribers s /\
              (forall ch, channels s' !! ch =
                 if decide (ch ∈ subscribers_of s gameId)
                 then deliver update <$> channels s !! ch
                 else channels s !! ch) /\
              (Status_IsFinished (Game_Status g') = false ->
                 statsStore s' = statsStore s) /\
              (Status_IsFinished (Game_Status g') = true ->
                 Game_PlayerX g' <> Game_PlayerO g' /\
                 record_all runes (statsStore s) (result_of g') = Done (statsStore s') /\
                 forall v w l d, reports runes (statsStore s) v (w, l, d) ->
                   reports runes (statsStore s') v
                     (bump (tally Won v (result_of g')) w,
                      bump (tally Lost v (result_of g')) l,
                      bump (tally Drawn v (result_of g')) d))
        end)).
Proof.
  intros Hok call.
  pose proof Hok as (Hgames & Hstats & Hfan & _). pose proof (proj1 Hgames) as Hgok.
  pose proof (MakeMove_outcomes runes Unix now s userId gameId row col Hgok) as Hcases.
  fold call in Hcases. split.
  { intros Hempty. destruct Hcases as [[_ H]|(Hu & Hg & _)]; [done|].
    by destruct Hempty. }
  intros Hu Hg. destruct Hcases as [[[?|?] _]|(_ & _ & Hcases)]; [done|done|].
  split.
  { intros Hnone. apply Get_not_found in Hnone; [|done].
    destruct Hcases as [[_ H]|(g & Hst & _)]; [done|congruence]. }
  intros g Hfound. apply Get_found in Hfound; [|done].
  destruct Hcases as [[Hnone _]|(g0 & Hst & H)]; [congruence|].
  assert (g0 = g) as -> by congruence.
  pose proof (games_ok_stored runes _ _ _ Hgames Hst) as Hserved.
  pose proof Hserved as (_ & Hreach & _).
  destruct (perform_returns g (CallMakeMove now userId row col)
              (inv_grid g (reachable_inv g Hreach))) as (g' & e & Hmove & _).
  simpl in Hmove. exists g', e. split; [done|]. rewrite Hmove in H.
  destruct e as [err|]; [by destruct H as (_ & ? & ?)|].
  intros update. cbv zeta in H. fold update in H.
  set (s1 := set_gameStore (GameStore_write runes (gameStore s) gameId g') s) in *.
  destruct (moved_game_served now g g' gameId userId row col Hserved Hmove)
    as ((_ & Hreach' & _) & _ & HX & HO & _).
  assert (exists s2,
            (if Status_IsFinished (Game_Status g')
             then TicTacToeServer_recordGameResult runes s1 (Game_GetSnapshot g')
             else Done s1) = Done s2 /\
            gameStore s2 = gameStore s1 /\ subscribers s2 = subscribers s /\
            channels s2 = channels s /\
            (Status_IsFinished (Game_Status g') = false ->
               statsStore s2 = statsStore s) /\
            (Status_IsFinished (Game_Status g') = true ->
               record_all runes (statsStore s) (result_of g') = Done (statsStore s2)))
    as (s2 & Hrun2 & Hgs2 & Hsubs2 & Hch2 & Hsame2 & Hrec2).
  { destruct (Status_IsFinished (Game_Status g')) eqn:Hfin.
    - rewrite recordGameResult_records by done.
      destruct (record_all_stats runes (result_of g') (statsStore s1) Hstats)
        as (ss & Hrec & _).
      rewrite Hrec. run_simpl. eexists. split; [done|]. simpl. done.
    - exists s1. done. }
  rewrite Hrun2 in H. run_simpl.
  assert (fanout_ok s2) as Hfan2.
  { apply (fanout_ok_same_tables s); [done| |done]. rewrite Hch2. eauto. }
  destruct (broadcast_channels s2 gameId update Hfan2)
    as (s' & Hrun & _ & Hgs & Hss & Hsubs & Hch).
  unfold mbind, run_bind in H. rewrite Hrun in H.
  exists s'. split; [done|].
  split; [by apply (server_ok_MakeMove runes Unix now s s' userId gameId row col _ Hok H)|].
  pose proof (gstore_ok_write runes (gameStore s) gameId g' Hgok) as Hgok'.
  rewrite Hgs, Hgs2, Hss, Hsubs, Hsubs2. simpl.
  split; [|split; [|split; [done|split; [|split; [done|]]]]].
  - apply Get_found; [done|]. rewrite (stored_write runes _ _ _ g) by done.
    by rewrite decide_True.
  - intros id Hid. rewrite (GameStore_Get_stored runes _ id Hgok').
    rewrite (GameStore_Get_stored runes _ id Hgok).
    rewrite (stored_write runes _ _ _ g) by done. by rewrite decide_False.
  - intros ch. rewrite Hch, Hch2. unfold subscribers_of. by rewrite Hsubs2.
  - intros Hfin. split.
    + apply (inv_players g' (reachable_inv g' Hreach')).
      intros Hp. by rewrite Hp in Hfin.
    + split; [by apply Hrec2|]. intros v w l d Hrep.
      destruct (record_all_stats runes (result_of g') (statsStore s) Hstats)
        as (ss & Hrec & Hss' & Hst').
      rewrite (Hrec2 Hfin) in Hrec. injection Hrec as <-.
      apply reports_stats_of in Hrep; [|done]. apply reports_stats_of; [done|].
      rewrite Hst'. by injection Hrep as -> -> ->.
Qed.

Lemma tally_result_of (v : string) (g : Game) :
  (Game_Status g <> StatusPending -> Game_PlayerX g <> Game_PlayerO g) ->
  tally Won v (result_of g) = (if decide (winner_of g = Some v) then 1 else 0)%nat /\
  tally Lost v (result_of g) = (if decide (loser_of g = Some v) then 1 else 0)%nat /\
  tally Drawn v (result_of g) = (if decide (drawn_by v g) then 1 else 0)%nat.
Proof.
  destruct g as [id px po b t st ca ua]. simpl. intros Hne.
  unfold result_of, winner_of, loser_of, tally. simpl.
  destruct st; rewrite ?filter_cons, ?filter_nil;
    repeat case_decide; simplify_eq; simpl; try done;
    unfold drawn_by in *; simpl in *; try naive_solver.
Qed.

Lemma elem_of_concat {A : Type} (x : A) (ls : list (list A)) :
  x ∈ concat ls -> exists l, x ∈ l /\ l ∈ ls.
Proof.
  induction ls as [|l ls IH]; simpl; [by intros ?%elem_of_nil|].
  rewrite elem_of_app. intros [Hx|Hx].
  - exists l. split; [done|]. by left.
  - destruct (IH Hx) as (l' & Hl' & Hin). exists l'. split; [done|]. by right.
Qed.

Lemma tally_ledger (runes : string -> list Z) (gs : GameStore) (v : string) :
  games_ok runes gs ->
  tally Won v (ledger gs) = games_won gs v /\
  tally Lost v (ledger gs) = games_lost gs v /\
  tally Drawn v (ledger gs) = games_drawn gs v.
Proof.
  intros [_ Hall]. unfold ledger, games_won, games_lost, games_drawn.
  assert (Forall (fun g => Game_Status g <> StatusPending ->
                           Game_PlayerX g <> Game_PlayerO g) (all_games gs)) as Hgames.
  { apply Forall_forall. intros g Hin. unfold all_games in Hin.
    apply elem_of_concat in Hin as (l & Hin & Hl).
    apply list_elem_of_fmap in Hl as (sh & -> & Hsh).
    apply list_elem_of_lookup in Hsh as [i Hi].
    apply list_elem_of_fmap in Hin as ([id g0] & -> & Hkv).
    apply elem_of_map_to_list in Hkv.
    destruct (Hall i sh id g0 Hi Hkv) as (_ & _ & Hreach & _).
    apply (inv_players g0 (reachable_inv g0 Hreach)). }
  induction Hgames as [|g l Hg _ IH]; [done|].
  rewrite fmap_cons. simpl. rewrite !tally_app, !filter_cons.
  destruct (tally_result_of v g Hg) as (-> & -> & ->).
  destruct IH as (-> & -> & ->).
  repeat case_decide; done.
Qed.

Lemma GetGame_returns (runes : string -> list Z) (Unix : Time -> Z)
    (s : TicTacToeServer) (gameId : string) :
  gstore_ok (gameStore s) ->
  exists r, TicTacToeServer_GetGame runes Unix s gameId = Done r.
Proof.
  intros Hok. unfold TicTacToeServer_GetGame.
  destruct (String.eqb gameId EmptyString); [by eexists|].
  rewrite (GameStore_Get_stored runes _ gameId Hok).
  destruct (stored runes (gameStore s) gameId); run_simpl; by eexists.
Qed.

(** X29. A server never panics on requests handled one at a time. Start from
    NewTicTacToeServer on stores with usable shard counts, where a board of 20
    x 20 cells can be allocated, and handle any sequence of CreateGame,
    JoinGame, MakeMove and GetUserStats requests, with streams that enter,
    take updates out of their channel and unsubscribe on return. The server
    reached is in order, and on it every request of every handler returns, as
    do the entry of a stream, every broadcast, and the unsubscribe of every
    subscribed channel. *)
Theorem served_requests_return (runes : string -> list Z) (Unix : Time -> Z)
    (maxLen : Z) (s : TicTacToeServer) :
  400 <= maxLen <= int_max -> served runes Unix maxLen s ->
  server_ok runes s /\
  (forall now uuid userId boardSize winLength, exists s' r,
     TicTacToeServer_CreateGame runes Unix maxLen now uuid s userId boardSize winLength
     = Done (s', r)) /\
  (forall now userId gameId, exists s' r,
     TicTacToeServer_JoinGame runes Unix now s userId gameId = Done (s', r)) /\
  (forall now userId gameId row col, exists s' r,
     TicTacToeServer_MakeMove runes Unix now s userId gameId row col = Done (s', r)) /\
  (forall gameId, exists r, TicTacToeServer_GetGame runes Unix s gameId = Done r) /\
  (forall userId, exists s' r,
     TicTacToeServer_GetUserStats runes s userId = Done (s', r)) /\
  (forall limit offset res,
     TicTacToeServer_ListPendingGames Unix s limit offset res ->
     exists r, res = Done r) /\
  (forall gameId, exists s' r, StreamGameUpdates_enter runes s gameId = Done (s', r)) /\
  (forall gameId update, exists s',
     TicTacToeServer_broadcastUpdate s gameId update = Done s') /\
  (forall gameId ch, ch ∈ subscribers_of s gameId -> exists s',
     TicTacToeServer_unsubscribe s gameId ch = Done s').
Proof.
  intros Hmax Hserved.
  pose proof (served_ok runes Unix maxLen s Hmax Hserved) as Hok.
  pose proof Hok as (Hgames & Hstats & Hfan & _). pose proof (proj1 Hgames) as Hgok.
  split; [done|].
  split; [|split; [|split; [|split; [|split; [|split; [|split; [|split]]]]]]].
  - intros now uuid userId boardSize winLength.
    destruct (CreateGame_cases runes Unix maxLen now uuid s userId boardSize winLength
                Hgok Hmax) as [[_ H]|[(_ & _ & H)|(_ & _ & gs' & _ & H)]];
      rewrite H; by eexists _, _.
  - intros now userId gameId.
    destruct (JoinGame_outcomes runes Unix now s userId gameId Hgok)
      as [[_ H]|(_ & _ & [[_ H]|(g & _ & [[_ H]|[(_ & _ & H)|(_ & _ & H)]])])];
      try (rewrite H; by eexists _, _).
    cbv zeta in H. rewrite H.
    match goal with
    | |- context [TicTacToeServer_broadcastUpdate ?s1 ?id ?u] =>
        destruct (broadcast_channels s1 id u Hfan) as (s' & -> & _)
    end.
    run_simpl. by eexists _, _.
  - intros now userId gameId row col.
    destruct (MakeMove_outcomes runes Unix now s userId gameId row col Hgok)
      as [[_ H]|(Hu & Hg & [[_ H]|(g & Hst & H)])];
      try (rewrite H; by eexists _, _).
    pose proof (games_ok_stored runes _ _ _ Hgames Hst) as Hsg.
    pose proof Hsg as (_ & Hreach & _).
    destruct (perform_returns g (CallMakeMove now userId row col)
                (inv_grid g (reachable_inv g Hreach))) as (g' & e & Hmove & _).
    simpl in Hmove. rewrite Hmove in H.
    destruct e as [err|]; [destruct H as (_ & _ & ->); by eexists _, _|].
    cbv zeta in H. rewrite H.
    destruct (moved_game_served now g g' gameId userId row col Hsg Hmove)
      as (_ & _ & HX & HO & _).
    set (s1 := set_gameStore (GameStore_write runes (gameStore s) gameId g') s).
    assert (exists s2,
              (if Status_IsFinished (Game_Status g')
               then TicTacToeServer_recordGameResult runes s1 (Game_GetSnapshot g')
               else Done s1) = Done s2 /\ fanout_ok s2) as (s2 & -> & Hfan2).
    { destruct (Status_IsFinished (Game_Status g')) eqn:Hfin; [|by exists s1].
      rewrite recordGameResult_records by done.
      destruct (record_all_stats runes (result_of g') (statsStore s1) Hstats)
        as (ss & -> & _).
      run_simpl. by eexists. }
    run_simpl.
    match goal with
    | |- context [TicTacToeServer_broadcastUpdate ?s1 ?id ?u] =>
        destruct (broadcast_channels s1 id u Hfan2) as (s' & Hrun & _)
    end.
    unfold mbind, run_bind. rewrite Hrun. by eexists _, _.
  - intros gameId. by apply GetGame_returns.
  - intros userId. unfold TicTacToeServer_GetUserStats.
    destruct (String.eqb userId EmptyString); [by eexists _, _|].
    destruct (Get_stats_of runes (statsStore s) userId Hstats) as (ss' & -> & _).
    run_simpl. by eexists _, _.
  - intros limit offset res Hres.
    unfold TicTacToeServer_ListPendingGames in Hres.
    destruct Hres as (listed & (visits & _ & <-) & ->).
    match goal with
    | |- context [ListPending_visit visits ?l ?o] =>
        destruct (ListPending_visit_spec visits l o) as (_ & Hpage & _);
        rewrite Hpage by (destruct (offset <? 0) eqn:Ho; [done | lia])
    end.
    run_simpl. by eexists.
  - intros gameId. unfold StreamGameUpdates_enter.
    destruct (String.eqb gameId EmptyString); [by eexists _, _|].
    rewrite (GameStore_Get_stored runes _ gameId Hgok).
    destruct (stored runes (gameStore s) gameId); run_simpl; by eexists _, _.
  - intros gameId update.
    destruct (broadcast_channels s gameId update Hfan) as (s' & -> & _). by eexists.
  - intros gameId ch Hin.
    destruct (fanout_ok_unsubscribe s gameId ch Hfan Hin) as (s' & c & -> & _).
    by eexists.
Qed.

(** X30. The counters are the finished matches. On every server reached by
    requests handled one at a time, GetUserStats of a user with a name answers
    under that name, and its wins, losses and draws are the numbers of stored
    matches the user has won, lost and drawn, counted in [int32] arithmetic:
    exactly those numbers, with total_games their sum, as long as the sum fits
    [int32]. The store of matches is not changed by the request. *)
Theorem stats_count_finished_games (runes : string -> list Z) (Unix : Time -> Z)
    (maxLen : Z) (s : TicTacToeServer) (userId : string) :
  400 <= maxLen <= int_max -> served runes Unix maxLen s -> userId <> EmptyString ->
  let gs := gameStore s in
  exists s' resp,
    TicTacToeServer_GetUserStats runes s userId = Done (s', (Some resp, None)) /\
    gameStore s' = gs /\
    Resp_UserId resp = userId /\
    Resp_Wins resp = bump (games_won gs userId) 0 /\
    Resp_Losses resp = bump (games_lost gs userId) 0 /\
    Resp_Draws resp = bump (games_drawn gs userId) 0 /\
    Resp_TotalGames resp
      = add32 (add32 (Resp_Wins resp) (Resp_Losses resp)) (Resp_Draws resp) /\
    (Z.of_nat (games_won gs userId + games_lost gs userId + games_drawn gs userId)
       <= int32_max ->
     Resp_Wins resp = Z.of_nat (games_won gs userId) /\
     Resp_Losses resp = Z.of_nat (games_lost gs userId) /\
     Resp_Draws resp = Z.of_nat (games_drawn gs userId) /\
     Resp_TotalGames resp
       = Z.of_nat (games_won gs userId + games_lost gs userId + games_drawn gs userId)).
Proof.
  intros Hmax Hserved Hu gs.
  pose proof (served_ok runes Unix maxLen s Hmax Hserved) as (Hgames & Hstats & _ & Hledger).
  destruct (tally_ledger runes gs userId Hgames) as (Hw & Hl & Hd).
  unfold TicTacToeServer_GetUserStats.
  apply String.eqb_neq in Hu. rewrite Hu.
  destruct (Get_stats_of runes (statsStore s) userId Hstats) as (ss' & -> & _).
  run_simpl. eexists _, _. split; [done|]. simpl.
  rewrite Hledger. unfold bump_stats. simpl. fold gs. rewrite Hw, Hl, Hd.
  split; [done|]. split; [done|]. split; [done|]. split; [done|]. split; [done|].
  split; [done|]. intros Hsmall. change int32_max with 2147483647 in Hsmall.
  assert (forall n : nat, Z.of_nat n <= 2147483647 -> bump n 0 = Z.of_nat n) as Hb.
  { intros n Hn. rewrite bump_exact; [lia| |change int32_max with 2147483647; lia].
    apply is_int32_bounds. lia. }
  rewrite !Hb by lia. split; [done|]. split; [done|]. split; [done|].
  unfold UserStats_TotalGames. simpl. unfold add32.
  rewrite (wrap32_id (Z.of_nat (games_won gs userId) + Z.of_nat (games_lost gs userId)))
    by (apply is_int32_bounds; lia).
  rewrite wrap32_id by (apply is_int32_bounds; lia). lia.
Qed.

(** * The properties on concrete boards, matches and stores *)

Lemma board_x_row_inv : Board_inv board_x_row.
Proof. unfold Board_inv, len. simpl. rewrite int_max_val. lia. Qed.

Lemma visit_of_store_one : visit_of store_one visit_one.
Proof.
  unfold visit_of, store_one, visit_one. cbn [GameStore_shards].
  constructor; [unfold range_of; cbn [games]; by rewrite map_to_list_singleton|].
  constructor; [unfold range_of; cbn [games]; by rewrite map_to_list_empty|].
  constructor.
Qed.

Lemma pending_snapshots_store_one :
  pending_snapshots store_one = [Game_GetSnapshot game_pending].
Proof. vm_compute. reflexivity. Qed.

Lemma stats_at_max_ok : store_ok stats_at_max.
Proof. unfold store_ok. vm_compute. split; [reflexivity | discriminate]. Qed.

(** The first move of the match of the test suite hands the turn to O; the
    third X of the first row wins it and leaves the turn with X. *)
Lemma MakeMove_success_witness :
  (Game_Status game_started = StatusInProgress /\
   exists g',
     Game_MakeMove 2 game_started "player-1" 0 0 = Done (g', None) /\
     Game_getPlayerMark game_started "player-1" = MarkX /\
     Game_Status g' = StatusInProgress /\ Game_Turn g' = MarkO) /\
  (Game_Status game_before_win = StatusInProgress /\
   Game_MakeMove 6 game_before_win "player-1" 0 2 = Done (game_won, None) /\
   Game_Status game_won = StatusXWon /\ Game_Turn game_won = Game_Turn game_before_win).
Proof.
  split.
  - split; [reflexivity|]. eexists. split; [vm_compute; reflexivity|].
    split; [reflexivity|].
    match goal with
    | |- Game_Status ?g' = _ /\ _ =>
        destruct (MakeMove_success 2 game_started g' "player-1" 0 0 eq_refl eq_refl)
          as (_ & _ & _ & winner & Hw & _ & _ & _ & Hgo)
    end.
    assert (winner = MarkEmpty) as Hnone by (vm_compute in Hw; congruence).
    destruct (Hgo Hnone) as (Hst & HX & _).
    + rewrite <- Board_IsFull_true. vm_compute. discriminate.
    + split; [exact Hst | apply HX; reflexivity].
  - split; [reflexivity|]. split; [reflexivity|].
    destruct (MakeMove_success 6 game_before_win game_won "player-1" 0 2 eq_refl eq_refl)
      as (_ & _ & _ & winner & Hw & HX & _).
    apply HX. vm_compute in Hw. congruence.
Defined.

Lemma CheckWinner_correct_witness :
  Board_inv board_x_row /\
  mark_at board_x_row 0 2 = Some MarkX /\
  wins_through board_x_row 0 2 MarkX /\
  Board_CheckWinner board_x_row 3 0 = Done MarkEmpty.
Proof.
  split; [exact board_x_row_inv|]. split; [reflexivity|].
  destruct (CheckWinner_correct board_x_row 0 2 board_x_row_inv) as (Hiff & _).
  destruct (CheckWinner_correct board_x_row 3 0 board_x_row_inv) as (_ & _ & _ & Hout).
  split; [|apply Hout; reflexivity].
  apply (Hiff MarkX); [reflexivity | discriminate | reflexivity].
Defined.

Lemma status_only_advances_witness :
  perform game_pending (CallJoin 1 "player-2") = Done (game_started, None) /\
  history game_pending
    [ (CallJoin 1 "player-2", None);
      (CallJoin 2 "player-3", Some ErrGameAlreadyStarted) ] game_started /\
  successful_joins
    [ (CallJoin 1 "player-2", None);
      (CallJoin 2 "player-3", Some ErrGameAlreadyStarted) ] = 1%nat.
Proof.
  assert (history game_pending
            [ (CallJoin 1 "player-2", None);
              (CallJoin 2 "player-3", Some ErrGameAlreadyStarted) ] game_started) as Hh.
  { eapply history_cons; [reflexivity|]. eapply history_cons; [reflexivity|].
    apply history_nil. }
  split; [reflexivity|]. split; [exact Hh|].
  destruct status_only_advances as [_ Htrace].
  destruct (Htrace _ _ _ Hh) as (_ & _ & _ & Hone & _).
  apply Hone; [reflexivity | discriminate].
Defined.

Lemma errors_in_order_witness :
  Game_Status game_pending <> StatusInProgress /\
  Game_MakeMove 3 game_pending "player-1" 0 0 = Done (game_pending, Some ErrGameNotInProgress) /\
  Game_Status game_started <> StatusPending /\
  Game_Join 3 game_started "player-3" = (game_started, Some ErrGameAlreadyStarted).
Proof.
  destruct (errors_in_order 3 game_pending "player-1" 0 0) as (Hmove & _).
  destruct (errors_in_order 3 game_started "player-3" 0 0)
    as (_ & _ & _ & _ & _ & _ & Hjoin & _).
  split; [discriminate|]. split; [apply Hmove; discriminate|].
  split; [discriminate|]. apply Hjoin. discriminate.
Defined.

Lemma error_leaves_state_witness :
  Game_Join 3 game_started "player-3" = (game_started, Some ErrGameAlreadyStarted) /\
  Game_MakeMove 3 game_started "player-2" 0 0 = Done (game_started, Some ErrNotYourTurn) /\
  Board_Set board_x_row 0 0 MarkO = Done (board_x_row, Some ErrCellOccupied) /\
  game_started = game_started /\ board_x_row = board_x_row.
Proof.
  split; [reflexivity|]. split; [reflexivity|]. split; [reflexivity|].
  destruct (error_leaves_state 3 game_started game_started board_x_row board_x_row
              "player-3" 0 0 MarkO ErrGameAlreadyStarted) as (Hjoin & _ & _).
  destruct (error_leaves_state 3 game_started game_started board_x_row board_x_row
              "player-2" 0 0 MarkO ErrCellOccupied) as (_ & _ & Hset).
  split; [apply Hjoin | apply Hset]; reflexivity.
Defined.

Lemma occupied_cell_never_changes_witness :
  Board_Get board_x_row 0 0 = Done (MarkX, None) /\
  MarkX <> MarkEmpty /\
  Board_Set board_x_row 0 0 MarkEmpty = Done (board_x_row, Some ErrCellOccupied).
Proof.
  split; [reflexivity|]. split; [discriminate|].
  apply (occupied_cell_never_changes board_x_row 0 0 MarkX); [reflexivity | discriminate].
Defined.

Lemma NewBoard_spec_witness :
  1000 <= int_max /\ 3 <= 3 <= 3 /\ 3 * 3 <= 1000 /\
  exists b, NewBoard 1000 3 3 = Done (Some b, None) /\
    Size b = 3 /\ WinLength b = 3 /\ len (Cells b) = 3 * 3 /\
    Forall (fun m => m = MarkEmpty) (Cells b) /\ Board_inv b.
Proof.
  assert (1000 <= int_max) as Hmax by (rewrite int_max_val; lia).
  split; [exact Hmax|]. split; [lia|]. split; [lia|].
  apply (NewBoard_spec 1000 3 3 Hmax); lia.
Defined.

(** ListPending with [limit = 0] on a store that holds one pending match:
    the page holds that match, where offset and then limit applied to the
    collection leave nothing. *)
Lemma ListPending_limit_zero :
  GameStore_ListPending store_one 0 0 (Done ([Game_GetSnapshot game_pending], 1)) /\
  page_of [Game_GetSnapshot game_pending] 0 0 = [] /\
  ~ (forall res, GameStore_ListPending store_one 0 0 res ->
       exists all, all ≡ₚ pending_snapshots store_one /\
         res = Done (page_of all 0 0, len (pending_snapshots store_one))).
Proof.
  assert (GameStore_ListPending store_one 0 0 (Done ([Game_GetSnapshot game_pending], 1)))
    as Hcall.
  { exists visit_one. split; [exact visit_of_store_one | reflexivity]. }
  split; [exact Hcall|]. split; [reflexivity|].
  intros Hclaim. destruct (Hclaim _ Hcall) as (all & _ & Heq).
  unfold page_of in Heq. simpl in Heq. discriminate Heq.
Qed.

Lemma ListPending_spec_witness :
  0 <= 1 /\
  (exists res, GameStore_ListPending store_one 5 1 res) /\
  (forall res, GameStore_ListPending store_one 5 1 res ->
     res = Done ([], len (pending_snapshots store_one))).
Proof.
  split; [lia|].
  destruct (ListPending_spec store_one 5 1 ltac:(lia)) as [Hex Hall].
  split; [exact Hex|]. intros res Hres.
  destruct (Hall res Hres) as (all & _ & _ & Hbeyond).
  apply Hbeyond. rewrite pending_snapshots_store_one. unfold len. simpl. lia.
Defined.

Lemma ListPending_negative_offset_witness :
  GameStore_ListPending store_one 10 (-1) Panic /\
  (forall res, GameStore_ListPending store_one 10 (-1) res -> res = Panic) /\
  (forall res, GameStore_ListPending store_one 10 0 res ->
     exists page total, res = Done (page, total)).
Proof.
  assert (GameStore_ListPending store_one 10 (-1) Panic) as Hcall.
  { exists visit_one. split; [exact visit_of_store_one | reflexivity]. }
  split; [exact Hcall|]. split.
  { intros res Hres.
    destruct (ListPending_negative_offset store_one 10 (-1)) as [_ Hall].
    apply (Hall res Hres). lia. }
  intros res Hres.
  destruct (ListPending_negative_offset store_one 10 0) as [_ Hall].
  apply (Hall res Hres). lia.
Defined.

(** RecordWin on a user whose wins are at 2147483647: Get then reports
    -2147483648 wins, not 2147483648. *)
Lemma RecordWin_wraps :
  reports byte_runes stats_at_max "u" (2147483647, 0, 0) /\
  exists s',
    StatsStore_RecordWin byte_runes stats_at_max "u" = Done s' /\
    reports byte_runes s' "u" (-2147483648, 0, 0) /\
    ~ reports byte_runes s' "u" (2147483647 + 1, 0, 0).
Proof.
  split; [eexists; vm_compute; reflexivity|].
  eexists. split; [reflexivity|]. split; [eexists; vm_compute; reflexivity|].
  intros [s'' Hget]. vm_compute in Hget. discriminate Hget.
Qed.

Lemma RecordGameResult_counters_witness :
  store_ok stats_at_max /\
  exists s',
    StatsStore_RecordGameResult byte_runes stats_at_max "u" "v" true = Done s' /\
    reports byte_runes s' "u" (2147483647, 0, 1) /\
    reports byte_runes s' "v" (0, 0, 1) /\
    reports byte_runes s' "w" (0, 0, 0).
Proof.
  split; [exact stats_at_max_ok|].
  destruct (RecordGameResult_counters byte_runes stats_at_max stats_at_max_ok)
    as (_ & _ & _ & _ & Hres & _).
  destruct (Hres "u" "v" true) as (s' & Hrun & _ & Hrep).
  exists s'. split; [exact Hrun|].
  split; [|split].
  - apply (Hrep "u" 2147483647 0 0). eexists. vm_compute. reflexivity.
  - apply (Hrep "v" 0 0 0). eexists. vm_compute. reflexivity.
  - apply (Hrep "w" 0 0 0). eexists. vm_compute. reflexivity.
Defined.

(** ** The scenarios of the test suite *)

(** TestGame_MakeMove_WinCondition: X completes the first row. *)
Example fixture_x_wins :
  exists g0 g,
    NewGame 1000 0 "game-1" "player-1" 3 3 = Done (Some g0, None) /\
    perform_all g0
      [ CallJoin 1 "player-2";
        CallMakeMove 2 "player-1" 0 0; CallMakeMove 3 "player-2" 1 0;
        CallMakeMove 4 "player-1" 0 1; CallMakeMove 5 "player-2" 1 1;
        CallMakeMove 6 "player-1" 0 2 ]
    = Done (g, [None; None; None; None; None; None]) /\
    Game_Status g = StatusXWon /\ Game_Board g = board_x_row.
Proof.
  eexists. eexists. split; [reflexivity|]. split; [vm_compute; reflexivity|].
  split; reflexivity.
Qed.

(** TestGame_MakeMove_DrawCondition: nine moves fill the board, no line. *)
Example fixture_draw :
  exists g,
    perform_all game_started
      [ CallMakeMove 2 "player-1" 0 0; CallMakeMove 2 "player-2" 0 1;
        CallMakeMove 2 "player-1" 0 2; CallMakeMove 2 "player-2" 1 2;
        CallMakeMove 2 "player-1" 1 0; CallMakeMove 2 "player-2" 2 0;
        CallMakeMove 2 "player-1" 1 1; CallMakeMove 2 "player-2" 2 2;
        CallMakeMove 2 "player-1" 2 1 ]
    = Done (g, [None; None; None; None; None; None; None; None; None]) /\
    Game_Status g = StatusDraw /\
    perform g (CallMakeMove 3 "player-2" 0 0) = Done (g, Some ErrGameNotInProgress).
Proof.
  eexists. split; [vm_compute; reflexivity|]. split; reflexivity.
Qed.

(** TestGameStore_ListPending: four pending matches and one in progress;
    [ListPending(2, 3)] returns one match and the total 4. *)
Example fixture_list_pending :
  let a := game_pending in
  let c := game_started in
  ListPending_visit [ [("a", a); ("b", a)]; [("c", c)]; [("d", a)]; [("e", a)] ] 2 3
  = Done ([Game_GetSnapshot a], 4) /\
  ListPending_visit [ [("a", a); ("b", a)]; [("c", c)]; [("d", a)]; [("e", a)] ] 2 0
  = Done ([Game_GetSnapshot a; Game_GetSnapshot a], 4).
Proof. split; reflexivity. Qed.

(** TestStatsStore_RecordGameResult: a win and a loss on a fresh store of
    four shards. *)
Example fixture_record_game_result :
  exists s s',
    NewStatsStore 1000 4 = Done s /\
    StatsStore_RecordGameResult byte_runes s "winner" "loser" false = Done s' /\
    reports byte_runes s' "winner" (1, 0, 0) /\
    reports byte_runes s' "loser" (0, 1, 0).
Proof.
  eexists. eexists. split; [reflexivity|]. split; [vm_compute; reflexivity|].
  split; eexists; vm_compute; reflexivity.
Qed.

(** ** A played match, a server and its streams *)

Lemma board_empty_inv : Board_inv board_empty.
Proof. unfold Board_inv. rewrite int_max_val. simpl. unfold len. simpl. lia. Qed.

Lemma perform_all_reachable (calls : list Call) :
  forall g g' es, reachable g -> perform_all g calls = Done (g', es) -> reachable g'.
Proof.
  induction calls as [|c calls IH]; intros g g' es Hr; simpl.
  - by intros [= <- _].
  - destruct (perform g c) as [[g1 e]| |] eqn:Hc; try done. run_simpl.
    destruct (perform_all g1 calls) as [[g2 es']| |] eqn:Hrest; try done. run_simpl.
    intros [= <- _]. apply (IH g1 g2 es'); [|done]. by apply (reachable_call g g1 c e).
Qed.

Lemma game_pending_reachable : reachable game_pending.
Proof.
  apply (reachable_new 1000 0 "game-1" "player-1" 3 3); [rewrite int_max_val; lia|lia|].
  reflexivity.
Qed.

Lemma game_started_reachable : reachable game_started.
Proof.
  apply (reachable_call game_pending _ (CallJoin 1 "player-2") None);
    [exact game_pending_reachable | reflexivity].
Qed.

Lemma game_won_reachable : reachable game_won.
Proof.
  apply (perform_all_reachable
           [ CallMakeMove 2 "player-1" 0 0; CallMakeMove 3 "player-2" 1 0;
             CallMakeMove 4 "player-1" 0 1; CallMakeMove 5 "player-2" 1 1;
             CallMakeMove 6 "player-1" 0 2 ]
           game_started game_won [None; None; None; None; None]);
    [exact game_started_reachable | vm_compute; reflexivity].
Qed.

Lemma store_empty_ok : gstore_ok store_empty.
Proof. unfold gstore_ok. vm_compute. split; [reflexivity | discriminate]. Qed.

Lemma store_one_ok : gstore_ok store_one.
Proof. unfold gstore_ok. vm_compute. split; [reflexivity | discriminate]. Qed.

Lemma stats_empty_ok : store_ok stats_empty.
Proof. unfold store_ok. vm_compute. split; [reflexivity | discriminate]. Qed.

Lemma maxLen_1000 : 400 <= 1000 <= int_max.
Proof. rewrite int_max_val. lia. Qed.

Lemma server_new_served : served byte_runes unix_seconds 1000 server_new.
Proof.
  apply (served_new byte_runes unix_seconds 1000 store_empty stats_empty 2 1);
    [reflexivity | reflexivity | exact store_empty_ok | exact stats_empty_ok].
Qed.

Lemma server_new_ok : server_ok byte_runes server_new.
Proof. exact (served_ok byte_runes unix_seconds 1000 _ maxLen_1000 server_new_served). Qed.

Lemma server_streaming_ok : fanout_ok server_streaming.
Proof.
  apply fanout_ok_subscribe; [|reflexivity].
  destruct server_new_ok as (_ & _ & H & _). exact H.
Qed.

Lemma opening_served (s : TicTacToeServer) :
  opening server_new = Done s -> served byte_runes unix_seconds 1000 s.
Proof.
  unfold opening. pose proof server_new_served as H0.
  next_request. apply (served_CreateGame _ _ _ _ _ _ _ _ _ _ _ H0) in Hcall.
  next_request. apply (served_stream_enters _ _ _ _ _ _ _ Hcall) in Hcall0.
  next_request. apply (served_JoinGame _ _ _ _ _ _ _ _ _ Hcall0) in Hcall1.
  next_request. apply (served_MakeMove _ _ _ _ _ _ _ _ _ _ _ Hcall1) in Hcall2.
  next_request. apply (served_MakeMove _ _ _ _ _ _ _ _ _ _ _ Hcall2) in Hcall3.
  next_request. apply (served_MakeMove _ _ _ _ _ _ _ _ _ _ _ Hcall3) in Hcall4.
  next_request. apply (served_MakeMove _ _ _ _ _ _ _ _ _ _ _ Hcall4) in Hcall5.
  unfold mbind, run_bind; cbv beta iota. by intros [= <-].
Qed.

Lemma play_served (s : TicTacToeServer) :
  play server_new = Done s -> served byte_runes unix_seconds 1000 s.
Proof.
  unfold play. destruct (opening server_new) as [s0| |] eqn:Ho; [|done|done].
  apply opening_served in Ho.
  next_request. apply (served_MakeMove _ _ _ _ _ _ _ _ _ _ _ Ho) in Hcall.
  unfold mbind, run_bind; cbv beta iota. by intros [= <-].
Qed.

Lemma play_returns : exists s, play server_new = Done s.
Proof. vm_compute. by eexists. Qed.

Lemma Set_then_Get_witness :
  exists b', Board_Set board_empty 0 0 MarkX = Done (b', None) /\
    Board_Get b' 0 0 = Done (MarkX, None) /\
    Board_Get b' 1 1 = Board_Get board_empty 1 1.
Proof.
  eexists. split; [reflexivity|].
  destruct (Set_then_Get board_empty _ 0 0 MarkX board_empty_inv eq_refl)
    as (_ & _ & _ & _ & Hget & Hother).
  split; [exact Hget|]. apply Hother. discriminate.
Defined.

Lemma IsFull_every_cell_witness :
  Board_inv board_empty /\
  exists row col, Board_Get board_empty row col = Done (MarkEmpty, None).
Proof.
  split; [exact board_empty_inv|].
  destruct (IsFull_every_cell board_empty board_empty_inv) as [_ Hfalse].
  apply Hfalse. reflexivity.
Defined.

Lemma finished_status_justified_witness :
  reachable game_won /\ exists row col, wins_through (Game_Board game_won) row col MarkX.
Proof.
  split; [exact game_won_reachable|].
  destruct (finished_status_justified game_won game_won_reachable) as (HX & _).
  apply HX. reflexivity.
Defined.

Lemma no_line_goes_unnoticed_witness :
  reachable game_before_win /\ Board_IsFull (Game_Board game_before_win) = false /\
  ~ wins_through (Game_Board game_before_win) 0 1 MarkX.
Proof.
  assert (reachable game_before_win) as Hr.
  { apply (perform_all_reachable
             [ CallMakeMove 2 "player-1" 0 0; CallMakeMove 3 "player-2" 1 0;
               CallMakeMove 4 "player-1" 0 1; CallMakeMove 5 "player-2" 1 1 ]
             game_started game_before_win [None; None; None; None]);
      [exact game_started_reachable | vm_compute; reflexivity]. }
  split; [exact Hr|].
  destruct (no_line_goes_unnoticed game_before_win Hr eq_refl) as [Hno Hroom].
  split; [exact Hroom|]. apply Hno. discriminate.
Defined.

Lemma marks_balanced_witness :
  reachable game_won /\
  count_mark MarkX (Cells (Game_Board game_won))
  = S (count_mark MarkO (Cells (Game_Board game_won))).
Proof.
  split; [exact game_won_reachable|].
  destruct (marks_balanced game_won game_won_reachable) as (_ & _ & _ & Hfin).
  apply Hfin; reflexivity.
Defined.

Lemma players_distinct_witness :
  reachable game_started /\
  Game_PlayerX game_started <> Game_PlayerO game_started /\
  Game_GetPlayerMark game_started (player_to_move game_started) = MarkX.
Proof.
  split; [exact game_started_reachable|].
  destruct (players_distinct game_started game_started_reachable) as [_ Hplay].
  destruct Hplay as (Hne & _ & _ & Hmove); [discriminate|].
  split; [exact Hne | exact Hmove].
Defined.

Lemma no_second_move_in_a_row_witness :
  exists g', Game_MakeMove 2 game_started "player-1" 0 0 = Done (g', None) /\
    Game_Status g' = StatusInProgress /\
    Game_MakeMove 3 g' "player-1" 1 1 = Done (g', Some ErrNotYourTurn).
Proof.
  eexists. split; [reflexivity|]. split; [reflexivity|].
  exact (no_second_move_in_a_row 2 3 game_started _ "player-1" 0 0 1 1 eq_refl eq_refl).
Defined.

Lemma never_stuck_witness :
  reachable game_started /\
  exists g', Game_MakeMove 2 game_started "player-1" 1 1 = Done (g', None) /\
    Board_Get (Game_Board g') 1 1 = Done (MarkX, None).
Proof.
  split; [exact game_started_reachable|].
  destruct (never_stuck game_started game_started_reachable eq_refl) as [_ Hmove].
  exact (Hmove 1 1 2 eq_refl).
Defined.

Lemma NewGame_spec_witness :
  1000 <= int_max /\
  NewGame 1000 0 "game-1" "player-1" 2 2 = Done (None, Some ErrInvalidBoardSize) /\
  NewGame 1000 0 "game-1" "player-1" 3 4 = Done (None, Some ErrInvalidWinLength) /\
  exists g, NewGame 1000 0 "game-1" "player-1" 3 3 = Done (Some g, None) /\ reachable g.
Proof.
  assert (1000 <= int_max) as Hmax by (rewrite int_max_val; lia).
  split; [exact Hmax|].
  destruct (NewGame_spec 1000 0 "game-1" "player-1" 2 2 Hmax) as (Hsize & _).
  destruct (NewGame_spec 1000 0 "game-1" "player-1" 3 4 Hmax) as (_ & Hwin & _).
  destruct (NewGame_spec 1000 0 "game-1" "player-1" 3 3 Hmax) as (_ & _ & Hok & _).
  split; [apply Hsize; lia|]. split; [apply Hwin; lia|].
  destruct Hok as (g & Hg & Hrest); [lia|lia|].
  exists g. split; [exact Hg|]. apply Hrest.
Defined.

Lemma snapshot_winner_has_line_witness :
  reachable game_won /\
  GameSnapshot_GetWinner (Game_GetSnapshot game_won)
  <> GameSnapshot_GetLoser (Game_GetSnapshot game_won) /\
  exists row col, wins_through (Snapshot_Board (Game_GetSnapshot game_won)) row col
                    (Game_GetPlayerMark game_won
                       (GameSnapshot_GetWinner (Game_GetSnapshot game_won))).
Proof.
  split; [exact game_won_reachable|].
  destruct (snapshot_winner_has_line game_won game_won_reachable) as (_ & Hwon & _).
  destruct Hwon as (Hne & Hline & _); [by left|].
  split; [exact Hne | exact Hline].
Defined.

Lemma Create_then_Get_witness :
  gstore_ok store_empty /\
  GameStore_Get byte_runes store_empty "game-1" = Done (None, Some ErrGameNotFound) /\
  exists s', GameStore_Create byte_runes store_empty game_pending = Done (s', None) /\
    GameStore_Get byte_runes s' "game-1" = Done (Some game_pending, None).
Proof.
  split; [exact store_empty_ok|]. split; [reflexivity|].
  destruct (Create_then_Get byte_runes store_empty game_pending store_empty_ok)
    as [[[g0 Hg0] _]|(_ & s' & Hcreate & _ & _ & _ & Hget & _)].
  - vm_compute in Hg0. discriminate.
  - exists s'. split; [exact Hcreate | exact Hget].
Defined.

Lemma Delete_then_Get_witness :
  gstore_ok store_one /\
  GameStore_Get byte_runes store_one "game-1" = Done (Some game_pending, None) /\
  exists s', GameStore_Delete byte_runes store_one "game-1" = Done (s', None) /\
    GameStore_Get byte_runes s' "game-1" = Done (None, Some ErrGameNotFound).
Proof.
  split; [exact store_one_ok|]. split; [vm_compute; reflexivity|].
  destruct (Delete_then_Get byte_runes store_one "game-1" store_one_ok)
    as [[Hnone _]|(_ & s' & Hdel & _ & _ & _ & Hget & _)].
  - vm_compute in Hnone. discriminate.
  - exists s'. split; [exact Hdel | exact Hget].
Defined.

Lemma Create_then_Delete_witness :
  gstore_ok store_empty /\
  GameStore_Create byte_runes store_empty game_pending = Done (store_one, None) /\
  GameStore_Delete byte_runes store_one "game-1" = Done (store_empty, None).
Proof.
  split; [exact store_empty_ok|].
  assert (GameStore_Create byte_runes store_empty game_pending = Done (store_one, None))
    as Hcreate by (vm_compute; reflexivity).
  split; [exact Hcreate|].
  exact (Create_then_Delete byte_runes store_empty store_one game_pending
           store_empty_ok Hcreate).
Defined.

Lemma Count_tracks_Create_and_Delete_witness :
  gstore_ok store_empty /\ Z.of_nat (stored_games store_empty) < int_max /\
  GameStore_Count store_empty = 0 /\
  GameStore_Create byte_runes store_empty game_pending = Done (store_one, None) /\
  GameStore_Count store_one = GameStore_Count store_empty + 1.
Proof.
  assert (Z.of_nat (stored_games store_empty) < int_max) as Hsmall
    by (vm_compute; reflexivity).
  assert (GameStore_Create byte_runes store_empty game_pending = Done (store_one, None))
    as Hcreate by (vm_compute; reflexivity).
  split; [exact store_empty_ok|]. split; [exact Hsmall|]. split; [reflexivity|].
  split; [exact Hcreate|].
  destruct (Count_tracks_Create_and_Delete byte_runes store_empty store_empty_ok Hsmall)
    as (_ & Hc & _).
  exact (Hc game_pending store_one Hcreate).
Defined.

Lemma NewGameStore_empty_witness :
  exists s, NewGameStore 1000 0 = Done s /\ GameStore_numShards s = 64 /\
    GameStore_Count s = 0 /\
    GameStore_Get byte_runes s "game-1" = Done (None, Some ErrGameNotFound).
Proof.
  assert ((if 0 <? 1 then 64 else 0) <= 1000) as Hfit by (vm_compute; discriminate).
  destruct (NewGameStore_empty byte_runes 1000 0 Hfit)
    as (s & Hnew & Hn & _ & Hcount & _ & Hget & _).
  exists s. split; [exact Hnew|]. split; [exact Hn|]. split; [exact Hcount|].
  exact (Hget "game-1").
Defined.

Lemma listing_follows_Create_and_Delete_witness :
  gstore_ok store_empty /\
  GameStore_Create byte_runes store_empty game_pending = Done (store_one, None) /\
  forall res', GameStore_ListPending store_one 0 0 res' ->
    exists page', res' = Done (page', 1) /\ page' ≡ₚ [Game_GetSnapshot game_pending].
Proof.
  assert (GameStore_Create byte_runes store_empty game_pending = Done (store_one, None))
    as Hcreate by (vm_compute; reflexivity).
  split; [exact store_empty_ok|]. split; [exact Hcreate|]. intros res' Hres'.
  destruct (listing_follows_Create_and_Delete byte_runes store_empty store_empty_ok)
    as [Hc _].
  assert (GameStore_ListPending store_empty 0 0 (Done ([], 0))) as Hres.
  { exists [[]; []]. split; [|reflexivity].
    repeat constructor; unfold range_of; cbn [games]; by rewrite map_to_list_empty. }
  destruct (Hc game_pending store_one _ res' Hcreate Hres Hres')
    as (page & page' & Hp & -> & Hperm & Hlen).
  injection Hp as <-. exists page'. split; [|exact Hperm].
  f_equal. f_equal. rewrite Hlen. reflexivity.
Defined.

Lemma Get_stores_at_most_a_zero_record_witness :
  store_ok stats_at_max /\
  exists s', StatsStore_Get byte_runes stats_at_max "v" = Done (s', zero_stats "v") /\
    StatsStore_Get byte_runes s' "v" = Done (s', zero_stats "v") /\
    reports byte_runes s' "u" (2147483647, 0, 0).
Proof.
  split; [exact stats_at_max_ok|].
  destruct (Get_stores_at_most_a_zero_record byte_runes stats_at_max "v" stats_at_max_ok)
    as (s' & st & Hget & _ & Hok' & Hsame & _ & Hnew & Hagain).
  destruct Hnew as [-> _]; [vm_compute; reflexivity|].
  exists s'. split; [exact Hget|]. split; [exact Hagain|].
  apply Hsame. apply reports_stats_of; [exact stats_at_max_ok|]. vm_compute. reflexivity.
Defined.

Lemma NewStatsStore_starts_at_zero_witness :
  exists s, NewStatsStore 1000 0 = Done s /\ store_ok s /\
    exists s', StatsStore_Get byte_runes s "u" = Done (s', zero_stats "u").
Proof.
  assert ((if 0 <? 1 then 64 else 0) <= 1000) as Hfit by (vm_compute; discriminate).
  destruct (NewStatsStore_starts_at_zero byte_runes 1000 0 Hfit)
    as (s & Hnew & _ & _ & Hgood & _).
  destruct Hgood as [Hok Hzero]; [vm_compute; discriminate|].
  exists s. split; [exact Hnew|]. split; [exact Hok|].
  destruct (Hzero "u") as (s' & Hget & _). exists s'. exact Hget.
Defined.

Lemma records_add_up_witness :
  store_ok stats_empty /\
  exists s', record_all byte_runes stats_empty
               [(Won, "u"); (Lost, "v"); (Won, "u"); (Drawn, "u")] = Done s' /\
    reports byte_runes s' "u" (2, 0, 1) /\ reports byte_runes s' "v" (0, 1, 0).
Proof.
  split; [exact stats_empty_ok|].
  destruct (records_add_up byte_runes stats_empty
              [(Won, "u"); (Lost, "v"); (Won, "u"); (Drawn, "u")] stats_empty_ok)
    as (s' & Hrun & _ & Hcount & _).
  exists s'. split; [exact Hrun|].
  assert (reports byte_runes stats_empty "u" (0, 0, 0)) as Hu0.
  { apply reports_stats_of; [exact stats_empty_ok|]. vm_compute. reflexivity. }
  assert (reports byte_runes stats_empty "v" (0, 0, 0)) as Hv0.
  { apply reports_stats_of; [exact stats_empty_ok|]. vm_compute. reflexivity. }
  split.
  - destruct (Hcount "u" 0 0 0 Hu0) as [Hu _]. exact Hu.
  - destruct (Hcount "v" 0 0 0 Hv0) as [Hv _]. exact Hv.
Defined.

Lemma server_new_fanout_ok : fanout_ok server_new.
Proof. destruct server_new_ok as (_ & _ & H & _). exact H. Qed.

Lemma subscribe_fresh_channel_witness :
  fanout_ok server_new /\ channels server_new !! 0%nat = None /\
  fanout_ok server_streaming /\
  subscribers_of server_streaming "game-1" = {[0%nat]} ∪ subscribers_of server_new "game-1" /\
  exists s3, TicTacToeServer_unsubscribe server_streaming "game-1" 0%nat = Done s3 /\
    subscribers s3 = subscribers server_new.
Proof.
  split; [exact server_new_fanout_ok|]. split; [reflexivity|].
  destruct (subscribe_fresh_channel server_new "game-1" 0%nat server_new_fanout_ok eq_refl)
    as (Hok & Hsubs & _ & _ & s3 & Hun & Hsame & _).
  split; [exact Hok|]. split.
  - pose proof (Hsubs "game-1") as H. rewrite decide_True in H by reflexivity. exact H.
  - exists s3. split; [exact Hun | exact Hsame].
Defined.

Lemma server_streaming_subscribed : 0%nat ∈ subscribers_of server_streaming "game-1".
Proof.
  unfold server_streaming. rewrite subscribers_of_subscribe, decide_True by reflexivity.
  apply elem_of_union_l. by apply elem_of_singleton.
Qed.

Lemma unsubscribe_removes_then_closes_witness :
  fanout_ok server_streaming /\ 0%nat ∈ subscribers_of server_streaming "game-1" /\
  exists s', TicTacToeServer_unsubscribe server_streaming "game-1" 0%nat = Done s' /\
    closed_at (channels s') 0%nat = true /\
    TicTacToeServer_unsubscribe s' "game-1" 0%nat = Panic.
Proof.
  split; [exact server_streaming_ok|]. split; [exact server_streaming_subscribed|].
  destruct (unsubscribe_removes_then_closes server_streaming "game-1" 0%nat
              server_streaming_ok server_streaming_subscribed)
    as (s' & Hun & _ & _ & _ & _ & _ & Hclosed & _ & _ & Hagain).
  exists s'. split; [exact Hun|]. split; [exact Hclosed | exact Hagain].
Defined.

Lemma gameToProto_carries_the_match_witness :
  Board_inv (Game_Board game_won) /\ Size (Game_Board game_won) <= int32_max /\
  pb_Status (gameToProto unix_seconds (Game_GetSnapshot game_won))
  = GameStatus_GAME_STATUS_X_WON /\
  pb_Board (gameToProto unix_seconds (Game_GetSnapshot game_won)) !! 2%nat
  = Some Mark_MARK_X.
Proof.
  assert (Size (Game_Board game_won) <= int32_max) as Hsmall by (vm_compute; discriminate).
  split; [exact board_x_row_inv|]. split; [exact Hsmall|].
  destruct (gameToProto_carries_the_match unix_seconds game_won board_x_row_inv Hsmall)
    as (_ & _ & _ & _ & _ & _ & Hcell & _ & _ & Hstatus & _).
  split; [exact Hstatus|].
  destruct (Hcell 0 2 eq_refl) as (m & Hget & Hboard).
  injection Hget as <-. exact Hboard.
Defined.

Lemma CreateGame_answers_witness :
  400 <= 1000 <= int_max /\ server_ok byte_runes server_new /\
  TicTacToeServer_CreateGame byte_runes unix_seconds 1000 0 "game-1" server_new
    "player-1" 2 0 = Done (server_new, (None, Some InvalidArgument)) /\
  exists s',
    TicTacToeServer_CreateGame byte_runes unix_seconds 1000 0 "game-1" server_new
      "player-1" 0 0
    = Done (s', (Some (gameToProto unix_seconds (Game_GetSnapshot game_pending)), None)) /\
    GameStore_Get byte_runes (gameStore s') "game-1" = Done (Some game_pending, None).
Proof.
  split; [exact maxLen_1000|]. split; [exact server_new_ok|].
  destruct (CreateGame_answers byte_runes unix_seconds 1000 0 "game-1" server_new
              "player-1" 2 0 maxLen_1000 server_new_ok) as (Hbad & _).
  destruct (CreateGame_answers byte_runes unix_seconds 1000 0 "game-1" server_new
              "player-1" 0 0 maxLen_1000 server_new_ok) as (_ & _ & Hgood).
  split.
  - apply Hbad. intros (_ & Hsize & _). vm_compute in Hsize. destruct Hsize as [Hsize _].
    apply Hsize. reflexivity.
  - destruct Hgood as (s' & Hcall & _ & Hget & _).
    + split; [discriminate|]. vm_compute. repeat split; discriminate.
    + reflexivity.
    + exists s'. split; [exact Hcall | exact Hget].
Defined.

Lemma JoinGame_answers_witness :
  exists s1 r1,
    TicTacToeServer_CreateGame byte_runes unix_seconds 1000 0 "game-1" server_new
      "player-1" 0 0 = Done (s1, r1) /\
    server_ok byte_runes s1 /\
    TicTacToeServer_JoinGame byte_runes unix_seconds 1 s1 "player-1" "game-1"
    = Done (s1, (None, Some InvalidArgument)) /\
    exists s2,
      TicTacToeServer_JoinGame byte_runes unix_seconds 1 s1 "player-2" "game-1"
      = Done (s2, (Some (gameToProto unix_seconds (Game_GetSnapshot game_started)), None)) /\
      GameStore_Get byte_runes (gameStore s2) "game-1" = Done (Some game_started, None).
Proof.
  destruct (TicTacToeServer_CreateGame byte_runes unix_seconds 1000 0 "game-1" server_new
              "player-1" 0 0) as [[s1 r1]| |] eqn:Hcreate;
    [|vm_compute in Hcreate; discriminate|vm_compute in Hcreate; discriminate].
  exists s1, r1. split; [reflexivity|].
  assert (server_ok byte_runes s1) as Hok.
  { apply (served_ok byte_runes unix_seconds 1000 _ maxLen_1000).
    exact (served_CreateGame _ _ _ _ _ _ _ _ _ _ _ server_new_served Hcreate). }
  split; [exact Hok|].
  assert (GameStore_Get byte_runes (gameStore s1) "game-1"
          = Done (Some game_pending, None)) as Hget.
  { vm_compute in Hcreate. injection Hcreate as <- _. vm_compute. reflexivity. }
  destruct (JoinGame_answers byte_runes unix_seconds 1 s1 "player-1" "game-1" Hok)
    as (_ & Hown).
  destruct (Hown ltac:(discriminate) ltac:(discriminate)) as (_ & Hown').
  destruct (Hown' game_pending Hget) as (_ & Hself & _).
  destruct (JoinGame_answers byte_runes unix_seconds 1 s1 "player-2" "game-1" Hok)
    as (_ & Hother).
  destruct (Hother ltac:(discriminate) ltac:(discriminate)) as (_ & Hother').
  destruct (Hother' game_pending Hget) as (_ & _ & Hjoin).
  split; [apply Hself; reflexivity|].
  destruct (Hjoin eq_refl ltac:(discriminate)) as (s2 & Hcall & _ & Hget2 & _).
  exists s2. split; [exact Hcall | exact Hget2].
Defined.

Lemma MakeMove_answers_witness :
  exists s, opening server_new = Done s /\ server_ok byte_runes s /\
    GameStore_Get byte_runes (gameStore s) "game-1" = Done (Some game_before_win, None) /\
    exists s',
      TicTacToeServer_MakeMove byte_runes unix_seconds 6 s "player-1" "game-1" 0 2
      = Done (s', (Some (gameToProto unix_seconds (Game_GetSnapshot game_won)), None)) /\
      GameStore_Get byte_runes (gameStore s') "game-1" = Done (Some game_won, None) /\
      reports byte_runes (statsStore s') "player-1" (1, 0, 0) /\
      reports byte_runes (statsStore s') "player-2" (0, 1, 0).
Proof.
  destruct (opening server_new) as [s| |] eqn:Ho;
    [|vm_compute in Ho; discriminate|vm_compute in Ho; discriminate].
  exists s. split; [reflexivity|].
  assert (server_ok byte_runes s) as Hok.
  { apply (served_ok byte_runes unix_seconds 1000 _ maxLen_1000).
    exact (opening_served s Ho). }
  assert (GameStore_Get byte_runes (gameStore s) "game-1"
          = Done (Some game_before_win, None) /\
          reports byte_runes (statsStore s) "player-1" (0, 0, 0) /\
          reports byte_runes (statsStore s) "player-2" (0, 0, 0)) as (Hget & H1 & H2).
  { pose proof Hok as (_ & Hstats & _).
    split; [|split; (apply reports_stats_of; [exact Hstats|])];
      vm_compute in Ho; injection Ho as <-; vm_compute; reflexivity. }
  split; [exact Hok|]. split; [exact Hget|].
  destruct (MakeMove_answers byte_runes unix_seconds 6 s "player-1" "game-1" 0 2 Hok)
    as (_ & Hcall).
  destruct (Hcall ltac:(discriminate) ltac:(discriminate)) as (_ & Hfound).
  destruct (Hfound game_before_win Hget) as (g' & e & Hmove & Hrest).
  change (Game_MakeMove 6 game_before_win "player-1" 0 2) with (Done (game_won, @None error))
    in Hmove.
  injection Hmove as <- <-.
  destruct Hrest as (s' & Hdone & _ & Hget' & _ & _ & _ & _ & Hfinished).
  destruct (Hfinished eq_refl) as (_ & _ & Hreports).
  exists s'. split; [exact Hdone|]. split; [exact Hget'|].
  split; [exact (Hreports "player-1" 0 0 0 H1) | exact (Hreports "player-2" 0 0 0 H2)].
Defined.

Lemma served_requests_return_witness :
  400 <= 1000 <= int_max /\
  exists s, play server_new = Done s /\ served byte_runes unix_seconds 1000 s /\
    (exists s' r,
       TicTacToeServer_MakeMove byte_runes unix_seconds 7 s "player-2" "game-1" 2 2
       = Done (s', r)) /\
    exists r, TicTacToeServer_GetGame byte_runes unix_seconds s "game-1" = Done r.
Proof.
  split; [exact maxLen_1000|].
  destruct play_returns as [s Hplay]. exists s. split; [exact Hplay|].
  pose proof (play_served s Hplay) as Hserved. split; [exact Hserved|].
  destruct (served_requests_return byte_runes unix_seconds 1000 s maxLen_1000 Hserved)
    as (_ & _ & _ & Hmove & Hget & _).
  split; [exact (Hmove 7 "player-2" "game-1" 2 2) | exact (Hget "game-1")].
Defined.

Lemma stats_count_finished_games_witness :
  exists s s' resp, play server_new = Done s /\
    TicTacToeServer_GetUserStats byte_runes s "player-1" = Done (s', (Some resp, None)) /\
    games_won (gameStore s) "player-1" = 1%nat /\
    Resp_Wins resp = 1 /\ Resp_Losses resp = 0 /\ Resp_Draws resp = 0 /\
    Resp_TotalGames resp = 1.
Proof.
  destruct (play server_new) as [s| |] eqn:Hplay;
    [|vm_compute in Hplay; discriminate|vm_compute in Hplay; discriminate].
  pose proof (play_served s Hplay) as Hserved.
  destruct (stats_count_finished_games byte_runes unix_seconds 1000 s "player-1"
              maxLen_1000 Hserved ltac:(discriminate))
    as (s' & resp & Hget & _ & _ & _ & _ & _ & _ & Hexact).
  assert (games_won (gameStore s) "player-1" = 1%nat /\
          games_lost (gameStore s) "player-1" = 0%nat /\
          games_drawn (gameStore s) "player-1" = 0%nat) as (Hw & Hl & Hd).
  { vm_compute in Hplay. injection Hplay as <-. vm_compute. done. }
  rewrite Hw, Hl, Hd in Hexact.
  destruct Hexact as (HW & HL & HD & HT); [vm_compute; discriminate|].
  exists s, s', resp. split; [reflexivity|]. split; [exact Hget|].
  split; [exact Hw|]. split; [exact HW|]. split; [exact HL|]. split; [exact HD|].
  exact HT.
Defined.
